(** * rule_engine/parser.py: the lexer, the grammar and the reductions

    A shallow embedding of [src/lib/rule_engine/parser.py].  The file defines
    the [Parser] class of the rule engine on top of the PLY library: token
    patterns ([t_*] attributes), a precedence table, and one reduction
    function per group of grammar productions ([p_*] methods) that builds a
    tree of deferred AST nodes.

    The embedding follows the layers of the program:
    - [Re]: the regular expressions of the token rules and a backtracking
      matcher with the semantics of Python's [re] for the constructs used;
    - [Lex]: the class namespace of [t_*] attributes, the rule order PLY
      derives from it, and PLY's [token()] loop;
    - [Grammar]: the productions read from the [p_*] docstrings and the
      precedence table;
    - [LALR]: PLY's table construction (LR(0) items, LALR(1) lookaheads,
      conflicts settled by precedence) and its shift-reduce driver;
    - [Actions]: the bodies of the [p_*] methods;
    - [Parser]: [ParserBase.parse], phase one.

    Text is modelled as [string] over the code points 0..255; token kinds and
    grammar symbols are strings, as in the source. *)

From Stdlib Require Import String Ascii List NArith ZArith Bool Arith Lia.
Import ListNotations.

Set Warnings "-register-all".

Open Scope string_scope.

(** ** Python values shared by all layers *)

(** A token as PLY's [LexToken]: kind, matched text, line and offset. *)
Record LexToken := mkTok {
  ttype : string;
  tvalue : string;
  tlineno : nat;
  tlexpos : nat
}.

(** Exceptions that can leave the parser.  [RuleSyntaxError] is the error type
    of the rule engine ([errors.RuleSyntaxError(message, token=None)]); the
    others are Python's and PLY's own, by name.  [OutOfFuel] is not an
    exception of the program: it marks a run the model gave too few steps. *)
Inductive exn :=
| RuleSyntaxError (message : string) (token : option LexToken)
| PyError (kind : string) (message : string)
| OutOfFuel.

Definition ValueError := PyError "ValueError".
Definition KeyError := PyError "KeyError".
Definition TypeError := PyError "TypeError".
Definition IndexError := PyError "IndexError" "index out of range".
Definition AttributeError := PyError "AttributeError".
Definition OverflowError := PyError "OverflowError".
Definition LexError := PyError "LexError".
Definition LALRError := PyError "LALRError".

Inductive outcome (A : Type) :=
| Ok (a : A)
| Raise (e : exn).
Arguments Ok {A} a.
Arguments Raise {A} e.

Definition bind {A B} (m : outcome A) (f : A -> outcome B) : outcome B :=
  match m with
  | Ok a => f a
  | Raise e => Raise e
  end.

Notation "'do' x <- m ; k" := (bind m (fun x => k))
  (at level 10, x pattern, m at level 100, k at level 200).

(** ** Characters and strings *)

Definition code (c : ascii) : N := N_of_ascii c.

Definition dquote : ascii := "034"%char.
Definition newline : ascii := "010"%char.
Definition tab : ascii := "009"%char.

Definition in_range (lo hi c : ascii) : bool :=
  (code lo <=? code c)%N && (code c <=? code hi)%N.

(** [str.isspace] on one code point below 256, as used by [\s] and [\S] in a
    [str] pattern. *)
Definition is_space (c : ascii) : bool :=
  let n := code c in
  ((9 <=? n) && (n <=? 13) || (28 <=? n) && (n <=? 32) || (n =? 133) || (n =? 160))%N.

Fixpoint str_mem (c : ascii) (s : string) : bool :=
  match s with
  | EmptyString => false
  | String d s' => Ascii.eqb c d || str_mem c s'
  end.

Fixpoint str_count (c : ascii) (s : string) : nat :=
  match s with
  | EmptyString => 0
  | String d s' => (if Ascii.eqb c d then 1 else 0) + str_count c s'
  end.

(** [s[:n]] and [s[n:]]. *)
Fixpoint take (n : nat) (s : string) : string :=
  match n, s with
  | S n', String c s' => String c (take n' s')
  | _, _ => EmptyString
  end.

Fixpoint drop (n : nat) (s : string) : string :=
  match n, s with
  | S n', String _ s' => drop n' s'
  | _, _ => s
  end.

Fixpoint starts_with (p s : string) : option string :=
  match p, s with
  | EmptyString, _ => Some s
  | String a p', String b s' => if Ascii.eqb a b then starts_with p' s' else None
  | String _ _, EmptyString => None
  end.

Fixpoint last_char (d : option ascii) (s : string) : option ascii :=
  match s with
  | EmptyString => d
  | String c s' => last_char (Some c) s'
  end.

Fixpoint assoc {A} (k : string) (l : list (string * A)) : option A :=
  match l with
  | [] => None
  | (k', v) :: l' => if String.eqb k k' then Some v else assoc k l'
  end.

Definition mem_str (k : string) (l : list string) : bool :=
  existsb (String.eqb k) l.

(** ** Regular expressions *)

Module Re.

(** The constructs the token patterns use.  An unnamed group [( ... )] only
    brackets its body (no pattern refers to its capture) and has no
    constructor of its own. *)
Inductive regex :=
| Chr (c : ascii)                                 (* a literal, escaped or not *)
| Cls (neg : bool) (items : list (ascii * ascii)) (* [a-z_] and [^...] *)
| NotSpace                                        (* \S *)
| Dot                                             (* . : anything but a newline *)
| Cat (r1 r2 : regex)
| Alt (r1 r2 : regex)                             (* r1|r2, r1 tried first *)
| Star (r : regex)                                (* r*  greedy *)
| LazyStar (r : regex)                            (* r*? *)
| Plus (r : regex)                                (* r+  greedy *)
| Opt (r : regex)                                 (* r?  greedy *)
| Behind (r : regex)                              (* (?<=r), r one character wide *)
| Ahead (r : regex)                               (* (?=r) *)
| Group (name : string) (r : regex)               (* (?P<name>r) *)
| Backref (name : string).                        (* (?P=name) *)

Definition captures := list (string * string).

(** A position in the subject: the character before it (for look-behind) and
    the text from it on. *)
Definition kont := option ascii -> string -> captures -> option string.

Definition in_class (items : list (ascii * ascii)) (c : ascii) : bool :=
  existsb (fun '(lo, hi) => in_range lo hi c) items.

Definition one (p : ascii -> bool) (s : string) (env : captures) (k : kont) : option string :=
  match s with
  | String c s' => if p c then k (Some c) s' env else None
  | EmptyString => None
  end.

Definition orelse (a : option string) (b : unit -> option string) : option string :=
  match a with
  | Some r => Some r
  | None => b tt
  end.

Definition matcher := option ascii -> string -> captures -> kont -> option string.

(** The iterations of [r*] and [r*?] after the body [m]: at most [n] more,
    each of which has to consume a character. *)
Fixpoint star_loop (m : matcher) (k : kont) (n : nat)
    (prev : option ascii) (s : string) (env : captures) : option string :=
  match n with
  | O => k prev s env
  | S n' =>
      orelse
        (m prev s env (fun p' s' e' =>
           if Nat.ltb (String.length s') (String.length s) then star_loop m k n' p' s' e'
           else None))
        (fun _ => k prev s env)
  end.

Fixpoint lazy_loop (m : matcher) (k : kont) (n : nat)
    (prev : option ascii) (s : string) (env : captures) : option string :=
  match n with
  | O => k prev s env
  | S n' =>
      orelse
        (k prev s env)
        (fun _ => m prev s env (fun p' s' e' =>
           if Nat.ltb (String.length s') (String.length s) then lazy_loop m k n' p' s' e'
           else None))
  end.

(** Backtracking matcher in continuation-passing style: alternatives are
    tried in the order Python's [re] tries them and the first complete match
    wins.  A repetition is bounded by the length of the remaining text. *)
Fixpoint run (r : regex) (prev : option ascii) (s : string) (env : captures)
    (k : kont) {struct r} : option string :=
  match r with
  | Chr c => one (Ascii.eqb c) s env k
  | Cls neg items => one (fun c => xorb neg (in_class items c)) s env k
  | NotSpace => one (fun c => negb (is_space c)) s env k
  | Dot => one (fun c => negb (Ascii.eqb c newline)) s env k
  | Cat r1 r2 => run r1 prev s env (fun p' s' e' => run r2 p' s' e' k)
  | Alt r1 r2 => orelse (run r1 prev s env k) (fun _ => run r2 prev s env k)
  | Star r' => star_loop (run r') k (String.length s) prev s env
  | LazyStar r' => lazy_loop (run r') k (String.length s) prev s env
  | Plus r' =>
      run r' prev s env (fun p1 s1 e1 => star_loop (run r') k (String.length s1) p1 s1 e1)
  | Opt r' => orelse (run r' prev s env k) (fun _ => k prev s env)
  | Behind r' =>
      match prev with
      | None => None
      | Some c =>
          match run r' None (String c EmptyString) env
                  (fun _ s' _ => match s' with EmptyString => Some s' | _ => None end) with
          | Some _ => k prev s env
          | None => None
          end
      end
  | Ahead r' =>
      match run r' prev s env (fun _ s' _ => Some s') with
      | Some _ => k prev s env
      | None => None
      end
  | Group name r' =>
      run r' prev s env (fun p' s' e' =>
        k p' s' ((name, take (String.length s - String.length s') s) :: e'))
  | Backref name =>
      match assoc name env with
      | None => None
      | Some t =>
          match starts_with t s with
          | Some s' => k (last_char prev t) s' env
          | None => None
          end
      end
  end.

(** [pattern.match(text, pos)]: the text left after the match. *)
Definition rmatch (r : regex) (prev : option ascii) (s : string) : option string :=
  run r prev s [] (fun _ s' _ => Some s').

Fixpoint cats (l : list regex) : regex :=
  match l with
  | [] => Opt (Cls false [])
  | [r] => r
  | r :: l' => Cat r (cats l')
  end.

Fixpoint alts (l : list regex) : regex :=
  match l with
  | [] => Cls false []
  | [r] => r
  | r :: l' => Alt r (alts l')
  end.

End Re.

(** ** Deferred nodes and the values of grammar symbols *)

(** The node classes of [rule_engine.ast] the reductions name. *)
Inductive ast_class :=
| Statement | GetAttributeExpression | TernaryExpression | ArithmeticExpression
| AddExpression | SubtractExpression | BitwiseExpression | BitwiseShiftExpression
| ContainsExpression | ComparisonExpression | ArithmeticComparisonExpression
| FuzzyComparisonExpression | LogicExpression | UnaryExpression | SymbolExpression
| BooleanExpression | DatetimeExpression | TimedeltaExpression | FloatExpression
| NullExpression | SetExpression | StringExpression | ArrayExpression
| ComprehensionExpression | MappingExpression | GetItemExpression | GetSliceExpression.

(** The context object handed to [parse]; the parser only passes it on. *)
Inductive Context := ContextObject (id : N).

(** A Python [float], written as the decimal number [m * 10^e] whose nearest
    double it is, or one of the two special values. *)
Inductive pyfloat :=
| FVal (m e : Z)
| FInf
| FNaN.

(** What a slot of a production can hold: the text of a token, a deferred
    node, the [deque] of members of a literal, a key-value pair. *)
Inductive pyval :=
| PNone
| PBool (b : bool)
| PStr (s : string)
| PFloat (f : pyfloat)
| PCtx (c : Context)
| PTuple (items : list pyval)
| PDeque (items : list pyval)
| PDeferred (cls : ast_class) (args : list pyval) (kwargs : list (string * pyval))
            (method : string).

(** [_DeferredAstNode(cls, args=..., kwargs=None, method='build')] *)
Definition DeferredAstNode (cls : ast_class) (args : list pyval) : pyval :=
  PDeferred cls args [] "build".

(** ** What the file imports from outside [src/] *)

(** [_utils.timedelta_regex] (the duration pattern inside a [t"..."] literal),
    Python's [ast.literal_eval] on a quoted string literal (the string it
    denotes, or the kind and message of the Python exception it raises), and
    the constructors of [rule_engine.ast] that phase two calls are defined
    outside the file; they are taken as given. *)
Record externals := {
  timedelta_regex_text : string;
  timedelta_regex : Re.regex;
  literal_eval_str : string -> string + string * string;
  ast_node : Type;
  ast_call : ast_class -> string -> list pyval -> list (string * pyval) -> outcome ast_node
}.

(** ** The lexer *)

Module Lex.
Import Re.

(** [Parser.op_names], in source order. *)
Definition op_names : list (string * string) :=
  [ ("+", "ADD"); ("-", "SUB");
    ("**", "POW"); ("*", "MUL");
    ("/", "TDIV"); ("//", "FDIV"); ("%", "MOD");
    ("&", "BWAND"); ("|", "BWOR"); ("^", "BWXOR");
    ("<<", "BWLSH"); (">>", "BWRSH");
    ("==", "EQ"); ("=~", "EQ_FZM"); ("=~~", "EQ_FZS");
    ("!=", "NE"); ("!~", "NE_FZM"); ("!~~", "NE_FZS");
    (">", "GT"); (">=", "GE");
    ("<", "LT"); ("<=", "LE");
    ("and", "AND"); ("or", "OR"); ("not", "NOT");
    ("for", "FOR"); ("if", "IF");
    (".", "ATTR");
    ("&.", "ATTR_SAFE");
    ("in", "IN") ].

(** [Parser.reserved_words]. *)
Definition reserved_words : list (string * string) :=
  [ ("true", "TRUE"); ("false", "FALSE");
    ("inf", "FLOAT_INF"); ("nan", "FLOAT_NAN");
    ("null", "NULL");
    ("and", "AND"); ("in", "IN"); ("or", "OR"); ("not", "NOT");
    ("for", "FOR"); ("if", "IF") ].

Fixpoint dedup (l : list string) : list string :=
  match l with
  | [] => []
  | x :: l' => x :: filter (fun y => negb (String.eqb x y)) (dedup l')
  end.

(** [Parser.tokens]: the fourteen listed kinds followed by the set of the
    values of the two tables (a set has no order; first occurrence is used). *)
Definition tokens : list string :=
  ([ "DATETIME"; "TIMEDELTA"; "FLOAT"; "STRING"; "SYMBOL";
    "LPAREN"; "RPAREN"; "QMARK"; "COLON"; "COMMA";
    "LBRACKET"; "RBRACKET"; "LBRACE"; "RBRACE" ]
  ++ dedup (map snd reserved_words ++ map snd op_names))%list.

(** The lexer object: the text left, the character before it, the offset and
    the line counter. *)
Record lexer := mkLexer {
  lexrest : string;
  lexprev : option ascii;
  lexpos : nat;
  lineno : nat
}.

(** A token function takes the token and the lexer's line counter; it returns
    the token to emit ([None] to drop the match) and the new counter. *)
Definition tokfun := LexToken -> nat -> outcome (option LexToken * nat).

Inductive tattr :=
| TStr (text : string) (re : regex)
| TFunc (line : nat) (doc : option string) (re : regex) (body : tokfun).

Definition set_type (t : LexToken) (ty : string) : LexToken :=
  mkTok ty (tvalue t) (tlineno t) (tlexpos t).
Definition set_value (t : LexToken) (v : string) : LexToken :=
  mkTok (ttype t) v (tlineno t) (tlexpos t).

Definition digit : regex := Cls false [("0", "9")]%char.
Definition sym_start : regex := Cls false [("a", "z"); ("A", "Z"); ("_", "_")]%char.
Definition sym_rest : regex := Cls false [("a", "z"); ("A", "Z"); ("0", "9"); ("_", "_")]%char.
Definition exponent : regex :=
  cats [Cls false [("e", "e"); ("E", "E")]%char; Opt (Cls false [("+", "+"); ("-", "-")]%char); Plus digit].
Definition quote_group : regex := Group "quote" (Cls false [(dquote, dquote); ("'", "'")]%char).
Definition quoted_body : regex :=
  LazyStar (Alt (Cls true [("\", "\"); (newline, newline)]%char) (Cat (Chr "\") Dot)).

Definition quote_text : string := "(?P<quote>[" ++ String dquote "\'])".
Definition body_text : string := "([^\\\n]|(\\.))*?".

Definition t_POW : tokfun := fun t ln =>
  Ok (Some (if String.eqb (tvalue t) "*" then set_type t "MUL" else t), ln).

Definition t_FDIV : tokfun := fun t ln =>
  Ok (Some (if String.eqb (tvalue t) "/" then set_type t "TDIV" else t), ln).

Definition t_LT : tokfun := fun t ln =>
  match assoc (tvalue t) [("<", "LT"); ("<=", "LE"); ("<<", "BWLSH")] with
  | Some ty => Ok (Some (set_type t ty), ln)
  | None => Raise (KeyError (tvalue t))
  end.

Definition t_GT : tokfun := fun t ln =>
  match assoc (tvalue t) [(">", "GT"); (">=", "GE"); (">>", "BWRSH")] with
  | Some ty => Ok (Some (set_type t ty), ln)
  | None => Raise (KeyError (tvalue t))
  end.

Definition t_EQ_FZS : tokfun := fun t ln =>
  Ok (Some (if String.eqb (tvalue t) "=~" then set_type t "EQ_FZM" else t), ln).

Definition t_NE_FZS : tokfun := fun t ln =>
  Ok (Some (if String.eqb (tvalue t) "!~" then set_type t "NE_FZM" else t), ln).

Definition t_DATETIME : tokfun := fun t ln =>
  Ok (Some (set_value t (drop 1 (tvalue t))), ln).

(** [t.value[2:-1]] *)
Definition t_TIMEDELTA : tokfun := fun t ln =>
  let v := drop 2 (tvalue t) in
  Ok (Some (set_value t (take (String.length v - 1) v)), ln).

Definition t_STRING : tokfun := fun t ln =>
  match tvalue t with
  | String "s" v => Ok (Some (set_value t v), ln)
  | _ => Ok (Some t, ln)
  end.

Definition t_SYMBOL : tokfun := fun t ln =>
  if mem_str (tvalue t) ["elif"; "else"; "while"] then
    Raise (RuleSyntaxError
             ("syntax error (the " ++ tvalue t ++ " keyword is reserved for future use)") None)
  else
    Ok (Some (set_type t (match assoc (tvalue t) reserved_words with
                          | Some ty => ty
                          | None => "SYMBOL"
                          end)), ln).

Definition t_newline : tokfun := fun t ln =>
  Ok (None, ln + str_count newline (tvalue t)).

Definition hex_digit (n : N) : ascii :=
  ascii_of_N (if (n <? 10)%N then 48 + n else 87 + n).

(** [repr] of a one-character string. *)
Definition repr_char (c : ascii) : string :=
  let n := code c in
  if Ascii.eqb c "'" then String dquote (String c (String dquote ""))
  else
    let inner :=
      if Ascii.eqb c "\" then "\\"
      else if Ascii.eqb c newline then "\n"
      else if Ascii.eqb c tab then "\t"
      else if Ascii.eqb c "013" then "\r"
      else if ((n <? 32) || ((127 <=? n) && (n <=? 160)) || (n =? 173))%N then
        String "\" (String "x" (String (hex_digit (n / 16)) (String (hex_digit (n mod 16)) "")))
      else String c ""
    in "'" ++ inner ++ "'".

Definition t_error : tokfun := fun t ln =>
  match tvalue t with
  | String c _ =>
      Raise (RuleSyntaxError ("syntax error (illegal character " ++ repr_char c ++ ")") (Some t))
  | EmptyString => Raise IndexError
  end.

Section WithExternals.
Variable E : externals.

(** The [t_*] attributes of the class, in source order. *)
Definition t_attrs : list (string * tattr) :=
  [ ("t_ignore", TStr (String " " (String tab "")) (Cls false [(" ", " "); (tab, tab)]%char));
    ("t_BWAND", TStr "\&" (Chr "&"));
    ("t_BWOR", TStr "\|" (Chr "|"));
    ("t_BWXOR", TStr "\^" (Chr "^"));
    ("t_LPAREN", TStr "\(" (Chr "("));
    ("t_RPAREN", TStr "\)" (Chr ")"));
    ("t_EQ", TStr "==" (Cat (Chr "=") (Chr "=")));
    ("t_NE", TStr "!=" (Cat (Chr "!") (Chr "=")));
    ("t_QMARK", TStr "\?" (Chr "?"));
    ("t_COLON", TStr "\:" (Chr ":"));
    ("t_ADD", TStr "\+" (Chr "+"));
    ("t_SUB", TStr "\-" (Chr "-"));
    ("t_MOD", TStr "\%" (Chr "%"));
    ("t_COMMA", TStr "\," (Chr ","));
    ("t_LBRACKET", TStr "((?<=\S)&)?\[" (Cat (Opt (Cat (Behind NotSpace) (Chr "&"))) (Chr "[")));
    ("t_RBRACKET", TStr "\]" (Chr "]"));
    ("t_LBRACE", TStr "\{" (Chr "{"));
    ("t_RBRACE", TStr "\}" (Chr "}"));
    ("t_FLOAT",
     TStr "0(b[01]+|o[0-7]+|x[0-9a-fA-F]+)|[0-9]+(\.[0-9]*)?([eE][+-]?[0-9]+)?|\.[0-9]+([eE][+-]?[0-9]+)?"
       (alts [ Cat (Chr "0")
                 (alts [ Cat (Chr "b") (Plus (Cls false [("0", "1")]%char));
                         Cat (Chr "o") (Plus (Cls false [("0", "7")]%char));
                         Cat (Chr "x") (Plus (Cls false [("0", "9"); ("a", "f"); ("A", "F")]%char)) ]);
               cats [Plus digit; Opt (Cat (Chr ".") (Star digit)); Opt exponent];
               cats [Chr "."; Plus digit; Opt exponent] ]));
    ("t_ATTR",
     TStr "(?<=\S)\.(?=[a-zA-Z_][a-zA-Z0-9_]*)"
       (cats [Behind NotSpace; Chr "."; Ahead (Cat sym_start (Star sym_rest))]));
    ("t_ATTR_SAFE",
     TStr "(?<=\S)&\.(?=[a-zA-Z_][a-zA-Z0-9_]*)"
       (cats [Behind NotSpace; Chr "&"; Chr "."; Ahead (Cat sym_start (Star sym_rest))]));
    ("t_POW", TFunc 222 (Some "\*\*?") (Cat (Chr "*") (Opt (Chr "*"))) t_POW);
    ("t_FDIV", TFunc 228 (Some "\/\/?") (Cat (Chr "/") (Opt (Chr "/"))) t_FDIV);
    ("t_LT", TFunc 234 (Some "<([=<])?") (Cat (Chr "<") (Opt (Cls false [("=", "="); ("<", "<")]%char))) t_LT);
    ("t_GT", TFunc 239 (Some ">([=>])?") (Cat (Chr ">") (Opt (Cls false [("=", "="); (">", ">")]%char))) t_GT);
    ("t_EQ_FZS", TFunc 244 (Some "=~~?") (cats [Chr "="; Chr "~"; Opt (Chr "~")]) t_EQ_FZS);
    ("t_NE_FZS", TFunc 250 (Some "!~~?") (cats [Chr "!"; Chr "~"; Opt (Chr "~")]) t_NE_FZS);
    ("t_DATETIME",
     TFunc 256 (Some ("d" ++ quote_text ++ body_text ++ "(?P=quote)"))
       (cats [Chr "d"; quote_group; quoted_body; Backref "quote"]) t_DATETIME);
    ("t_TIMEDELTA",
     TFunc 261 (Some ("t" ++ quote_text ++ timedelta_regex_text E ++ "(?P=quote)"))
       (cats [Chr "t"; quote_group; timedelta_regex E; Backref "quote"]) t_TIMEDELTA);
    ("t_STRING",
     TFunc 266 (Some ("s?" ++ quote_text ++ body_text ++ "(?P=quote)"))
       (cats [Opt (Chr "s"); quote_group; quoted_body; Backref "quote"]) t_STRING);
    ("t_SYMBOL",
     TFunc 272 (Some "\$?[a-zA-Z_][a-zA-Z0-9_]*")
       (cats [Opt (Chr "$"); sym_start; Star sym_rest]) t_SYMBOL);
    ("t_newline", TFunc 279 (Some "\n+") (Plus (Chr newline)) t_newline);
    ("t_error", TFunc 283 None (Cls false []) t_error) ].

(** [Parser.get_token_regex]: [getattr(cls, 't_' + token_name, None)], then a
    string is returned as it is and a function gives its docstring. *)
Definition get_token_regex (token_name : string) : outcome (option string) :=
  match assoc ("t_" ++ token_name) t_attrs with
  | Some (TStr text _) => Ok (Some text)
  | Some (TFunc _ doc _ _) => Ok doc
  | None => Raise (ValueError ("unknown token: " ++ token_name))
  end.

(** *** The rule order PLY derives from the class *)

(** A stable insertion sort: [x] goes before the first element that has to
    come after it. *)
Fixpoint insert_before {A} (after : A -> A -> bool) (x : A) (l : list A) : list A :=
  match l with
  | [] => [x]
  | y :: l' => if after x y then x :: l else y :: insert_before after x l'
  end.

Definition stable_sort {A} (after : A -> A -> bool) (l : list A) : list A :=
  fold_left (fun acc x => insert_before after x acc) l [].

(** [dir(module)]: the attribute names in increasing order. *)
Definition dir_attrs : list (string * tattr) :=
  stable_sort (fun x y => String.ltb (fst x) (fst y)) t_attrs.

Record rule := mkRule {
  rname : string;             (* the token kind the rule is declared for *)
  rtext : option string;      (* the pattern: the string, or the docstring *)
  rre : regex;
  rfun : option tokfun
}.

Definition special (name : string) : bool :=
  mem_str name ["t_error"; "t_ignore"; "t_eof"].

Definition funcsym : list (string * (nat * option string * regex * tokfun)) :=
  stable_sort (fun x y => fst (fst (fst (snd x))) <? fst (fst (fst (snd y))))%nat
    (flat_map (fun '(name, a) =>
       match a with
       | TFunc line doc re body => if special name then [] else [(name, (line, doc, re, body))]
       | TStr _ _ => []
       end) dir_attrs).

Definition strsym : list (string * (string * regex)) :=
  stable_sort (fun x y => String.length (fst (snd y)) <? String.length (fst (snd x)))%nat
    (flat_map (fun '(name, a) =>
       match a with
       | TStr text re => if special name then [] else [(name, (text, re))]
       | TFunc _ _ _ _ => []
       end) dir_attrs).

(** The master list: function rules by line, then string rules by decreasing
    pattern length. *)
Definition lexre : list rule :=
  (map (fun '(name, (_, doc, re, body)) => mkRule (drop 2 name) doc re (Some body)) funcsym
  ++ map (fun '(name, (text, re)) => mkRule (drop 2 name) (Some text) re None) strsym)%list.

Definition lexignore : string :=
  match assoc "t_ignore" t_attrs with
  | Some (TStr text _) => text
  | _ => ""
  end.

(** The first rule that matches at the position, with the text left. *)
Fixpoint first_match (rules : list rule) (prev : option ascii) (s : string)
  : option (rule * string) :=
  match rules with
  | [] => None
  | r :: rules' =>
      match rmatch (rre r) prev s with
      | Some s' => Some (r, s')
      | None => first_match rules' prev s
      end
  end.

(** [Lexer.token()]: skip ignored characters, take the first matching rule,
    run its function if it has one; [None] at the end of the text. *)
Fixpoint token (fuel : nat) (lx : lexer) : outcome (option LexToken * lexer) :=
  match fuel with
  | O => Raise OutOfFuel
  | S fuel' =>
      match lexrest lx with
      | EmptyString => Ok (None, lx)
      | String c rest =>
          if str_mem c lexignore then
            token fuel' (mkLexer rest (Some c) (S (lexpos lx)) (lineno lx))
          else
            match first_match lexre (lexprev lx) (lexrest lx) with
            | Some (r, s') =>
                let n := String.length (lexrest lx) - String.length s' in
                let value := take n (lexrest lx) in
                let tok := mkTok (rname r) value (lineno lx) (lexpos lx) in
                let lx' := mkLexer s' (last_char (lexprev lx) value) (lexpos lx + n) (lineno lx) in
                match rfun r with
                | None => Ok (Some tok, lx')
                | Some f =>
                    do (newtok, ln) <- f tok (lineno lx);
                    let lx'' := mkLexer s' (lexprev lx') (lexpos lx') ln in
                    match newtok with
                    | None => token fuel' lx''
                    | Some t =>
                        if mem_str (ttype t) tokens then Ok (Some t, lx'')
                        else Raise (LexError ("Rule '" ++ rname r ++ "' returned an unknown token type '"
                                                ++ ttype t ++ "'"))
                    end
                end
            | None =>
                do (_, _) <- t_error (mkTok "error" (lexrest lx) (lineno lx) (lexpos lx)) (lineno lx);
                Raise (LexError "Scanning error. Illegal character")
            end
      end
  end.

Definition lex_input (text : string) (line : nat) : lexer :=
  mkLexer text None 0 line.

(** All the tokens of a text, for statements about the lexer alone. *)
Fixpoint tokenize_from (n : nat) (lx : lexer) : outcome (list LexToken) :=
  match n with
  | O => Raise OutOfFuel
  | S n' =>
      do (t, lx') <- token (S (String.length (lexrest lx))) lx;
      match t with
      | None => Ok []
      | Some t => do ts <- tokenize_from n' lx'; Ok (t :: ts)
      end
  end.

Definition tokenize (text : string) : outcome (list LexToken) :=
  tokenize_from (S (String.length text)) (lex_input text 1).

End WithExternals.

End Lex.

(** ** The grammar *)

Module Grammar.

Inductive assoc_kind := LeftA | RightA | NonAssoc.

(** [Parser.precedence], lowest level first. *)
Definition precedence : list (assoc_kind * list string) :=
  [ (LeftA, ["OR"]);
    (LeftA, ["AND"]);
    (RightA, ["NOT"]);
    (LeftA, ["BWOR"]);
    (LeftA, ["BWXOR"]);
    (LeftA, ["BWAND"]);
    (RightA, ["QMARK"; "COLON"]);
    (NonAssoc, ["EQ"; "NE"; "EQ_FZM"; "EQ_FZS"; "NE_FZM"; "NE_FZS"; "GE"; "GT"; "LE"; "LT"; "IN"]);
    (LeftA, ["ADD"; "SUB"]);
    (LeftA, ["BWLSH"; "BWRSH"]);
    (LeftA, ["MUL"; "TDIV"; "FDIV"; "MOD"]);
    (LeftA, ["POW"]);
    (RightA, ["UMINUS"]);
    (LeftA, ["ATTR"; "ATTR_SAFE"]) ].

(** The [p_*] methods in source order: name, line of the [def], and the
    lines of the docstring. *)
Definition p_functions : list (string * nat * list string) :=
  [ ("p_statement_expr", 290, ["statement : expression"]);
    ("p_expression_getattr", 294,
     [ "";
       "object : object ATTR SYMBOL";
       "       | object ATTR_SAFE SYMBOL";
       "" ]);
    ("p_expression_object", 302, [""; "expression : object"; ""]);
    ("p_expression_ternary", 308,
     [""; "expression : expression QMARK expression COLON expression"; ""]);
    ("p_expression_arithmetic", 315,
     [ "";
       "expression : expression MOD    expression";
       "           | expression MUL    expression";
       "           | expression FDIV   expression";
       "           | expression TDIV   expression";
       "           | expression POW    expression";
       "" ]);
    ("p_expression_add", 327, [""; "expression : expression ADD    expression"; ""]);
    ("p_expression_sub", 335, [""; "expression : expression SUB    expression"; ""]);
    ("p_expression_bitwise", 343,
     [ "";
       "expression : expression BWAND  expression";
       "           | expression BWOR   expression";
       "           | expression BWXOR  expression";
       "" ]);
    ("p_expression_bitwise_shift", 353,
     [ "";
       "expression : expression BWLSH  expression";
       "           | expression BWRSH  expression";
       "" ]);
    ("p_expression_contains", 362,
     [ "";
       "expression : expression IN     expression";
       "           | expression NOT IN expression";
       "" ]);
    ("p_expression_comparison", 375,
     [ "";
       "expression : expression EQ     expression";
       "           | expression NE     expression";
       "" ]);
    ("p_expression_arithmetic_comparison", 384,
     [ "";
       "expression : expression GT     expression";
       "           | expression GE     expression";
       "           | expression LT     expression";
       "           | expression LE     expression";
       "" ]);
    ("p_expression_fuzzy_comparison", 395,
     [ "";
       "expression : expression EQ_FZM expression";
       "           | expression EQ_FZS expression";
       "           | expression NE_FZM expression";
       "           | expression NE_FZS expression";
       "" ]);
    ("p_expression_logic", 406,
     [ "";
       "expression : expression AND    expression";
       "           | expression OR     expression";
       "" ]);
    ("p_expression_group", 415, ["object : LPAREN expression RPAREN"]);
    ("p_expression_negate", 419, ["expression : NOT expression"]);
    ("p_expression_symbol", 423, ["object : SYMBOL"]);
    ("p_expression_uminus", 432, ["expression : SUB expression %prec UMINUS"]);
    ("p_expression_boolean", 438,
     [ "";
       "expression : TRUE";
       "           | FALSE";
       "" ]);
    ("p_expression_datetime", 445, ["object : DATETIME"]);
    ("p_expression_timedelta", 449, ["object : TIMEDELTA"]);
    ("p_expression_float", 453, ["expression : FLOAT"]);
    ("p_expression_float_nan", 464, ["expression : FLOAT_NAN"]);
    ("p_expression_float_inf", 468, ["expression : FLOAT_INF"]);
    ("p_expression_null", 472, ["object : NULL"]);
    ("p_expression_set", 477,
     [ "";
       "object : LBRACE ary_members RBRACE";
       "       | LBRACE ary_members COMMA RBRACE";
       "" ]);
    ("p_expression_string", 484, ["object : STRING"]);
    ("p_expression_array", 488,
     [ "";
       "object : LBRACKET RBRACKET";
       "       | LBRACKET ary_members RBRACKET";
       "       | LBRACKET ary_members COMMA RBRACKET";
       "" ]);
    ("p_expression_array_comprehension", 499,
     [ "";
       "object : LBRACKET expression FOR SYMBOL IN expression RBRACKET";
       "       | LBRACKET expression FOR SYMBOL IN expression IF expression RBRACKET";
       "" ]);
    ("p_expression_array_members", 509,
     [ "";
       "ary_members : expression";
       "            | ary_members COMMA expression";
       "" ]);
    ("p_expression_mapping", 522,
     [ "";
       "object : LBRACE RBRACE";
       "       | LBRACE map_members RBRACE";
       "       | LBRACE map_members COMMA RBRACE";
       "" ]);
    ("p_expression_mapping_member", 533, [""; "map_member : expression COLON expression"; ""]);
    ("p_expression_mapping_members", 539,
     [ "";
       "map_members : map_member";
       "            | map_members COMMA map_member";
       "" ]);
    ("p_expression_getitem", 546, [""; "object : object LBRACKET expression RBRACKET"; ""]);
    ("p_expression_getslice", 553,
     [ "";
       "object : object LBRACKET COLON RBRACKET";
       "       | object LBRACKET COLON expression RBRACKET";
       "       | object LBRACKET expression COLON RBRACKET";
       "       | object LBRACKET expression COLON expression RBRACKET";
       "" ]) ].

(** [str.split()] on blanks. *)
Fixpoint split_ws (s : string) (cur : string) : list string :=
  let flush := match cur with EmptyString => [] | _ => [cur] end in
  match s with
  | EmptyString => flush
  | String c s' =>
      if is_space c then (flush ++ split_ws s' EmptyString)%list
      else split_ws s' (cur ++ String c EmptyString)
  end.

(** PLY's [parse_grammar]: one production per docstring line; a line that
    starts with [|] continues the previous left-hand side. *)
Fixpoint parse_grammar (lines : list string) (lastp : option string)
  : outcome (list (string * list string)) :=
  match lines with
  | [] => Ok []
  | ps :: lines' =>
      match split_ws ps EmptyString with
      | [] => parse_grammar lines' lastp
      | "|" :: syms =>
          match lastp with
          | None => Raise (LALRError "Misplaced '|'")
          | Some prodname =>
              do rest <- parse_grammar lines' lastp;
              Ok ((prodname, syms) :: rest)
          end
      | prodname :: assign :: syms =>
          if String.eqb assign ":" || String.eqb assign "::=" then
            do rest <- parse_grammar lines' (Some prodname);
            Ok ((prodname, syms) :: rest)
          else Raise (LALRError "Syntax error. Expected ':'")
      | [_] => Raise (LALRError "Syntax error in rule")
      end
  end.

Record production := mkProd {
  pname : string;
  psyms : list string;
  pfunc : string;
  pprec : assoc_kind * nat
}.

(** [Grammar.Precedence]: each term with its associativity and level, the
    first row of the table at level 1. *)
Fixpoint precedence_map (rows : list (assoc_kind * list string)) (level : nat)
  : list (string * (assoc_kind * nat)) :=
  match rows with
  | [] => []
  | (a, terms) :: rows' =>
      (map (fun t => (t, (a, level))) terms ++ precedence_map rows' (S level))%list
  end.

Definition Precedence : list (string * (assoc_kind * nat)) := precedence_map precedence 1.

Definition Terminals : list string := "error" :: Lex.tokens.

Definition rightmost_terminal (syms : list string) : option string :=
  find (fun s => mem_str s Terminals) (rev syms).

Definition prec_of (name : option string) : assoc_kind * nat :=
  match name with
  | Some n => match assoc n Precedence with Some p => p | None => (RightA, 0) end
  | None => (RightA, 0)
  end.

(** [Grammar.add_production]: the precedence of a production is the one named
    by [%prec], or else that of its rightmost terminal. *)
Definition add_production (fname : string) (prodname : string) (syms : list string)
  : outcome production :=
  if mem_str prodname Terminals then
    Raise (LALRError "Illegal rule name. Already defined as a token")
  else if mem_str "%prec" syms then
    match rev syms with
    | precname :: "%prec" :: front =>
        match assoc precname Precedence with
        | Some p => Ok (mkProd prodname (rev front) fname p)
        | None => Raise (LALRError "Nothing known about the precedence")
        end
    | _ => Raise (LALRError "Syntax error. %prec can only appear at the end of a grammar rule")
    end
  else Ok (mkProd prodname syms fname (prec_of (rightmost_terminal syms))).

Fixpoint add_all (fname : string) (l : list (string * list string)) : outcome (list production) :=
  match l with
  | [] => Ok []
  | (prodname, syms) :: l' =>
      do p <- add_production fname prodname syms;
      do ps <- add_all fname l';
      Ok (p :: ps)
  end.

Fixpoint collect (fs : list (string * nat * list string)) : outcome (list production) :=
  match fs with
  | [] => Ok []
  | (fname, _, doc) :: fs' =>
      do g <- parse_grammar doc None;
      do ps <- add_all fname g;
      do rest <- collect fs';
      Ok (ps ++ rest)%list
  end.

(** [Grammar.Productions]: production 0 is [S' -> start], where the start
    symbol is the left-hand side of the first rule. *)
Definition Productions : outcome (list production) :=
  do ps <- collect (Lex.stable_sort (fun x y => snd (fst x) <? snd (fst y))%nat p_functions);
  match ps with
  | [] => Raise (LALRError "no rules defined")
  | p1 :: _ => Ok (mkProd "S'" [pname p1] "" (RightA, 0) :: ps)
  end.

End Grammar.

(** ** PLY's LALR(1) tables and shift-reduce driver *)

Module LALR.
Import Grammar.
Local Open Scope nat_scope.
Local Open Scope list_scope.

Inductive action :=
| Shift (state : nat)
| Reduce (prod : nat)
| Accept
| NoAction.          (* an entry emptied by a non-associative operator *)

Record lrtable := mkTable {
  lr_terminals : list string;                 (* terminal number -> name; 0 is $end *)
  lr_prods : list (string * nat * nat * string); (* name, left-hand side, length, function *)
  lr_action : list (list (nat * action));     (* state -> terminal -> action *)
  lr_goto : list (list (nat * nat))           (* state -> nonterminal -> state *)
}.

Fixpoint index_of (x : string) (l : list string) (i : nat) : option nat :=
  match l with
  | [] => None
  | y :: l' => if String.eqb x y then Some i else index_of x l' (S i)
  end.

Fixpoint lookup {A} (k : nat) (l : list (nat * A)) : option A :=
  match l with
  | [] => None
  | (k', v) :: l' => if Nat.eqb k k' then Some v else lookup k l'
  end.

Fixpoint update {A} (k : nat) (v : A) (l : list (nat * A)) : list (nat * A) :=
  match l with
  | [] => [(k, v)]
  | (k', v') :: l' => if Nat.eqb k k' then (k, v) :: l' else (k', v') :: update k v l'
  end.

Definition bit (a : nat) : N := N.shiftl 1 (N.of_nat a).
Definition has (L : N) (a : nat) : bool := N.testbit L (N.of_nat a).

Section Generator.

(** Symbols are numbered: terminals first ([0] is [$end]), then the
    nonterminals; a production is its left-hand side and its right-hand
    side. *)
Variable nterm : nat.
Variable nsym : nat.
Variable prods : list (nat * list nat).
Variable tok_prec : list (assoc_kind * nat).
Variable prod_prec : list (assoc_kind * nat).

Definition is_term (x : nat) : bool := x <? nterm.
Definition rhs (p : nat) : list nat := snd (nth p prods (0, [])).
Definition lhs (p : nat) : nat := fst (nth p prods (0, [])).
Definition numbered : list (nat * (nat * list nat)) := combine (seq 0 (length prods)) prods.
Definition prods_of (B : nat) : list nat :=
  map fst (filter (fun '(_, (l, _)) => Nat.eqb l B) numbered).

(** *** Nullable symbols and FIRST sets *)

Definition nullable_seq (nl : list bool) (beta : list nat) : bool :=
  forallb (fun x => nth x nl false) beta.

Fixpoint nullable_iter (fuel : nat) (nl : list bool) : list bool :=
  match fuel with
  | O => nl
  | S fuel' =>
      nullable_iter fuel'
        (map (fun x => existsb (fun p => nullable_seq nl (rhs p)) (prods_of x)) (seq 0 nsym))
  end.

Definition compute_nullable : list bool := nullable_iter (S nsym) (repeat false nsym).

Fixpoint first_seq_with (nl : list bool) (fs : list N) (beta : list nat) (L : N) : N :=
  match beta with
  | [] => L
  | x :: beta' =>
      if nth x nl false then N.lor (nth x fs 0%N) (first_seq_with nl fs beta' L)
      else nth x fs 0%N
  end.

Fixpoint first_iter (nl : list bool) (fuel : nat) (fs : list N) : list N :=
  match fuel with
  | O => fs
  | S fuel' =>
      first_iter nl fuel'
        (map (fun x =>
                if is_term x then bit x
                else fold_left (fun acc p => N.lor acc (first_seq_with nl fs (rhs p) 0%N))
                       (prods_of x) (nth x fs 0%N))
             (seq 0 nsym))
  end.

Definition compute_first (nl : list bool) : list N := first_iter nl (S nsym) (repeat 0%N nsym).

(** The two tables are computed once and shared by what follows. *)
Variable nullable : list bool.
Variable first : list N.

Definition first_seq (beta : list nat) (L : N) : N := first_seq_with nullable first beta L.

(** *** LR(0) item sets *)

Definition item := (nat * nat)%type.     (* production, position of the dot *)

Definition item_eqb (a b : item) : bool :=
  Nat.eqb (fst a) (fst b) && Nat.eqb (snd a) (snd b).
Definition item_ltb (a b : item) : bool :=
  (fst a <? fst b) || (Nat.eqb (fst a) (fst b) && (snd a <? snd b)).

Fixpoint kernel_eqb (a b : list item) : bool :=
  match a, b with
  | [], [] => true
  | x :: a', y :: b' => item_eqb x y && kernel_eqb a' b'
  | _, _ => false
  end.

Definition after_dot (it : item) : option nat := nth_error (rhs (fst it)) (snd it).

Definition mem_nat (x : nat) (l : list nat) : bool := existsb (Nat.eqb x) l.

(** The nonterminals whose productions enter the closure. *)
Fixpoint close_nts (fuel : nat) (todo seen : list nat) : list nat :=
  match fuel with
  | O => seen
  | S fuel' =>
      match todo with
      | [] => seen
      | B :: todo' =>
          if is_term B || mem_nat B seen then close_nts fuel' todo' seen
          else
            close_nts fuel'
              (flat_map (fun p => match rhs p with x :: _ => [x] | [] => [] end) (prods_of B)
               ++ todo')
              (B :: seen)
      end
  end.

Definition after_dots (k : list item) : list nat :=
  flat_map (fun it => match after_dot it with Some x => [x] | None => [] end) k.

Definition closure_nts (k : list item) : list nat :=
  close_nts (length k + length prods + nsym + 1) (after_dots k) [].

(** [lr0_closure]: the kernel, then the initial items of the productions it
    reaches. *)
Definition closure (k : list item) : list item :=
  let nts := closure_nts k in
  k ++ flat_map (fun '(p, (l, _)) => if mem_nat l nts then [(p, 0)] else []) numbered.

Fixpoint insert_item (x : item) (l : list item) : list item :=
  match l with
  | [] => [x]
  | y :: l' =>
      if item_eqb x y then l
      else if item_ltb x y then x :: l
      else y :: insert_item x l'
  end.

(** [lr0_goto]: the items of the closure with [x] after the dot, advanced. *)
Definition goto_kernel (c : list item) (x : nat) : list item :=
  fold_left (fun acc it =>
               match after_dot it with
               | Some y => if Nat.eqb x y then insert_item (fst it, S (snd it)) acc else acc
               | None => acc
               end) c [].

Fixpoint find_kernel (k : list item) (states : list (list item)) (i : nat) : option nat :=
  match states with
  | [] => None
  | k' :: states' => if kernel_eqb k k' then Some i else find_kernel k states' (S i)
  end.

Fixpoint nodup_nat (l : list nat) : list nat :=
  match l with
  | [] => []
  | x :: l' => x :: filter (fun y => negb (Nat.eqb x y)) (nodup_nat l')
  end.

(** The transitions of one state; new kernels are appended to the list. *)
Definition successors (states : list (list item)) (k : list item)
  : list (list item) * list (nat * nat) :=
  let c := closure k in
  fold_left (fun '(sts, row) x =>
               let g := goto_kernel c x in
               match find_kernel g sts 0 with
               | Some j => (sts, (x, j) :: row)
               | None => (sts ++ [g], (x, length sts) :: row)
               end)
    (nodup_nat (after_dots c)) (states, []).

(** [lr0_items]: all item sets reachable from [S' -> . start]. *)
Fixpoint lr0_items (fuel : nat) (i : nat) (states : list (list item))
    (trans : list (list (nat * nat))) : outcome (list (list item) * list (list (nat * nat))) :=
  match fuel with
  | O => Raise OutOfFuel
  | S fuel' =>
      match nth_error states i with
      | None => Ok (states, rev trans)
      | Some k =>
          let '(states', row) := successors states k in
          lr0_items fuel' (S i) states' (row :: trans)
      end
  end.

(** *** LALR(1) lookaheads *)

(** The lookaheads of the closure items of one state, per nonterminal: what
    can follow the nonterminal where an item of the state expects it. *)
Definition seed_la (k : list item) (la : list N) : list (nat * N) :=
  fold_left (fun acc '(it, L) =>
               match skipn (snd it) (rhs (fst it)) with
               | B :: beta =>
                   if is_term B then acc
                   else update B (N.lor (first_seq beta L)
                                    (match lookup B acc with Some M => M | None => 0%N end)) acc
               | [] => acc
               end)
    (combine k la) [].

Definition spread_la (nts : list nat) (m : list (nat * N)) : list (nat * N) :=
  fold_left (fun acc C =>
               let LC := match lookup C acc with Some M => M | None => 0%N end in
               fold_left (fun acc p =>
                            match rhs p with
                            | B :: beta =>
                                if is_term B then acc
                                else update B (N.lor (first_seq beta LC)
                                                 (match lookup B acc with Some M => M | None => 0%N end))
                                       acc
                            | [] => acc
                            end)
                 (prods_of C) acc)
    nts m.

Fixpoint iterate {A} (n : nat) (f : A -> A) (x : A) : A :=
  match n with
  | O => x
  | S n' => iterate n' f (f x)
  end.

Definition closure_la (k : list item) (la : list N) : list (nat * N) :=
  let nts := closure_nts k in
  iterate (S (length nts)) (spread_la nts) (seed_la k la).

(** The closure items of a state with their lookahead sets. *)
Definition closure_items (k : list item) (la : list N) : list (item * N) :=
  let m := closure_la k la in
  combine k la
  ++ flat_map (fun '(p, (l, _)) =>
                 match lookup l m with
                 | Some L => [((p, 0), L)]
                 | None => []
                 end) numbered.

Fixpoint add_la (target : item) (L : N) (k : list item) (la : list N) : list N :=
  match k, la with
  | it :: k', M :: la' =>
      if item_eqb it target then N.lor M L :: la' else M :: add_la target L k' la'
  | _, _ => la
  end.

Fixpoint update_nth {A} (n : nat) (f : A -> A) (l : list A) : list A :=
  match n, l with
  | O, x :: l' => f x :: l'
  | S n', x :: l' => x :: update_nth n' f l'
  | _, [] => []
  end.

(** One sweep: every state hands the lookaheads of its items to the items
    they become in its successors. *)
Definition sweep (states : list (list item)) (trans : list (list (nat * nat)))
    (las : list (list N)) : list (list N) :=
  fold_left (fun las i =>
               let k := nth i states [] in
               let row := nth i trans [] in
               fold_left (fun las '(it, L) =>
                            match after_dot it with
                            | Some x =>
                                match lookup x row with
                                | Some j =>
                                    update_nth j (add_la (fst it, S (snd it)) L (nth j states [])) las
                                | None => las
                                end
                            | None => las
                            end)
                 (closure_items k (nth i las [])) las)
    (seq 0 (length states)) las.

Definition las_eqb (a b : list (list N)) : bool :=
  forallb (fun '(x, y) => forallb (fun '(m, n) => N.eqb m n) (combine x y)) (combine a b).

Fixpoint lookaheads (fuel : nat) (states : list (list item)) (trans : list (list (nat * nat)))
    (las : list (list N)) : outcome (list (list N)) :=
  match fuel with
  | O => Raise OutOfFuel
  | S fuel' =>
      let las' := sweep states trans las in
      if las_eqb las las' then Ok las else lookaheads fuel' states trans las'
  end.

Definition initial_las (states : list (list item)) : list (list N) :=
  match states with
  | [] => []
  | k0 :: rest => map (fun _ => bit 0) k0 :: map (map (fun _ => 0%N)) rest
  end.

(** *** The action table, conflicts settled as PLY's [lr_parse_table] does *)

Definition token_prec (a : nat) : assoc_kind * nat := nth a tok_prec (RightA, 0).
Definition rule_prec (p : nat) : assoc_kind * nat := nth p prod_prec (RightA, 0).

Definition is_left (a : assoc_kind) := match a with LeftA => true | _ => false end.
Definition is_right (a : assoc_kind) := match a with RightA => true | _ => false end.
Definition is_nonassoc (a : assoc_kind) := match a with NonAssoc => true | _ => false end.

(** A reduction by [p] meets the entry for terminal [a]. *)
Definition add_reduce (p a : nat) (row : list (nat * action)) : outcome (list (nat * action)) :=
  match lookup a row with
  | None => Ok (update a (Reduce p) row)
  | Some (Shift _) =>
      let '(_, slevel) := token_prec a in
      let '(rprec, rlevel) := rule_prec p in
      if (slevel <? rlevel) || (Nat.eqb slevel rlevel && is_left rprec) then
        Ok (update a (Reduce p) row)
      else if Nat.eqb slevel rlevel && is_nonassoc rprec then Ok (update a NoAction row)
      else Ok row
  | Some (Reduce q) =>
      (* reduce/reduce: the rule defined first wins *)
      if p <? q then Ok (update a (Reduce p) row) else Ok row
  | Some Accept => Raise (LALRError "Unknown conflict")
  | Some NoAction => Raise (TypeError "'>' not supported between instances of 'NoneType' and 'int'")
  end.

(** A shift to [j] meets the entry for terminal [a]. *)
Definition add_shift (j a : nat) (row : list (nat * action)) : outcome (list (nat * action)) :=
  match lookup a row with
  | None => Ok (update a (Shift j) row)
  | Some (Shift j') =>
      if Nat.eqb j j' then Ok row else Raise (LALRError "Shift/shift conflict")
  | Some (Reduce q) =>
      let '(_, slevel) := token_prec a in
      let '(rprec, rlevel) := rule_prec q in
      if (rlevel <? slevel) || (Nat.eqb slevel rlevel && is_right rprec) then
        Ok (update a (Shift j) row)
      else if Nat.eqb slevel rlevel && is_nonassoc rprec then Ok (update a NoAction row)
      else Ok row
  | Some Accept => Raise (LALRError "Unknown conflict")
  | Some NoAction => Raise (TypeError "'>' not supported between instances of 'NoneType' and 'int'")
  end.

Fixpoint add_reduces (p : nat) (las : list nat) (row : list (nat * action))
  : outcome (list (nat * action)) :=
  match las with
  | [] => Ok row
  | a :: las' => do row' <- add_reduce p a row; add_reduces p las' row'
  end.

Definition members (L : N) : list nat := filter (has L) (seq 0 nterm).

Fixpoint state_actions (items : list (item * N)) (trow : list (nat * nat))
    (row : list (nat * action)) : outcome (list (nat * action)) :=
  match items with
  | [] => Ok row
  | (it, L) :: items' =>
      do row' <-
        match after_dot it with
        | None =>
            if Nat.eqb (fst it) 0 then Ok (update 0 Accept row)
            else add_reduces (fst it) (members L) row
        | Some x =>
            if is_term x then
              match lookup x trow with
              | Some j => add_shift j x row
              | None => Ok row
              end
            else Ok row
        end;
      state_actions items' trow row'
  end.

Fixpoint all_actions (states : list (list item)) (trans : list (list (nat * nat)))
    (las : list (list N)) : outcome (list (list (nat * action))) :=
  match states, trans, las with
  | k :: states', trow :: trans', la :: las' =>
      do row <- state_actions (closure_items k la) trow [];
      do rest <- all_actions states' trans' las';
      Ok (row :: rest)
  | _, _, _ => Ok []
  end.

Definition generate (fuel : nat)
  : outcome (list (list (nat * action)) * list (list (nat * nat))) :=
  do (states, trans) <- lr0_items fuel 0 [[(0, 0)]] [];
  do las <- lookaheads fuel states trans (initial_las states);
  do actions <- all_actions states trans las;
  Ok (actions, map (filter (fun '(x, _) => negb (is_term x))) trans).

End Generator.

Definition generate_tables (nterm nsym : nat) (prods : list (nat * list nat))
    (tok_prec prod_prec : list (assoc_kind * nat)) (fuel : nat) :=
  let nl := compute_nullable nsym prods in
  let fs := compute_first nterm nsym prods nl in
  generate nterm nsym prods tok_prec prod_prec nl fs fuel.

(** *** From the named grammar to the numbered one *)

Definition nonterminals (ps : list production) : list string :=
  Lex.dedup (map pname ps).

Definition symbol_number (terms nts : list string) (s : string) : outcome nat :=
  match index_of s terms 0 with
  | Some i => Ok i
  | None =>
      match index_of s nts (length terms) with
      | Some i => Ok i
      | None => Raise (LALRError ("Symbol '" ++ s ++ "' used, but not defined as a token or a rule")%string)
      end
  end.

Fixpoint number_all (terms nts : list string) (l : list string) : outcome (list nat) :=
  match l with
  | [] => Ok []
  | s :: l' =>
      do n <- symbol_number terms nts s;
      do ns <- number_all terms nts l';
      Ok (n :: ns)
  end.

Fixpoint number_prods (terms nts : list string) (ps : list production)
  : outcome (list (nat * list nat)) :=
  match ps with
  | [] => Ok []
  | p :: ps' =>
      do l <- symbol_number terms nts (pname p);
      do r <- number_all terms nts (psyms p);
      do rest <- number_prods terms nts ps';
      Ok ((l, r) :: rest)
  end.

(** [yacc.yacc(module=self)]: the tables of the grammar. *)
Definition build (terminals : list string) (ps : list production)
    (prec : list (string * (assoc_kind * nat))) (fuel : nat) : outcome lrtable :=
  let terms := "$end" :: terminals in
  let nts := nonterminals ps in
  do nps <- number_prods terms nts ps;
  do (actions, gotos) <-
    generate_tables (length terms) (length terms + length nts) nps
      (map (fun t => prec_of (Some t)) terms) (map pprec ps) fuel;
  Ok (mkTable terms
        (map (fun '(p, (l, r)) => (pname p, l, length r, pfunc p)) (combine ps nps))
        actions gotos).

End LALR.

(** ** The reductions *)

Module Actions.
Local Open Scope list_scope.

(** *** Python helpers *)

Definition py_eq_str (v : pyval) (s : string) : bool :=
  match v with
  | PStr t => String.eqb t s
  | _ => false
  end.

(** [d[key]] and [d.get(key)] on a dictionary with string keys. *)
Definition dict_get (d : list (string * string)) (key : pyval) : outcome (option string) :=
  match key with
  | PStr s => Ok (assoc s d)
  | PDeque _ => Raise (TypeError "unhashable type: 'collections.deque'")
  | _ => Ok None
  end.

Definition dict_item (d : list (string * string)) (key : pyval) : outcome string :=
  do r <- dict_get d key;
  match r, key with
  | Some v, _ => Ok v
  | None, PStr s => Raise (KeyError s)
  | None, _ => Raise (KeyError "")
  end.

(** [p[i]] for [i >= 1]; the list holds [p[1:]]. *)
Definition item (p : list pyval) (i : nat) : outcome pyval :=
  match nth_error p (i - 1) with
  | Some v => Ok v
  | None => Raise IndexError
  end.

(** [len(p)] *)
Definition len (p : list pyval) : nat := S (length p).

(** [a, b, c = p[1:4]] and its longer forms. *)
Definition unpack3 (p : list pyval) : outcome (pyval * pyval * pyval) :=
  match firstn 3 p with
  | [a; b; c] => Ok (a, b, c)
  | _ => Raise (ValueError "not enough values to unpack")
  end.

Definition unpack4 (p : list pyval) : outcome (pyval * pyval * pyval * pyval) :=
  match firstn 4 p with
  | [a; b; c; d] => Ok (a, b, c, d)
  | _ => Raise (ValueError "not enough values to unpack")
  end.

Definition unpack5 (p : list pyval) : outcome (pyval * pyval * pyval * pyval * pyval) :=
  match firstn 5 p with
  | [a; b; c; d; e] => Ok (a, b, c, d, e)
  | _ => Raise (ValueError "not enough values to unpack")
  end.

Fixpoint chars (s : string) : list pyval :=
  match s with
  | EmptyString => []
  | String c s' => PStr (String c EmptyString) :: chars s'
  end.

(** [tuple(v)] *)
Definition tuple (v : pyval) : outcome pyval :=
  match v with
  | PDeque l | PTuple l => Ok (PTuple l)
  | PStr s => Ok (PTuple (chars s))
  | _ => Raise (TypeError "object is not iterable")
  end.

(** [l.index(':')] *)
Fixpoint index_str (l : list pyval) (s : string) (i : nat) : outcome nat :=
  match l with
  | [] => Raise (ValueError "':' is not in list")
  | v :: l' => if py_eq_str v s then Ok i else index_str l' s (S i)
  end.

(** *** Numeric literals: [ast.literal_eval] and [float] *)

Inductive number :=
| Int (z : Z)
| Dec (m e : Z).          (* m * 10^e, a literal with a fraction or an exponent *)

Definition digit_of (c : ascii) : option Z :=
  if in_range "0" "9" c then Some (Z.of_N (code c) - 48)%Z
  else if in_range "a" "f" c then Some (Z.of_N (code c) - 87)%Z
  else if in_range "A" "F" c then Some (Z.of_N (code c) - 55)%Z
  else None.

Fixpoint digits_val (base : Z) (s : string) (acc : Z) : option Z :=
  match s with
  | EmptyString => Some acc
  | String c s' =>
      match digit_of c with
      | Some d => if (d <? base)%Z then digits_val base s' (acc * base + d)%Z else None
      | None => None
      end
  end.

Definition based (base : Z) (ds : string) : option number :=
  match ds with
  | EmptyString => None
  | _ => option_map Int (digits_val base ds 0)
  end.

Fixpoint span_digits (s : string) : string * string :=
  match s with
  | String c s' =>
      if in_range "0" "9" c then let '(d, r) := span_digits s' in (String c d, r)
      else (EmptyString, s)
  | EmptyString => (EmptyString, EmptyString)
  end.

Fixpoint all_zero (s : string) : bool :=
  match s with
  | EmptyString => true
  | String c s' => Ascii.eqb c "0" && all_zero s'
  end.

Definition dec_val (s : string) : Z :=
  match digits_val 10 s 0 with Some z => z | None => 0%Z end.

(** The exponent part, if the text has one: its value and the text left. *)
Definition exponent_part (s : string) : option (option Z * string) :=
  match s with
  | String c r =>
      if Ascii.eqb c "e" || Ascii.eqb c "E" then
        let '(neg, r') :=
          match r with
          | String "+" r' => (false, r')
          | String "-" r' => (true, r')
          | _ => (false, r)
          end in
        let '(ds, rest) := span_digits r' in
        match ds with
        | EmptyString => None
        | _ => Some (Some (if neg then - dec_val ds else dec_val ds)%Z, rest)
        end
      else Some (None, s)
  | EmptyString => Some (None, s)
  end.

(** [literal_eval] on the text of a number: [None] stands for the
    [SyntaxError] of a text that is not a Python literal. *)
Definition literal_eval_number (s : string) : option number :=
  match s with
  | String "0" (String "b" ds) => based 2 ds
  | String "0" (String "o" ds) => based 8 ds
  | String "0" (String "x" ds) => based 16 ds
  | _ =>
      let '(ip, r1) := span_digits s in
      let '(dot, fp, r2) :=
        match r1 with
        | String "." r => let '(fp, r2) := span_digits r in (true, fp, r2)
        | _ => (false, EmptyString, r1)
        end in
      match exponent_part r2 with
      | None => None
      | Some (ex, r3) =>
          match r3, (ip ++ fp)%string with
          | EmptyString, String _ _ =>
              match dot, ex with
              | false, None =>
                  match ip with
                  | String "0" (String _ _) => if all_zero ip then Some (Int 0) else None
                  | _ => Some (Int (dec_val ip))
                  end
              | _, _ =>
                  Some (Dec (dec_val (ip ++ fp)%string)
                          ((match ex with Some e => e | None => 0 end)
                           - Z.of_nat (String.length fp))%Z)
              end
          | _, _ => None
          end
      end
  end.

(** [float(val)]: an integer too large for a double raises. *)
Definition float (n : number) : outcome pyfloat :=
  match n with
  | Int z =>
      if (2 ^ 1024 - 2 ^ 970 <=? Z.abs z)%Z then
        Raise (OverflowError "int too large to convert to float")
      else Ok (FVal z 0)
  | Dec m e => Ok (FVal m e)
  end.

(** [re.match('^0[0-9]', s)] *)
Definition leading_zero (s : string) : bool :=
  match s with
  | String "0" (String c _) => in_range "0" "9" c
  | _ => false
  end.

(** *** The [p_*] methods

    Each takes the context bound by [parse] and the values [p[1:]] of the
    right-hand side, and gives the value it assigns to [p[0]]. *)

Section Reductions.
Variable E : externals.
Variable context : Context.

Definition ctx : pyval := PCtx context.

Definition p_error (token : option LexToken) : exn :=
  RuleSyntaxError "syntax error" token.

Definition p_statement_expr (p : list pyval) : outcome pyval :=
  do p1 <- item p 1;
  Ok (DeferredAstNode Statement [ctx; p1]).

Definition p_expression_getattr (p : list pyval) : outcome pyval :=
  do p2 <- item p 2;
  do op_name <- dict_get Lex.op_names p2;
  do p1 <- item p 1;
  do p3 <- item p 3;
  Ok (PDeferred GetAttributeExpression [ctx; p1; p3]
        [("safe", PBool (match op_name with
                         | Some n => String.eqb n "ATTR_SAFE"
                         | None => false
                         end))] "build").

Definition p_expression_object (p : list pyval) : outcome pyval :=
  item p 1.

Definition p_expression_ternary (p : list pyval) : outcome pyval :=
  do (condition, _, case_true, _, case_false) <- unpack5 p;
  Ok (DeferredAstNode TernaryExpression [ctx; condition; case_true; case_false]).

(** The body shared by the binary operators: look the operator up in
    [op_names] and build a node of the given class. *)
Definition binary (cls : ast_class) (p : list pyval) : outcome pyval :=
  do (left_, op, right_) <- unpack3 p;
  do op_name <- dict_item Lex.op_names op;
  Ok (DeferredAstNode cls [ctx; PStr op_name; left_; right_]).

Definition p_expression_arithmetic := binary ArithmeticExpression.
Definition p_expression_add := binary AddExpression.
Definition p_expression_sub := binary SubtractExpression.
Definition p_expression_bitwise := binary BitwiseExpression.
Definition p_expression_bitwise_shift := binary BitwiseShiftExpression.

Definition p_expression_contains (p : list pyval) : outcome pyval :=
  if Nat.eqb (len p) 4 then
    do (member, _, container) <- unpack3 p;
    Ok (DeferredAstNode ContainsExpression [ctx; container; member])
  else
    do (member, _, _, container) <- unpack4 p;
    let p0 := DeferredAstNode ContainsExpression [ctx; container; member] in
    Ok (DeferredAstNode UnaryExpression [ctx; PStr "NOT"; p0]).

Definition p_expression_comparison := binary ComparisonExpression.
Definition p_expression_arithmetic_comparison := binary ArithmeticComparisonExpression.
Definition p_expression_fuzzy_comparison := binary FuzzyComparisonExpression.
Definition p_expression_logic := binary LogicExpression.

Definition p_expression_group (p : list pyval) : outcome pyval :=
  item p 2.

Definition p_expression_negate (p : list pyval) : outcome pyval :=
  do p2 <- item p 2;
  Ok (DeferredAstNode UnaryExpression [ctx; PStr "NOT"; p2]).

Definition p_expression_symbol (p : list pyval) : outcome pyval :=
  do name <- item p 1;
  match name with
  | PStr EmptyString => Raise IndexError
  | PStr (String c rest) =>
      if Ascii.eqb c "$" then
        Ok (PDeferred SymbolExpression [ctx; PStr rest] [("scope", PStr "built-in")] "build")
      else
        Ok (PDeferred SymbolExpression [ctx; name] [("scope", PNone)] "build")
  | _ => Raise (TypeError "object is not subscriptable")
  end.

Definition p_expression_uminus (p : list pyval) : outcome pyval :=
  let names := [("-", "UMINUS")] in
  do p1 <- item p 1;
  do name <- dict_item names p1;
  do p2 <- item p 2;
  Ok (DeferredAstNode UnaryExpression [ctx; PStr name; p2]).

Definition p_expression_boolean (p : list pyval) : outcome pyval :=
  do p1 <- item p 1;
  Ok (DeferredAstNode BooleanExpression [ctx; PBool (py_eq_str p1 "true")]).

Definition literal_eval_text (v : pyval) : outcome pyval :=
  match v with
  | PStr s =>
      match literal_eval_str E s with
      | inl r => Ok (PStr r)
      | inr (kind, message) => Raise (PyError kind message)
      end
  | _ => Raise (ValueError "malformed node or string")
  end.

Definition p_expression_datetime (p : list pyval) : outcome pyval :=
  do p1 <- item p 1;
  do v <- literal_eval_text p1;
  Ok (PDeferred DatetimeExpression [ctx; v] [] "from_string").

Definition p_expression_timedelta (p : list pyval) : outcome pyval :=
  do p1 <- item p 1;
  Ok (PDeferred TimedeltaExpression [ctx; p1] [] "from_string").

Definition p_expression_float (p : list pyval) : outcome pyval :=
  do p1 <- item p 1;
  match p1 with
  | PStr str_val =>
      if leading_zero str_val then
        Raise (RuleSyntaxError
                 ("invalid floating point literal: " ++ str_val
                  ++ " (leading zeros in decimal literals are not permitted)") None)
      else
        match literal_eval_number str_val with
        | None => Raise (RuleSyntaxError ("invalid floating point literal: " ++ str_val) None)
        | Some val =>
            do f <- float val;
            Ok (DeferredAstNode FloatExpression [ctx; PFloat f])
        end
  | _ => Raise (TypeError "expected string or bytes-like object")
  end.

Definition p_expression_float_nan (p : list pyval) : outcome pyval :=
  Ok (DeferredAstNode FloatExpression [ctx; PFloat FNaN]).

Definition p_expression_float_inf (p : list pyval) : outcome pyval :=
  Ok (DeferredAstNode FloatExpression [ctx; PFloat FInf]).

Definition p_expression_null (p : list pyval) : outcome pyval :=
  Ok (DeferredAstNode NullExpression [ctx]).

Definition p_expression_set (p : list pyval) : outcome pyval :=
  do p2 <- item p 2;
  do t <- tuple p2;
  Ok (DeferredAstNode SetExpression [ctx; t]).

Definition p_expression_string (p : list pyval) : outcome pyval :=
  do p1 <- item p 1;
  do v <- literal_eval_text p1;
  Ok (DeferredAstNode StringExpression [ctx; v]).

Definition p_expression_array (p : list pyval) : outcome pyval :=
  if Nat.ltb (len p) 4 then
    Ok (DeferredAstNode ArrayExpression [ctx; PTuple []])
  else
    do p2 <- item p 2;
    do t <- tuple p2;
    Ok (DeferredAstNode ArrayExpression [ctx; t]).

Definition p_expression_array_comprehension (p : list pyval) : outcome pyval :=
  do condition <- (if Nat.eqb (len p) 10 then item p 8 else Ok PNone);
  do p2 <- item p 2;
  do p4 <- item p 4;
  do p6 <- item p 6;
  Ok (PDeferred ComprehensionExpression [ctx; p2; p4; p6] [("condition", condition)] "build").

Definition p_expression_array_members (p : list pyval) : outcome pyval :=
  if Nat.eqb (len p) 2 then
    do p1 <- item p 1;
    Ok (PDeque [p1])
  else
    do deque <- item p 1;
    do p3 <- item p 3;
    match deque with
    | PDeque l => Ok (PDeque (l ++ [p3]))
    | _ => Raise (AttributeError "object has no attribute 'append'")
    end.

Definition p_expression_mapping (p : list pyval) : outcome pyval :=
  if Nat.ltb (len p) 4 then
    Ok (DeferredAstNode MappingExpression [ctx; PTuple []])
  else
    do p2 <- item p 2;
    do t <- tuple p2;
    Ok (DeferredAstNode MappingExpression [ctx; t]).

Definition p_expression_mapping_member (p : list pyval) : outcome pyval :=
  do p1 <- item p 1;
  do p3 <- item p 3;
  Ok (PTuple [p1; p3]).

Definition p_expression_mapping_members (p : list pyval) : outcome pyval :=
  p_expression_array_members p.

Definition p_expression_getitem (p : list pyval) : outcome pyval :=
  do (container, lbracket, item) <- unpack3 p;
  Ok (PDeferred GetItemExpression [ctx; container; item]
        [("safe", PBool (py_eq_str lbracket "&["))] "build").

Definition p_expression_getslice (p : list pyval) : outcome pyval :=
  do container <- item p 1;
  do p2 <- item p 2;
  let safe := py_eq_str p2 "&[" in
  do colon_index <- index_str p ":" 0;
  do (start, stop) <-
    (if Nat.eqb colon_index 2 && Nat.eqb (len p) 5 then Ok (PNone, PNone)
     else if Nat.eqb colon_index 2 && Nat.eqb (len p) 6 then
       do p4 <- item p 4; Ok (PNone, p4)
     else if Nat.eqb colon_index 3 && Nat.eqb (len p) 6 then
       do p3 <- item p 3; Ok (p3, PNone)
     else if Nat.eqb colon_index 3 && Nat.eqb (len p) 7 then
       do (start, _, stop) <- unpack3 (skipn 2 p); Ok (start, stop)
     else Raise (RuleSyntaxError "invalid get slice expression" None));
  Ok (PDeferred GetSliceExpression [ctx; container; start; stop]
        [("safe", PBool safe)] "build").

(** The method a production was read from, by name. *)
Definition methods : list (string * (list pyval -> outcome pyval)) :=
  [ ("p_statement_expr", p_statement_expr);
    ("p_expression_getattr", p_expression_getattr);
    ("p_expression_object", p_expression_object);
    ("p_expression_ternary", p_expression_ternary);
    ("p_expression_arithmetic", p_expression_arithmetic);
    ("p_expression_add", p_expression_add);
    ("p_expression_sub", p_expression_sub);
    ("p_expression_bitwise", p_expression_bitwise);
    ("p_expression_bitwise_shift", p_expression_bitwise_shift);
    ("p_expression_contains", p_expression_contains);
    ("p_expression_comparison", p_expression_comparison);
    ("p_expression_arithmetic_comparison", p_expression_arithmetic_comparison);
    ("p_expression_fuzzy_comparison", p_expression_fuzzy_comparison);
    ("p_expression_logic", p_expression_logic);
    ("p_expression_group", p_expression_group);
    ("p_expression_negate", p_expression_negate);
    ("p_expression_symbol", p_expression_symbol);
    ("p_expression_uminus", p_expression_uminus);
    ("p_expression_boolean", p_expression_boolean);
    ("p_expression_datetime", p_expression_datetime);
    ("p_expression_timedelta", p_expression_timedelta);
    ("p_expression_float", p_expression_float);
    ("p_expression_float_nan", p_expression_float_nan);
    ("p_expression_float_inf", p_expression_float_inf);
    ("p_expression_null", p_expression_null);
    ("p_expression_set", p_expression_set);
    ("p_expression_string", p_expression_string);
    ("p_expression_array", p_expression_array);
    ("p_expression_array_comprehension", p_expression_array_comprehension);
    ("p_expression_array_members", p_expression_array_members);
    ("p_expression_mapping", p_expression_mapping);
    ("p_expression_mapping_member", p_expression_mapping_member);
    ("p_expression_mapping_members", p_expression_mapping_members);
    ("p_expression_getitem", p_expression_getitem);
    ("p_expression_getslice", p_expression_getslice) ].

Definition call (fname : string) (p : list pyval) : outcome pyval :=
  match assoc fname methods with
  | Some f => f p
  | None => Raise (AttributeError fname)
  end.

End Reductions.

End Actions.

(** ** The parser object *)

Module Parser.
Import LALR.
Local Open Scope list_scope.

(** The tables [yacc.yacc] builds when the parser object is created. *)
Definition build_tables : outcome lrtable :=
  do ps <- Grammar.Productions;
  LALR.build Grammar.Terminals ps Grammar.Precedence 1000.

Definition tables : outcome lrtable := Eval vm_compute in build_tables.

(** [defaulted_states]: a state whose only action is a reduction performs it
    without asking for the next token. *)
Definition defaulted (row : list (nat * action)) : option nat :=
  match row with
  | [(_, Reduce p)] => Some p
  | _ => None
  end.

Section Driver.
Variable E : externals.
Variable context : Context.
Variable T : lrtable.

(** The lexer object the parser draws from: [parse] accepts any object with
    a [token()] method through its [lexer] keyword. *)
Variable LX : Type.
Variable get_token : LX -> outcome (option LexToken * LX).

(** The symbol the parser looks at: a token of the lexer, the [$end] symbol
    that stands for the end of the text, or the [error] symbol PLY puts in
    front of the input while it recovers from a [SyntaxError]. *)
Inductive lasym :=
| LaToken (tok : LexToken)
| LaEnd
| LaError.

Definition sym_type (s : lasym) : string :=
  match s with
  | LaToken tok => ttype tok
  | LaEnd => "$end"
  | LaError => "error"
  end.

(** The value a symbol has on the stack.  The grammar has no production with
    [error] in it, so the tables have no action under that symbol and it is
    never pushed. *)
Definition sym_value (s : lasym) : pyval :=
  match s with
  | LaToken tok => PStr (tvalue tok)
  | LaEnd => PNone
  | LaError => PStr "error"
  end.

(** [except SyntaxError]: Python's [SyntaxError] and its subclasses.  The
    [RuleSyntaxError] of the rule engine derives from [EngineError], which is
    no [SyntaxError]. *)
Definition is_syntax_error (e : exn) : bool :=
  match e with
  | PyError kind _ => mem_str kind ["SyntaxError"; "IndentationError"; "TabError"]
  | _ => false
  end.

(** [error_count]: the shifts after which the parser reports errors again. *)
Definition error_count : nat := 3.

(** The action of the table for the state on top and the lookahead.  A token
    is taken when none is at hand: the one saved last on [lookaheadstack], or
    the next of the lexer; [None] from either becomes [$end]. *)
Definition next (state : nat) (lookahead : option lasym)
    (lookaheadstack : list (option lasym)) (lx : LX)
  : outcome (option action * option lasym * list (option lasym) * LX) :=
  let row := nth state (lr_action T) [] in
  match defaulted row with
  | Some p => Ok (Some (Reduce p), lookahead, lookaheadstack, lx)
  | None =>
      do (s, saved, lx') <-
        match lookahead with
        | Some s => Ok (s, lookaheadstack, lx)
        | None =>
            match lookaheadstack with
            | top :: rest => Ok (match top with Some s => s | None => LaEnd end, rest, lx)
            | [] =>
                do (tok, lx') <- get_token lx;
                Ok (match tok with Some tk => LaToken tk | None => LaEnd end, [], lx')
            end
        end;
      Ok (match index_of (sym_type s) (lr_terminals T) 0 with
          | Some a => lookup a row
          | None => None
          end, Some s, saved, lx')
  end.

(** PLY's [LRParser.parseopt_notrack], the loop behind [parse]: shift, reduce
    through the production's method, accept, or handle an error.

    A [SyntaxError] out of a method is caught: the parser puts the symbols of
    the right-hand side but the last back on the stack, drops one state,
    saves the lookahead and goes on with the [error] symbol in its place,
    [errorcount] set to [error_count].  Without an action it calls [p_error]
    when [errorcount] is 0 (or [errorok] is set); the method of this
    parser always raises.  Otherwise it recovers without a word: it drops the
    lookahead when the state stack is down to the start state, returns [None]
    at the end of the text, and else brings in the [error] symbol or, with
    that at hand already, pops a symbol and a state.

    A state without lookahead was given a reduction, so in the other
    branches the lookahead is there; the model reads a missing one as
    [$end].  [state] is the top of [statestack] throughout. *)
Fixpoint parseopt (fuel : nat) (statestack : list nat) (symstack : list (string * pyval))
    (lookahead : option lasym) (lookaheadstack : list (option lasym))
    (errorcount : nat) (errorok : bool) (lx : LX) : outcome pyval :=
  match fuel with
  | O => Raise OutOfFuel
  | S fuel' =>
      do (t, lookahead, lookaheadstack, lx) <-
        next (hd 0 statestack) lookahead lookaheadstack lx;
      let s := match lookahead with Some s => s | None => LaEnd end in
      match t with
      | Some (Shift j) =>
          parseopt fuel' (j :: statestack) ((sym_type s, sym_value s) :: symstack)
            None lookaheadstack (Nat.pred errorcount) errorok lx
      | Some (Reduce p) =>
          match nth_error (lr_prods T) p with
          | None => Raise IndexError
          | Some (pname, plhs, plen, fname) =>
              let targ := rev (map snd (firstn plen symstack)) in
              match Actions.call E context fname targ with
              | Ok value =>
                  let statestack' := skipn plen statestack in
                  match lookup plhs (nth (hd 0 statestack') (lr_goto T) []) with
                  | Some j =>
                      parseopt fuel' (j :: statestack') ((pname, value) :: skipn plen symstack)
                        lookahead lookaheadstack errorcount errorok lx
                  | None => Raise (KeyError pname)
                  end
              | Raise e =>
                  if is_syntax_error e then
                    parseopt fuel' (tl statestack)
                      (tl (firstn plen symstack) ++ skipn plen symstack)
                      (Some LaError) (lookahead :: lookaheadstack) error_count false lx
                  else Raise e
              end
          end
      | Some Accept =>
          match symstack with
          | (_, value) :: _ => Ok value
          | [] => Ok PNone
          end
      | Some NoAction | None =>
          if Nat.eqb errorcount 0 || errorok then
            Raise (Actions.p_error (match s with LaToken tk => Some tk | _ => None end))
          else
            match s with
            | LaEnd => Ok PNone
            | LaToken _ =>
                if Nat.leb (length statestack) 1 then
                  parseopt fuel' statestack symstack None [] error_count errorok lx
                else if String.eqb (fst (hd ("", PNone) symstack)) "error" then
                  parseopt fuel' statestack symstack None lookaheadstack error_count errorok lx
                else
                  parseopt fuel' statestack symstack (Some LaError)
                    (Some s :: lookaheadstack) error_count errorok lx
            | LaError =>
                if Nat.leb (length statestack) 1 then
                  parseopt fuel' statestack symstack None [] error_count errorok lx
                else
                  parseopt fuel' (tl statestack) (tl symstack) (Some LaError)
                    lookaheadstack error_count errorok lx
            end
      end
  end.

(** The run as long as no method raises a [SyntaxError] and no error is met:
    the lookahead is a token or [$end], nothing is saved and [errorcount]
    stays 0.  [parse_plain] ends such a run with the exception where
    [parseopt] would go on; the two agree on every other run
    ([plain_settled] below), which is what the proofs about given texts
    use. *)
Definition lookahead := option (option LexToken).

Definition la_type (la : option LexToken) : string :=
  match la with
  | Some tok => ttype tok
  | None => "$end"
  end.

Definition errtoken (la : lookahead) : option LexToken :=
  match la with
  | Some (Some tk) => Some tk
  | _ => None
  end.

Definition next_action (state : nat) (la : lookahead) (lx : LX)
  : outcome (option action * lookahead * LX) :=
  let row := nth state (lr_action T) [] in
  match defaulted row with
  | Some p => Ok (Some (Reduce p), la, lx)
  | None =>
      do (tok, lx') <-
        match la with
        | Some tok => Ok (tok, lx)
        | None => get_token lx
        end;
      Ok (match index_of (la_type tok) (lr_terminals T) 0 with
          | Some a => lookup a row
          | None => None
          end, Some tok, lx')
  end.

Fixpoint parse_plain (fuel : nat) (statestack : list nat) (symstack : list (string * pyval))
    (la : lookahead) (lx : LX) : outcome pyval :=
  match fuel with
  | O => Raise OutOfFuel
  | S fuel' =>
      do (t, tok, lx') <- next_action (hd 0 statestack) la lx;
      match t with
      | Some (Shift j) =>
          parse_plain fuel' (j :: statestack)
            ((la_type (match tok with Some tk => tk | None => None end),
              match tok with
              | Some (Some tk) => PStr (tvalue tk)
              | _ => PNone
              end) :: symstack) None lx'
      | Some (Reduce p) =>
          match nth_error (lr_prods T) p with
          | None => Raise IndexError
          | Some (pname, plhs, plen, fname) =>
              let targ := rev (map snd (firstn plen symstack)) in
              do value <- Actions.call E context fname targ;
              let statestack' := skipn plen statestack in
              match lookup plhs (nth (hd 0 statestack') (lr_goto T) []) with
              | Some j =>
                  parse_plain fuel' (j :: statestack') ((pname, value) :: skipn plen symstack) tok lx'
              | None => Raise (KeyError pname)
              end
          end
      | Some Accept =>
          match symstack with
          | (_, value) :: _ => Ok value
          | [] => Ok PNone
          end
      | Some NoAction | None => Raise (Actions.p_error (errtoken tok))
      end
  end.

End Driver.
Arguments next T {LX} get_token state lookahead lookaheadstack lx.
Arguments parseopt E context T {LX} get_token fuel statestack symstack lookahead
  lookaheadstack errorcount errorok lx.
Arguments next_action T {LX} get_token state la lx.
Arguments parse_plain E context T {LX} get_token fuel statestack symstack la lx.

(** [Parser._lexer]: the lexer of the rule grammar. *)
Definition lexer_token (E : externals) (lx : Lex.lexer) : outcome (option LexToken * Lex.lexer) :=
  Lex.token E (S (String.length (Lex.lexrest lx))) lx.

(** A lexer that hands out the tokens of a list. *)
Definition list_token (l : list LexToken) : outcome (option LexToken * list LexToken) :=
  match l with
  | [] => Ok (None, [])
  | t :: l' => Ok (Some t, l')
  end.

(** The steps granted to a run on a text. *)
Definition steps (text : string) : nat := 16 * String.length text + 16.

(** Phase one of [ParserBase.parse]: the tree of deferred nodes of a text.
    [line] is the line counter the lexer object starts from.  [errorok] is
    set when the parser object is made; a later call finds it as the last
    one left it, which changes nothing ([errorok_irrelevant] below). *)
Definition parse_deferred (E : externals) (context : Context) (line : nat) (text : string)
  : outcome pyval :=
  do T <- tables;
  parseopt E context T (lexer_token E) (steps text) [0] [("$end", PNone)] None [] 0 true
    (Lex.lex_input text line).

(** The same run on a given list of tokens. *)
Definition parse_tokens (E : externals) (context : Context) (fuel : nat) (toks : list LexToken)
  : outcome pyval :=
  do T <- tables;
  parseopt E context T list_token fuel [0] [("$end", PNone)] None [] 0 true toks.

(** The two without recovery. *)
Definition plain_deferred (E : externals) (context : Context) (line : nat) (text : string)
  : outcome pyval :=
  do T <- tables;
  parse_plain E context T (lexer_token E) (steps text) [0] [("$end", PNone)] None
    (Lex.lex_input text line).

Definition plain_tokens (E : externals) (context : Context) (fuel : nat) (toks : list LexToken)
  : outcome pyval :=
  do T <- tables;
  parse_plain E context T list_token fuel [0] [("$end", PNone)] None toks.

(** [_DeferredAstNode.build]: the constructor named by the node, applied to
    its arguments.  Phase one can return [None], which has no such method. *)
Definition build (E : externals) (node : pyval) : outcome (ast_node E) :=
  match node with
  | PDeferred cls args kwargs method => ast_call E cls method args kwargs
  | PNone => Raise (AttributeError "'NoneType' object has no attribute 'build'")
  | _ => Raise (AttributeError "object has no attribute 'build'")
  end.

(** [ParserBase.parse(text, context)] *)
Definition parse (E : externals) (context : Context) (line : nat) (text : string)
  : outcome (ast_node E) :=
  do result <- parse_deferred E context line text;
  build E result.

End Parser.

(** * Properties *)

(** ** The run with and without recovery *)

Definition of_plain (la : Parser.lookahead) : option Parser.lasym :=
  match la with
  | None => None
  | Some None => Some Parser.LaEnd
  | Some (Some tk) => Some (Parser.LaToken tk)
  end.

(** A result other than a [SyntaxError] on its way out of a method. *)
Definition settled (r : outcome pyval) : Prop :=
  match r with
  | Ok _ => True
  | Raise e => Parser.is_syntax_error e = false
  end.

Lemma syntax_error_settled : forall tok, Parser.is_syntax_error (Actions.p_error tok) = false.
Proof. reflexivity. Qed.

(** A run of [parse_plain] that does not end in a [SyntaxError] is the run
    of the parser. *)
Lemma plain_settled : forall E ctx T LX (get_token : LX -> outcome (option LexToken * LX))
    fuel statestack symstack la lx errorok r,
  Parser.parse_plain E ctx T get_token fuel statestack symstack la lx = r ->
  settled r ->
  Parser.parseopt E ctx T get_token fuel statestack symstack (of_plain la) [] 0 errorok lx = r.
Proof.
  intros E ctx T LX get_token.
  induction fuel as [|fuel IH]; intros statestack symstack la lx errorok r H Hr.
  - exact H.
  - cbn [Parser.parse_plain] in H. cbn [Parser.parseopt].
    unfold Parser.next_action in H. unfold Parser.next.
    destruct (Parser.defaulted (nth (hd 0 statestack) (LALR.lr_action T) [])) as [p|].
    + cbn [bind] in *.
      destruct (nth_error (LALR.lr_prods T) p) as [[[[pname plhs] plen] fname]|]; [ | exact H ].
      destruct (Actions.call E ctx fname (rev (map snd (firstn plen symstack)))) as [value|e];
        cbn [bind] in H.
      * destruct (LALR.lookup plhs (nth (hd 0 (skipn plen statestack)) (LALR.lr_goto T) []));
          [ | exact H ].
        apply IH; assumption.
      * subst r. cbn in Hr. rewrite Hr. reflexivity.
    + assert (Hfetch :
        match la with Some tok => Ok (tok, lx) | None => get_token lx end
        = bind (match of_plain la with
                | Some s => Ok (s, @nil (option Parser.lasym), lx)
                | None =>
                    do (tok, lx') <- get_token lx;
                    Ok (match tok with Some tk => Parser.LaToken tk | None => Parser.LaEnd end,
                        [], lx')
                end)
            (fun '(s, _, lx') =>
               Ok (match s with Parser.LaToken tk => Some tk | _ => None end, lx'))
        /\ match of_plain la with
           | Some Parser.LaError => False
           | _ => True
           end).
      { destruct la as [[tk|]|]; cbn; auto.
        destruct (get_token lx) as [[[tk|] lx']|e]; cbn; auto. }
      destruct Hfetch as [Hfetch Hne]. rewrite Hfetch in H. clear Hfetch.
      destruct (match of_plain la with
                | Some s => Ok (s, @nil (option Parser.lasym), lx)
                | None =>
                    do (tok, lx') <- get_token lx;
                    Ok (match tok with Some tk => Parser.LaToken tk | None => Parser.LaEnd end,
                        [], lx')
                end) as [[[s saved] lx']|e] eqn:Hs; cbn [bind] in *; [ | exact H ].
      assert (Hs' : saved = [] /\ s <> Parser.LaError).
      { destruct (of_plain la) as [s0|].
        - inversion Hs; subst. split; [ reflexivity | ]. intros ->. exact Hne.
        - destruct (get_token lx) as [[[tk|] lx0]|e]; cbn in Hs; inversion Hs; subst;
            split; try reflexivity; discriminate. }
      destruct Hs' as [-> Hs'].
      assert (Hty : Parser.la_type (match s with Parser.LaToken tk => Some tk | _ => None end)
                    = Parser.sym_type s).
      { destruct s; try reflexivity. contradiction. }
      rewrite Hty in H.
      destruct (match LALR.index_of (Parser.sym_type s) (LALR.lr_terminals T) 0 with
                | Some a => LALR.lookup a (nth (hd 0 statestack) (LALR.lr_action T) [])
                | None => None
                end) as [[j|p| |]|].
      * cbn [Nat.pred].
        replace (Parser.sym_type s, Parser.sym_value s)
          with (Parser.la_type (match s with Parser.LaToken tk => Some tk | _ => None end),
                match s with Parser.LaToken tk => PStr (tvalue tk) | _ => PNone end)
          by (destruct s; try reflexivity; contradiction).
        apply (IH _ _ None); [ | exact Hr ].
        destruct s; first [ exact H | contradiction ].
      * destruct (nth_error (LALR.lr_prods T) p) as [[[[pname plhs] plen] fname]|]; [ | exact H ].
        destruct (Actions.call E ctx fname (rev (map snd (firstn plen symstack)))) as [value|e];
          cbn [bind] in H.
        -- destruct (LALR.lookup plhs (nth (hd 0 (skipn plen statestack)) (LALR.lr_goto T) []));
             [ | exact H ].
           replace (Some s)
             with (of_plain (Some (match s with Parser.LaToken tk => Some tk | _ => None end)))
             by (destruct s; try reflexivity; contradiction).
           apply IH; assumption.
        -- subst r. cbn in Hr. rewrite Hr. reflexivity.
      * exact H.
      * cbn [Nat.eqb orb]. destruct s; first [ exact H | contradiction ].
      * cbn [Nat.eqb orb]. destruct s; first [ exact H | contradiction ].
Qed.

(** Whether [errorok] is set at the start of a run makes no difference: it
    is consulted only when [errorcount] is not 0, which takes a caught
    [SyntaxError], and that clears it. *)
Lemma errorok_irrelevant : forall E ctx T LX (get_token : LX -> outcome (option LexToken * LX))
    fuel statestack symstack lookahead lookaheadstack errorcount b1 b2 lx,
  errorcount = 0 \/ b1 = b2 ->
  Parser.parseopt E ctx T get_token fuel statestack symstack lookahead lookaheadstack
    errorcount b1 lx
  = Parser.parseopt E ctx T get_token fuel statestack symstack lookahead lookaheadstack
      errorcount b2 lx.
Proof.
  intros E ctx T LX get_token.
  induction fuel as [|fuel IH];
    intros statestack symstack lookahead lookaheadstack errorcount b1 b2 lx Hb;
    [ reflexivity | ].
  cbn [Parser.parseopt].
  destruct (Parser.next T get_token (hd 0 statestack) lookahead lookaheadstack lx)
    as [[[[t la] saved] lx']|e]; cbn [bind]; [ | reflexivity ].
  assert (Hcond : (Nat.eqb errorcount 0 || b1 = Nat.eqb errorcount 0 || b2)%bool).
  { destruct Hb as [-> | ->]; reflexivity. }
  assert (Hpred : Nat.pred errorcount = 0 \/ b1 = b2).
  { destruct Hb as [-> | ->]; [ left | right ]; reflexivity. }
  assert (Hkeep : (Nat.eqb errorcount 0 || b1)%bool = false -> b1 = b2).
  { intros Hc. destruct Hb as [-> | ->]; [ discriminate Hc | reflexivity ]. }
  destruct t as [[j|p| |]|].
  - apply IH. exact Hpred.
  - destruct (nth_error (LALR.lr_prods T) p) as [[[[pname plhs] plen] fname]|]; [ | reflexivity ].
    destruct (Actions.call E ctx fname (rev (map snd (firstn plen symstack)))) as [value|e].
    + destruct (LALR.lookup plhs (nth (hd 0 (skipn plen statestack)) (LALR.lr_goto T) []));
        [ | reflexivity ].
      apply IH. exact Hb.
    + reflexivity.
  - reflexivity.
  - rewrite <- Hcond.
    destruct (Nat.eqb errorcount 0 || b1)%bool eqn:Hc; [ reflexivity | ].
    rewrite (Hkeep eq_refl). reflexivity.
  - rewrite <- Hcond.
    destruct (Nat.eqb errorcount 0 || b1)%bool eqn:Hc; [ reflexivity | ].
    rewrite (Hkeep eq_refl). reflexivity.
Qed.

(** A text or a list of tokens on which the run without recovery ends in
    anything but a [SyntaxError] of a method: the parser ends the same. *)
Lemma plain_deferred_settled : forall E ctx line text r,
  Parser.plain_deferred E ctx line text = r -> settled r ->
  Parser.parse_deferred E ctx line text = r.
Proof.
  intros E ctx line text r H Hr. unfold Parser.plain_deferred in H. unfold Parser.parse_deferred.
  destruct Parser.tables as [T|e]; [ | exact H ]. cbn [bind] in *.
  exact (plain_settled E ctx T _ _ _ _ _ None _ true r H Hr).
Qed.

Lemma plain_tokens_settled : forall E ctx fuel toks r,
  Parser.plain_tokens E ctx fuel toks = r -> settled r ->
  Parser.parse_tokens E ctx fuel toks = r.
Proof.
  intros E ctx fuel toks r H Hr. unfold Parser.plain_tokens in H. unfold Parser.parse_tokens.
  destruct Parser.tables as [T|e]; [ | exact H ]. cbn [bind] in *.
  exact (plain_settled E ctx T _ _ _ _ _ None _ true r H Hr).
Qed.

(** ** The trees the statements name *)

Section Trees.
Variable context : Context.

Definition stmt (e : pyval) : pyval := DeferredAstNode Statement [PCtx context; e].
Definition float_node (z : Z) : pyval :=
  DeferredAstNode FloatExpression [PCtx context; PFloat (FVal z 0)].
Definition symbol_node (name : string) : pyval :=
  PDeferred SymbolExpression [PCtx context; PStr name] [("scope", PNone)] "build".
Definition binop (cls : ast_class) (op : string) (l r : pyval) : pyval :=
  DeferredAstNode cls [PCtx context; PStr op; l; r].
Definition negation (e : pyval) : pyval :=
  DeferredAstNode UnaryExpression [PCtx context; PStr "NOT"; e].
Definition containment (container member : pyval) : pyval :=
  DeferredAstNode ContainsExpression [PCtx context; container; member].
Definition minus (e : pyval) : pyval :=
  DeferredAstNode UnaryExpression [PCtx context; PStr "UMINUS"; e].
Definition ternary (condition case_true case_false : pyval) : pyval :=
  DeferredAstNode TernaryExpression [PCtx context; condition; case_true; case_false].

End Trees.

Definition attribute_node (ctx : Context) (obj : pyval) (name : string) (safe : bool) : pyval :=
  PDeferred GetAttributeExpression [PCtx ctx; obj; PStr name] [("safe", PBool safe)] "build".

Definition item_node (ctx : Context) (container item : pyval) (safe : bool) : pyval :=
  PDeferred GetItemExpression [PCtx ctx; container; item] [("safe", PBool safe)] "build".

Definition level (t : string) : nat :=
  match assoc t Grammar.Precedence with
  | Some (_, l) => l
  | None => 0
  end.

Definition associativity (t : string) : option Grammar.assoc_kind :=
  option_map fst (assoc t Grammar.Precedence).

Definition the_groups : list (list string) :=
  [ ["OR"]; ["AND"]; ["NOT"]; ["BWOR"]; ["BWXOR"]; ["BWAND"]; ["QMARK"; "COLON"];
    ["EQ"; "NE"; "EQ_FZM"; "EQ_FZS"; "NE_FZM"; "NE_FZS"; "GE"; "GT"; "LE"; "LT"; "IN"];
    ["ADD"; "SUB"]; ["BWLSH"; "BWRSH"]; ["MUL"; "TDIV"; "FDIV"; "MOD"]; ["POW"];
    ["UMINUS"]; ["ATTR"; "ATTR_SAFE"] ].

(** Split a conjunction into its parts, and a [Forall] over an explicit list
    into one goal per element, leaving the equations as they are. *)
Ltac split_all := repeat match goal with |- _ /\ _ => split end.
Ltac forall_list := repeat (apply Forall_cons); try apply Forall_nil.
Ltac compute_eq := vm_compute; reflexivity.

(** ** Facts about the lexer *)

Import Re.

Definition attr_safe_re : regex :=
  cats [Behind NotSpace; Chr "&"; Chr "."; Ahead (Cat Lex.sym_start (Star Lex.sym_rest))].

Lemma attr_safe_match : forall prev s s',
  rmatch attr_safe_re prev s = Some s' ->
  exists c d rest,
    prev = Some c /\ is_space c = false
    /\ s = String "&" (String "." (String d rest))
    /\ in_class [("a", "z"); ("A", "Z"); ("_", "_")]%char d = true
    /\ s' = String d rest.
Proof.
  intros prev s s' H.
  unfold rmatch, attr_safe_re in H. cbn [cats run] in H.
  destruct prev as [c|]; [ | discriminate H ].
  unfold one at 1 in H.
  destruct (is_space c) eqn:Hsp; cbn [negb] in H; [ discriminate H | ].
  unfold one at 1 in H.
  destruct s as [|c1 s1]; [ discriminate H | ].
  destruct (Ascii.eqb_spec "&"%char c1) as [<- | ]; [ | discriminate H ].
  unfold one at 1 in H.
  destruct s1 as [|c2 s2]; [ discriminate H | ].
  destruct (Ascii.eqb_spec "."%char c2) as [<- | ]; [ | discriminate H ].
  unfold Lex.sym_start in H. cbn [run] in H.
  unfold one at 1 in H.
  destruct s2 as [|d rest]; [ discriminate H | ].
  cbn [xorb] in H.
  destruct (in_class [("a", "z"); ("A", "Z"); ("_", "_")]%char d) eqn:Hd; [ | discriminate H ].
  match type of H with
  | match ?m with Some _ => _ | None => _ end = _ => destruct m; [ | discriminate H ]
  end.
  inversion H; subst.
  exists c, d, rest. repeat split; assumption.
Qed.

(** Facts about strings. *)
Lemma take_length_app : forall a b, take (String.length a) (a ++ b) = a.
Proof. induction a as [|c a IH]; intros b; simpl; [ destruct b; reflexivity | rewrite IH; reflexivity ]. Qed.

Lemma length_app : forall a b, String.length (a ++ b) = String.length a + String.length b.
Proof. induction a as [|c a IH]; intros b; simpl; [ reflexivity | rewrite IH; reflexivity ]. Qed.

Fixpoint copies (c : ascii) (n : nat) : string :=
  match n with
  | O => EmptyString
  | S n' => String c (copies c n')
  end.

Lemma last_char_copies : forall c n d, last_char d (copies c (S n)) = Some c.
Proof. intros c n. induction n as [|n IH]; intros d; [ reflexivity | exact (IH (Some c)) ]. Qed.

(** The iterations of [c*] take copies of [c]. *)
Lemma star_chr : forall c n p s e s',
  star_loop (run (Chr c)) (fun _ s' _ => Some s') n p s e = Some s' ->
  exists k, s = copies c k ++ s'.
Proof.
  intros c n. induction n as [|n IH]; intros p s e s' H; cbn [star_loop] in H.
  - inversion H. exists 0. reflexivity.
  - match type of H with
    | orelse (run _ ?p ?s ?e ?k) _ = _ =>
        change (run (Chr c) p s e k) with (one (Ascii.eqb c) s e k) in H
    end.
    unfold one in H.
    destruct s as [|c1 s1].
    + cbn [orelse] in H. inversion H. exists 0. reflexivity.
    + destruct (Ascii.eqb_spec c c1) as [<- | ].
      * destruct (Nat.ltb (String.length s1) (String.length (String c s1))).
        -- destruct (star_loop (run (Chr c)) (fun _ s'0 _ => Some s'0) n (Some c) s1 e) as [r|] eqn:Hl.
           ++ cbn [orelse] in H. inversion H; subst.
              destruct (IH _ _ _ _ Hl) as [k Hk]. exists (S k). simpl. congruence.
           ++ cbn [orelse] in H. inversion H. exists 0. reflexivity.
        -- cbn [orelse] in H. inversion H. exists 0. reflexivity.
      * cbn [orelse] in H. inversion H. exists 0. reflexivity.
Qed.

Lemma plus_chr_last : forall c prev s s',
  rmatch (Plus (Chr c)) prev s = Some s' ->
  last_char prev (take (String.length s - String.length s') s) = Some c.
Proof.
  intros c prev s s' H. unfold rmatch in H. cbn [run] in H. unfold one at 1 in H.
  destruct s as [|c1 s1]; [ discriminate H | ].
  destruct (Ascii.eqb_spec c c1) as [<- | ]; [ | discriminate H ].
  apply star_chr in H. destruct H as [k ->].
  replace (String.length (String c (copies c k ++ s')) - String.length s')
    with (String.length (copies c (S k))).
  - change (String c (copies c k ++ s')) with (copies c (S k) ++ s').
    rewrite take_length_app. apply last_char_copies.
  - cbn [String.length copies]. rewrite length_app. lia.
Qed.

Lemma first_match_In : forall rules prev s r s',
  Lex.first_match rules prev s = Some (r, s') ->
  In r rules /\ rmatch (Lex.rre r) prev s = Some s'.
Proof.
  induction rules as [|r0 rules IH]; intros prev s r s' H; simpl in H.
  - discriminate.
  - destruct (rmatch (Lex.rre r0) prev s) as [s0|] eqn:Hm.
    + inversion H; subst. split; [ left; reflexivity | exact Hm ].
    + destruct (IH _ _ _ _ H) as [Hin Hr]. split; [ right; exact Hin | exact Hr ].
Qed.

Lemma ignore_is_space : forall E c, str_mem c (Lex.lexignore E) = true -> is_space c = true.
Proof.
  intros E c H. change (Lex.lexignore E) with (String " " (String tab "")) in H.
  cbn [str_mem] in H.
  destruct (Ascii.eqb_spec c " ") as [Hc | Hc]; [ subst; reflexivity | ].
  destruct (Ascii.eqb_spec c tab) as [Hc' | Hc']; [ subst; reflexivity | discriminate H ].
Qed.

Lemma reserved_type : forall v,
  match assoc v Lex.reserved_words with Some ty => ty | None => "SYMBOL" end <> "ATTR_SAFE".
Proof.
  intros v. unfold Lex.reserved_words. cbn [assoc].
  repeat match goal with
         | |- context [String.eqb v ?k] => destruct (String.eqb v k)
         end; discriminate.
Qed.

Definition attr_safe_site (lx : Lex.lexer) : Prop :=
  exists c d rest,
    Lex.lexprev lx = Some c /\ is_space c = false
    /\ Lex.lexrest lx = String "&" (String "." (String d rest))
    /\ in_class [("a", "z"); ("A", "Z"); ("_", "_")]%char d = true.

Ltac explicit_rules E :=
  let v := eval cbv -[Lex.t_POW Lex.t_FDIV Lex.t_LT Lex.t_GT Lex.t_EQ_FZS Lex.t_NE_FZS
                      Lex.t_DATETIME Lex.t_TIMEDELTA Lex.t_STRING Lex.t_SYMBOL Lex.t_newline
                      timedelta_regex timedelta_regex_text] in (Lex.lexre E) in
  change (Lex.lexre E) with v in *.

(** What the token functions can return. *)
Lemma retype_kind : forall (f : Lex.tokfun) text ty,
  (forall t ln, f t ln = Ok (Some (if String.eqb (tvalue t) text then Lex.set_type t ty else t), ln)) ->
  forall t ln r ln', f t ln = Ok (r, ln') ->
  exists t', r = Some t' /\ (ttype t' = ty \/ ttype t' = ttype t).
Proof.
  intros f text ty Hf t ln r ln' H. rewrite Hf in H. inversion H; subst.
  eexists. split; [ reflexivity | ].
  destruct (String.eqb (tvalue t) text); [ left | right ]; reflexivity.
Qed.

Lemma lookup_kind : forall (f : Lex.tokfun) table,
  (forall t ln, f t ln = match assoc (tvalue t) table with
                         | Some ty => Ok (Some (Lex.set_type t ty), ln)
                         | None => Raise (KeyError (tvalue t))
                         end) ->
  forall t ln r ln', f t ln = Ok (r, ln') ->
  exists t', r = Some t' /\ In (ttype t') (map snd table).
Proof.
  intros f table Hf t ln r ln' H. rewrite Hf in H.
  destruct (assoc (tvalue t) table) as [ty|] eqn:Ha; [ | discriminate H ].
  inversion H; subst. eexists. split; [ reflexivity | ].
  cbn [ttype Lex.set_type]. clear - Ha.
  induction table as [|[k v] table IH]; cbn [assoc] in Ha; [ discriminate Ha | ].
  destruct (String.eqb (tvalue t) k).
  - inversion Ha. left. reflexivity.
  - right. apply IH. exact Ha.
Qed.

Lemma datetime_kind : forall t ln r ln',
  Lex.t_DATETIME t ln = Ok (r, ln') -> exists t', r = Some t' /\ ttype t' = ttype t.
Proof. intros t ln r ln' H. inversion H. eexists. split; reflexivity. Qed.

Lemma timedelta_kind : forall t ln r ln',
  Lex.t_TIMEDELTA t ln = Ok (r, ln') -> exists t', r = Some t' /\ ttype t' = ttype t.
Proof. intros t ln r ln' H. inversion H. eexists. split; reflexivity. Qed.

Lemma string_kind : forall t ln r ln',
  Lex.t_STRING t ln = Ok (r, ln') -> exists t', r = Some t' /\ ttype t' = ttype t.
Proof.
  intros t ln r ln' H. unfold Lex.t_STRING in H.
  destruct (tvalue t) as [|a v].
  - inversion H. eexists. split; reflexivity.
  - destruct a as [[] [] [] [] [] [] [] []]; inversion H; eexists; split; reflexivity.
Qed.

Lemma symbol_kind : forall t ln r ln',
  Lex.t_SYMBOL t ln = Ok (r, ln') ->
  exists t', r = Some t' /\ In (ttype t') ("SYMBOL" :: map snd Lex.reserved_words).
Proof.
  intros t ln r ln' H. unfold Lex.t_SYMBOL in H.
  destruct (mem_str (tvalue t) ["elif"; "else"; "while"]); [ discriminate H | ].
  destruct (assoc (tvalue t) Lex.reserved_words) as [ty|] eqn:Ha;
    inversion H; subst; (eexists; split; [ reflexivity | ]); cbn [ttype Lex.set_type];
    [ right | left; reflexivity ].
  clear - Ha. revert Ha. generalize Lex.reserved_words as table.
  induction table as [|[k v] table IH]; cbn [assoc]; intros Ha; [ discriminate Ha | ].
  destruct (String.eqb (tvalue t) k).
  - inversion Ha. left. reflexivity.
  - right. apply IH. exact Ha.
Qed.

Lemma newline_drops : forall t ln r ln', Lex.t_newline t ln = Ok (r, ln') -> r = None.
Proof. intros t ln r ln' H. inversion H. reflexivity. Qed.

(** The kinds a rule can give to a token, by the name of the rule. *)
Ltac function_kind Hf :=
  first
    [ apply (retype_kind Lex.t_POW "*" "MUL" (fun _ _ => eq_refl)) in Hf
    | apply (retype_kind Lex.t_FDIV "/" "TDIV" (fun _ _ => eq_refl)) in Hf
    | apply (retype_kind Lex.t_EQ_FZS "=~" "EQ_FZM" (fun _ _ => eq_refl)) in Hf
    | apply (retype_kind Lex.t_NE_FZS "!~" "NE_FZM" (fun _ _ => eq_refl)) in Hf
    | apply (lookup_kind Lex.t_LT _ (fun _ _ => eq_refl)) in Hf
    | apply (lookup_kind Lex.t_GT _ (fun _ _ => eq_refl)) in Hf
    | apply datetime_kind in Hf
    | apply timedelta_kind in Hf
    | apply string_kind in Hf
    | apply symbol_kind in Hf ].

Lemma token_attr_safe : forall E fuel lx tok lx',
  Lex.token E fuel lx = Ok (Some tok, lx') ->
  ttype tok = "ATTR_SAFE" ->
  attr_safe_site lx /\ tvalue tok = "&.".
Proof.
  intros E fuel. induction fuel as [|f IH]; intros lx tok lx' H Hty.
  - discriminate H.
  - cbn [Lex.token] in H.
    destruct (Lex.lexrest lx) as [|c rest] eqn:Hrest; [ discriminate H | ].
    destruct (str_mem c (Lex.lexignore E)) eqn:Hign.
    + apply ignore_is_space in Hign.
      destruct (IH _ _ _ H Hty) as [(c' & d & rest' & Hp & Hsp & _) _].
      cbn in Hp. inversion Hp; subst. congruence.
    + destruct (Lex.first_match (Lex.lexre E) (Lex.lexprev lx) (String c rest))
        as [[r s']|] eqn:Hfm; [ | discriminate H ].
      apply first_match_In in Hfm. destruct Hfm as [Hin Hm].
      explicit_rules E.
      repeat (destruct Hin as [<- | Hin]); [ .. | destruct Hin ];
        cbn [Lex.rfun Lex.rname Lex.rre] in *.
      (* the rules with a function *)
      all: try match type of H with
               | bind (?g ?t0 ?ln) _ = _ =>
                   let Hf := fresh "Hf" in
                   destruct (g t0 ln) as [[r0 ln'] | e] eqn:Hf; cbn [bind] in H;
                   [ | discriminate H ];
                   first
                     [ function_kind Hf;
                       destruct Hf as (t' & -> & Hk);
                       destruct (mem_str (ttype t') Lex.tokens); [ | discriminate H ];
                       inversion H; subst; exfalso;
                       cbn in Hk; rewrite Hty in Hk; intuition discriminate
                     | apply newline_drops in Hf; subst r0 ]
               end.
      (* the newline rule drops its match and looks again *)
      1: { apply plus_chr_last in Hm.
           destruct (IH _ _ _ H Hty) as [(c' & d & rest' & Hp & Hsp & _) _].
           cbn [Lex.lexprev] in Hp. rewrite Hm in Hp. inversion Hp; subst. discriminate Hsp. }
      (* the rules given by a string *)
      all: inversion H; subst; cbn [ttype] in Hty; try discriminate Hty.
      apply attr_safe_match in Hm.
      destruct Hm as (c0 & d & rest0 & Hp & Hsp & Hs & Hd & ->).
      inversion Hs; subst.
      split.
      * exists c0, d, rest0. repeat split; assumption.
      * cbn [tvalue].
        match goal with
        | |- take ?n _ = _ => replace n with 2 by (cbn [String.length]; lia)
        end.
        reflexivity.
Qed.

(** ** Precedence and associativity *)

(** The binary operators: surface text, identifier, and the node class of
    the production. *)
Definition binary_operators : list (string * string * ast_class) :=
  [ ("+", "ADD", AddExpression); ("-", "SUB", SubtractExpression);
    ("**", "POW", ArithmeticExpression); ("*", "MUL", ArithmeticExpression);
    ("/", "TDIV", ArithmeticExpression); ("//", "FDIV", ArithmeticExpression);
    ("%", "MOD", ArithmeticExpression);
    ("&", "BWAND", BitwiseExpression); ("|", "BWOR", BitwiseExpression);
    ("^", "BWXOR", BitwiseExpression);
    ("<<", "BWLSH", BitwiseShiftExpression); (">>", "BWRSH", BitwiseShiftExpression);
    ("==", "EQ", ComparisonExpression); ("!=", "NE", ComparisonExpression);
    (">", "GT", ArithmeticComparisonExpression); (">=", "GE", ArithmeticComparisonExpression);
    ("<", "LT", ArithmeticComparisonExpression); ("<=", "LE", ArithmeticComparisonExpression);
    ("=~", "EQ_FZM", FuzzyComparisonExpression); ("=~~", "EQ_FZS", FuzzyComparisonExpression);
    ("!~", "NE_FZM", FuzzyComparisonExpression); ("!~~", "NE_FZS", FuzzyComparisonExpression);
    ("and", "AND", LogicExpression); ("or", "OR", LogicExpression) ].

Definition operator : Type := string * string * ast_class.
Definition op_text (o : operator) : string := fst (fst o).
Definition op_id (o : operator) : string := snd (fst o).
Definition op_node (ctx : Context) (o : operator) (l r : pyval) : pyval :=
  binop ctx (snd o) (op_id o) l r.

(** The pairs of binary operators with the first on a lower level of the
    table than the second, and the pairs on one level that is declared
    left-associative. *)
Definition looser_pairs : list (operator * operator) :=
  filter (fun '(lo, hi) => Nat.ltb (level (op_id lo)) (level (op_id hi)))
    (list_prod binary_operators binary_operators).

Definition left_pairs : list (operator * operator) :=
  filter (fun '(a, b) =>
            Nat.eqb (level (op_id a)) (level (op_id b))
            && match associativity (op_id a) with
               | Some Grammar.LeftA => true
               | _ => false
               end)
    (list_prod binary_operators binary_operators).

(** [x op1 y op2 z] *)
Definition chain (x op1 y op2 z : string) : string :=
  x ++ " " ++ op1 ++ " " ++ y ++ " " ++ op2 ++ " " ++ z.

Lemma Forall_by_map : forall (A B : Type) (f g : A -> B) (P : A -> Prop) (l : list A),
  (forall x, f x = g x -> P x) -> map f l = map g l -> Forall P l.
Proof.
  intros A B f g P l HP. induction l as [|x l IH]; intros Heq; [ constructor | ].
  cbn [map] in Heq. injection Heq as Hx Hl.
  constructor; [ apply HP; exact Hx | apply IH; exact Hl ].
Qed.

(** C1: the parser follows the precedence table.  [1 + 2 * 3] is the ADD node
    whose right operand is the MUL node; [**] is declared left-associative
    and [2**3**2] is [(2**3)**2]; the levels of the table rise in the order
    or, and, not, |, ^, &, ternary, comparisons, + -, << >>, * / // %, **,
    unary minus, attribute access; the rule of unary minus takes the
    level of UMINUS; of two binary operators on different levels the one on
    the higher level takes the operand between them, whichever comes first;
    two operators of one left-associative level group to the left; and
    [not], the ternary, unary minus and attribute access sit between their
    neighbours of the table. *)
Theorem C1_precedence_table_respected : forall E ctx line,
  Parser.parse_deferred E ctx line "1 + 2 * 3"
  = Ok (stmt ctx (binop ctx AddExpression "ADD" (float_node ctx 1)
                    (binop ctx ArithmeticExpression "MUL" (float_node ctx 2) (float_node ctx 3))))
  /\ Parser.parse_deferred E ctx line "2**3**2"
     = Ok (stmt ctx (binop ctx ArithmeticExpression "POW"
                       (binop ctx ArithmeticExpression "POW" (float_node ctx 2) (float_node ctx 3))
                       (float_node ctx 2)))
  /\ associativity "POW" = Some Grammar.LeftA
  /\ map (map level) the_groups
     = [ [1]; [2]; [3]; [4]; [5]; [6]; [7; 7]; [8; 8; 8; 8; 8; 8; 8; 8; 8; 8; 8];
         [9; 9]; [10; 10]; [11; 11; 11; 11]; [12]; [13]; [14; 14] ]
  /\ Grammar.add_production "p_expression_uminus" "expression" ["SUB"; "expression"; "%prec"; "UMINUS"]
     = Ok (Grammar.mkProd "expression" ["SUB"; "expression"] "p_expression_uminus" (Grammar.RightA, 13))
  /\ Forall (fun '(lo, hi) =>
               Parser.parse_deferred E ctx line (chain "1" (op_text lo) "2" (op_text hi) "3")
               = Ok (stmt ctx (op_node ctx lo (float_node ctx 1)
                                 (op_node ctx hi (float_node ctx 2) (float_node ctx 3))))
               /\ Parser.parse_deferred E ctx line (chain "1" (op_text hi) "2" (op_text lo) "3")
                  = Ok (stmt ctx (op_node ctx lo
                                    (op_node ctx hi (float_node ctx 1) (float_node ctx 2))
                                    (float_node ctx 3))))
       looser_pairs
  /\ Forall (fun '(a, b) =>
               Parser.parse_deferred E ctx line (chain "1" (op_text a) "2" (op_text b) "3")
               = Ok (stmt ctx (op_node ctx b
                                 (op_node ctx a (float_node ctx 1) (float_node ctx 2))
                                 (float_node ctx 3))))
       left_pairs
  /\ (List.length looser_pairs = 223 /\ List.length left_pairs = 30)
  /\ Parser.parse_deferred E ctx line "not 1 and 2"
     = Ok (stmt ctx (binop ctx LogicExpression "AND" (negation ctx (float_node ctx 1))
                       (float_node ctx 2)))
  /\ Parser.parse_deferred E ctx line "not 1 | 2"
     = Ok (stmt ctx (negation ctx (binop ctx BitwiseExpression "BWOR" (float_node ctx 1)
                                     (float_node ctx 2))))
  /\ Parser.parse_deferred E ctx line "1 & 2 ? 3 : 4"
     = Ok (stmt ctx (binop ctx BitwiseExpression "BWAND" (float_node ctx 1)
                       (ternary ctx (float_node ctx 2) (float_node ctx 3) (float_node ctx 4))))
  /\ Parser.parse_deferred E ctx line "1 == 2 ? 3 : 4"
     = Ok (stmt ctx (ternary ctx
                       (binop ctx ComparisonExpression "EQ" (float_node ctx 1) (float_node ctx 2))
                       (float_node ctx 3) (float_node ctx 4)))
  /\ Parser.parse_deferred E ctx line "-2 ** 3"
     = Ok (stmt ctx (binop ctx ArithmeticExpression "POW" (minus ctx (float_node ctx 2))
                       (float_node ctx 3)))
  /\ Parser.parse_deferred E ctx line "-a.b"
     = Ok (stmt ctx (minus ctx (attribute_node ctx (symbol_node ctx "a") "b" false))).
Proof.
  intros E ctx line.
  do 5 (split; [ compute_eq | ]).
  split.
  { apply (Forall_by_map _ _
             (fun '(lo, hi) =>
                (Parser.parse_deferred E ctx line (chain "1" (op_text lo) "2" (op_text hi) "3"),
                 Parser.parse_deferred E ctx line (chain "1" (op_text hi) "2" (op_text lo) "3")))
             (fun '(lo, hi) =>
                (Ok (stmt ctx (op_node ctx lo (float_node ctx 1)
                                 (op_node ctx hi (float_node ctx 2) (float_node ctx 3)))),
                 Ok (stmt ctx (op_node ctx lo
                                 (op_node ctx hi (float_node ctx 1) (float_node ctx 2))
                                 (float_node ctx 3)))))).
    - intros [lo hi] Heq. injection Heq as H1 H2. split; assumption.
    - compute_eq. }
  split.
  { apply (Forall_by_map _ _
             (fun '(a, b) =>
                Parser.parse_deferred E ctx line (chain "1" (op_text a) "2" (op_text b) "3"))
             (fun '(a, b) =>
                Ok (stmt ctx (op_node ctx b
                                (op_node ctx a (float_node ctx 1) (float_node ctx 2))
                                (float_node ctx 3))))).
    - intros [a b] Heq. exact Heq.
    - compute_eq. }
  split; [ split; compute_eq | ].
  split_all; compute_eq.
Qed.

(** ** Brace and bracket literals *)

(** C4: [{}] is an empty mapping, [{1,2,3}] a set of three members,
    [{1:2,3:4}] a mapping of two pairs, and a comma before the closing
    bracket of a set, a mapping or an array leaves the node as it is. *)
Theorem C4_brace_literals : forall E ctx line,
  Parser.parse_deferred E ctx line "{}"
  = Ok (stmt ctx (DeferredAstNode MappingExpression [PCtx ctx; PTuple []]))
  /\ Parser.parse_deferred E ctx line "{1,2,3}"
     = Ok (stmt ctx (DeferredAstNode SetExpression
                       [PCtx ctx; PTuple [float_node ctx 1; float_node ctx 2; float_node ctx 3]]))
  /\ Parser.parse_deferred E ctx line "{1:2,3:4}"
     = Ok (stmt ctx (DeferredAstNode MappingExpression
                       [PCtx ctx; PTuple [ PTuple [float_node ctx 1; float_node ctx 2];
                                           PTuple [float_node ctx 3; float_node ctx 4] ]]))
  /\ Parser.parse_deferred E ctx line "{1,2,3,}" = Parser.parse_deferred E ctx line "{1,2,3}"
  /\ Parser.parse_deferred E ctx line "{1:2,3:4,}" = Parser.parse_deferred E ctx line "{1:2,3:4}"
  /\ Parser.parse_deferred E ctx line "[1,2,3,]" = Parser.parse_deferred E ctx line "[1,2,3]"
  /\ Parser.parse_deferred E ctx line "[1,2,3]"
     = Ok (stmt ctx (DeferredAstNode ArrayExpression
                       [PCtx ctx; PTuple [float_node ctx 1; float_node ctx 2; float_node ctx 3]]))
  /\ (forall lb members comma rb,
        Actions.p_expression_set ctx [lb; members; comma; rb]
        = Actions.p_expression_set ctx [lb; members; rb])
  /\ (forall lb members comma rb,
        Actions.p_expression_mapping ctx [lb; members; comma; rb]
        = Actions.p_expression_mapping ctx [lb; members; rb])
  /\ (forall lb members comma rb,
        Actions.p_expression_array ctx [lb; members; comma; rb]
        = Actions.p_expression_array ctx [lb; members; rb]).
Proof.
  intros E ctx line.
  split_all; try (intros lb members comma rb; reflexivity); compute_eq.
Qed.

(** ** Numeric literals *)

(** A literal that starts with a zero and a digit is refused, and the message
    carries its text. *)
Lemma float_leading_zero_named : forall ctx str_val,
  Actions.leading_zero str_val = true ->
  Actions.p_expression_float ctx [PStr str_val]
  = Raise (RuleSyntaxError
             ("invalid floating point literal: " ++ str_val
              ++ " (leading zeros in decimal literals are not permitted)") None).
Proof.
  intros ctx str_val H.
  unfold Actions.p_expression_float; simpl.
  rewrite H. reflexivity.
Qed.

(** C5: [007] is a FLOAT token that the reduction refuses with a syntax error
    naming the literal; [0x1F], [0b101] and [0o17] are FLOAT tokens and parse
    to float nodes. *)
Theorem C5_numeric_literals : forall E ctx line,
  Lex.tokenize E "007" = Ok [mkTok "FLOAT" "007" 1 0]
  /\ Parser.parse_deferred E ctx line "007"
     = Raise (RuleSyntaxError
                "invalid floating point literal: 007 (leading zeros in decimal literals are not permitted)"
                None)
  /\ Lex.tokenize E "0x1F" = Ok [mkTok "FLOAT" "0x1F" 1 0]
  /\ Lex.tokenize E "0b101" = Ok [mkTok "FLOAT" "0b101" 1 0]
  /\ Lex.tokenize E "0o17" = Ok [mkTok "FLOAT" "0o17" 1 0]
  /\ Parser.parse_deferred E ctx line "0x1F" = Ok (stmt ctx (float_node ctx 31))
  /\ Parser.parse_deferred E ctx line "0b101" = Ok (stmt ctx (float_node ctx 5))
  /\ Parser.parse_deferred E ctx line "0o17" = Ok (stmt ctx (float_node ctx 15)).
Proof.
  intros E ctx line.
  split_all; compute_eq.
Qed.

(** ** Slices *)

Definition slice_node (ctx : Context) (container start stop : pyval) (safe : bool) : pyval :=
  PDeferred GetSliceExpression [PCtx ctx; container; start; stop] [("safe", PBool safe)] "build".

(** C8: the four slice forms give a slice node whose start and stop are
    absent ([None]) or present as written. *)
Theorem C8_slice_forms : forall E ctx line,
  Parser.parse_deferred E ctx line "a[:]"
  = Ok (stmt ctx (slice_node ctx (symbol_node ctx "a") PNone PNone false))
  /\ Parser.parse_deferred E ctx line "a[1:]"
     = Ok (stmt ctx (slice_node ctx (symbol_node ctx "a") (float_node ctx 1) PNone false))
  /\ Parser.parse_deferred E ctx line "a[:2]"
     = Ok (stmt ctx (slice_node ctx (symbol_node ctx "a") PNone (float_node ctx 2) false))
  /\ Parser.parse_deferred E ctx line "a[1:2]"
     = Ok (stmt ctx (slice_node ctx (symbol_node ctx "a") (float_node ctx 1) (float_node ctx 2) false)).
Proof.
  intros E ctx line.
  split_all; compute_eq.
Qed.


(** ** Operator names *)

(** The productions [expression : expression OP expression] whose method
    reads [op_names] (membership builds its node without the table). *)
Definition binary_productions : list Grammar.production :=
  match Grammar.Productions with
  | Ok ps =>
      filter (fun p =>
                String.eqb (Grammar.pname p) "expression"
                && match Grammar.psyms p with
                   | [l; k; r] =>
                       String.eqb l "expression" && String.eqb r "expression"
                       && negb (String.eqb k "IN")
                   | _ => false
                   end) ps
  | Raise _ => []
  end.

Definition operator_of (p : Grammar.production) : string := nth 1 (Grammar.psyms p) "".

(** The body shared by the binary productions reads the identifier of the
    operator text in [op_names]. *)
Lemma binary_spec : forall ctx cls l text r,
  Actions.binary ctx cls [l; PStr text; r]
  = match assoc text Lex.op_names with
    | Some id => Ok (binop ctx cls id l r)
    | None => Raise (KeyError text)
    end.
Proof.
  intros. unfold Actions.binary.
  change (Actions.unpack3 [l; PStr text; r]) with (Ok (l, PStr text, r)).
  unfold bind, Actions.dict_item, Actions.dict_get, bind.
  destruct (assoc text Lex.op_names); reflexivity.
Qed.

(** C2: every binary production names its node through [op_names]: the table
    sends each operator text to its identifier, the method of each binary
    production builds its node with the identifier the table gives for the
    text of the operator token, and a text with the operator between two
    symbols parses to the node with that identifier; [a ** b] gives POW and
    [a*b] gives MUL. *)
Theorem C2_operator_identifiers : forall E ctx line,
  Forall (fun '(text, id, _) => assoc text Lex.op_names = Some id) binary_operators
  /\ map operator_of binary_productions
     = [ "MOD"; "MUL"; "FDIV"; "TDIV"; "POW"; "ADD"; "SUB"; "BWAND"; "BWOR"; "BWXOR";
         "BWLSH"; "BWRSH"; "EQ"; "NE"; "GT"; "GE"; "LT"; "LE";
         "EQ_FZM"; "EQ_FZS"; "NE_FZM"; "NE_FZS"; "AND"; "OR" ]
  /\ Forall (fun p => exists cls, forall l text r,
               Actions.call E ctx (Grammar.pfunc p) [l; PStr text; r]
               = match assoc text Lex.op_names with
                 | Some id => Ok (binop ctx cls id l r)
                 | None => Raise (KeyError text)
                 end) binary_productions
  /\ Forall (fun '(text, id, cls) =>
               Parser.parse_deferred E ctx line ("a " ++ text ++ " b")
               = Ok (stmt ctx (binop ctx cls id (symbol_node ctx "a") (symbol_node ctx "b"))))
       binary_operators
  /\ Parser.parse_deferred E ctx line "a*b"
     = Ok (stmt ctx (binop ctx ArithmeticExpression "MUL" (symbol_node ctx "a") (symbol_node ctx "b")))
  /\ Lex.tokenize E "a ** b"
     = Ok [mkTok "SYMBOL" "a" 1 0; mkTok "POW" "**" 1 2; mkTok "SYMBOL" "b" 1 5]
  /\ Lex.tokenize E "a*b"
     = Ok [mkTok "SYMBOL" "a" 1 0; mkTok "MUL" "*" 1 1; mkTok "SYMBOL" "b" 1 2]
  /\ "POW" <> "MUL".
Proof.
  intros E ctx line.
  split; [ unfold binary_operators; forall_list; compute_eq | ].
  split; [ compute_eq | ].
  split.
  { replace binary_productions
      with (ltac:(let v := eval vm_compute in binary_productions in exact v))
      by (vm_compute; reflexivity).
    forall_list; (eexists; intros l text r; exact (binary_spec ctx _ l text r)). }
  split; [ unfold binary_operators; forall_list; compute_eq | ].
  split_all; try compute_eq.
  discriminate.
Qed.

(** ** Non-associative comparisons *)

(** The kinds of the non-associative row of the table, and their texts. *)
Definition nonassoc_kinds : list string :=
  flat_map (fun '(a, terms) => match a with Grammar.NonAssoc => terms | _ => [] end)
    Grammar.precedence.

Definition text_of (kind : string) : string :=
  match find (fun '(_, k) => String.eqb k kind) Lex.op_names with
  | Some (t, _) => t
  | None => ""
  end.

(** The productions that carry the level of the non-associative row. *)
Definition nonassoc_rule (T : LALR.lrtable) (p : nat) : bool :=
  match Grammar.Productions with
  | Ok ps =>
      match nth_error ps p with
      | Some pr => match Grammar.pprec pr with (Grammar.NonAssoc, _) => true | _ => false end
      | None => false
      end
  | Raise _ => false
  end.

Definition reduces_comparison (T : LALR.lrtable) (row : list (nat * LALR.action)) : bool :=
  existsb (fun '(_, a) => match a with LALR.Reduce p => nonassoc_rule T p | _ => false end) row.

Definition refuses (T : LALR.lrtable) (row : list (nat * LALR.action)) (kind : string) : bool :=
  match LALR.index_of kind (LALR.lr_terminals T) 0 with
  | Some a => match LALR.lookup a row with Some LALR.NoAction => true | _ => false end
  | None => false
  end.

(** Every state that can reduce a comparison has an emptied entry for each
    kind of the non-associative row. *)
Definition chaining_refused : bool :=
  match Parser.tables with
  | Ok T =>
      forallb (fun row =>
                 implb (reduces_comparison T row) (forallb (refuses T row) nonassoc_kinds))
        (LALR.lr_action T)
  | Raise _ => false
  end.

(** C6: [1 < 2 < 3] is a syntax error at the second operator, and so is every
    text [1 op 2 op' 3] with [op] and [op'] of the non-associative row
    (comparisons, fuzzy comparisons and [in]); in the tables, a state that
    has a comparison to reduce has no action on any operator of the row. *)
Theorem C6_comparisons_do_not_chain : forall E ctx line,
  Parser.parse_deferred E ctx line "1 < 2 < 3"
  = Raise (RuleSyntaxError "syntax error" (Some (mkTok "LT" "<" line 6)))
  /\ map text_of nonassoc_kinds
     = ["=="; "!="; "=~"; "=~~"; "!~"; "!~~"; ">="; ">"; "<="; "<"; "in"]
  /\ Forall (fun '(k1, k2) =>
               Parser.parse_deferred E ctx line
                 ("1 " ++ text_of k1 ++ " 2 " ++ text_of k2 ++ " 3")
               = Raise (RuleSyntaxError "syntax error"
                          (Some (mkTok k2 (text_of k2) line (5 + String.length (text_of k1))))))
       (list_prod nonassoc_kinds nonassoc_kinds)
  /\ chaining_refused = true.
Proof.
  intros E ctx line.
  split; [ compute_eq | ].
  split; [ compute_eq | ].
  split; [ | compute_eq ].
  replace (list_prod nonassoc_kinds nonassoc_kinds)
    with (ltac:(let v := eval vm_compute in (list_prod nonassoc_kinds nonassoc_kinds) in exact v))
    by (vm_compute; reflexivity).
  forall_list; compute_eq.
Qed.

(** ** Membership and its negation *)

Definition sample_externals : externals :=
  Build_externals "" (Re.Cls false []) (fun s => inl s) unit (fun _ _ _ _ => Ok tt).

Definition sample_context : Context := ContextObject 0.


(** ** The pattern of a token kind *)

Ltac in_list := simpl; repeat (try (left; reflexivity); right).

(** The kinds of the token set that no rule is declared for: they are given
    to a token by the function of another rule. *)
Definition kinds_without_rule (E : externals) : list string :=
  filter (fun k => negb (mem_str k (map Lex.rname (Lex.lexre E)))) Lex.tokens.

(** MUL is a token kind, and the helper has no pattern for it. *)
Lemma C9_counterexample :
  ~ (forall (E : externals) name,
       In name Lex.tokens -> exists pat, Lex.get_token_regex E name = Ok (Some pat)).
Proof.
  intro H.
  destruct (H sample_externals "MUL") as [pat Hpat].
  - vm_compute. in_list.
  - vm_compute in Hpat. discriminate Hpat.
Qed.

(** C9 (amended): for every rule of the lexer, [get_token_regex] on the kind
    the rule is declared for returns the pattern of that rule; for the kinds
    of the token set without a rule of their own (the reserved words and
    MUL, TDIV, BWLSH, BWRSH, EQ_FZM, NE_FZM, GE, LE) it raises
    [ValueError]. *)
Theorem C9_token_regex : forall E,
  Forall (fun r => exists pat,
            Lex.rtext r = Some pat /\ Lex.get_token_regex E (Lex.rname r) = Ok (Some pat))
    (Lex.lexre E)
  /\ kinds_without_rule E
     = [ "TRUE"; "FALSE"; "FLOAT_INF"; "FLOAT_NAN"; "NULL"; "AND"; "IN"; "OR"; "NOT"; "FOR"; "IF";
         "MUL"; "TDIV"; "BWLSH"; "BWRSH"; "EQ_FZM"; "NE_FZM"; "GE"; "LE" ]
  /\ Forall (fun name =>
               Lex.get_token_regex E name = Raise (ValueError ("unknown token: " ++ name)))
       (kinds_without_rule E).
Proof.
  intros E.
  split.
  { replace (Lex.lexre E) with (ltac:(let v := eval vm_compute in (Lex.lexre E) in exact v))
      by (vm_compute; reflexivity).
    forall_list; (eexists; split; [ reflexivity | compute_eq ]). }
  split; [ compute_eq | ].
  replace (kinds_without_rule E)
    with (ltac:(let v := eval vm_compute in (kinds_without_rule E) in exact v))
    by (vm_compute; reflexivity).
  forall_list; compute_eq.
Qed.

(** ** Safe access *)

(** C7: [a.b] and [a&.b] give the same attribute node but for the [safe]
    flag, false and true; so do [a[0]] and [a&[0]] for the item node; the
    flag is read off the text of the operator token alone; and the lexer
    gives a token the kind ATTR_SAFE only at a [&.] that comes right after a
    character that is not a space and right before the first character of a
    symbol: after a space the same [&.] is a BWAND and an ATTR token. *)
Theorem C7_safe_access : forall E ctx line,
  Parser.parse_deferred E ctx line "a.b"
  = Ok (stmt ctx (attribute_node ctx (symbol_node ctx "a") "b" false))
  /\ Parser.parse_deferred E ctx line "a&.b"
     = Ok (stmt ctx (attribute_node ctx (symbol_node ctx "a") "b" true))
  /\ Parser.parse_deferred E ctx line "a[0]"
     = Ok (stmt ctx (item_node ctx (symbol_node ctx "a") (float_node ctx 0) false))
  /\ Parser.parse_deferred E ctx line "a&[0]"
     = Ok (stmt ctx (item_node ctx (symbol_node ctx "a") (float_node ctx 0) true))
  /\ (forall obj name,
        Actions.p_expression_getattr ctx [obj; PStr "."; PStr name]
        = Ok (attribute_node ctx obj name false)
        /\ Actions.p_expression_getattr ctx [obj; PStr "&."; PStr name]
           = Ok (attribute_node ctx obj name true))
  /\ (forall container item,
        Actions.p_expression_getitem ctx [container; PStr "["; item]
        = Ok (item_node ctx container item false)
        /\ Actions.p_expression_getitem ctx [container; PStr "&["; item]
           = Ok (item_node ctx container item true))
  /\ (forall fuel lx tok lx',
        Lex.token E fuel lx = Ok (Some tok, lx') ->
        ttype tok = "ATTR_SAFE" ->
        attr_safe_site lx /\ tvalue tok = "&.")
  /\ Lex.tokenize E "a &.b"
     = Ok [ mkTok "SYMBOL" "a" 1 0; mkTok "BWAND" "&" 1 2; mkTok "ATTR" "." 1 3;
            mkTok "SYMBOL" "b" 1 4 ].
Proof.
  intros E ctx line.
  do 4 (split; [ compute_eq | ]).
  split; [ intros obj name; split; reflexivity | ].
  split; [ intros container item; split; reflexivity | ].
  split; [ exact (token_attr_safe E) | compute_eq ].
Qed.

Lemma C7_safe_access_witness :
  attr_safe_site (Lex.mkLexer "&.b" (Some "a"%char) 1 1)
  /\ tvalue (mkTok "ATTR_SAFE" "&." 1 1) = "&.".
Proof.
  apply (proj1 (proj2 (proj2 (proj2 (proj2 (proj2 (proj2
           (C7_safe_access sample_externals sample_context 1)))))))
           4 (Lex.mkLexer "&.b" (Some "a"%char) 1 1) (mkTok "ATTR_SAFE" "&." 1 1)
           (Lex.mkLexer "b" (Some "."%char) 3 1)).
  - vm_compute. reflexivity.
  - reflexivity.
Defined.

(** ** The slice reduction *)

Definition slice_productions : list Grammar.production :=
  match Grammar.Productions with
  | Ok ps => filter (fun p => String.eqb (Grammar.pfunc p) "p_expression_getslice") ps
  | Raise _ => []
  end.

Definition is_deferred (v : pyval) : bool :=
  match v with
  | PDeferred _ _ _ _ => true
  | _ => false
  end.

Import LALR.

Definition slice_error : exn := RuleSyntaxError "invalid get slice expression" None.

(** What the value of a grammar symbol is on the parser's stack: a deferred
    node for [statement], [expression] and [object]; the text [:] for COLON
    and one of the two bracket texts for LBRACKET. *)
Definition well_typed (sym : string) (v : pyval) : bool :=
  if mem_str sym ["statement"; "expression"; "object"] then is_deferred v
  else if String.eqb sym "COLON" then Actions.py_eq_str v ":"
  else if String.eqb sym "LBRACKET" then Actions.py_eq_str v "[" || Actions.py_eq_str v "&["
  else true.

Section TableChecks.
Variable T : lrtable.
Variable ps : list Grammar.production.

Definition nonterminal_name (x : nat) : string :=
  match find (fun '(_, l, _, _) => Nat.eqb l x) (lr_prods T) with
  | Some (name, _, _, _) => name
  | None => ""
  end.

(** The transitions out of a state: the symbol and the state it leads to. *)
Definition edges (q : nat) : list (string * nat) :=
  (flat_map (fun '(a, act) =>
               match act with
               | Shift j => [(nth a (lr_terminals T) "", j)]
               | _ => []
               end) (nth q (lr_action T) [])
   ++ map (fun '(x, j) => (nonterminal_name x, j)) (nth q (lr_goto T) []))%list.

Definition nstates : nat := length (lr_action T).

(** The transitions into a state. *)
Definition preds_of (j : nat) : list (nat * string) :=
  flat_map (fun q =>
              flat_map (fun '(name, j') => if Nat.eqb j' j then [(q, name)] else [])
                (edges q))
    (seq 0 nstates).

Definition preds : list (list (nat * string)) := map preds_of (seq 0 nstates).

(** Every path of transitions that ends in [q] spells the symbols [rsyms]
    (last one first) and does not start below state 0. *)
Fixpoint back_ok (pr : list (list (nat * string))) (q : nat) (rsyms : list string) : bool :=
  match rsyms with
  | [] => true
  | x :: rsyms' =>
      negb (Nat.eqb q 0)
      && forallb (fun '(q', name) => String.eqb name x && back_ok pr q' rsyms') (nth q pr [])
  end.

Definition reduce_ok (pr : list (list (nat * string))) (q p : nat) : bool :=
  match nth_error ps p, nth_error (lr_prods T) p with
  | Some prod, Some (name, l, n, fname) =>
      String.eqb name (Grammar.pname prod)
      && Nat.eqb n (length (Grammar.psyms prod))
      && String.eqb fname (Grammar.pfunc prod)
      && String.eqb (nonterminal_name l) name
      && back_ok pr q (rev (Grammar.psyms prod))
  | _, _ => false
  end.

(** The checks the tables pass: a reduction happens only on top of the
    symbols of its right-hand side, no transition enters state 0 and every
    state is within the tables. *)
Definition table_ok : bool :=
  let pr := preds in
  forallb (fun q =>
             forallb (fun '(_, act) =>
                        match act with
                        | Reduce p => reduce_ok pr q p
                        | _ => true
                        end) (nth q (lr_action T) [])
             && forallb (fun '(_, j) => negb (Nat.eqb j 0) && (j <? nstates)%nat) (edges q))
    (seq 0 nstates)
  && Nat.eqb (length (lr_goto T)) nstates.

End TableChecks.

Definition the_table : lrtable :=
  match Parser.tables with
  | Ok T => T
  | Raise _ => mkTable [] [] [] []
  end.

Definition the_productions : list Grammar.production :=
  match Grammar.Productions with
  | Ok ps => ps
  | Raise _ => []
  end.

Lemma the_table_ok : table_ok the_table the_productions = true.
Proof. vm_compute. reflexivity. Qed.

(** The stacks of a run: each symbol labels the transition between the two
    states around it and carries a value of its kind; state 0 is at the
    bottom. *)
Fixpoint stack_ok (T : lrtable) (statestack : list nat) (symstack : list (string * pyval))
  : Prop :=
  match statestack, symstack with
  | [q], [_] => q = 0
  | j :: ((q :: _) as ss), (name, v) :: sy =>
      In (name, j) (edges T q) /\ well_typed name v = true /\ stack_ok T ss sy
  | _, _ => False
  end.

Section TableFacts.
Variable T : lrtable.
Variable ps : list Grammar.production.
Hypothesis Hok : table_ok T ps = true.

Lemma table_ok_state : forall q,
  q < nstates T ->
  forallb (fun '(_, act) =>
             match act with
             | Reduce p => reduce_ok T ps (preds T) q p
             | _ => true
             end) (nth q (lr_action T) []) = true
  /\ forallb (fun '(_, j) => negb (Nat.eqb j 0) && (j <? nstates T)%nat) (edges T q) = true.
Proof.
  intros q Hq. unfold table_ok in Hok.
  apply andb_true_iff in Hok. destruct Hok as [H _].
  rewrite forallb_forall in H.
  specialize (H q). rewrite in_seq in H.
  apply andb_true_iff. apply H. lia.
Qed.

Lemma goto_length : length (lr_goto T) = nstates T.
Proof.
  unfold table_ok in Hok. apply andb_true_iff in Hok. destruct Hok as [_ H].
  apply Nat.eqb_eq in H. exact H.
Qed.

Lemma edges_state : forall q name j, In (name, j) (edges T q) -> q < nstates T.
Proof.
  intros q name j H.
  destruct (Nat.lt_ge_cases q (nstates T)) as [Hlt | Hge]; [ exact Hlt | exfalso ].
  unfold edges in H.
  rewrite (nth_overflow (lr_action T)) in H by exact Hge.
  rewrite (nth_overflow (lr_goto T)) in H by (rewrite goto_length; exact Hge).
  exact H.
Qed.

Lemma edges_target : forall q name j,
  In (name, j) (edges T q) -> j <> 0 /\ j < nstates T.
Proof.
  intros q name j H.
  destruct (table_ok_state q (edges_state _ _ _ H)) as [_ He].
  rewrite forallb_forall in He. specialize (He _ H). cbn in He.
  apply andb_true_iff in He. destruct He as [H0 Hlt].
  apply negb_true_iff, Nat.eqb_neq in H0. apply Nat.ltb_lt in Hlt. split; assumption.
Qed.

Lemma edge_pred : forall q name j,
  In (name, j) (edges T q) -> In (q, name) (nth j (preds T) []).
Proof.
  intros q name j H.
  pose proof (edges_state _ _ _ H) as Hq.
  destruct (edges_target _ _ _ H) as [_ Hj].
  unfold preds.
  replace (nth j (map (preds_of T) (seq 0 (nstates T))) [])
    with (preds_of T (nth j (seq 0 (nstates T)) 0)).
  - rewrite seq_nth by exact Hj. cbn [plus]. unfold preds_of.
    apply in_flat_map. exists q. split; [ apply in_seq; lia | ].
    apply in_flat_map. exists (name, j). split; [ exact H | ].
    rewrite Nat.eqb_refl. left. reflexivity.
  - symmetry. erewrite nth_indep; [ apply map_nth | ].
    rewrite length_map, length_seq. exact Hj.
Qed.

(** On top of a state that passed [back_ok] lie the symbols it names, with
    values of their kinds, and what is below is a stack again. *)
Lemma back_spells : forall rsyms q ss sy,
  back_ok (preds T) q rsyms = true ->
  stack_ok T (q :: ss) sy ->
  exists top below,
    sy = (top ++ below)%list
    /\ map fst top = rsyms
    /\ Forall (fun '(name, v) => well_typed name v = true) top
    /\ stack_ok T (skipn (length rsyms) (q :: ss)) below.
Proof.
  induction rsyms as [|x rsyms IH]; intros q ss sy Hb Hs.
  - exists [], sy. repeat split; [ constructor | exact Hs ].
  - cbn [back_ok] in Hb. apply andb_true_iff in Hb. destruct Hb as [Hq Hall].
    apply negb_true_iff, Nat.eqb_neq in Hq.
    destruct ss as [|q' ss'].
    + cbn in Hs. destruct sy as [|e [|e' sy']]; try contradiction.
    + destruct sy as [|[name v] sy']; [ contradiction | ].
      cbn [stack_ok] in Hs. destruct Hs as (Hedge & Hwt & Hs).
      rewrite forallb_forall in Hall.
      specialize (Hall _ (edge_pred _ _ _ Hedge)). cbn in Hall.
      apply andb_true_iff in Hall. destruct Hall as [Hname Hb'].
      apply String.eqb_eq in Hname. subst x.
      destruct (IH _ _ _ Hb' Hs) as (top & below & -> & Hfst & Htop & Hbelow).
      exists ((name, v) :: top), below.
      repeat split.
      * cbn. rewrite Hfst. reflexivity.
      * constructor; assumption.
      * exact Hbelow.
Qed.

End TableFacts.

Lemma typed_slots : forall top,
  Forall (fun '(name, v) => well_typed name v = true) top ->
  Forall2 (fun sym v => well_typed sym v = true) (rev (map fst top)) (rev (map snd top)).
Proof.
  induction top as [|[name v] top IH]; intros H; cbn.
  - constructor.
  - inversion H; subst. apply Forall2_app; [ apply IH; assumption | ].
    constructor; [ assumption | constructor ].
Qed.

(** *** The methods keep the values of their kinds *)

Lemma wt_node : forall sym v,
  mem_str sym ["statement"; "expression"; "object"] = true ->
  well_typed sym v = true ->
  exists cls args kwargs method, v = PDeferred cls args kwargs method.
Proof.
  intros sym v Hs H. unfold well_typed in H. rewrite Hs in H.
  destruct v; try discriminate H. do 4 eexists. reflexivity.
Qed.

Lemma wt_colon : forall v, well_typed "COLON" v = true -> v = PStr ":".
Proof.
  intros v H. destruct v; try discriminate H.
  apply String.eqb_eq in H. subst. reflexivity.
Qed.

Lemma wt_lbracket : forall v,
  well_typed "LBRACKET" v = true -> v = PStr "[" \/ v = PStr "&[".
Proof.
  intros v H. destruct v; try discriminate H.
  apply orb_true_iff in H. destruct H as [H | H]; apply String.eqb_eq in H; subst; auto.
Qed.

Ltac typed_slots :=
  repeat match goal with
         | H : Forall2 _ (_ :: _) _ |- _ => inversion H; clear H; subst
         | H : Forall2 _ [] _ |- _ => inversion H; clear H; subst
         end;
  repeat match goal with
         | H : well_typed ?k ?v = true |- _ =>
             first
               [ destruct (wt_node k v eq_refl H) as (? & ? & ? & ? & ->); clear H
               | apply wt_colon in H; subst v
               | apply wt_lbracket in H; destruct H; subst v
               | clear H ]
         end.

Definition method_ok (E : externals) (ctx : Context) (pr : Grammar.production) : Prop :=
  forall targ,
    Forall2 (fun sym v => well_typed sym v = true) (Grammar.psyms pr) targ ->
    match Actions.call E ctx (Grammar.pfunc pr) targ with
    | Ok v => well_typed (Grammar.pname pr) v = true
    | Raise e => e <> slice_error
    end.

Lemma float_method_ok : forall ctx v,
  match Actions.p_expression_float ctx [v] with
  | Ok r => is_deferred r = true
  | Raise e => e <> slice_error
  end.
Proof.
  intros ctx v. unfold Actions.p_expression_float. cbn [Actions.item Nat.sub nth_error bind].
  destruct v; try discriminate.
  destruct (Actions.leading_zero s); [ discriminate | ].
  destruct (Actions.literal_eval_number s) as [n|]; [ | discriminate ].
  unfold Actions.float.
  destruct n as [z | m e].
  - destruct (Z.leb _ _); cbn [bind]; [ discriminate | reflexivity ].
  - reflexivity.
Qed.

Ltac explicit_productions :=
  replace the_productions
    with (ltac:(let v := eval vm_compute in the_productions in exact v))
    by (vm_compute; reflexivity).

Ltac pick_method :=
  unfold Actions.call, Actions.methods; cbn [assoc String.eqb Ascii.eqb Bool.eqb].

Ltac break_matches :=
  repeat match goal with
         | |- context [match ?x with _ => _ end] =>
             destruct x
         end.

Ltac not_slice :=
  unfold slice_error, AttributeError, KeyError, TypeError, ValueError, IndexError;
  discriminate.

Ltac unfold_methods :=
  try unfold Actions.p_statement_expr;
  try unfold Actions.p_expression_getattr;
  try unfold Actions.p_expression_object;
  try unfold Actions.p_expression_ternary;
  try unfold Actions.p_expression_arithmetic;
  try unfold Actions.p_expression_add;
  try unfold Actions.p_expression_sub;
  try unfold Actions.p_expression_bitwise;
  try unfold Actions.p_expression_bitwise_shift;
  try unfold Actions.p_expression_contains;
  try unfold Actions.p_expression_comparison;
  try unfold Actions.p_expression_arithmetic_comparison;
  try unfold Actions.p_expression_fuzzy_comparison;
  try unfold Actions.p_expression_logic;
  try unfold Actions.p_expression_group;
  try unfold Actions.p_expression_negate;
  try unfold Actions.p_expression_symbol;
  try unfold Actions.p_expression_uminus;
  try unfold Actions.p_expression_boolean;
  try unfold Actions.p_expression_datetime;
  try unfold Actions.p_expression_timedelta;
  try unfold Actions.p_expression_float_nan;
  try unfold Actions.p_expression_float_inf;
  try unfold Actions.p_expression_null;
  try unfold Actions.p_expression_set;
  try unfold Actions.p_expression_string;
  try unfold Actions.p_expression_array;
  try unfold Actions.p_expression_array_comprehension;
  try unfold Actions.p_expression_mapping_members;
  try unfold Actions.p_expression_array_members;
  try unfold Actions.p_expression_mapping;
  try unfold Actions.p_expression_mapping_member;
  try unfold Actions.p_expression_getitem;
  try unfold Actions.p_expression_getslice;
  try unfold Actions.binary;
  try unfold Actions.unpack3;
  try unfold Actions.unpack4;
  try unfold Actions.unpack5;
  try unfold Actions.item;
  try unfold Actions.len;
  try unfold Actions.dict_item;
  try unfold Actions.dict_get;
  try unfold Actions.tuple;
  try unfold Actions.literal_eval_text;
  try unfold DeferredAstNode;
  idtac.

Ltac step_method :=
  cbn [nth_error firstn skipn Nat.sub Nat.eqb Nat.ltb Nat.leb length bind andb orb
       Actions.py_eq_str Actions.index_str String.eqb Ascii.eqb Bool.eqb].

Ltac break_one :=
  first
    [ match goal with
      | |- context [match ?x with _ => _ end] => is_var x; destruct x
      end
    | match goal with
      | |- context [assoc ?a ?b] => destruct (assoc a b)
      end
    | match goal with
      | |- context [literal_eval_str ?a ?b] => destruct (literal_eval_str a b) as [? | [? ?]]
      end
    | match goal with
      | |- context [String.eqb ?a ?b] => destruct (String.eqb a b)
      end
    | match goal with
      | |- context [Ascii.eqb ?a ?b] => destruct (Ascii.eqb a b)
      end ].

Ltac finish_method :=
  unfold_methods; step_method;
  repeat (break_one; step_method);
  first [ reflexivity | not_slice ].

Lemma methods_ok : forall E ctx, Forall (method_ok E ctx) the_productions.
Proof.
  intros E ctx. explicit_productions.
  forall_list; intros targ Hslots; cbn [Grammar.psyms Grammar.pfunc Grammar.pname] in *;
    typed_slots; pick_method.
  all: try (match goal with |- context [Actions.p_expression_float] => apply float_method_ok end).
  all: solve [ finish_method ].
Qed.

(** *** The lexer gives tokens of their kinds *)


Lemma take_prefix : forall a b,
  take (String.length (a ++ b) - String.length b) (a ++ b) = a.
Proof.
  intros a b. rewrite length_app.
  replace (String.length a + String.length b - String.length b) with (String.length a) by lia.
  apply take_length_app.
Qed.

Lemma chr_match : forall c prev s s',
  rmatch (Chr c) prev s = Some s' -> s = String c s'.
Proof.
  intros c prev s s' H. unfold rmatch in H. cbn [run] in H. unfold one in H.
  destruct s as [|c1 s1]; [ discriminate H | ].
  destruct (Ascii.eqb_spec c c1) as [<- | ]; [ | discriminate H ].
  inversion H. reflexivity.
Qed.

Lemma lbracket_match : forall prev s s',
  rmatch (Cat (Opt (Cat (Behind NotSpace) (Chr "&"))) (Chr "[")) prev s = Some s' ->
  s = String "&" (String "[" s') \/ s = String "[" s'.
Proof.
  intros prev s s' H. unfold rmatch in H. cbn [run] in H.
  unfold orelse in H.
  match type of H with
  | match ?m with Some _ => _ | None => _ end = _ => destruct m as [r|] eqn:Hm
  end.
  - left. inversion H; subst r. clear H.
    destruct prev as [c|]; [ | discriminate Hm ].
    unfold one at 1 in Hm.
    destruct (negb (is_space c)); [ | discriminate Hm ].
    unfold one in Hm.
    destruct s as [|c1 s1]; [ discriminate Hm | ].
    destruct (Ascii.eqb_spec "&"%char c1) as [<- | ]; [ | discriminate Hm ].
    destruct s1 as [|c2 s2]; [ discriminate Hm | ].
    destruct (Ascii.eqb_spec "["%char c2) as [<- | ]; [ | discriminate Hm ].
    inversion Hm. reflexivity.
  - right. unfold one in H.
    destruct s as [|c1 s1]; [ discriminate H | ].
    destruct (Ascii.eqb_spec "["%char c1) as [<- | ]; [ | discriminate H ].
    inversion H. reflexivity.
Qed.

(** A kind other than the five with a constraint takes any value. *)
Lemma wt_other : forall k v,
  mem_str k ["statement"; "expression"; "object"; "COLON"; "LBRACKET"] = false ->
  well_typed k v = true.
Proof.
  intros k v H. unfold well_typed. cbn [mem_str existsb] in *.
  destruct (String.eqb k "statement"); [ discriminate H | ].
  destruct (String.eqb k "expression"); [ discriminate H | ].
  destruct (String.eqb k "object"); [ discriminate H | ].
  destruct (String.eqb k "COLON"); [ discriminate H | ].
  destruct (String.eqb k "LBRACKET"); [ discriminate H | ].
  reflexivity.
Qed.

Lemma raise_ok : forall (g : Lex.tokfun) t ln e,
  In g [Lex.t_POW; Lex.t_FDIV; Lex.t_LT; Lex.t_GT; Lex.t_EQ_FZS; Lex.t_NE_FZS;
        Lex.t_DATETIME; Lex.t_TIMEDELTA; Lex.t_STRING; Lex.t_SYMBOL; Lex.t_newline] ->
  g t ln = Raise e -> e <> slice_error.
Proof.
  intros g t ln e Hg H.
  repeat (destruct Hg as [<- | Hg]); [ .. | destruct Hg ].
  1,2,5,6,7,8,11: discriminate H.
  - unfold Lex.t_LT in H. destruct (assoc _ _); inversion H. not_slice.
  - unfold Lex.t_GT in H. destruct (assoc _ _); inversion H. not_slice.
  - unfold Lex.t_STRING in H. destruct (tvalue t) as [|a v]; [ discriminate H | ].
    destruct a as [[] [] [] [] [] [] [] []]; discriminate H.
  - unfold Lex.t_SYMBOL in H. destruct (mem_str _ _); inversion H. not_slice.
Qed.

Definition token_result_ok (r : outcome (option LexToken * Lex.lexer)) : Prop :=
  match r with
  | Ok (Some tok, _) => well_typed (ttype tok) (PStr (tvalue tok)) = true
  | Ok (None, _) => True
  | Raise e => e <> slice_error
  end.

Lemma token_ok : forall E fuel lx, token_result_ok (Lex.token E fuel lx).
Proof.
  intros E fuel. induction fuel as [|f IH]; intros lx.
  - cbn. discriminate.
  - cbn [Lex.token].
    destruct (Lex.lexrest lx) as [|c rest] eqn:Hrest; [ exact I | ].
    destruct (str_mem c (Lex.lexignore E)); [ apply IH | ].
    destruct (Lex.first_match (Lex.lexre E) (Lex.lexprev lx) (String c rest))
      as [[r s']|] eqn:Hfm; [ | cbn; discriminate ].
    apply first_match_In in Hfm. destruct Hfm as [Hin Hm].
    explicit_rules E.
    repeat (destruct Hin as [<- | Hin]); [ .. | destruct Hin ];
      cbn [Lex.rfun Lex.rname Lex.rre] in *.
    (* the rules with a function *)
    all: try match goal with
             | |- token_result_ok (bind (?g ?t0 ?ln) _) =>
                 let Hf := fresh "Hf" in
                 destruct (g t0 ln) as [[r0 ln'] | e] eqn:Hf; cbn [bind];
                 [ first
                     [ function_kind Hf;
                       destruct Hf as (t' & -> & Hk);
                       destruct (mem_str (ttype t') Lex.tokens); [ | cbn; discriminate ];
                       cbn [token_result_ok]; apply wt_other;
                       cbn [ttype map snd Lex.reserved_words In] in Hk;
                       repeat (destruct Hk as [Hk | Hk]); try contradiction;
                       first [ rewrite Hk; reflexivity | rewrite <- Hk; reflexivity ]
                     | apply newline_drops in Hf; subst r0; apply IH ]
                 | cbn [token_result_ok]; apply (raise_ok g t0 ln); [ in_list | exact Hf ] ]
             end.
    (* the rules given by a string *)
    all: cbn [token_result_ok ttype tvalue].
    all: try (apply wt_other; reflexivity).
    + apply lbracket_match in Hm. destruct Hm as [Hm | Hm]; rewrite Hm.
      * change (String "&" (String "[" s')) with ("&[" ++ s'). rewrite take_prefix. reflexivity.
      * change (String "[" s') with ("[" ++ s'). rewrite take_prefix. reflexivity.
    + apply chr_match in Hm. rewrite Hm.
      change (String ":" s') with (":" ++ s'). rewrite take_prefix. reflexivity.
Qed.

(** *** The run of the parser *)

Lemma lookup_In : forall {A} k (l : list (nat * A)) v, lookup k l = Some v -> In (k, v) l.
Proof.
  intros A k l v. induction l as [|[k' v'] l IH]; cbn [lookup]; intros H.
  - discriminate H.
  - destruct (Nat.eqb_spec k k') as [<- | ].
    + inversion H. left. reflexivity.
    + right. apply IH. exact H.
Qed.

Lemma index_of_nth : forall x l i a,
  index_of x l i = Some a -> i <= a /\ nth (a - i) l "" = x.
Proof.
  intros x l. induction l as [|y l IH]; cbn [index_of]; intros i a H.
  - discriminate H.
  - destruct (String.eqb_spec x y) as [<- | ].
    + inversion H; subst. split; [ lia | ]. rewrite Nat.sub_diag. reflexivity.
    + destruct (IH _ _ H) as [Hle Hn]. split; [ lia | ].
      replace (a - i) with (S (a - S i)) by lia. exact Hn.
Qed.

Section Safety.
Variable E : externals.
Variable ctx : Context.
Variable T : lrtable.
Variable ps : list Grammar.production.
Hypothesis Hok : table_ok T ps = true.
Hypothesis Hmethods : Forall (method_ok E ctx) ps.
Variable LX : Type.
Variable get_token : LX -> outcome (option LexToken * LX).

(** The lexer the parser draws from gives tokens of their kinds and does not
    raise the slice error. *)
Definition source_ok : Prop :=
  forall lx,
    match get_token lx with
    | Ok (Some tok, _) => well_typed (ttype tok) (PStr (tvalue tok)) = true
    | Ok (None, _) => True
    | Raise e => e <> slice_error
    end.
Hypothesis Hsource : source_ok.

(** No production of the grammar is empty. *)
Hypothesis Hfull : Forall (fun pr => Grammar.psyms pr <> []) ps.

Definition la_ok (la : option Parser.lasym) : Prop :=
  match la with
  | Some (Parser.LaToken tok) => well_typed (ttype tok) (PStr (tvalue tok)) = true
  | _ => True
  end.

Lemma la_value_ok : forall s,
  la_ok (Some s) -> well_typed (Parser.sym_type s) (Parser.sym_value s) = true.
Proof. intros [tok| |] H; [ exact H | reflexivity | reflexivity ]. Qed.

Lemma next_ok : forall q la saved lx,
  la_ok la ->
  Forall la_ok saved ->
  match Parser.next T get_token q la saved lx with
  | Ok (t, la', saved', lx') =>
      la_ok la' /\ Forall la_ok saved'
      /\ forall act, t = Some act ->
           exists a, In (a, act) (nth q (lr_action T) [])
                     /\ forall j, act = Shift j ->
                          exists s, la' = Some s /\ nth a (lr_terminals T) "" = Parser.sym_type s
  | Raise e => e <> slice_error
  end.
Proof.
  intros q la saved lx Hla Hsaved. unfold Parser.next.
  destruct (Parser.defaulted (nth q (lr_action T) [])) as [p|] eqn:Hd.
  - split; [ exact Hla | ]. split; [ exact Hsaved | ].
    intros act Hact. inversion Hact; subst act.
    unfold Parser.defaulted in Hd.
    destruct (nth q (lr_action T) []) as [|[a [j|p'| |]] [|? ?]]; try discriminate Hd.
    inversion Hd; subst. exists a. split; [ left; reflexivity | discriminate ].
  - assert (Htok :
      match (match la with
             | Some s => Ok (s, saved, lx)
             | None =>
                 match saved with
                 | top :: rest =>
                     Ok (match top with Some s => s | None => Parser.LaEnd end, rest, lx)
                 | [] =>
                     do (tok, lx') <- get_token lx;
                     Ok (match tok with
                         | Some tk => Parser.LaToken tk
                         | None => Parser.LaEnd
                         end, [], lx')
                 end
             end) with
      | Ok (s, saved', _) => la_ok (Some s) /\ Forall la_ok saved'
      | Raise e => e <> slice_error
      end).
    { destruct la as [s|].
      - split; assumption.
      - destruct saved as [|top rest].
        + specialize (Hsource lx).
          destruct (get_token lx) as [[[tok|] lx']|e]; cbn; auto.
        + inversion Hsaved; subst. split; [ | assumption ].
          destruct top as [s|]; [ assumption | exact I ]. }
    match type of Htok with
    | match ?m with _ => _ end => destruct m as [[[s saved'] lx']|e]
    end; cbn [bind]; [ | exact Htok ].
    destruct Htok as [Hs Hsaved'].
    split; [ exact Hs | ]. split; [ exact Hsaved' | ].
    intros act Hact.
    destruct (index_of (Parser.sym_type s) (lr_terminals T) 0) as [a|] eqn:Hi;
      [ | discriminate Hact ].
    exists a. split; [ apply lookup_In; exact Hact | ].
    intros j _. exists s. split; [ reflexivity | ].
    destruct (index_of_nth _ _ _ _ Hi) as [_ Hn].
    rewrite Nat.sub_0_r in Hn. exact Hn.
Qed.

Lemma shift_edge : forall q a j,
  In (a, Shift j) (nth q (lr_action T) []) ->
  In (nth a (lr_terminals T) "", j) (edges T q).
Proof.
  intros q a j H. unfold edges. apply in_or_app. left.
  apply in_flat_map. exists (a, Shift j). split; [ exact H | left; reflexivity ].
Qed.

Lemma goto_edge : forall q x j,
  lookup x (nth q (lr_goto T) []) = Some j ->
  In (nonterminal_name T x, j) (edges T q).
Proof.
  intros q x j H. unfold edges. apply in_or_app. right.
  apply in_map_iff. exists (x, j). split; [ reflexivity | apply lookup_In; exact H ].
Qed.

Lemma stack_nonempty : forall statestack symstack,
  stack_ok T statestack symstack ->
  exists q ss, statestack = q :: ss.
Proof.
  intros [|q ss] symstack H; [ destruct H | eauto ].
Qed.

Lemma stack_push : forall q ss sy name v j,
  stack_ok T (q :: ss) sy ->
  In (name, j) (edges T q) ->
  well_typed name v = true ->
  stack_ok T (j :: q :: ss) ((name, v) :: sy).
Proof.
  intros q ss sy name v j Hs He Hv. cbn [stack_ok]. repeat split; assumption.
Qed.

(** A stack above the start state is a stack again without its top. *)
Lemma stack_pop : forall statestack symstack,
  stack_ok T statestack symstack ->
  Nat.leb (length statestack) 1 = false ->
  stack_ok T (tl statestack) (tl symstack).
Proof.
  intros [|j [|q ss]] symstack H Hlen; try discriminate Hlen.
  destruct symstack as [|[name v] sy]; [ destruct H | ].
  cbn [stack_ok] in H. destruct H as (_ & _ & H). exact H.
Qed.

(** The run of the parser, recovery included, keeps the stacks in step with
    the tables, and so never meets the last branch of the slice method. *)
Theorem parseopt_safe : forall fuel statestack symstack la saved errorcount errorok lx,
  stack_ok T statestack symstack ->
  la_ok la ->
  Forall la_ok saved ->
  Parser.parseopt E ctx T get_token fuel statestack symstack la saved errorcount errorok lx
  <> Raise slice_error.
Proof.
  induction fuel as [|fuel IH];
    intros statestack symstack la saved errorcount errorok lx Hs Hla Hsaved.
  - cbn. discriminate.
  - cbn [Parser.parseopt].
    destruct (stack_nonempty _ _ Hs) as (q & ss & ->). cbn [hd].
    pose proof (next_ok q la saved lx Hla Hsaved) as Hna.
    destruct (Parser.next T get_token q la saved lx) as [[[[t la'] saved'] lx']|e]; cbn [bind].
    2: { intro Hraise. inversion Hraise. contradiction. }
    destruct Hna as (Hla' & Hsaved' & Hact).
    destruct t as [[j|p| |]|].
    + (* shift *)
      destruct (Hact _ eq_refl) as (a & Hin & Hname).
      destruct (Hname j eq_refl) as (s & -> & Hs').
      apply IH; [ | exact I | exact Hsaved' ].
      apply stack_push; [ exact Hs | | apply la_value_ok; exact Hla' ].
      rewrite <- Hs'. apply shift_edge. exact Hin.
    + (* reduce *)
      destruct (Hact _ eq_refl) as (a & Hin & _).
      pose proof (edges_state T ps Hok) as Hst.
      assert (Hq : q < nstates T).
      { destruct (Nat.lt_ge_cases q (nstates T)) as [Hlt | Hge]; [ exact Hlt | exfalso ].
        rewrite (nth_overflow (lr_action T)) in Hin by exact Hge. exact Hin. }
      destruct (table_ok_state T ps Hok q Hq) as [Hred _].
      rewrite forallb_forall in Hred. specialize (Hred _ Hin). cbn in Hred.
      unfold reduce_ok in Hred.
      destruct (nth_error ps p) as [prod|] eqn:Hprod; [ | discriminate Hred ].
      destruct (nth_error (lr_prods T) p) as [[[[pname plhs] plen] fname]|];
        [ | discriminate Hred ].
      repeat (apply andb_true_iff in Hred; destruct Hred as [Hred ?]).
      repeat match goal with
             | H : String.eqb _ _ = true |- _ => apply String.eqb_eq in H
             | H : Nat.eqb _ _ = true |- _ => apply Nat.eqb_eq in H
             end.
      subst pname plen fname.
      match goal with
      | H : back_ok _ _ _ = true |- _ =>
          destruct (back_spells T ps Hok _ _ _ _ H Hs) as (top & below & -> & Hfst & Htop & Hbelow)
      end.
      assert (Hlen : length top = length (Grammar.psyms prod)).
      { rewrite <- (length_map fst top), Hfst, length_rev. reflexivity. }
      rewrite <- Hlen.
      rewrite firstn_app, Nat.sub_diag, firstn_all. cbn [firstn]. rewrite app_nil_r.
      rewrite skipn_app, Nat.sub_diag, skipn_all. cbn [skipn app].
      rewrite length_rev, <- Hlen in Hbelow.
      pose proof (typed_slots top Htop) as Hslots.
      rewrite Hfst, rev_involutive in Hslots.
      rewrite Forall_forall in Hmethods.
      specialize (Hmethods prod (nth_error_In _ _ Hprod) _ Hslots).
      destruct (Actions.call E ctx (Grammar.pfunc prod) (rev (map snd top))) as [value|e].
      2: { destruct (Parser.is_syntax_error e).
           - (* the error is caught *)
             apply IH; [ | exact I | constructor; assumption ].
             rewrite Forall_forall in Hfull.
             pose proof (Hfull prod (nth_error_In _ _ Hprod)) as Hne.
             destruct top as [|e1 top'].
             + destruct (Grammar.psyms prod); [ contradiction | discriminate Hlen ].
             + cbn [tl]. change ((e1 :: top') ++ below)%list with (e1 :: (top' ++ below))%list in Hs.
               apply (stack_pop _ _ Hs).
               destruct ss as [|q' ss']; [ | reflexivity ].
               cbn [length skipn] in Hbelow. rewrite skipn_nil in Hbelow. destruct Hbelow.
           - intro Hraise. inversion Hraise. contradiction. }
      destruct (stack_nonempty _ _ Hbelow) as (q' & ss' & Hq').
      rewrite Hq' in *. cbn [hd].
      destruct (lookup plhs (nth q' (lr_goto T) [])) as [j|] eqn:Hgoto;
        [ | unfold KeyError; discriminate ].
      apply IH; [ | exact Hla' | exact Hsaved' ].
      apply stack_push; [ exact Hbelow | | exact Hmethods ].
      match goal with
      | H : nonterminal_name T plhs = _ |- _ => rewrite <- H
      end.
      apply goto_edge. exact Hgoto.
    + destruct symstack as [|[? ?] ?]; discriminate.
    + destruct (Nat.eqb errorcount 0 || errorok)%bool;
        [ unfold Actions.p_error, slice_error; discriminate | ].
      destruct la' as [[tok| |]|]; try discriminate;
        (destruct (Nat.leb (length (q :: ss)) 1) eqn:Hlen;
         [ apply IH; [ exact Hs | exact I | constructor ] | ]).
      * destruct (String.eqb (fst (hd ("", PNone) symstack)) "error");
          (apply IH; [ exact Hs | exact I | ]);
          [ exact Hsaved' | constructor; [ exact Hla' | exact Hsaved' ] ].
      * apply IH; [ apply stack_pop; assumption | exact I | exact Hsaved' ].
    + destruct (Nat.eqb errorcount 0 || errorok)%bool;
        [ unfold Actions.p_error, slice_error; discriminate | ].
      destruct la' as [[tok| |]|]; try discriminate;
        (destruct (Nat.leb (length (q :: ss)) 1) eqn:Hlen;
         [ apply IH; [ exact Hs | exact I | constructor ] | ]).
      * destruct (String.eqb (fst (hd ("", PNone) symstack)) "error");
          (apply IH; [ exact Hs | exact I | ]);
          [ exact Hsaved' | constructor; [ exact Hla' | exact Hsaved' ] ].
      * apply IH; [ apply stack_pop; assumption | exact I | exact Hsaved' ].
Qed.

End Safety.

Lemma tables_built : Parser.tables = Ok the_table.
Proof. reflexivity. Qed.

Lemma the_productions_full : Forall (fun pr => Grammar.psyms pr <> []) the_productions.
Proof. explicit_productions. repeat constructor; discriminate. Qed.

Lemma lexer_source_ok : forall E, source_ok Lex.lexer (Parser.lexer_token E).
Proof.
  intros E lx. unfold Parser.lexer_token.
  exact (token_ok E (S (String.length (Lex.lexrest lx))) lx).
Qed.

(** C10: on the values of any of the four slice productions, the slice
    method finds the colon at index 2 or 3 with a matching length and builds
    the slice node; and on no text does the parser end in the error of the
    method's last branch: the tables let it run only on top of one of the
    four right-hand sides, where the slots of [object] and [expression] hold
    deferred nodes and the slot of COLON the text of the colon. *)
Theorem C10_slice_error_unreachable : forall E ctx,
  (forall prod p,
     In prod slice_productions ->
     Forall2 (fun sym v => well_typed sym v = true) (Grammar.psyms prod) p ->
     exists container start stop safe,
       Actions.p_expression_getslice ctx p = Ok (slice_node ctx container start stop safe))
  /\ (forall line text,
        Parser.parse_deferred E ctx line text
        <> Raise (RuleSyntaxError "invalid get slice expression" None)).
Proof.
  intros E ctx. split.
  - intros prod p Hin Hslots.
    vm_compute in Hin.
    destruct Hin as [<- | [<- | [<- | [<- | []]]]]; cbn [Grammar.psyms] in Hslots.
    all: typed_slots.
    all: do 4 eexists; reflexivity.
  - intros line text. unfold Parser.parse_deferred.
    rewrite tables_built. cbn [bind].
    apply (parseopt_safe E ctx the_table the_productions the_table_ok (methods_ok E ctx)
             Lex.lexer (Parser.lexer_token E) (lexer_source_ok E) the_productions_full).
    + reflexivity.
    + exact I.
    + constructor.
Qed.

Lemma C10_slice_error_unreachable_witness :
  exists container start stop safe,
    Actions.p_expression_getslice sample_context
      [symbol_node sample_context "a"; PStr "&["; float_node sample_context 1; PStr ":";
       PStr "]"]
    = Ok (slice_node sample_context container start stop safe).
Proof.
  apply (proj1 (C10_slice_error_unreachable sample_externals sample_context)
           (Grammar.mkProd "object" ["object"; "LBRACKET"; "expression"; "COLON"; "RBRACKET"]
              "p_expression_getslice" (Grammar.RightA, 0))).
  - vm_compute. in_list.
  - repeat (apply Forall2_cons; [ reflexivity | ]). apply Forall2_nil.
Defined.

(** ** Names on both sides of [not in] *)

(** *** Words *)

Definition start_items : list (ascii * ascii) := [("a", "z"); ("A", "Z"); ("_", "_")]%char.
Definition rest_items : list (ascii * ascii) :=
  [("a", "z"); ("A", "Z"); ("0", "9"); ("_", "_")]%char.

Fixpoint all_in (items : list (ascii * ascii)) (s : string) : bool :=
  match s with
  | EmptyString => true
  | String c s' => in_class items c && all_in items s'
  end.

(** A word as the pattern of SYMBOL takes it, without the [$]. *)
Definition word (w : string) : bool :=
  match w with
  | String c r => in_class start_items c && all_in rest_items r
  | EmptyString => false
  end.

(** What follows a word in the texts below: nothing, or a space. *)
Definition ends_word (tail : string) : bool :=
  match tail with
  | EmptyString => true
  | String c _ => Ascii.eqb c " "
  end.

Lemma rest_char_plain : forall c,
  in_class rest_items c = true ->
  forall d, In d ["*"; "/"; "<"; ">"; "="; "!"; "$"; dquote; "'"; " "; tab]%char ->
  Ascii.eqb d c = false.
Proof.
  intros c Hc d Hd.
  destruct c as [[] [] [] [] [] [] [] []]; try discriminate Hc;
    cbn [In] in Hd;
    repeat (destruct Hd as [<- | Hd]; [ reflexivity | ]); destruct Hd.
Qed.

Lemma start_is_rest : forall c, in_class start_items c = true -> in_class rest_items c = true.
Proof.
  intros c H. destruct c as [[] [] [] [] [] [] [] []]; try discriminate H; reflexivity.
Qed.

Lemma star_rest : forall r tail n p e,
  all_in rest_items r = true ->
  ends_word tail = true ->
  String.length r <= n ->
  star_loop (run Lex.sym_rest) (fun _ s' _ => Some s') n p (r ++ tail) e = Some tail.
Proof.
  induction r as [|c r IH]; intros tail n p e Hr Ht Hn.
  - cbn [append]. destruct n as [|n]; [ reflexivity | ].
    cbn [star_loop]. unfold Lex.sym_rest at 1. cbn [run]. unfold one.
    destruct tail as [|t tail']; [ reflexivity | ].
    cbn [ends_word] in Ht. apply Ascii.eqb_eq in Ht. subst t. reflexivity.
  - cbn [all_in] in Hr. apply andb_true_iff in Hr. destruct Hr as [Hc Hr].
    destruct n as [|n]; [ cbn in Hn; lia | ].
    cbn [append star_loop]. unfold Lex.sym_rest at 1. cbn [run]. unfold one.
    fold rest_items. cbn [xorb]. rewrite Hc.
    replace (Nat.ltb (String.length (r ++ tail)) (String.length (String c (r ++ tail))))
      with true by (symmetry; apply Nat.ltb_lt; cbn [String.length]; lia).
    rewrite IH; [ reflexivity | exact Hr | exact Ht | cbn [String.length] in Hn; lia ].
Qed.

Definition quote_items : list (ascii * ascii) := [(dquote, dquote); ("'", "'")]%char.

Lemma rest_not_quote : forall c, in_class rest_items c = true -> in_class quote_items c = false.
Proof.
  intros c H. destruct c as [[] [] [] [] [] [] [] []]; try discriminate H; reflexivity.
Qed.

(** After the first character of a word comes no quote. *)
Lemma head_plain : forall r tail c0 s0,
  all_in rest_items r = true ->
  ends_word tail = true ->
  (r ++ tail)%string = String c0 s0 ->
  in_class quote_items c0 = false.
Proof.
  intros r tail c0 s0 Hr Ht Hs.
  destruct r as [|c r].
  - cbn [append] in Hs. subst tail.
    cbn [ends_word] in Ht. apply Ascii.eqb_eq in Ht. subst c0. reflexivity.
  - cbn [append] in Hs. inversion Hs; subst.
    cbn [all_in] in Hr. apply andb_true_iff in Hr. destruct Hr as [Hc _].
    exact (rest_not_quote _ Hc).
Qed.

Definition kind_of (w : string) : string :=
  match assoc w Lex.reserved_words with
  | Some ty => ty
  | None => "SYMBOL"
  end.

Lemma kind_is_token : forall w, mem_str (kind_of w) Lex.tokens = true.
Proof.
  intros w. unfold kind_of, Lex.reserved_words. cbn [assoc].
  repeat match goal with
         | |- context [String.eqb w ?k] => destruct (String.eqb w k)
         end; reflexivity.
Qed.

(** The lexer on a word: one token of the word's kind, SYMBOL unless the
    word is reserved. *)
Lemma lex_word : forall E f w tail prev pos line,
  word w = true ->
  ends_word tail = true ->
  mem_str w ["elif"; "else"; "while"] = false ->
  Lex.token E (S f) (Lex.mkLexer (w ++ tail) prev pos line)
  = Ok (Some (mkTok (kind_of w) w line pos),
        Lex.mkLexer tail (last_char prev w) (pos + String.length w) line).
Proof.
  intros E f w tail prev pos line Hw Ht Hk.
  destruct w as [|c r]; [ discriminate Hw | ].
  cbn [word] in Hw. apply andb_true_iff in Hw. destruct Hw as [Hc Hr].
  pose proof (rest_char_plain c (start_is_rest c Hc)) as Hplain.
  cbn [Lex.token Lex.lexrest append].
  change (Lex.lexignore E) with (String " " (String tab "")). cbn [str_mem].
  rewrite Ascii.eqb_sym, (Hplain " "%char) by in_list.
  rewrite Ascii.eqb_sym, (Hplain tab) by in_list.
  cbn [orb].
  assert (Hq : in_class quote_items c = false) by exact (rest_not_quote c (start_is_rest c Hc)).
  assert (Hfm : exists r0,
             Lex.first_match (Lex.lexre E) prev (String c (r ++ tail)) = Some (r0, tail)
             /\ Lex.rname r0 = "SYMBOL" /\ Lex.rfun r0 = Some Lex.t_SYMBOL).
  { explicit_rules E. cbn [Lex.first_match Lex.rre].
    eexists.
    do 9 (lazymatch goal with
          | |- match rmatch ?R prev ?s with _ => _ end = _ /\ _ =>
              replace (rmatch R prev s) with (@None string);
              [ cbv iota | symmetry; unfold rmatch; cbn [run]; unfold one, orelse; cbn [xorb];
                  rewrite ?Hplain by in_list;
                  repeat match goal with
                         | |- context [if Ascii.eqb ?x c then _ else _] =>
                             destruct (Ascii.eqb x c)
                         end;
                  cbv beta iota;
                  try change (in_class [(dquote, dquote); ("'"%char, "'"%char)] c)
                    with (in_class quote_items c);
                  rewrite ?Hq;
                  try reflexivity;
                  destruct (r ++ tail)%string eqn:Hs;
                  cbv beta iota;
                  repeat match goal with
                         | |- context [in_class ?items c] =>
                             progress change (in_class items c) with (in_class quote_items c);
                             rewrite Hq
                         | Hs' : (_ ++ _)%string = String ?x ?y |- context [in_class ?items ?x] =>
                             progress change (in_class items x) with (in_class quote_items x);
                             rewrite (head_plain r tail x y Hr Ht Hs')
                         end;
                  reflexivity ]
          end).
    unfold rmatch. cbn [run]. unfold one at 1. rewrite (Hplain "$"%char) by in_list.
    cbn [orelse]. unfold one at 1. cbn [xorb]. fold start_items. rewrite Hc.
    fold rest_items. fold Lex.sym_rest.
    rewrite star_rest by (try assumption; rewrite length_app; lia).
    repeat split. }
  cbn [Lex.lexrest Lex.lexprev Lex.lexpos Lex.lineno].
  destruct Hfm as (r0 & -> & Hname & Hfun).
  change (String c (r ++ tail)) with (String c r ++ tail).
  rewrite Hfun, Hname. rewrite take_prefix.
  unfold Lex.t_SYMBOL at 1. cbn [tvalue]. rewrite Hk. cbn [bind Lex.set_type ttype tvalue tlineno tlexpos].
  fold (kind_of (String c r)). rewrite kind_is_token.
  cbn [Lex.lexprev Lex.lexpos].
  rewrite length_app.
  replace (String.length (String c r) + String.length tail - String.length tail)
    with (String.length (String c r)) by lia.
  reflexivity.
Qed.

(** *** The lexer as a source of tokens *)

(** The tokens a lexer hands out from a state on, up to the end of the text. *)
Inductive yields (E : externals) : Lex.lexer -> list LexToken -> Prop :=
| yields_end : forall lx,
    Parser.lexer_token E lx = Ok (None, lx) -> yields E lx []
| yields_token : forall lx t lx' l,
    Parser.lexer_token E lx = Ok (Some t, lx') -> yields E lx' l -> yields E lx (t :: l).

(** The driver sees a lexer through its tokens only. *)
Lemma plain_yields : forall E ctx T fuel statestack symstack la lx l,
  yields E lx l ->
  Parser.parse_plain E ctx T (Parser.lexer_token E) fuel statestack symstack la lx
  = Parser.parse_plain E ctx T Parser.list_token fuel statestack symstack la l.
Proof.
  intros E ctx T fuel.
  induction fuel as [|fuel IH]; intros statestack symstack la lx l Hy; [ reflexivity | ].
  assert (Hstep : forall (t : option LALR.action) tok lx' l',
             yields E lx' l' ->
             match t with
             | Some (LALR.Shift j) =>
                 Parser.parse_plain E ctx T (Parser.lexer_token E) fuel (j :: statestack)
                   ((Parser.la_type (match tok with Some tk => tk | None => None end),
                     match tok with
                     | Some (Some tk) => PStr (tvalue tk)
                     | _ => PNone
                     end) :: symstack) None lx'
             | Some (LALR.Reduce p) =>
                 match nth_error (LALR.lr_prods T) p with
                 | None => Raise IndexError
                 | Some (pname, plhs, plen, fname) =>
                     let targ := rev (map snd (firstn plen symstack)) in
                     do value <- Actions.call E ctx fname targ;
                     let statestack' := skipn plen statestack in
                     match LALR.lookup plhs (nth (hd 0 statestack') (LALR.lr_goto T) []) with
                     | Some j =>
                         Parser.parse_plain E ctx T (Parser.lexer_token E) fuel (j :: statestack')
                           ((pname, value) :: skipn plen symstack) tok lx'
                     | None => Raise (KeyError pname)
                     end
                 end
             | Some LALR.Accept =>
                 match symstack with
                 | (_, value) :: _ => Ok value
                 | [] => Ok PNone
                 end
             | Some LALR.NoAction | None => Raise (Actions.p_error (Parser.errtoken tok))
             end
             = match t with
               | Some (LALR.Shift j) =>
                   Parser.parse_plain E ctx T Parser.list_token fuel (j :: statestack)
                     ((Parser.la_type (match tok with Some tk => tk | None => None end),
                       match tok with
                       | Some (Some tk) => PStr (tvalue tk)
                       | _ => PNone
                       end) :: symstack) None l'
               | Some (LALR.Reduce p) =>
                   match nth_error (LALR.lr_prods T) p with
                   | None => Raise IndexError
                   | Some (pname, plhs, plen, fname) =>
                       let targ := rev (map snd (firstn plen symstack)) in
                       do value <- Actions.call E ctx fname targ;
                       let statestack' := skipn plen statestack in
                       match LALR.lookup plhs (nth (hd 0 statestack') (LALR.lr_goto T) []) with
                       | Some j =>
                           Parser.parse_plain E ctx T Parser.list_token fuel (j :: statestack')
                             ((pname, value) :: skipn plen symstack) tok l'
                       | None => Raise (KeyError pname)
                       end
                   end
               | Some LALR.Accept =>
                   match symstack with
                   | (_, value) :: _ => Ok value
                   | [] => Ok PNone
                   end
               | Some LALR.NoAction | None => Raise (Actions.p_error (Parser.errtoken tok))
               end).
  { intros t tok lx' l' Hy'.
    destruct t as [[j | p | | ] | ]; try reflexivity.
    - apply IH. exact Hy'.
    - destruct (nth_error (LALR.lr_prods T) p) as [[[[pname plhs] plen] fname] | ];
        [ | reflexivity ].
      cbv zeta. destruct (Actions.call E ctx fname _) as [value | e]; [ | reflexivity ].
      cbn [bind].
      destruct (LALR.lookup plhs _) as [j | ]; [ | reflexivity ].
      apply IH. exact Hy'. }
  cbn [Parser.parse_plain]. unfold Parser.next_action.
  destruct (Parser.defaulted _) as [p | ].
  - exact (Hstep (Some (LALR.Reduce p)) la lx l Hy).
  - destruct la as [tok | ].
    + cbn [bind].
      lazymatch goal with
      | |- context [LALR.index_of ?a ?b ?c] =>
          exact (Hstep (match LALR.index_of a b c with
                        | Some a0 => LALR.lookup a0 (nth (hd 0 statestack) (LALR.lr_action T) [])
                        | None => None
                        end) (Some tok) lx l Hy)
      end.
    + destruct Hy as [lx Hend | lx t lx' l Htok Hy].
      * rewrite Hend. cbn [Parser.list_token bind].
        exact (Hstep _ (Some None) lx [] (yields_end E lx Hend)).
      * rewrite Htok. cbn [Parser.list_token bind].
        exact (Hstep _ (Some (Some t)) lx' l Hy).
Qed.

Lemma plain_deferred_tokens : forall E ctx line text toks,
  yields E (Lex.lex_input text line) toks ->
  Parser.plain_deferred E ctx line text = Parser.plain_tokens E ctx (Parser.steps text) toks.
Proof.
  intros E ctx line text toks Hy.
  unfold Parser.plain_deferred, Parser.plain_tokens.
  destruct Parser.tables as [T | e]; [ | reflexivity ].
  cbn [bind]. apply plain_yields. exact Hy.
Qed.

(** So does the parser with its recovery. *)
Lemma next_yields : forall E T q la saved lx l,
  yields E lx l ->
  exists t la' saved' lx' l',
    Parser.next T (Parser.lexer_token E) q la saved lx = Ok (t, la', saved', lx')
    /\ Parser.next T Parser.list_token q la saved l = Ok (t, la', saved', l')
    /\ yields E lx' l'.
Proof.
  intros E T q la saved lx l Hy. unfold Parser.next.
  destruct (Parser.defaulted _) as [p | ].
  - do 5 eexists. split; [ reflexivity | ]. split; [ reflexivity | exact Hy ].
  - destruct la as [s | ].
    + cbn [bind]. do 5 eexists. split; [ reflexivity | ]. split; [ reflexivity | exact Hy ].
    + destruct saved as [|top rest].
      * destruct Hy as [lx Hend | lx t lx' l Htok Hy].
        -- rewrite Hend. cbn [Parser.list_token bind].
           do 5 eexists. split; [ reflexivity | ]. split; [ reflexivity | ].
           exact (yields_end E lx Hend).
        -- rewrite Htok. cbn [Parser.list_token bind].
           do 5 eexists. split; [ reflexivity | ]. split; [ reflexivity | exact Hy ].
      * cbn [bind]. do 5 eexists. split; [ reflexivity | ]. split; [ reflexivity | exact Hy ].
Qed.

Lemma parseopt_yields : forall E ctx T fuel statestack symstack la saved errorcount errorok lx l,
  yields E lx l ->
  Parser.parseopt E ctx T (Parser.lexer_token E) fuel statestack symstack la saved
    errorcount errorok lx
  = Parser.parseopt E ctx T Parser.list_token fuel statestack symstack la saved
      errorcount errorok l.
Proof.
  intros E ctx T fuel.
  induction fuel as [|fuel IH];
    intros statestack symstack la saved errorcount errorok lx l Hy; [ reflexivity | ].
  cbn [Parser.parseopt].
  destruct (next_yields E T (hd 0 statestack) la saved lx l Hy)
    as (t & la' & saved' & lx' & l' & -> & -> & Hy').
  cbn [bind].
  destruct t as [[j | p | | ] | ]; try reflexivity.
  - apply IH. exact Hy'.
  - destruct (nth_error (LALR.lr_prods T) p) as [[[[pname plhs] plen] fname] | ];
      [ | reflexivity ].
    cbv zeta. destruct (Actions.call E ctx fname _) as [value | e].
    + destruct (LALR.lookup plhs _) as [j | ]; [ | reflexivity ].
      apply IH. exact Hy'.
    + destruct (Parser.is_syntax_error e); [ | reflexivity ].
      apply IH. exact Hy'.
  - destruct (Nat.eqb errorcount 0 || errorok)%bool; [ reflexivity | ].
    destruct (match la' with Some s => s | None => Parser.LaEnd end); try reflexivity.
    + destruct (Nat.leb _ _); [ apply IH; exact Hy' | ].
      destruct (String.eqb _ _); apply IH; exact Hy'.
    + destruct (Nat.leb _ _); apply IH; exact Hy'.
  - destruct (Nat.eqb errorcount 0 || errorok)%bool; [ reflexivity | ].
    destruct (match la' with Some s => s | None => Parser.LaEnd end); try reflexivity.
    + destruct (Nat.leb _ _); [ apply IH; exact Hy' | ].
      destruct (String.eqb _ _); apply IH; exact Hy'.
    + destruct (Nat.leb _ _); apply IH; exact Hy'.
Qed.

Lemma parse_deferred_tokens : forall E ctx line text toks,
  yields E (Lex.lex_input text line) toks ->
  Parser.parse_deferred E ctx line text = Parser.parse_tokens E ctx (Parser.steps text) toks.
Proof.
  intros E ctx line text toks Hy.
  unfold Parser.parse_deferred, Parser.parse_tokens.
  destruct Parser.tables as [T | e]; [ | reflexivity ].
  cbn [bind]. apply parseopt_yields. exact Hy.
Qed.


(** *** Words separated by single spaces *)

(** A word that [t_SYMBOL] lets through. *)
Definition plain (w : string) : bool :=
  word w && negb (mem_str w ["elif"; "else"; "while"]).

(** A name: a plain word that is not reserved. *)
Definition identifier (w : string) : bool :=
  plain w && match assoc w Lex.reserved_words with Some _ => false | None => true end.

Fixpoint spaced (ws : list string) : string :=
  match ws with
  | [] => ""
  | w :: ws' => String " " (w ++ spaced ws')
  end.

Fixpoint word_tokens (line pos : nat) (ws : list string) : list LexToken :=
  match ws with
  | [] => []
  | w :: ws' => mkTok (kind_of w) w line (S pos) :: word_tokens line (S pos + String.length w) ws'
  end.

Lemma plain_inv : forall w,
  plain w = true -> word w = true /\ mem_str w ["elif"; "else"; "while"] = false.
Proof.
  intros w H. unfold plain in H. apply andb_true_iff in H. destruct H as [Hw Hk].
  split; [ exact Hw | ]. apply negb_true_iff. exact Hk.
Qed.

Lemma identifier_inv : forall w,
  identifier w = true -> plain w = true /\ kind_of w = "SYMBOL".
Proof.
  intros w H. unfold identifier in H. apply andb_true_iff in H. destruct H as [Hp Hr].
  split; [ exact Hp | ]. unfold kind_of.
  destruct (assoc w Lex.reserved_words); [ discriminate Hr | reflexivity ].
Qed.

Lemma app_empty : forall s : string, s ++ "" = s.
Proof.
  induction s as [|c s IH]; [ reflexivity | ]. cbn [append]. rewrite IH. reflexivity.
Qed.

Lemma ends_spaced : forall ws, ends_word (spaced ws) = true.
Proof. intros [|w ws]; reflexivity. Qed.

Lemma lexer_word : forall E w tail prev pos line,
  plain w = true ->
  ends_word tail = true ->
  Parser.lexer_token E (Lex.mkLexer (w ++ tail) prev pos line)
  = Ok (Some (mkTok (kind_of w) w line pos),
        Lex.mkLexer tail (last_char prev w) (pos + String.length w) line).
Proof.
  intros E w tail prev pos line Hp Ht.
  destruct (plain_inv w Hp) as [Hw Hk].
  unfold Parser.lexer_token. apply lex_word; assumption.
Qed.

Lemma lexer_space_word : forall E w tail prev pos line,
  plain w = true ->
  ends_word tail = true ->
  Parser.lexer_token E (Lex.mkLexer (String " " (w ++ tail)) prev pos line)
  = Ok (Some (mkTok (kind_of w) w line (S pos)),
        Lex.mkLexer tail (last_char (Some " "%char) w) (S pos + String.length w) line).
Proof.
  intros E w tail prev pos line Hp Ht.
  destruct (plain_inv w Hp) as [Hw Hk].
  unfold Parser.lexer_token. cbn [Lex.lexrest String.length].
  destruct w as [|c r]; [ discriminate Hw | ].
  cbn [append String.length].
  change (Lex.token E (S (S (S (String.length (r ++ tail)))))
            (Lex.mkLexer (String " " (String c (r ++ tail))) prev pos line))
    with (Lex.token E (S (S (String.length (r ++ tail))))
            (Lex.mkLexer (String c r ++ tail) (Some " "%char) (S pos) line)).
  apply lex_word; assumption.
Qed.

Lemma spaced_yields : forall E line ws prev pos,
  forallb plain ws = true ->
  yields E (Lex.mkLexer (spaced ws) prev pos line) (word_tokens line pos ws).
Proof.
  intros E line ws. induction ws as [|w ws IH]; intros prev pos Hws.
  - apply yields_end. reflexivity.
  - cbn [forallb] in Hws. apply andb_true_iff in Hws. destruct Hws as [Hw Hws].
    cbn [spaced word_tokens].
    eapply yields_token.
    + apply lexer_space_word; [ exact Hw | apply ends_spaced ].
    + apply IH. exact Hws.
Qed.

(** A text of words: the first one, then the others after one space each. *)
Lemma words_yield : forall E line w ws,
  forallb plain (w :: ws) = true ->
  yields E (Lex.lex_input (w ++ spaced ws) line)
    (mkTok (kind_of w) w line 0 :: word_tokens line (String.length w) ws).
Proof.
  intros E line w ws Hws.
  cbn [forallb] in Hws. apply andb_true_iff in Hws. destruct Hws as [Hw Hws].
  unfold Lex.lex_input.
  eapply yields_token.
  - apply lexer_word; [ exact Hw | apply ends_spaced ].
  - cbn [Nat.add]. apply spaced_yields. exact Hws.
Qed.

(** *** The two spellings on names *)

Lemma symbol_of_word : forall ctx w,
  word w = true -> Actions.p_expression_symbol ctx [PStr w] = Ok (symbol_node ctx w).
Proof.
  intros ctx w Hw. destruct w as [|c r]; [ discriminate Hw | ].
  cbn [word] in Hw. apply andb_true_iff in Hw. destruct Hw as [Hc _].
  unfold Actions.p_expression_symbol, Actions.item. cbn [Nat.sub nth_error bind].
  rewrite Ascii.eqb_sym, (rest_char_plain c (start_is_rest c Hc) "$"%char) by in_list.
  reflexivity.
Qed.

Definition not_in_tree (ctx : Context) (a b : string) : pyval :=
  stmt ctx (negation ctx (containment ctx (symbol_node ctx b) (symbol_node ctx a))).

Lemma parse_not_in_tokens : forall E ctx k a b l1 l2 l3 l4 p1 p2 p3 p4,
  word a = true -> word b = true ->
  Parser.plain_tokens E ctx (16 + k)
    [mkTok "SYMBOL" a l1 p1; mkTok "NOT" "not" l2 p2; mkTok "IN" "in" l3 p3;
     mkTok "SYMBOL" b l4 p4]
  = Ok (not_in_tree ctx a b)
  /\ Parser.plain_tokens E ctx (16 + k)
       [mkTok "NOT" "not" l1 p1; mkTok "SYMBOL" a l2 p2; mkTok "IN" "in" l3 p3;
        mkTok "SYMBOL" b l4 p4]
     = Ok (not_in_tree ctx a b).
Proof.
  intros E ctx k a b l1 l2 l3 l4 p1 p2 p3 p4 Ha Hb.
  pose proof (symbol_of_word ctx a Ha) as Hsa.
  pose proof (symbol_of_word ctx b Hb) as Hsb.
  split; lazy -[Actions.p_expression_symbol symbol_node];
    rewrite Hsa; lazy -[Actions.p_expression_symbol symbol_node];
    rewrite Hsb; reflexivity.
Qed.

Lemma steps_ample : forall text, exists k, Parser.steps text = 16 + k.
Proof.
  intros text. exists (16 * String.length text). unfold Parser.steps. apply Nat.add_comm.
Qed.

Lemma not_in_texts : forall E ctx line a b,
  identifier a = true -> identifier b = true ->
  Parser.parse_deferred E ctx line (a ++ " not in " ++ b) = Ok (not_in_tree ctx a b)
  /\ Parser.parse_deferred E ctx line ("not " ++ a ++ " in " ++ b) = Ok (not_in_tree ctx a b).
Proof.
  intros E ctx line a b Ha Hb.
  destruct (identifier_inv a Ha) as [Hpa Hka].
  destruct (identifier_inv b Hb) as [Hpb Hkb].
  destruct (plain_inv a Hpa) as [Hwa _].
  destruct (plain_inv b Hpb) as [Hwb _].
  assert (H1 : forallb plain [a; "not"; "in"; b] = true)
    by (cbn [forallb]; rewrite Hpa, Hpb; reflexivity).
  assert (H2 : forallb plain ["not"; a; "in"; b] = true)
    by (cbn [forallb]; rewrite Hpa, Hpb; reflexivity).
  split.
  - replace (a ++ " not in " ++ b) with (a ++ spaced ["not"; "in"; b])
      by (cbn [spaced append]; rewrite app_empty; reflexivity).
    apply plain_deferred_settled; [ | exact I ].
    rewrite (plain_deferred_tokens E ctx line _ _ (words_yield E line a ["not"; "in"; b] H1)).
    destruct (steps_ample (a ++ spaced ["not"; "in"; b])) as [k ->].
    cbn [word_tokens]. rewrite Hka, Hkb.
    change (kind_of "not") with "NOT". change (kind_of "in") with "IN".
    exact (proj1 (parse_not_in_tokens E ctx k a b _ _ _ _ _ _ _ _ Hwa Hwb)).
  - replace ("not " ++ a ++ " in " ++ b) with ("not" ++ spaced [a; "in"; b])
      by (cbn [spaced append]; rewrite app_empty; reflexivity).
    apply plain_deferred_settled; [ | exact I ].
    rewrite (plain_deferred_tokens E ctx line _ _ (words_yield E line "not" [a; "in"; b] H2)).
    destruct (steps_ample ("not" ++ spaced [a; "in"; b])) as [k ->].
    cbn [word_tokens]. rewrite Hka, Hkb.
    change (kind_of "not") with "NOT". change (kind_of "in") with "IN".
    exact (proj2 (parse_not_in_tokens E ctx k a b _ _ _ _ _ _ _ _ Hwa Hwb)).
Qed.



(** * Further properties *)

(** ** What a pattern can take *)

(** The texts a pattern can consume, whatever stands around them: a
    look-around consumes nothing, a back-reference any text. *)
Inductive matches : regex -> string -> Prop :=
| m_chr : forall c, matches (Chr c) (String c "")
| m_cls : forall neg items c,
    xorb neg (in_class items c) = true -> matches (Cls neg items) (String c "")
| m_notspace : forall c, negb (is_space c) = true -> matches NotSpace (String c "")
| m_dot : forall c, negb (Ascii.eqb c newline) = true -> matches Dot (String c "")
| m_cat : forall r1 r2 w1 w2,
    matches r1 w1 -> matches r2 w2 -> matches (Cat r1 r2) (w1 ++ w2)
| m_alt_l : forall r1 r2 w, matches r1 w -> matches (Alt r1 r2) w
| m_alt_r : forall r1 r2 w, matches r2 w -> matches (Alt r1 r2) w
| m_star_nil : forall r, matches (Star r) ""
| m_star_cons : forall r w1 w2,
    matches r w1 -> matches (Star r) w2 -> matches (Star r) (w1 ++ w2)
| m_lazy_nil : forall r, matches (LazyStar r) ""
| m_lazy_cons : forall r w1 w2,
    matches r w1 -> matches (LazyStar r) w2 -> matches (LazyStar r) (w1 ++ w2)
| m_plus : forall r w1 w2,
    matches r w1 -> matches (Star r) w2 -> matches (Plus r) (w1 ++ w2)
| m_opt_none : forall r, matches (Opt r) ""
| m_opt_some : forall r w, matches r w -> matches (Opt r) w
| m_behind : forall r, matches (Behind r) ""
| m_ahead : forall r, matches (Ahead r) ""
| m_group : forall name r w, matches r w -> matches (Group name r) w
| m_backref : forall name w, matches (Backref name) w.

Lemma app_assoc_str : forall a b c : string, (a ++ b) ++ c = a ++ (b ++ c).
Proof.
  induction a as [|x a IH]; intros b c; [ reflexivity | ]. cbn [append]. rewrite IH. reflexivity.
Qed.

Lemma last_char_app : forall w1 w2 p, last_char p (w1 ++ w2) = last_char (last_char p w1) w2.
Proof.
  induction w1 as [|c w1 IH]; intros w2 p; [ reflexivity | ]. cbn [append last_char]. apply IH.
Qed.

Lemma starts_with_app : forall t s s', starts_with t s = Some s' -> s = t ++ s'.
Proof.
  induction t as [|a t IH]; intros s s' H.
  - cbn in H. inversion H. reflexivity.
  - destruct s as [|b s]; [ discriminate H | ]. cbn [starts_with] in H.
    destruct (Ascii.eqb_spec a b) as [<- | ]; [ | discriminate H ].
    cbn [append]. rewrite (IH _ _ H). reflexivity.
Qed.

(** What a successful run of the matcher went through: a text of the
    pattern was consumed, and the rest of the run started right after it. *)
Definition consumed (r : regex) (p : option ascii) (s : string) (k : kont) (res : string)
  : Prop :=
  exists w s' e', matches r w /\ s = w ++ s' /\ k (last_char p w) s' e' = Some res.

Lemma one_sound : forall (f : ascii -> bool) s e k res,
  one f s e k = Some res ->
  exists c s', s = String c s' /\ f c = true /\ k (Some c) s' e = Some res.
Proof.
  intros f s e k res H. unfold one in H.
  destruct s as [|c s']; [ discriminate H | ].
  destruct (f c) eqn:Hf; [ | discriminate H ].
  exists c, s'. repeat split; assumption.
Qed.

Lemma star_loop_sound : forall r,
  (forall p s e k res, run r p s e k = Some res -> consumed r p s k res) ->
  forall n p s e k res,
    star_loop (run r) k n p s e = Some res -> consumed (Star r) p s k res.
Proof.
  intros r IHr. induction n as [|n IHn]; intros p s e k res H.
  - exists "", s, e. repeat split; [ constructor | exact H ].
  - cbn [star_loop] in H. unfold orelse in H.
    match type of H with
    | match ?m with Some _ => _ | None => _ end = _ => destruct m as [r0|] eqn:Hm
    end.
    + inversion H; subst r0. clear H.
      destruct (IHr _ _ _ _ _ Hm) as (w1 & s1 & e1 & Hw1 & -> & Hk).
      destruct (Nat.ltb _ _); [ | discriminate Hk ].
      destruct (IHn _ _ _ _ _ Hk) as (w2 & s2 & e2 & Hw2 & -> & Hk2).
      exists (w1 ++ w2), s2, e2. repeat split.
      * constructor; assumption.
      * symmetry. apply app_assoc_str.
      * rewrite last_char_app. exact Hk2.
    + exists "", s, e. repeat split; [ constructor | exact H ].
Qed.

Lemma lazy_loop_sound : forall r,
  (forall p s e k res, run r p s e k = Some res -> consumed r p s k res) ->
  forall n p s e k res,
    lazy_loop (run r) k n p s e = Some res -> consumed (LazyStar r) p s k res.
Proof.
  intros r IHr. induction n as [|n IHn]; intros p s e k res H.
  - exists "", s, e. repeat split; [ constructor | exact H ].
  - cbn [lazy_loop] in H. unfold orelse in H.
    destruct (k p s e) as [r0|] eqn:Hk0.
    + inversion H; subst r0. exists "", s, e. repeat split; [ constructor | exact Hk0 ].
    + destruct (IHr _ _ _ _ _ H) as (w1 & s1 & e1 & Hw1 & -> & Hk).
      destruct (Nat.ltb _ _); [ | discriminate Hk ].
      destruct (IHn _ _ _ _ _ Hk) as (w2 & s2 & e2 & Hw2 & -> & Hk2).
      exists (w1 ++ w2), s2, e2. repeat split.
      * constructor; assumption.
      * symmetry. apply app_assoc_str.
      * rewrite last_char_app. exact Hk2.
Qed.

Lemma run_sound : forall r p s e k res,
  run r p s e k = Some res -> consumed r p s k res.
Proof.
  induction r; intros p s e k res H; cbn [run] in H.
  - apply one_sound in H. destruct H as (c0 & s' & -> & Hc & Hk).
    apply Ascii.eqb_eq in Hc. subst c0.
    exists (String c ""), s', e. repeat split; [ constructor | exact Hk ].
  - apply one_sound in H. destruct H as (c0 & s' & -> & Hc & Hk).
    exists (String c0 ""), s', e. repeat split; [ constructor; exact Hc | exact Hk ].
  - apply one_sound in H. destruct H as (c0 & s' & -> & Hc & Hk).
    exists (String c0 ""), s', e. repeat split; [ constructor; exact Hc | exact Hk ].
  - apply one_sound in H. destruct H as (c0 & s' & -> & Hc & Hk).
    exists (String c0 ""), s', e. repeat split; [ constructor; exact Hc | exact Hk ].
  - destruct (IHr1 _ _ _ _ _ H) as (w1 & s1 & e1 & Hw1 & -> & Hk).
    destruct (IHr2 _ _ _ _ _ Hk) as (w2 & s2 & e2 & Hw2 & -> & Hk2).
    exists (w1 ++ w2), s2, e2. repeat split.
    + constructor; assumption.
    + symmetry. apply app_assoc_str.
    + rewrite last_char_app. exact Hk2.
  - unfold orelse in H.
    destruct (run r1 p s e k) as [r0|] eqn:H1.
    + inversion H; subst r0.
      destruct (IHr1 _ _ _ _ _ H1) as (w & s' & e' & Hw & -> & Hk).
      exists w, s', e'. repeat split; [ apply m_alt_l; exact Hw | exact Hk ].
    + destruct (IHr2 _ _ _ _ _ H) as (w & s' & e' & Hw & -> & Hk).
      exists w, s', e'. repeat split; [ apply m_alt_r; exact Hw | exact Hk ].
  - exact (star_loop_sound r IHr _ _ _ _ _ _ H).
  - exact (lazy_loop_sound r IHr _ _ _ _ _ _ H).
  - destruct (IHr _ _ _ _ _ H) as (w1 & s1 & e1 & Hw1 & -> & Hk).
    destruct (star_loop_sound r IHr _ _ _ _ _ _ Hk) as (w2 & s2 & e2 & Hw2 & -> & Hk2).
    exists (w1 ++ w2), s2, e2. repeat split.
    + constructor; assumption.
    + symmetry. apply app_assoc_str.
    + rewrite last_char_app. exact Hk2.
  - unfold orelse in H.
    destruct (run r p s e k) as [r0|] eqn:H1.
    + inversion H; subst r0.
      destruct (IHr _ _ _ _ _ H1) as (w & s' & e' & Hw & -> & Hk).
      exists w, s', e'. repeat split; [ apply m_opt_some; exact Hw | exact Hk ].
    + exists "", s, e. repeat split; [ constructor | exact H ].
  - destruct p as [c|]; [ | discriminate H ].
    destruct (run r None (String c "") e _); [ | discriminate H ].
    exists "", s, e. repeat split; [ constructor | exact H ].
  - destruct (run r p s e _); [ | discriminate H ].
    exists "", s, e. repeat split; [ constructor | exact H ].
  - destruct (IHr _ _ _ _ _ H) as (w & s' & e' & Hw & -> & Hk).
    exists w, s', ((name, take (String.length (w ++ s') - String.length s') (w ++ s')) :: e').
    repeat split; [ constructor; exact Hw | exact Hk ].
  - destruct (assoc name e) as [t|]; [ | discriminate H ].
    destruct (starts_with t s) as [s'|] eqn:Hs; [ | discriminate H ].
    exists t, s', e. repeat split; [ constructor | apply starts_with_app; exact Hs | exact H ].
Qed.

(** [pattern.match]: the text splits into a text of the pattern and the
    text left. *)
Lemma rmatch_sound : forall r prev s s',
  rmatch r prev s = Some s' -> exists w, matches r w /\ s = w ++ s'.
Proof.
  intros r prev s s' H. unfold rmatch in H.
  destruct (run_sound _ _ _ _ _ _ H) as (w & s1 & e1 & Hw & -> & Hk).
  inversion Hk; subst. exists w. split; [ exact Hw | reflexivity ].
Qed.

(** The least number of characters a text of the pattern has. *)
Fixpoint min_len (r : regex) : nat :=
  match r with
  | Chr _ | Cls _ _ | NotSpace | Dot => 1
  | Cat r1 r2 => min_len r1 + min_len r2
  | Alt r1 r2 => Nat.min (min_len r1) (min_len r2)
  | Plus r' | Group _ r' => min_len r'
  | Star _ | LazyStar _ | Opt _ | Behind _ | Ahead _ | Backref _ => 0
  end.

Lemma matches_min_len : forall r w, matches r w -> min_len r <= String.length w.
Proof.
  intros r w H. induction H; cbn [min_len String.length]; try rewrite length_app; lia.
Qed.

(** Every rule of the lexer consumes at least one character. *)
Lemma rules_consume : forall E r, In r (Lex.lexre E) -> 1 <= min_len (Lex.rre r).
Proof.
  intros E r Hin.
  assert (H : forallb (fun r => Nat.leb 1 (min_len (Lex.rre r))) (Lex.lexre E) = true)
    by (vm_compute; reflexivity).
  rewrite forallb_forall in H. apply Nat.leb_le. apply H. exact Hin.
Qed.

Lemma first_match_sound : forall E prev s r s',
  Lex.first_match (Lex.lexre E) prev s = Some (r, s') ->
  exists w, In r (Lex.lexre E) /\ matches (Lex.rre r) w /\ s = w ++ s'
            /\ 1 <= String.length w
            /\ take (String.length s - String.length s') s = w.
Proof.
  intros E prev s r s' H.
  apply first_match_In in H. destruct H as [Hin Hm].
  apply rmatch_sound in Hm. destruct Hm as (w & Hw & ->).
  exists w. repeat split; try assumption.
  - pose proof (matches_min_len _ _ Hw). pose proof (rules_consume E r Hin). lia.
  - apply take_prefix.
Qed.

(** Blank text: what the lexer passes over between two tokens. *)
Fixpoint blank (s : string) : bool :=
  match s with
  | EmptyString => true
  | String c s' => (Ascii.eqb c " " || Ascii.eqb c tab || Ascii.eqb c newline) && blank s'
  end.

Lemma blank_app : forall a b, blank a = true -> blank b = true -> blank (a ++ b) = true.
Proof.
  induction a as [|c a IH]; intros b Ha Hb; [ exact Hb | ].
  cbn [blank append] in *. apply andb_true_iff in Ha. destruct Ha as [Hc Ha].
  rewrite Hc. apply IH; assumption.
Qed.

Lemma str_count_app : forall c a b, str_count c (a ++ b) = str_count c a + str_count c b.
Proof.
  intros c. induction a as [|d a IH]; intros b; [ reflexivity | ].
  cbn [append str_count]. rewrite IH. lia.
Qed.

Lemma ignore_chars : forall E c,
  str_mem c (Lex.lexignore E) = true -> c = " "%char \/ c = tab.
Proof.
  intros E c H. change (Lex.lexignore E) with (String " " (String tab "")) in H.
  cbn [str_mem] in H.
  destruct (Ascii.eqb_spec c " ") as [Hc | Hc]; [ left; exact Hc | ].
  destruct (Ascii.eqb_spec c tab) as [Hc' | Hc']; [ right; exact Hc' | discriminate H ].
Qed.

(** A run of newlines. *)
Lemma newlines_run : forall w,
  matches (Plus (Chr newline)) w ->
  blank w = true /\ str_count newline w = String.length w.
Proof.
  intros w H. inversion H; subst. clear H.
  match goal with H1 : matches (Chr _) _ |- _ => inversion H1; subst; clear H1 end.
  assert (Hstar : forall w, matches (Star (Chr newline)) w ->
                            blank w = true /\ str_count newline w = String.length w).
  { clear. intros w H. remember (Star (Chr newline)) as r eqn:Hr.
    induction H; try discriminate Hr.
    - split; reflexivity.
    - inversion Hr; subst r. clear Hr. inversion H; subst.
      destruct (IHmatches2 eq_refl) as [Hb Hc].
      cbn [append blank str_count String.length]. rewrite Hb, Hc. split; reflexivity. }
  match goal with H2 : matches (Star _) _ |- _ => destruct (Hstar _ H2) as [Hb Hc] end.
  cbn [append blank str_count String.length]. rewrite Hb, Hc. split; reflexivity.
Qed.

(** What the functions of the rules do to a token: all but [t_newline]
    give one, at the place of the match and without a change to the line
    counter; [t_newline] gives none and counts the newlines. *)
Lemma rule_function : forall E r g t ln res ln',
  In r (Lex.lexre E) ->
  Lex.rfun r = Some g ->
  g t ln = Ok (res, ln') ->
  match res with
  | Some t' => tlexpos t' = tlexpos t /\ tlineno t' = tlineno t /\ ln' = ln
  | None => Lex.rre r = Plus (Chr newline) /\ ln' = ln + str_count newline (tvalue t)
  end.
Proof.
  intros E r g t ln res ln' Hin Hg H.
  explicit_rules E.
  repeat (destruct Hin as [<- | Hin]); [ .. | destruct Hin ];
    cbn [Lex.rfun Lex.rname Lex.rre] in *; try discriminate Hg;
    inversion Hg; subst g; clear Hg.
  - inversion H; subst. destruct (String.eqb _ _); repeat split.
  - inversion H; subst. destruct (String.eqb _ _); repeat split.
  - unfold Lex.t_LT in H. destruct (assoc _ _); inversion H; subst. repeat split.
  - unfold Lex.t_GT in H. destruct (assoc _ _); inversion H; subst. repeat split.
  - inversion H; subst. destruct (String.eqb _ _); repeat split.
  - inversion H; subst. destruct (String.eqb _ _); repeat split.
  - inversion H; subst. repeat split.
  - inversion H; subst. repeat split.
  - unfold Lex.t_STRING in H. destruct (tvalue t) as [|a v].
    + inversion H; subst. repeat split.
    + destruct a as [[] [] [] [] [] [] [] []]; inversion H; subst; repeat split.
  - unfold Lex.t_SYMBOL in H. destruct (mem_str _ _); inversion H; subst. repeat split.
  - inversion H; subst. split; reflexivity.
Qed.

(** One call of [token()] that gives a token: the text before the call is
    some blank text, then the text [w] of the token's rule, then the text
    left; the rule is the first one that matches after the blank text, and
    the token is the one the rule makes of [w], at the offset of [w] and on
    the line the newlines of the blank text lead to. *)
Lemma token_rule : forall E fuel lx t lx',
  Lex.token E fuel lx = Ok (Some t, lx') ->
  exists skipped r w,
    Lex.lexrest lx = skipped ++ w ++ Lex.lexrest lx'
    /\ blank skipped = true
    /\ In r (Lex.lexre E)
    /\ matches (Lex.rre r) w
    /\ 1 <= String.length w
    /\ Lex.first_match (Lex.lexre E) (last_char (Lex.lexprev lx) skipped)
         (w ++ Lex.lexrest lx') = Some (r, Lex.lexrest lx')
    /\ Lex.lexpos lx' = Lex.lexpos lx + String.length skipped + String.length w
    /\ Lex.lexprev lx' = last_char (Lex.lexprev lx) (skipped ++ w)
    /\ Lex.lineno lx' = Lex.lineno lx + str_count newline skipped
    /\ tlexpos t = Lex.lexpos lx + String.length skipped
    /\ tlineno t = Lex.lineno lx + str_count newline skipped
    /\ match Lex.rfun r with
       | None => ttype t = Lex.rname r /\ tvalue t = w
       | Some f =>
           exists ln pos ln',
             f (mkTok (Lex.rname r) w ln pos) ln = Ok (Some t, ln')
             /\ mem_str (ttype t) Lex.tokens = true
       end.
Proof.
  intros E fuel. induction fuel as [|f IH]; intros lx t lx' H; [ discriminate H | ].
  cbn [Lex.token] in H.
  destruct (Lex.lexrest lx) as [|c rest] eqn:Hrest; [ discriminate H | ].
  destruct (str_mem c (Lex.lexignore E)) eqn:Hign.
  { destruct (IH _ _ _ H)
      as (sk & r & w & Hs & Hb & Hin & Hw & Hlen & Hfm & Hpos & Hprev & Hln & Htp & Htl & Hf).
    cbn [Lex.lexrest Lex.lexprev Lex.lexpos Lex.lineno] in *.
    assert (Hc0 : str_count newline (String c sk) = str_count newline sk).
    { cbn [str_count]. destruct (ignore_chars _ _ Hign) as [-> | ->]; reflexivity. }
    exists (String c sk), r, w.
    cbn [append last_char String.length blank]. rewrite Hc0.
    repeat split; try assumption; try lia.
    - rewrite Hs. reflexivity.
    - rewrite Hb. destruct (ignore_chars _ _ Hign) as [-> | ->]; reflexivity. }
  destruct (Lex.first_match (Lex.lexre E) (Lex.lexprev lx) (String c rest))
    as [[r s']|] eqn:Hfm.
  2: { destruct (Lex.t_error _ _) as [[? ?]|]; discriminate H. }
  destruct (first_match_sound _ _ _ _ _ Hfm) as (w & Hin & Hw & Hs & Hlen & Htake).
  assert (Hn : String.length (String c rest) - String.length s' = String.length w).
  { rewrite Hs, length_app. lia. }
  rewrite Htake, Hn in H.
  destruct (Lex.rfun r) as [g|] eqn:Hg.
  - destruct (g _ _) as [[[t1|] ln']|e] eqn:Hcall; cbn [bind] in H; [ | | discriminate H ].
    + destruct (mem_str (ttype t1) Lex.tokens) eqn:Hmem; [ | discriminate H ].
      inversion H; subst t1 lx'. clear H.
      destruct (rule_function _ _ _ _ _ _ _ Hin Hg Hcall) as (Hp1 & Hl1 & ->).
      cbn [tlexpos tlineno] in Hp1, Hl1.
      exists "", r, w.
      cbn [Lex.lexrest Lex.lexpos Lex.lexprev Lex.lineno append last_char String.length
           str_count blank].
      rewrite Hg, <- Hs, Hp1, Hl1. repeat split; try assumption; try lia.
      exists (Lex.lineno lx), (Lex.lexpos lx), (Lex.lineno lx). split; assumption.
    + destruct (rule_function _ _ _ _ _ _ _ Hin Hg Hcall) as (Hre & ->).
      cbn [tvalue] in *. rewrite Hre in Hw.
      destruct (newlines_run _ Hw) as [Hbw Hcw].
      destruct (IH _ _ _ H)
        as (sk & r2 & w2 & Hs2 & Hb2 & Hin2 & Hw2 & Hlen2 & Hfm2 & Hpos & Hprev & Hln & Htp
            & Htl & Hf).
      cbn [Lex.lexrest Lex.lexprev Lex.lexpos Lex.lineno] in *.
      exists (w ++ sk), r2, w2.
      rewrite !last_char_app, !length_app, str_count_app.
      rewrite last_char_app in Hprev.
      repeat split; try assumption; try lia.
      * rewrite Hs, Hs2. symmetry. apply app_assoc_str.
      * apply blank_app; assumption.
  - inversion H; subst t lx'. clear H.
    exists "", r, w.
    cbn [Lex.lexrest Lex.lexpos Lex.lexprev Lex.lineno append last_char String.length
         str_count blank ttype tvalue tlexpos tlineno].
    rewrite Hg, <- Hs. repeat split; try assumption; try lia.
Qed.

(** ** Kinds and texts of tokens *)

(** The punctuation of the string rules. *)
Definition punctuation : list (string * string) :=
  [ ("(", "LPAREN"); (")", "RPAREN"); ("?", "QMARK"); (":", "COLON"); (",", "COMMA");
    ("[", "LBRACKET"); ("&[", "LBRACKET"); ("]", "RBRACKET"); ("{", "LBRACE"); ("}", "RBRACE") ].

(** Every kind with a fixed spelling, with its texts: the operators of
    [op_names], the reserved words and the punctuation. *)
Definition spellings : list (string * string) :=
  (Lex.op_names ++ Lex.reserved_words ++ punctuation)%list.

(** [$name] or [name] *)
Definition symbol_text (text : string) : bool :=
  match text with
  | String c w => if Ascii.eqb c "$" then word w else word text
  | EmptyString => false
  end.

Definition float_re : regex :=
  alts [ Cat (Chr "0")
           (alts [ Cat (Chr "b") (Plus (Cls false [("0", "1")]%char));
                   Cat (Chr "o") (Plus (Cls false [("0", "7")]%char));
                   Cat (Chr "x") (Plus (Cls false [("0", "9"); ("a", "f"); ("A", "F")]%char)) ]);
         cats [Plus Lex.digit; Opt (Cat (Chr ".") (Star Lex.digit)); Opt Lex.exponent];
         cats [Chr "."; Plus Lex.digit; Opt Lex.exponent] ].

(** The text of a token fits its kind: a kind with a fixed spelling has one
    of its texts, a SYMBOL is a name with or without the [$], a FLOAT is a
    text of the number pattern. *)
Definition fits (kind text : string) : Prop :=
  if mem_str kind (map snd spellings) then In (text, kind) spellings
  else if String.eqb kind "SYMBOL" then symbol_text text = true
  else if String.eqb kind "FLOAT" then matches float_re text
  else True.

Lemma assoc_In : forall (table : list (string * string)) k v,
  assoc k table = Some v -> In (k, v) table.
Proof.
  induction table as [|[k' v'] table IH]; intros k v H; cbn [assoc] in H; [ discriminate H | ].
  destruct (String.eqb_spec k k') as [<- | ].
  - inversion H. left. reflexivity.
  - right. apply IH. exact H.
Qed.

Lemma star_class : forall items w,
  matches (Star (Cls false items)) w -> all_in items w = true.
Proof.
  intros items w H. remember (Star (Cls false items)) as r eqn:Hr.
  induction H; try discriminate Hr.
  - reflexivity.
  - inversion Hr; subst r. clear Hr.
    inversion H; subst. cbn [append all_in xorb] in *.
    match goal with Hc : in_class _ _ = true |- _ => rewrite Hc end.
    apply IHmatches2. reflexivity.
Qed.

Ltac invert_matches :=
  repeat match goal with
         | H : matches (Chr _) _ |- _ => inversion H; clear H; subst
         | H : matches (Cat _ _) _ |- _ => inversion H; clear H; subst
         | H : matches (Alt _ _) _ |- _ => inversion H; clear H; subst
         | H : matches (Opt _) _ |- _ => inversion H; clear H; subst
         | H : matches (Behind _) _ |- _ => inversion H; clear H; subst
         | H : matches (Ahead _) _ |- _ => inversion H; clear H; subst
         | H : matches (Cls _ _) _ |- _ => inversion H; clear H; subst
         end.

Lemma in_pair_class : forall a b c, in_class [(a, a); (b, b)] c = true -> c = a \/ c = b.
Proof.
  intros a b c H. unfold in_class in H. cbn [existsb] in H.
  unfold in_range, code in H.
  repeat (apply orb_true_iff in H; destruct H as [H | H]); try discriminate H.
  - left. apply andb_true_iff in H. destruct H as [H1 H2].
    apply N.leb_le in H1, H2. rewrite <- (ascii_N_embedding c), <- (ascii_N_embedding a).
    f_equal. lia.
  - right. apply andb_true_iff in H. destruct H as [H1 H2].
    apply N.leb_le in H1, H2. rewrite <- (ascii_N_embedding c), <- (ascii_N_embedding b).
    f_equal. lia.
Qed.

Lemma symbol_matches : forall w,
  matches (cats [Opt (Chr "$"); Lex.sym_start; Star Lex.sym_rest]) w -> symbol_text w = true.
Proof.
  intros w H. cbn [cats] in H. unfold Lex.sym_start in H.
  invert_matches.
  all: cbn [append].
  all: match goal with H : matches (Star _) _ |- _ => apply star_class in H; rename H into Hr end.
  all: match goal with H : xorb false _ = true |- _ => cbn [xorb] in H; rename H into Hc end.
  all: unfold symbol_text.
  - rewrite Ascii.eqb_sym, (rest_char_plain c (start_is_rest c Hc) "$"%char) by in_list.
    unfold word, start_items, rest_items. rewrite Hc. exact Hr.
  - cbn [Ascii.eqb Bool.eqb]. unfold word, start_items, rest_items. rewrite Hc. exact Hr.
Qed.

Lemma fits_spelled : forall kind text, In (text, kind) spellings -> fits kind text.
Proof.
  intros kind text H. unfold fits.
  replace (mem_str kind (map snd spellings)) with true; [ exact H | ].
  symmetry. unfold mem_str. apply existsb_exists. exists kind. split.
  - apply in_map_iff. exists (text, kind). split; [ reflexivity | exact H ].
  - apply String.eqb_refl.
Qed.

Lemma fits_free : forall kind text,
  mem_str kind ("SYMBOL" :: "FLOAT" :: map snd spellings) = false -> fits kind text.
Proof.
  intros kind text H. unfold fits. cbn [mem_str existsb] in H.
  apply orb_false_iff in H. destruct H as [H1 H].
  apply orb_false_iff in H. destruct H as [H2 H].
  unfold mem_str. rewrite H, H1, H2. exact I.
Qed.

Ltac spelled := apply fits_spelled; unfold spellings; in_list.

(** The kind of every token the lexer gives fits its text. *)
Lemma token_fits : forall E fuel lx t lx',
  Lex.token E fuel lx = Ok (Some t, lx') -> fits (ttype t) (tvalue t).
Proof.
  intros E fuel lx t lx' H.
  destruct (token_rule _ _ _ _ _ H)
    as (sk & r & w & _ & _ & Hin & Hw & _ & _ & _ & _ & _ & _ & _ & Hf).
  clear H. explicit_rules E.
  repeat (destruct Hin as [<- | Hin]); [ .. | destruct Hin ];
    cbn [Lex.rfun Lex.rname Lex.rre] in *.
  (* the rules with a function *)
  1, 2, 5, 6: solve [ destruct Hf as (ln & pos & ln' & Hf & _); invert_matches; cbn in Hf; inversion Hf; subst;
                      spelled ].
  1, 2: solve [ destruct Hf as (ln & pos & ln' & Hf & _); invert_matches;
                try match goal with
                    | Hc : xorb false (in_class _ _) = true |- _ =>
                        cbn [xorb] in Hc; apply in_pair_class in Hc; destruct Hc; subst
                    end;
                cbn in Hf; inversion Hf; subst; spelled ].
  1: { destruct Hf as (ln & pos & ln' & Hf & _). apply datetime_kind in Hf. destruct Hf as (t' & Ht & Hk).
       inversion Ht; subst t'. rewrite Hk. apply fits_free. reflexivity. }
  1: { destruct Hf as (ln & pos & ln' & Hf & _). apply timedelta_kind in Hf. destruct Hf as (t' & Ht & Hk).
       inversion Ht; subst t'. rewrite Hk. apply fits_free. reflexivity. }
  1: { destruct Hf as (ln & pos & ln' & Hf & _). apply string_kind in Hf. destruct Hf as (t' & Ht & Hk).
       inversion Ht; subst t'. rewrite Hk. apply fits_free. reflexivity. }
  1: { destruct Hf as (ln & pos & ln' & Hf & _). unfold Lex.t_SYMBOL in Hf. cbn [tvalue] in Hf.
       destruct (mem_str w ["elif"; "else"; "while"]); [ discriminate Hf | ].
       destruct (assoc w Lex.reserved_words) as [ty|] eqn:Ha; inversion Hf; subst;
         cbn [ttype tvalue Lex.set_type].
       - apply fits_spelled. unfold spellings. apply in_or_app. right.
         apply in_or_app. left. apply assoc_In. exact Ha.
       - apply symbol_matches in Hw. exact Hw. }
  1: { destruct Hf as (ln & pos & ln' & Hf & _). discriminate Hf. }
  (* the rules given by a string *)
  all: destruct Hf as [Hty Hval]; rewrite Hty, Hval.
  all: try (exact Hw).
  all: invert_matches; spelled.
Qed.

(** ** The texts of numbers *)

Definition digit_items : list (ascii * ascii) := [("0", "9")]%char.

Lemma plus_class : forall items w,
  matches (Plus (Cls false items)) w ->
  exists c r, w = String c r /\ in_class items c = true /\ all_in items r = true.
Proof.
  intros items w H. inversion H; subst.
  match goal with H1 : matches (Cls _ _) _ |- _ => inversion H1; subst end.
  match goal with H2 : matches (Star _) _ |- _ => apply star_class in H2 end.
  cbn [xorb] in *. do 2 eexists. split; [ reflexivity | split; eassumption ].
Qed.

Lemma digit_range : forall c, in_class digit_items c = in_range "0" "9" c.
Proof. intros c. unfold in_class, digit_items. cbn [existsb]. apply orb_false_r. Qed.

(** The text does not go on with a digit. *)
Definition stops (rest : string) : bool :=
  match rest with
  | String c _ => negb (in_range "0" "9" c)
  | EmptyString => true
  end.

Lemma span_digits_app : forall ds rest,
  all_in digit_items ds = true -> stops rest = true ->
  Actions.span_digits (ds ++ rest) = (ds, rest).
Proof.
  induction ds as [|c ds IH]; intros rest Hds Hrest.
  - cbn [append]. destruct rest as [|c r]; [ reflexivity | ].
    cbn [stops] in Hrest. apply negb_true_iff in Hrest.
    cbn [Actions.span_digits]. rewrite Hrest. reflexivity.
  - cbn [all_in] in Hds. apply andb_true_iff in Hds. destruct Hds as [Hc Hds].
    rewrite digit_range in Hc.
    cbn [append Actions.span_digits]. rewrite Hc, (IH _ Hds Hrest). reflexivity.
Qed.

Lemma span_digits_all : forall ds,
  all_in digit_items ds = true -> Actions.span_digits ds = (ds, "").
Proof.
  intros ds H. rewrite <- (app_empty ds) at 1. apply span_digits_app; [ exact H | reflexivity ].
Qed.

(** [literal_eval_number] on a text that is not a binary, octal or
    hexadecimal literal. *)
Definition decimal (s : string) : option Actions.number :=
  let '(ip, r1) := Actions.span_digits s in
  let '(dot, fp, r2) :=
    match r1 with
    | String "." r => let '(fp, r2) := Actions.span_digits r in (true, fp, r2)
    | _ => (false, EmptyString, r1)
    end in
  match Actions.exponent_part r2 with
  | None => None
  | Some (ex, r3) =>
      match r3, (ip ++ fp)%string with
      | EmptyString, String _ _ =>
          match dot, ex with
          | false, None =>
              match ip with
              | String "0" (String _ _) => if Actions.all_zero ip then Some (Actions.Int 0) else None
              | _ => Some (Actions.Int (Actions.dec_val ip))
              end
          | _, _ =>
              Some (Actions.Dec (Actions.dec_val (ip ++ fp)%string)
                      ((match ex with Some e => e | None => 0 end)
                       - Z.of_nat (String.length fp))%Z)
          end
      | _, _ => None
      end
  end.

Definition based_prefix (s : string) : bool :=
  match s with
  | String c (String d _) => Ascii.eqb c "0" && (Ascii.eqb d "b" || Ascii.eqb d "o" || Ascii.eqb d "x")
  | _ => false
  end.

Lemma literal_decimal : forall s,
  based_prefix s = false -> Actions.literal_eval_number s = decimal s.
Proof.
  intros s H. destruct s as [|c s]; [ reflexivity | ].
  destruct c as [[] [] [] [] [] [] [] []]; try reflexivity.
  destruct s as [|d s]; [ reflexivity | ].
  destruct d as [[] [] [] [] [] [] [] []]; try reflexivity; discriminate H.
Qed.

Lemma digits_val_some : forall base items,
  (forall c, in_class items c = true ->
             exists d, Actions.digit_of c = Some d /\ (d <? base)%Z = true) ->
  forall ds acc, all_in items ds = true -> exists z, Actions.digits_val base ds acc = Some z.
Proof.
  intros base items Hitems. induction ds as [|c ds IH]; intros acc Hds.
  - exists acc. reflexivity.
  - cbn [all_in] in Hds. apply andb_true_iff in Hds. destruct Hds as [Hc Hds].
    destruct (Hitems c Hc) as (d & Hd & Hlt).
    cbn [Actions.digits_val]. rewrite Hd, Hlt. apply IH. exact Hds.
Qed.

Lemma based_some : forall base items w,
  (forall c, in_class items c = true ->
             exists d, Actions.digit_of c = Some d /\ (d <? base)%Z = true) ->
  matches (Plus (Cls false items)) w ->
  exists n, Actions.based base w = Some n.
Proof.
  intros base items w Hitems H.
  destruct (plus_class _ _ H) as (c & r & -> & Hc & Hr).
  destruct (digits_val_some base items Hitems (String c r) 0%Z) as (z & Hz).
  - cbn [all_in]. rewrite Hc, Hr. reflexivity.
  - unfold Actions.based. rewrite Hz. eexists. reflexivity.
Qed.

Ltac digit_cases c H :=
  destruct c as [[] [] [] [] [] [] [] []]; try discriminate H;
  eexists; split; reflexivity.

Lemma binary_digits : forall c,
  in_class [("0", "1")]%char c = true ->
  exists d, Actions.digit_of c = Some d /\ (d <? 2)%Z = true.
Proof. intros c H. digit_cases c H. Qed.

Lemma octal_digits : forall c,
  in_class [("0", "7")]%char c = true ->
  exists d, Actions.digit_of c = Some d /\ (d <? 8)%Z = true.
Proof. intros c H. digit_cases c H. Qed.

Lemma hex_digits : forall c,
  in_class [("0", "9"); ("a", "f"); ("A", "F")]%char c = true ->
  exists d, Actions.digit_of c = Some d /\ (d <? 16)%Z = true.
Proof. intros c H. digit_cases c H. Qed.

(** The text of an exponent evaluates, and nothing is left of it. *)
Lemma exponent_eval : forall x,
  matches Lex.exponent x ->
  exists c r v, x = String c r /\ (c = "e"%char \/ c = "E"%char)
                /\ Actions.exponent_part x = Some (Some v, "").
Proof.
  intros x H. unfold Lex.exponent in H. cbn [cats] in H.
  inversion H; subst. clear H.
  match goal with H1 : matches (Cls _ _) _ |- _ => inversion H1; subst; clear H1 end.
  match goal with Hc : xorb false _ = true |- _ =>
    cbn [xorb] in Hc; apply in_pair_class in Hc end.
  match goal with H2 : matches (Cat _ _) _ |- _ => inversion H2; subst; clear H2 end.
  match goal with Hp : matches (Plus _) _ |- _ =>
    destruct (plus_class _ _ Hp) as (d & r & -> & Hd & Hr); clear Hp end.
  assert (Hds : all_in digit_items (String d r) = true).
  { cbn [all_in]. unfold digit_items, Lex.digit in *. rewrite Hd, Hr. reflexivity. }
  pose proof (span_digits_all _ Hds) as Hspan.
  assert (Hsign : forall sg, sg = "+"%char \/ sg = "-"%char ->
            forall c0, c0 = "e"%char \/ c0 = "E"%char ->
            exists v, Actions.exponent_part (String c0 (String sg (String d r))) = Some (Some v, "")).
  { intros sg [-> | ->] c0 [-> | ->]; unfold Actions.exponent_part;
      cbn [Ascii.eqb Bool.eqb orb andb]; rewrite Hspan; eexists; reflexivity. }
  assert (Hplain : forall c0, c0 = "e"%char \/ c0 = "E"%char ->
            exists v, Actions.exponent_part (String c0 (String d r)) = Some (Some v, "")).
  { intros c0 Hc0.
    assert (Hnosign : (match String d r with
                       | String "+" r' => (false, r')
                       | String "-" r' => (true, r')
                       | _ => (false, String d r)
                       end) = (false, String d r)).
    { clear - Hd. unfold Lex.digit in Hd.
      destruct d as [[] [] [] [] [] [] [] []]; try discriminate Hd; reflexivity. }
    destruct Hc0 as [-> | ->]; unfold Actions.exponent_part;
      cbn [Ascii.eqb Bool.eqb orb andb]; rewrite Hnosign, Hspan; eexists; reflexivity. }
  match goal with Ho : matches (Opt _) _ |- _ => inversion Ho; subst; clear Ho end.
  - cbn [append]. destruct (Hplain c) as (v & Hv); [ assumption | ].
    exists c, (String d r), v. repeat split; assumption.
  - match goal with H1 : matches (Cls _ _) _ |- _ => inversion H1; subst; clear H1 end.
    match goal with Hc : xorb false _ = true |- _ =>
      cbn [xorb] in Hc; apply in_pair_class in Hc end.
    cbn [append].
    match goal with
    | |- exists _ _ _, String ?c0 (String ?sg _) = _ /\ _ =>
        destruct (Hsign sg ltac:(assumption) c0 ltac:(assumption)) as (v & Hv);
        exists c0, (String sg (String d r)), v
    end.
    repeat split; assumption.
Qed.

Lemma decimal_parts : forall ip F X,
  all_in digit_items ip = true ->
  (F = "" \/ exists fp, F = String "." fp /\ all_in digit_items fp = true) ->
  (X = "" \/ matches Lex.exponent X) ->
  (ip <> "" \/ exists c fp, F = String "." (String c fp)) ->
  Actions.leading_zero (ip ++ F ++ X) = false ->
  exists n, decimal (ip ++ F ++ X) = Some n.
Proof.
  intros ip F X Hip HF HX Hne Hz.
  assert (HXe : exists ex, Actions.exponent_part X = Some (ex, "")
                          /\ stops X = true
                          /\ (X = "" /\ ex = None
                              \/ exists c r v, X = String c r /\ (c = "e"%char \/ c = "E"%char)
                                               /\ ex = Some v)).
  { destruct HX as [-> | HX].
    - exists None. repeat split. left. split; reflexivity.
    - destruct (exponent_eval _ HX) as (c & r & v & -> & Hc & Hv).
      exists (Some v). split; [ exact Hv | ]. split.
      + destruct Hc as [-> | ->]; reflexivity.
      + right. exists c, r, v. repeat split. exact Hc. }
  destruct HXe as (ex & Hex & HstopX & HXshape).
  unfold decimal.
  rewrite span_digits_app; [ | exact Hip | ].
  2: { destruct HF as [-> | (fp & -> & _)]; [ exact HstopX | reflexivity ]. }
  destruct HF as [-> | (fp & -> & Hfp)].
  - (* no fraction *)
    cbn [append].
    destruct Hne as [Hne | (c & fp & Hfalse)]; [ | discriminate Hfalse ].
    destruct ip as [|c0 r0]; [ contradiction | ].
    destruct HXshape as [[-> ->] | (c & r & v & -> & Hc & ->)].
    + cbn [Actions.exponent_part append].
      cbn [append] in Hz. rewrite app_empty in Hz.
      cbn [all_in] in Hip. apply andb_true_iff in Hip. destruct Hip as [Hc0 Hr0].
      destruct r0 as [|d r1].
      * destruct c0 as [[] [] [] [] [] [] [] []]; try discriminate Hc0; eexists; reflexivity.
      * cbn [all_in] in Hr0. apply andb_true_iff in Hr0. destruct Hr0 as [Hd _].
        rewrite digit_range in Hd.
        destruct c0 as [[] [] [] [] [] [] [] []]; try discriminate Hc0;
          try (eexists; reflexivity).
        cbn [Actions.leading_zero] in Hz. congruence.
    + assert (Hnodot : (match String c r with
                        | String "." r0 =>
                            let '(fp, r2) := Actions.span_digits r0 in (true, fp, r2)
                        | _ => (false, "", String c r)
                        end) = (false, "", String c r))
        by (destruct Hc as [-> | ->]; reflexivity).
      rewrite Hnodot, Hex. cbn [append]. eexists. reflexivity.
  - (* a fraction *)
    cbn [append].
    rewrite span_digits_app; [ | exact Hfp | exact HstopX ].
    rewrite Hex.
    assert (Hsome : exists c s, ip ++ fp = String c s).
    { destruct Hne as [Hne | (c & fp' & Heq)].
      - destruct ip as [|c0 r0]; [ contradiction | ]. cbn [append]. eauto.
      - inversion Heq; subst. destruct ip as [|c0 r0]; cbn [append]; eauto. }
    destruct Hsome as (c & s & ->).
    eexists. reflexivity.
Qed.

Lemma no_based_prefix : forall c d s,
  in_range "0" "9" d = true \/ d = "."%char \/ d = "e"%char \/ d = "E"%char ->
  based_prefix (String c (String d s)) = false.
Proof.
  intros c d s H. unfold based_prefix.
  replace (Ascii.eqb d "b" || Ascii.eqb d "o" || Ascii.eqb d "x") with false;
    [ apply andb_false_r | ].
  destruct H as [H | [-> | [-> | ->]]]; try reflexivity.
  destruct d as [[] [] [] [] [] [] [] []]; try discriminate H; reflexivity.
Qed.

Lemma frac_parts : forall F,
  matches (Opt (Cat (Chr ".") (Star Lex.digit))) F ->
  F = "" \/ exists fp, F = String "." fp /\ all_in digit_items fp = true.
Proof.
  intros F H. inversion H; subst; clear H; [ left; reflexivity | right ].
  invert_matches. cbn [append].
  match goal with H : matches (Star _) _ |- _ => apply star_class in H end.
  eexists. split; [ reflexivity | eassumption ].
Qed.

Lemma opt_exponent : forall X,
  matches (Opt Lex.exponent) X -> X = "" \/ matches Lex.exponent X.
Proof.
  intros X H. inversion H; subst; [ left; reflexivity | right; assumption ].
Qed.

(** Every text of the number pattern that does not start with a zero and
    a digit is a Python literal. *)
Lemma float_text_eval : forall w,
  matches float_re w ->
  Actions.leading_zero w = false ->
  exists n, Actions.literal_eval_number w = Some n.
Proof.
  intros w H Hz. unfold float_re in H. cbn [alts cats] in H.
  inversion H; subst; clear H.
  - (* a prefixed literal *)
    invert_matches; cbn [append].
    all: match goal with
         | H : matches (Plus _) ?x |- _ =>
             first
               [ change (exists n, Actions.based 2 x = Some n);
                 exact (based_some _ _ _ binary_digits H)
               | change (exists n, Actions.based 8 x = Some n);
                 exact (based_some _ _ _ octal_digits H)
               | change (exists n, Actions.based 16 x = Some n);
                 exact (based_some _ _ _ hex_digits H) ]
         end.
  - match goal with H : matches (Alt _ _) _ |- _ => inversion H; subst; clear H end.
    + (* digits, a fraction, an exponent *)
      match goal with H : matches (Cat _ _) _ |- _ => inversion H; subst; clear H end.
      match goal with H : matches (Cat _ _) _ |- _ => inversion H; subst; clear H end.
      match goal with
      | H1 : matches (Plus _) ?ip, H2 : matches (Opt (Cat _ _)) ?F,
        H3 : matches (Opt Lex.exponent) ?X |- _ =>
          destruct (plus_class _ _ H1) as (c & r & -> & Hc & Hr); clear H1;
          pose proof (frac_parts _ H2) as HF; clear H2;
          pose proof (opt_exponent _ H3) as HX; clear H3
      end.
      assert (Hip : all_in digit_items (String c r) = true).
      { cbn [all_in]. unfold digit_items. rewrite Hc, Hr. reflexivity. }
      rewrite literal_decimal.
      * apply decimal_parts; try assumption. left. discriminate.
      * cbn [append].
        destruct r as [|d r'].
        { cbn [append].
          destruct HF as [-> | (fp & -> & _)].
          - destruct HX as [-> | HX]; [ reflexivity | ].
            destruct (exponent_eval _ HX) as (c0 & r0 & v & -> & Hc0 & _).
            apply no_based_prefix. tauto.
          - apply no_based_prefix. tauto. }
        { cbn [append]. apply no_based_prefix. left.
          cbn [all_in] in Hr. apply andb_true_iff in Hr. destruct Hr as [Hd _].
          rewrite <- digit_range. exact Hd. }
    + (* a fraction alone, an exponent *)
      match goal with H : matches (Cat _ _) _ |- _ => inversion H; subst; clear H end.
      match goal with H : matches (Cat _ _) _ |- _ => inversion H; subst; clear H end.
      match goal with H : matches (Chr _) _ |- _ => inversion H; subst; clear H end.
      match goal with
      | H1 : matches (Plus _) ?fp, H3 : matches (Opt Lex.exponent) ?X |- _ =>
          destruct (plus_class _ _ H1) as (c & r & -> & Hc & Hr); clear H1;
          pose proof (opt_exponent _ H3) as HX; clear H3
      end.
      rewrite literal_decimal by reflexivity.
      match goal with
      | |- exists n, decimal ("." ++ String c r ++ ?X) = _ =>
          change ("." ++ String c r ++ X) with ("" ++ String "." (String c r) ++ X)
      end.
      apply decimal_parts.
      * reflexivity.
      * right. exists (String c r). split; [ reflexivity | ].
        cbn [all_in]. unfold digit_items. rewrite Hc, Hr. reflexivity.
      * exact HX.
      * right. eauto.
      * reflexivity.
Qed.

(** ** The errors of a run *)

(** The exceptions that leave phase one: the syntax error of the parser
    with the offending token ([None] at the end of the text), the two errors
    of the lexer, the two errors of a number (a leading zero, an integer too
    large for a float), and what [literal_eval] raises on the text of a
    string or datetime literal, a [SyntaxError] apart: that one is caught by
    the parser. *)
Inductive expected (E : externals) : exn -> Prop :=
| e_syntax : forall tok, expected E (RuleSyntaxError "syntax error" tok)
| e_illegal : forall c rest ln pos,
    expected E (RuleSyntaxError ("syntax error (illegal character " ++ Lex.repr_char c ++ ")")
                  (Some (mkTok "error" (String c rest) ln pos)))
| e_future : forall kw,
    In kw ["elif"; "else"; "while"] ->
    expected E (RuleSyntaxError
                  ("syntax error (the " ++ kw ++ " keyword is reserved for future use)") None)
| e_leading_zero : forall s,
    Actions.leading_zero s = true ->
    expected E (RuleSyntaxError
                  ("invalid floating point literal: " ++ s
                   ++ " (leading zeros in decimal literals are not permitted)") None)
| e_overflow : expected E (OverflowError "int too large to convert to float")
| e_literal : forall s kind message,
    literal_eval_str E s = inr (kind, message) ->
    Parser.is_syntax_error (PyError kind message) = false ->
    expected E (PyError kind message).

(** [literal_eval] raises a [SyntaxError] on some text. *)
Definition literal_refused (E : externals) : Prop :=
  exists s kind message,
    literal_eval_str E s = inr (kind, message)
    /\ Parser.is_syntax_error (PyError kind message) = true.

Lemma mem_str_In : forall k l, mem_str k l = true -> In k l.
Proof.
  intros k l H. unfold mem_str in H. apply existsb_exists in H.
  destruct H as (x & Hin & Hx). apply String.eqb_eq in Hx. subst. exact Hin.
Qed.

(** A call of [token()] with enough steps for the text raises one of the
    two errors of the lexer, and nothing else. *)
Lemma token_raises : forall E fuel lx e,
  Lex.token E fuel lx = Raise e ->
  String.length (Lex.lexrest lx) < fuel ->
  expected E e.
Proof.
  intros E fuel. induction fuel as [|f IH]; intros lx e H Hfuel; [ lia | ].
  cbn [Lex.token] in H.
  destruct (Lex.lexrest lx) as [|c rest] eqn:Hrest; [ discriminate H | ].
  cbn [String.length] in Hfuel.
  destruct (str_mem c (Lex.lexignore E)).
  { apply (IH _ _ H). cbn [Lex.lexrest]. lia. }
  destruct (Lex.first_match (Lex.lexre E) (Lex.lexprev lx) (String c rest))
    as [[r s']|] eqn:Hfm.
  2: { cbn in H. inversion H. constructor. }
  destruct (first_match_sound _ _ _ _ _ Hfm) as (w & Hin & Hw & Hs & Hlen & Htake).
  rewrite Htake in H.
  assert (Hshort : String.length s' < f).
  { apply (f_equal String.length) in Hs. rewrite length_app in Hs.
    cbn [String.length] in Hs. lia. }
  clear Hfm Htake.
  explicit_rules E.
  repeat (destruct Hin as [<- | Hin]); [ .. | destruct Hin ];
    cbn [Lex.rfun Lex.rname Lex.rre] in *.
  (* the rules given by a string give their token *)
  all: try discriminate H.
  (* the rules with a function *)
  all: match type of H with
       | bind (?g ?t0 ?ln) _ = _ =>
           destruct (g t0 ln) as [[[t1|] ln']|e1] eqn:Hf; cbn [bind] in H
       end.
  (* a token: its kind is one of the token set *)
  all: try (function_kind Hf; destruct Hf as (t' & Ht & Hk); inversion Ht; subst t';
            cbn [ttype map snd Lex.reserved_words In] in Hk;
            repeat (destruct Hk as [Hk | Hk]); try contradiction;
            match type of Hk with
            | ttype _ = _ => rewrite Hk in H
            | _ = ttype _ => rewrite <- Hk in H
            end;
            match type of H with
            | context [mem_str ?k Lex.tokens] =>
                replace (mem_str k Lex.tokens) with true in H by (vm_compute; reflexivity)
            end;
            discriminate H).
  all: try discriminate Hf.
  (* no token: the lexer looks again *)
  all: try (apply (IH _ _ H); cbn [Lex.lexrest]; exact Hshort).
  (* the function raised *)
  all: inversion H; subst; clear H.
  - invert_matches;
      try match goal with
          | Hc : xorb false (in_class _ _) = true |- _ =>
              cbn [xorb] in Hc; apply in_pair_class in Hc; destruct Hc; subst
          end; cbn in Hf; discriminate Hf.
  - invert_matches;
      try match goal with
          | Hc : xorb false (in_class _ _) = true |- _ =>
              cbn [xorb] in Hc; apply in_pair_class in Hc; destruct Hc; subst
          end; cbn in Hf; discriminate Hf.
  - unfold Lex.t_STRING in Hf. cbn [tvalue] in Hf.
    destruct w as [|a v]; [ discriminate Hf | ].
    destruct a as [[] [] [] [] [] [] [] []]; discriminate Hf.
  - unfold Lex.t_SYMBOL in Hf. cbn [tvalue] in Hf.
    destruct (mem_str w ["elif"; "else"; "while"]) eqn:Hkw; inversion Hf.
    apply e_future. apply mem_str_In. exact Hkw.
Qed.

(** ** Runs of the parser *)


(** A number for each grammar symbol that falls along every production with
    one symbol on its right-hand side. *)
Definition rank (name : string) : nat :=
  if mem_str name ["statement"; "ary_members"; "map_members"] then 0
  else if mem_str name ["expression"; "map_member"] then 1
  else if String.eqb name "object" then 2
  else 3.

Lemma rank_le : forall name, rank name <= 3.
Proof.
  intros name. unfold rank.
  destruct (mem_str name _); [ lia | ].
  destruct (mem_str name _); [ lia | ].
  destruct (String.eqb name _); lia.
Qed.

Section Walks.
Variable T : lrtable.
Variable ps : list Grammar.production.

(** Every path of transitions that ends in [q] and spells [rsyms] (last
    symbol first) starts in a state where [good] holds. *)
Fixpoint back_to (pr : list (list (nat * string))) (good : nat -> bool) (q : nat)
    (rsyms : list string) : bool :=
  match rsyms with
  | [] => good q
  | x :: rsyms' =>
      negb (Nat.eqb q 0)
      && forallb (fun '(q', name) => String.eqb name x && back_to pr good q' rsyms')
           (nth q pr [])
  end.

Definition has_goto (l : nat) (q : nat) : bool :=
  match lookup l (nth q (lr_goto T) []) with
  | Some _ => true
  | None => false
  end.

(** Further checks the tables pass: the production of the start symbol is
    never reduced; no production that is reduced is empty, the rank falls
    along those of one symbol, and below the right-hand side of a reduction
    lies a state with a transition on the left-hand side; the end marker is
    never shifted; the parser accepts on top of a statement only. *)
Definition run_ok : bool :=
  let pr := preds T in
  forallb (fun q =>
             forallb (fun '(a, act) =>
                        match act with
                        | Reduce p =>
                            match nth_error ps p, nth_error (lr_prods T) p with
                            | Some prod, Some (_, l, _, _) =>
                                negb (Nat.eqb p 0)
                                && match Grammar.psyms prod with
                                   | [] => false
                                   | [x] => (rank (Grammar.pname prod) <? rank x)%nat
                                   | _ => true
                                   end
                                && back_to pr (has_goto l) q (rev (Grammar.psyms prod))
                            | _, _ => false
                            end
                        | Shift _ => negb (String.eqb (nth a (lr_terminals T) "") "$end")
                        | Accept => back_to pr (fun _ => true) q ["statement"]
                        | NoAction => true
                        end) (nth q (lr_action T) []))
    (seq 0 (nstates T)).

End Walks.

Lemma the_run_ok : run_ok the_table the_productions = true.
Proof. vm_compute. reflexivity. Qed.

(** No state has an action under the [error] symbol: no production of the
    grammar has it. *)
Definition error_free (T : lrtable) : bool :=
  match index_of "error" (lr_terminals T) 0 with
  | Some a =>
      forallb (fun row => match lookup a row with
                          | None => true
                          | Some _ => false
                          end) (lr_action T)
  | None => true
  end.

Section Runs.
Variable E : externals.
Variable ctx : Context.
Variable T : lrtable.
Variable ps : list Grammar.production.
Hypothesis Hok : table_ok T ps = true.
Hypothesis Hrun : run_ok T ps = true.

(** The tables have no action under the [error] symbol. *)
Hypothesis Herror : error_free T = true.

(** The values of the grammar symbols, the exceptions that are let through,
    and what has happened once a method raised a [SyntaxError]. *)
Variable wt : string -> pyval -> Prop.
Variable allowed : exn -> Prop.
Variable caught : Prop.
Hypothesis allowed_syntax : forall tok, allowed (Actions.p_error tok).

Definition method_typed (pr : Grammar.production) : Prop :=
  forall targ,
    Forall2 wt (Grammar.psyms pr) targ ->
    match Actions.call E ctx (Grammar.pfunc pr) targ with
    | Ok v => wt (Grammar.pname pr) v
    | Raise e => if Parser.is_syntax_error e then caught else allowed e
    end.
Hypothesis Hmethods : Forall method_typed (tl ps).

(** The source of tokens: each token has a value of its kind and leaves the
    source smaller; it does not grow at the end. *)
Variable LX : Type.
Variable get_token : LX -> outcome (option LexToken * LX).
Variable size : LX -> nat.
Hypothesis Hsource : forall lx,
  match get_token lx with
  | Ok (Some tok, lx') => wt (ttype tok) (PStr (tvalue tok)) /\ size lx' < size lx
  | Ok (None, lx') => size lx' <= size lx
  | Raise e => allowed e
  end.

Fixpoint stack_typed (statestack : list nat) (symstack : list (string * pyval)) : Prop :=
  match statestack, symstack with
  | [q], [_] => q = 0
  | j :: ((q :: _) as ss), (name, v) :: sy =>
      In (name, j) (edges T q) /\ wt name v /\ stack_typed ss sy
  | _, _ => False
  end.

Definition la_typed (la : option Parser.lasym) : Prop :=
  match la with
  | Some (Parser.LaToken tok) => wt (ttype tok) (PStr (tvalue tok))
  | _ => True
  end.

(** Lookaheads are saved only while the [error] symbol is at hand. *)
Definition saved_ok (la : option Parser.lasym) (saved : list (option Parser.lasym)) : Prop :=
  la = Some Parser.LaError \/ saved = [].

Definition top_name (symstack : list (string * pyval)) : string :=
  match symstack with
  | (name, _) :: _ => name
  | [] => ""
  end.

(** What the lookahead adds to the steps that are left. *)
Definition la_steps (la : option Parser.lasym) : nat :=
  match la with
  | None => 2
  | Some (Parser.LaToken _) => 12
  | Some Parser.LaEnd => 1
  | Some Parser.LaError => 3
  end.

(** A bound on the steps left: it falls with every step of the parser. *)
Definition steps_left (symstack : list (string * pyval)) (la : option Parser.lasym) (lx : LX)
  : nat :=
  11 * size lx + 6 * length symstack + rank (top_name symstack) + la_steps la.

Lemma state_row : forall q a act,
  In (a, act) (nth q (lr_action T) []) -> q < nstates T.
Proof.
  intros q a act Hin.
  destruct (Nat.lt_ge_cases q (nstates T)) as [Hlt | Hge]; [ exact Hlt | exfalso ].
  unfold nstates in Hge. rewrite (nth_overflow (lr_action T)) in Hin by exact Hge. exact Hin.
Qed.

Lemma run_ok_row : forall q a act,
  In (a, act) (nth q (lr_action T) []) ->
  match act with
  | Reduce p =>
      match nth_error ps p, nth_error (lr_prods T) p with
      | Some prod, Some (_, l, _, _) =>
          negb (Nat.eqb p 0)
          && match Grammar.psyms prod with
             | [] => false
             | [x] => (rank (Grammar.pname prod) <? rank x)%nat
             | _ => true
             end
          && back_to (preds T) (has_goto T l) q (rev (Grammar.psyms prod))
      | _, _ => false
      end
  | Shift _ => negb (String.eqb (nth a (lr_terminals T) "") "$end")
  | Accept => back_to (preds T) (fun _ => true) q ["statement"]
  | NoAction => true
  end = true.
Proof.
  intros q a act Hin. pose proof (state_row _ _ _ Hin) as Hq.
  unfold run_ok in Hrun. rewrite forallb_forall in Hrun.
  specialize (Hrun q). rewrite in_seq in Hrun.
  assert (Hq' : 0 <= q < 0 + nstates T) by lia.
  specialize (Hrun Hq'). rewrite forallb_forall in Hrun.
  exact (Hrun _ Hin).
Qed.

(** On top of a state that passed [back_to] lie the symbols it names, with
    values of their kinds; below is a stack again, and its top state is a
    good one. *)
Lemma back_walk : forall good rsyms q ss sy,
  back_to (preds T) good q rsyms = true ->
  stack_typed (q :: ss) sy ->
  exists top below,
    sy = (top ++ below)%list
    /\ map fst top = rsyms
    /\ Forall (fun '(name, v) => wt name v) top
    /\ stack_typed (skipn (length rsyms) (q :: ss)) below
    /\ good (hd 0 (skipn (length rsyms) (q :: ss))) = true.
Proof.
  intros good. induction rsyms as [|x rsyms IH]; intros q ss sy Hb Hs.
  - exists [], sy. repeat split; [ constructor | exact Hs | exact Hb ].
  - cbn [back_to] in Hb. apply andb_true_iff in Hb. destruct Hb as [Hq Hall].
    apply negb_true_iff, Nat.eqb_neq in Hq.
    destruct ss as [|q' ss'].
    + cbn in Hs. destruct sy as [|e [|e' sy']]; try contradiction.
    + destruct sy as [|[name v] sy']; [ contradiction | ].
      cbn [stack_typed] in Hs. destruct Hs as (Hedge & Hwt & Hs).
      rewrite forallb_forall in Hall.
      specialize (Hall _ (edge_pred T ps Hok _ _ _ Hedge)). cbn in Hall.
      apply andb_true_iff in Hall. destruct Hall as [Hname Hb'].
      apply String.eqb_eq in Hname. subst x.
      destruct (IH _ _ _ Hb' Hs) as (top & below & -> & Hfst & Htop & Hbelow & Hgood).
      exists ((name, v) :: top), below.
      repeat split.
      * cbn. rewrite Hfst. reflexivity.
      * constructor; assumption.
      * exact Hbelow.
      * exact Hgood.
Qed.

Lemma typed_args : forall top,
  Forall (fun '(name, v) => wt name v) top ->
  Forall2 wt (rev (map fst top)) (rev (map snd top)).
Proof.
  induction top as [|[name v] top IH]; intros H; cbn.
  - constructor.
  - inversion H; subst. apply Forall2_app; [ apply IH; assumption | ].
    constructor; [ assumption | constructor ].
Qed.

Lemma next_typed : forall q la saved lx,
  la_typed la ->
  saved_ok la saved ->
  match Parser.next T get_token q la saved lx with
  | Ok (t, la', saved', lx') =>
      la_typed la'
      /\ saved_ok la' saved'
      /\ 11 * size lx' + la_steps la' <= 11 * size lx + la_steps la
      /\ forall act, t = Some act ->
           exists a, In (a, act) (nth q (lr_action T) [])
                     /\ forall j, act = Shift j ->
                          exists s, la' = Some s /\ s <> Parser.LaError
                                    /\ nth a (lr_terminals T) "" = Parser.sym_type s
  | Raise e => allowed e
  end.
Proof.
  intros q la saved lx Hla Hsaved. unfold Parser.next.
  destruct (Parser.defaulted (nth q (lr_action T) [])) as [p|] eqn:Hd.
  - split; [ exact Hla | ]. split; [ exact Hsaved | ]. split; [ lia | ].
    intros act Hact. inversion Hact; subst act.
    unfold Parser.defaulted in Hd.
    destruct (nth q (lr_action T) []) as [|[a [j|p'| |]] [|? ?]]; try discriminate Hd.
    inversion Hd; subst. exists a. split; [ left; reflexivity | discriminate ].
  - assert (Htok :
      match (match la with
             | Some s => Ok (s, saved, lx)
             | None =>
                 match saved with
                 | top :: rest =>
                     Ok (match top with Some s => s | None => Parser.LaEnd end, rest, lx)
                 | [] =>
                     do (tok, lx') <- get_token lx;
                     Ok (match tok with
                         | Some tk => Parser.LaToken tk
                         | None => Parser.LaEnd
                         end, [], lx')
                 end
             end) with
      | Ok (s, saved', lx') =>
          la_typed (Some s) /\ saved_ok (Some s) saved'
          /\ 11 * size lx' + la_steps (Some s) <= 11 * size lx + la_steps la
      | Raise e => allowed e
      end).
    { destruct la as [s|].
      - repeat split; [ exact Hla | exact Hsaved | lia ].
      - destruct Hsaved as [Hsaved | ->]; [ discriminate Hsaved | ].
        specialize (Hsource lx). destruct (get_token lx) as [[[tok|] lx']|e]; cbn [bind].
        + destruct Hsource as [Hwt Hsize].
          repeat split; [ exact Hwt | right; reflexivity | cbn [la_steps]; lia ].
        + repeat split; [ right; reflexivity | cbn [la_steps]; lia ].
        + exact Hsource. }
    match type of Htok with
    | match ?m with _ => _ end => destruct m as [[[s saved'] lx']|e]
    end; cbn [bind]; [ | exact Htok ].
    destruct Htok as (Hs & Hsaved' & Hsteps).
    split; [ exact Hs | ]. split; [ exact Hsaved' | ]. split; [ exact Hsteps | ].
    intros act Hact.
    destruct (index_of (Parser.sym_type s) (lr_terminals T) 0) as [a|] eqn:Hi;
      [ | discriminate Hact ].
    exists a. split; [ apply lookup_In; exact Hact | ].
    intros j _. exists s. split; [ reflexivity | ]. split.
    + intros ->. cbn [Parser.sym_type] in Hi.
      unfold error_free in Herror. rewrite Hi in Herror.
      destruct (Nat.lt_ge_cases q (length (lr_action T))) as [Hlt | Hge].
      * rewrite forallb_forall in Herror.
        specialize (Herror _ (nth_In _ [] Hlt)). rewrite Hact in Herror. discriminate Herror.
      * rewrite (nth_overflow _ _ Hge) in Hact. discriminate Hact.
    + destruct (index_of_nth _ _ _ _ Hi) as [_ Hn].
      rewrite Nat.sub_0_r in Hn. exact Hn.
Qed.

Lemma typed_nonempty : forall statestack symstack,
  stack_typed statestack symstack -> exists q ss, statestack = q :: ss.
Proof.
  intros [|q ss] symstack H; [ destruct H | eauto ].
Qed.

Lemma typed_pop : forall statestack symstack,
  stack_typed statestack symstack ->
  Nat.leb (length statestack) 1 = false ->
  stack_typed (tl statestack) (tl symstack)
  /\ length symstack = S (length (tl symstack)).
Proof.
  intros [|j [|q ss]] symstack H Hlen; try discriminate Hlen.
  destruct symstack as [|[name v] sy]; [ destruct H | ].
  cbn [stack_typed] in H. destruct H as (_ & _ & H). split; [ exact H | reflexivity ].
Qed.

(** What a run gives: a value of a statement, [None] after a [SyntaxError]
    was caught, or an exception that is let through. *)
Definition good_end (r : outcome pyval) : Prop :=
  match r with
  | Ok v => wt "statement" v \/ (v = PNone /\ caught)
  | Raise e => allowed e
  end.

Lemma parseopt_total : forall fuel statestack symstack la saved errorcount errorok lx,
  stack_typed statestack symstack ->
  la_typed la ->
  saved_ok la saved ->
  errorcount = 0 \/ caught ->
  steps_left symstack la lx < fuel ->
  good_end (Parser.parseopt E ctx T get_token fuel statestack symstack la saved
              errorcount errorok lx).
Proof.
  induction fuel as [|fuel IH];
    intros statestack symstack la saved errorcount errorok lx Hs Hla Hsaved Hcaught Hfuel;
    [ lia | ].
  cbn [Parser.parseopt].
  destruct (typed_nonempty _ _ Hs) as (q & ss & ->). cbn [hd].
  pose proof (next_typed q la saved lx Hla Hsaved) as Hna.
  destruct (Parser.next T get_token q la saved lx) as [[[[t la'] saved'] lx']|e]; cbn [bind];
    [ | exact Hna ].
  destruct Hna as (Hla' & Hsaved' & Hpend & Hact).
  assert (Hrecover :
    (Nat.eqb errorcount 0 || errorok)%bool = false ->
    good_end
      match match la' with Some s => s | None => Parser.LaEnd end with
      | Parser.LaToken _ =>
          if Nat.leb (length (q :: ss)) 1 then
            Parser.parseopt E ctx T get_token fuel (q :: ss) symstack None []
              Parser.error_count errorok lx'
          else if String.eqb (fst (hd ("", PNone) symstack)) "error" then
            Parser.parseopt E ctx T get_token fuel (q :: ss) symstack None saved'
              Parser.error_count errorok lx'
          else
            Parser.parseopt E ctx T get_token fuel (q :: ss) symstack (Some Parser.LaError)
              (Some match la' with Some s => s | None => Parser.LaEnd end :: saved')
              Parser.error_count errorok lx'
      | Parser.LaEnd => Ok PNone
      | Parser.LaError =>
          if Nat.leb (length (q :: ss)) 1 then
            Parser.parseopt E ctx T get_token fuel (q :: ss) symstack None []
              Parser.error_count errorok lx'
          else
            Parser.parseopt E ctx T get_token fuel (tl (q :: ss)) (tl symstack)
              (Some Parser.LaError) saved' Parser.error_count errorok lx'
      end).
  { intros Hcond. apply orb_false_iff in Hcond. destruct Hcond as [Hcount _].
    apply Nat.eqb_neq in Hcount.
    assert (Hc : caught) by (destruct Hcaught as [Hz | Hc]; [ contradiction | exact Hc ]).
    unfold steps_left in *.
    destruct la' as [[tok| |]|]; cbn [la_steps] in *.
    - destruct (Nat.leb (length (q :: ss)) 1).
      + apply IH; [ exact Hs | exact I | right; reflexivity | right; exact Hc | ].
        cbn [la_steps]. lia.
      + destruct (String.eqb (fst (hd ("", PNone) symstack)) "error").
        * destruct Hsaved' as [Hsaved' | ->]; [ discriminate Hsaved' | ].
          apply IH; [ exact Hs | exact I | right; reflexivity | right; exact Hc | ].
          cbn [la_steps]. lia.
        * apply IH; [ exact Hs | exact I | left; reflexivity | right; exact Hc | ].
          cbn [la_steps]. lia.
    - right. split; [ reflexivity | exact Hc ].
    - destruct (Nat.leb (length (q :: ss)) 1) eqn:Hlen.
      + apply IH; [ exact Hs | exact I | right; reflexivity | right; exact Hc | ].
        cbn [la_steps]. lia.
      + destruct (typed_pop _ _ Hs Hlen) as [Hpop Hlen'].
        apply IH; [ exact Hpop | exact I | left; reflexivity | right; exact Hc | ].
        cbn [la_steps]. pose proof (rank_le (top_name (tl symstack))). lia.
    - right. split; [ reflexivity | exact Hc ]. }
  destruct t as [[j|p| |]|].
  - (* shift *)
    destruct (Hact _ eq_refl) as (a & Hin & Hname).
    destruct (Hname j eq_refl) as (s & -> & Hnoerr & Hs').
    pose proof (run_ok_row _ _ _ Hin) as Hrow. cbn in Hrow.
    apply negb_true_iff, String.eqb_neq in Hrow. rewrite Hs' in Hrow.
    destruct s as [tk| |]; [ | exfalso; apply Hrow; reflexivity | contradiction ].
    destruct Hsaved' as [Hsaved' | ->]; [ discriminate Hsaved' | ].
    apply IH.
    + cbn [stack_typed]. split; [ | split; [ exact Hla' | exact Hs ] ].
      rewrite <- Hs'. apply (shift_edge T). exact Hin.
    + exact I.
    + right. reflexivity.
    + destruct Hcaught as [-> | Hc]; [ left; reflexivity | right; exact Hc ].
    + unfold steps_left in *. cbn [la_steps length top_name Parser.sym_type] in *.
      pose proof (rank_le (ttype tk)). lia.
  - (* reduce *)
    destruct (Hact _ eq_refl) as (a & Hin & _).
    pose proof (run_ok_row _ _ _ Hin) as Hrow. cbn beta iota in Hrow.
    pose proof (state_row _ _ _ Hin) as Hq.
    destruct (table_ok_state T ps Hok q Hq) as [Hred _].
    rewrite forallb_forall in Hred. specialize (Hred _ Hin). cbn in Hred.
    unfold reduce_ok in Hred.
    destruct (nth_error ps p) as [prod|] eqn:Hprod; [ | discriminate Hred ].
    destruct (nth_error (lr_prods T) p) as [[[[pname plhs] plen] fname]|];
      [ | discriminate Hred ].
    apply andb_true_iff in Hrow. destruct Hrow as [Hrow Hback].
    apply andb_true_iff in Hrow. destruct Hrow as [Hp0 Hunit].
    apply negb_true_iff, Nat.eqb_neq in Hp0.
    repeat (apply andb_true_iff in Hred; destruct Hred as [Hred ?]).
    repeat match goal with
           | H : String.eqb _ _ = true |- _ => apply String.eqb_eq in H
           | H : Nat.eqb _ _ = true |- _ => apply Nat.eqb_eq in H
           end.
    subst pname plen fname.
    destruct (back_walk _ _ _ _ _ Hback Hs)
      as (top & below & -> & Hfst & Htop & Hbelow & Hgoto).
    assert (Hlen : length top = length (Grammar.psyms prod)).
    { rewrite <- (length_map fst top), Hfst, length_rev. reflexivity. }
    rewrite <- Hlen.
    rewrite firstn_app, Nat.sub_diag, firstn_all. cbn [firstn]. rewrite app_nil_r.
    rewrite skipn_app, Nat.sub_diag, skipn_all. cbn [skipn app].
    rewrite length_rev, <- Hlen in Hbelow, Hgoto.
    pose proof (typed_args top Htop) as Hslots.
    rewrite Hfst, rev_involutive in Hslots.
    rewrite Forall_forall in Hmethods.
    assert (Hintl : In prod (tl ps)).
    { destruct p as [|p']; [ contradiction | ].
      destruct ps as [|p0 ps']; [ discriminate Hprod | ].
      cbn [tl nth_error] in *. exact (nth_error_In _ _ Hprod). }
    pose proof (Hmethods prod Hintl _ Hslots) as Hcall.
    destruct (Actions.call E ctx (Grammar.pfunc prod) (rev (map snd top))) as [value|e].
    2: { destruct (Parser.is_syntax_error e); [ | exact Hcall ].
         (* the error is caught *)
         destruct top as [|e1 top'].
         { cbn in Hlen. destruct (Grammar.psyms prod); [ discriminate Hunit | discriminate Hlen ]. }
         cbn [tl].
         assert (Hdeep : Nat.leb (length (q :: ss)) 1 = false).
         { destruct ss as [|q' ss']; [ | reflexivity ].
           cbn [length skipn] in Hbelow. rewrite skipn_nil in Hbelow. destruct Hbelow. }
         change ((e1 :: top') ++ below)%list with (e1 :: (top' ++ below))%list in Hs, Hfuel.
         destruct (typed_pop _ _ Hs Hdeep) as [Hpop _]. cbn [tl] in Hpop.
         apply IH; [ exact Hpop | exact I | left; reflexivity | right; exact Hcall | ].
         unfold steps_left in *. cbn [la_steps length] in *.
         pose proof (rank_le (top_name (top' ++ below))).
         assert (1 <= la_steps la') by (destruct la' as [[| |]|]; cbn; lia).
         lia. }
    destruct (typed_nonempty _ _ Hbelow) as (q' & ss' & Hq').
    rewrite Hq' in *. cbn [hd] in *.
    unfold has_goto in Hgoto.
    destruct (lookup plhs (nth q' (lr_goto T) [])) as [j|] eqn:Hg; [ | discriminate Hgoto ].
    apply IH.
    + cbn [stack_typed]. split; [ | split; [ exact Hcall | exact Hbelow ] ].
      match goal with
      | H : nonterminal_name T plhs = _ |- _ => rewrite <- H
      end.
      apply (goto_edge T). exact Hg.
    + exact Hla'.
    + exact Hsaved'.
    + exact Hcaught.
    + unfold steps_left in *. cbn [top_name length] in *. rewrite List.length_app in Hfuel.
      destruct top as [|[x v] [|e2 top']].
      * cbn in Hlen. destruct (Grammar.psyms prod); [ discriminate Hunit | discriminate Hlen ].
      * cbn [map rev app] in Hfst. rewrite <- (rev_involutive (Grammar.psyms prod)) in Hunit.
        rewrite <- Hfst in Hunit. cbn in Hunit. apply Nat.ltb_lt in Hunit.
        cbn [app top_name length] in Hfuel. lia.
      * cbn [app top_name length] in Hfuel.
        pose proof (rank_le (Grammar.pname prod)). lia.
  - (* accept *)
    destruct (Hact _ eq_refl) as (a & Hin & _).
    pose proof (run_ok_row _ _ _ Hin) as Hrow. cbn beta iota in Hrow.
    destruct (back_walk _ _ _ _ _ Hrow Hs) as (top & below & -> & Hfst & Htop & _).
    destruct top as [|[name v] [|? ?]]; try discriminate Hfst.
    cbn in Hfst. inversion Hfst; subst name.
    inversion Htop; subst. cbn. left. assumption.
  - destruct (Nat.eqb errorcount 0 || errorok)%bool; [ apply allowed_syntax | ].
    exact (Hrecover eq_refl).
  - destruct (Nat.eqb errorcount 0 || errorok)%bool; [ apply allowed_syntax | ].
    exact (Hrecover eq_refl).
Qed.

End Runs.

(** ** The values of the grammar symbols *)

(** What a grammar symbol holds on the stack of the parser: a deferred node
    for [expression] and [object], the statement node over a deferred node
    for [statement], a deque for the two lists of members, a pair for a
    member of a mapping, and for a token its text, fitting its kind. *)
Definition value_ok (ctx : Context) (sym : string) (v : pyval) : Prop :=
  if mem_str sym ["expression"; "object"] then is_deferred v = true
  else if String.eqb sym "statement" then exists e, v = stmt ctx e /\ is_deferred e = true
  else if mem_str sym ["ary_members"; "map_members"] then exists l, v = PDeque l
  else if String.eqb sym "map_member" then exists k x, v = PTuple [k; x]
  else exists text, v = PStr text /\ fits sym text.

Definition nonterminal_names : list string :=
  ["expression"; "object"; "statement"; "ary_members"; "map_members"; "map_member"].

Lemma value_node : forall ctx sym v,
  mem_str sym ["expression"; "object"] = true ->
  value_ok ctx sym v ->
  exists cls args kwargs method, v = PDeferred cls args kwargs method.
Proof.
  intros ctx sym v Hs H. unfold value_ok in H. rewrite Hs in H.
  destruct v; try discriminate H. do 4 eexists. reflexivity.
Qed.

Lemma value_members : forall ctx sym v,
  mem_str sym ["ary_members"; "map_members"] = true ->
  value_ok ctx sym v ->
  exists l, v = PDeque l.
Proof.
  intros ctx sym v Hs H. unfold value_ok in H.
  cbn [mem_str existsb] in *.
  apply orb_true_iff in Hs.
  destruct Hs as [Hs | Hs]; [ | apply orb_true_iff in Hs; destruct Hs as [Hs | Hs];
                                [ | discriminate Hs ] ];
    apply String.eqb_eq in Hs; subst sym; exact H.
Qed.

Lemma value_token : forall ctx sym v,
  mem_str sym nonterminal_names = false ->
  value_ok ctx sym v ->
  exists text, v = PStr text /\ fits sym text.
Proof.
  intros ctx sym v Hs H. unfold value_ok in H.
  unfold nonterminal_names in Hs. cbn [mem_str existsb] in *.
  repeat (apply orb_false_iff in Hs; destruct Hs as [? Hs]).
  repeat match goal with
         | Heq : String.eqb sym _ = false |- _ => rewrite Heq in H; clear Heq
         end.
  exact H.
Qed.

(** The texts of a kind with a fixed spelling. *)
Definition texts (kind : string) : list string :=
  map fst (filter (fun '(_, k) => String.eqb k kind) spellings).

Lemma spelled_texts : forall kind text,
  mem_str kind (map snd spellings) = true -> fits kind text -> In text (texts kind).
Proof.
  intros kind text Hk H. unfold fits in H. rewrite Hk in H.
  unfold texts. apply in_map_iff. exists (text, kind). split; [ reflexivity | ].
  apply filter_In. split; [ exact H | apply String.eqb_refl ].
Qed.

Lemma symbol_nonempty : forall text, fits "SYMBOL" text -> exists c w, text = String c w.
Proof.
  intros text H.
  change (symbol_text text = true) in H.
  destruct text as [|c w]; [ discriminate H | eauto ].
Qed.

(** Take the slots of a right-hand side apart, each into the shape of its
    kind. *)
Ltac shape_slots :=
  repeat match goal with
         | H : Forall2 _ (_ :: _) _ |- _ => inversion H; clear H; subst
         | H : Forall2 _ [] _ |- _ => inversion H; clear H; subst
         end;
  repeat match goal with
         | H : value_ok ?ctx ?k ?v |- _ =>
             first
               [ destruct (value_node ctx k v eq_refl H) as (? & ? & ? & ? & ->); clear H
               | destruct (value_members ctx k v eq_refl H) as (? & ->); clear H
               | let Hf := fresh "Hf" in
                 destruct (value_token ctx k v eq_refl H) as (? & -> & Hf); clear H;
                 first
                   [ apply (spelled_texts k _ eq_refl) in Hf; vm_compute in Hf;
                     repeat (destruct Hf as [<- | Hf]); try contradiction
                   | apply symbol_nonempty in Hf; destruct Hf as (? & ? & ->)
                   | match type of Hf with
                     | fits "FLOAT" ?x => change (matches float_re x) in Hf
                     end
                   | clear Hf ]
               | clear H ]
         end.

(** What a method may raise: an expected exception, or a [SyntaxError] of
    [literal_eval]. *)
Definition raised (E : externals) (e : exn) : Prop :=
  if Parser.is_syntax_error e then literal_refused E else expected E e.

Lemma expected_raised : forall E e, expected E e -> raised E e.
Proof.
  intros E e H. unfold raised.
  destruct H as [tok | c rest ln pos | kw Hkw | s Hs | | s kind message Hs Hk].
  - exact (e_syntax E tok).
  - exact (e_illegal E c rest ln pos).
  - exact (e_future E kw Hkw).
  - exact (e_leading_zero E s Hs).
  - exact (e_overflow E).
  - rewrite Hk. exact (e_literal E s kind message Hs Hk).
Qed.

Lemma float_typed : forall E ctx text,
  matches float_re text ->
  match Actions.p_expression_float ctx [PStr text] with
  | Ok r => is_deferred r = true
  | Raise e => raised E e
  end.
Proof.
  intros E ctx text Hm. unfold Actions.p_expression_float.
  cbn [Actions.item Nat.sub nth_error bind].
  destruct (Actions.leading_zero text) eqn:Hz;
    [ apply expected_raised, e_leading_zero; exact Hz | ].
  destruct (float_text_eval text Hm Hz) as (n & ->).
  unfold Actions.float.
  destruct n as [z | m e].
  - destruct (Z.leb _ _); cbn [bind]; [ apply expected_raised, e_overflow | reflexivity ].
  - reflexivity.
Qed.

Lemma literal_typed : forall E text,
  match Actions.literal_eval_text E (PStr text) with
  | Ok v => True
  | Raise e => raised E e
  end.
Proof.
  intros E text. unfold Actions.literal_eval_text.
  destruct (literal_eval_str E text) as [r | [kind message]] eqn:He; [ exact I | ].
  unfold raised.
  destruct (Parser.is_syntax_error (PyError kind message)) eqn:Hk.
  - exists text, kind, message. split; assumption.
  - apply (e_literal E text); assumption.
Qed.

Lemma string_typed : forall E ctx text,
  match Actions.p_expression_string E ctx [PStr text] with
  | Ok r => is_deferred r = true
  | Raise e => raised E e
  end.
Proof.
  intros E ctx text. unfold Actions.p_expression_string.
  cbn [Actions.item Nat.sub nth_error bind].
  pose proof (literal_typed E text) as H.
  destruct (Actions.literal_eval_text E (PStr text)); [ reflexivity | exact H ].
Qed.

Lemma datetime_typed : forall E ctx text,
  match Actions.p_expression_datetime E ctx [PStr text] with
  | Ok r => is_deferred r = true
  | Raise e => raised E e
  end.
Proof.
  intros E ctx text. unfold Actions.p_expression_datetime.
  cbn [Actions.item Nat.sub nth_error bind].
  pose proof (literal_typed E text) as H.
  destruct (Actions.literal_eval_text E (PStr text)); [ reflexivity | exact H ].
Qed.

Ltac typed_result :=
  first
    [ reflexivity
    | eexists; split; reflexivity
    | eexists; reflexivity
    | do 2 eexists; reflexivity ].

(** Every method gives a value of the kind of its left-hand side, or raises
    an expected exception, or a [SyntaxError] of [literal_eval]. *)
Lemma methods_typed : forall E ctx,
  Forall (method_typed E ctx (value_ok ctx) (expected E) (literal_refused E))
    (tl the_productions).
Proof.
  intros E ctx. explicit_productions. cbn [tl].
  forall_list; intros targ Hslots; cbn [Grammar.psyms Grammar.pfunc Grammar.pname] in *;
    shape_slots; pick_method.
  all: change (match ?r with Ok v => ?P v | Raise e => if Parser.is_syntax_error e then literal_refused E else expected E e end)
         with (match r with Ok v => P v | Raise e => raised E e end).
  all: try (match goal with
            | |- context [Actions.p_expression_float] => apply float_typed; assumption
            end).
  all: try (match goal with |- context [Actions.p_expression_string] => apply string_typed end).
  all: try (match goal with |- context [Actions.p_expression_datetime] => apply datetime_typed end).
  all: unfold_methods; step_method; cbn [assoc Lex.op_names String.eqb Ascii.eqb Bool.eqb];
       repeat (break_one; step_method).
  all: typed_result.
Qed.

(** ** Phase one as a whole *)

Lemma token_kind : forall E fuel lx t lx',
  Lex.token E fuel lx = Ok (Some t, lx') -> mem_str (ttype t) Lex.tokens = true.
Proof.
  intros E fuel lx t lx' H.
  destruct (token_rule _ _ _ _ _ H)
    as (sk & r & w & _ & _ & Hin & _ & _ & _ & _ & _ & _ & _ & _ & Hf).
  assert (Hall : forallb (fun r => match Lex.rfun r with
                                   | None => mem_str (Lex.rname r) Lex.tokens
                                   | Some _ => true
                                   end) (Lex.lexre E) = true)
    by (vm_compute; reflexivity).
  rewrite forallb_forall in Hall. specialize (Hall r Hin).
  destruct (Lex.rfun r).
  - destruct Hf as (ln & pos & ln' & _ & Hmem). exact Hmem.
  - destruct Hf as [-> _]. exact Hall.
Qed.

Lemma token_not_nonterminal : forall k,
  mem_str k Lex.tokens = true -> mem_str k nonterminal_names = false.
Proof.
  intros k H. apply mem_str_In in H.
  assert (Hall : forallb (fun k => negb (mem_str k nonterminal_names)) Lex.tokens = true)
    by (vm_compute; reflexivity).
  rewrite forallb_forall in Hall. apply negb_true_iff. apply Hall. exact H.
Qed.

Lemma value_of_token : forall ctx sym text,
  mem_str sym nonterminal_names = false -> fits sym text -> value_ok ctx sym (PStr text).
Proof.
  intros ctx sym text Hs H. unfold value_ok.
  unfold nonterminal_names in Hs. cbn [mem_str existsb] in *.
  repeat (apply orb_false_iff in Hs; destruct Hs as [? Hs]).
  repeat match goal with
         | Heq : String.eqb sym _ = false |- _ => rewrite Heq; clear Heq
         end.
  cbn [orb]. exists text. split; [ reflexivity | exact H ].
Qed.

Lemma token_shorter : forall E fuel lx t lx',
  Lex.token E fuel lx = Ok (Some t, lx') ->
  String.length (Lex.lexrest lx') < String.length (Lex.lexrest lx).
Proof.
  intros E fuel lx t lx' H.
  destruct (token_rule _ _ _ _ _ H)
    as (sk & r & w & Hs & _ & _ & _ & Hlen & _).
  rewrite Hs, !length_app. lia.
Qed.

Lemma token_end : forall E fuel lx lx',
  Lex.token E fuel lx = Ok (None, lx') -> Lex.lexrest lx' = "".
Proof.
  intros E fuel. induction fuel as [|f IH]; intros lx lx' H; [ discriminate H | ].
  cbn [Lex.token] in H.
  destruct (Lex.lexrest lx) as [|c rest] eqn:Hrest.
  - inversion H; subst. exact Hrest.
  - destruct (str_mem c (Lex.lexignore E)); [ exact (IH _ _ H) | ].
    destruct (Lex.first_match (Lex.lexre E) (Lex.lexprev lx) (String c rest)) as [[r s']|];
      [ | cbn in H; discriminate H ].
    destruct (Lex.rfun r) as [f0|]; [ | discriminate H ].
    match type of H with
    | bind ?m _ = _ => destruct m as [[[t|] ln]|e]; cbn [bind] in H
    end.
    + destruct (mem_str (ttype t) Lex.tokens); discriminate H.
    + exact (IH _ _ H).
    + discriminate H.
Qed.

(** The lexer of the parser as a source of tokens. *)
Lemma lexer_source : forall E ctx lx,
  match Parser.lexer_token E lx with
  | Ok (Some tok, lx') =>
      value_ok ctx (ttype tok) (PStr (tvalue tok))
      /\ String.length (Lex.lexrest lx') < String.length (Lex.lexrest lx)
  | Ok (None, lx') => String.length (Lex.lexrest lx') <= String.length (Lex.lexrest lx)
  | Raise e => expected E e
  end.
Proof.
  intros E ctx lx. unfold Parser.lexer_token.
  destruct (Lex.token E (S (String.length (Lex.lexrest lx))) lx) as [[[tok|] lx']|e] eqn:H.
  - split.
    + apply value_of_token.
      * apply token_not_nonterminal. exact (token_kind _ _ _ _ _ H).
      * exact (token_fits _ _ _ _ _ H).
    + exact (token_shorter _ _ _ _ _ H).
  - rewrite (token_end _ _ _ _ H). cbn [String.length]. lia.
  - apply (token_raises _ _ _ _ H). lia.
Qed.

Lemma no_error_action : error_free the_table = true.
Proof. vm_compute. reflexivity. Qed.

(** Phase one of [parse] ends within the steps granted to it, for every
    text: in the statement node over a deferred node, in [None] after a
    [SyntaxError] of [literal_eval] was caught, or in one of the expected
    exceptions. *)
Lemma parse_deferred_outcome : forall E ctx line text,
  match Parser.parse_deferred E ctx line text with
  | Ok v => (exists e, v = stmt ctx e /\ is_deferred e = true)
            \/ (v = PNone /\ literal_refused E)
  | Raise e => expected E e
  end.
Proof.
  intros E ctx line text. unfold Parser.parse_deferred.
  rewrite tables_built. cbn [bind].
  apply (parseopt_total E ctx the_table the_productions the_table_ok the_run_ok
           no_error_action
           (value_ok ctx) (expected E) (literal_refused E) (e_syntax E) (methods_typed E ctx)
           Lex.lexer (Parser.lexer_token E) (fun lx => String.length (Lex.lexrest lx))
           (lexer_source E ctx)).
  - reflexivity.
  - exact I.
  - right. reflexivity.
  - left. reflexivity.
  - unfold steps_left, Parser.steps, Lex.lex_input.
    cbn [la_steps Lex.lexrest length top_name].
    change (rank "$end") with 3. lia.
Qed.

(** The longest text on which no integer literal can pass the limit that
    newer interpreters put on the digits of one. *)
Definition digit_limit : nat := 4300.




(** ** Statements about the lexer *)

Definition future_keywords : list string := ["elif"; "else"; "while"].

(** The rule of a token of kind SYMBOL is the rule of symbols. *)
Lemma symbol_token_plain : forall E fuel lx t lx',
  Lex.token E fuel lx = Ok (Some t, lx') ->
  ttype t = "SYMBOL" ->
  assoc (tvalue t) Lex.reserved_words = None /\ mem_str (tvalue t) future_keywords = false.
Proof.
  intros E fuel lx t lx' H Hty.
  destruct (token_rule _ _ _ _ _ H)
    as (sk & r & w & _ & _ & Hin & Hw & _ & _ & _ & _ & _ & _ & _ & Hf).
  clear H. explicit_rules E.
  repeat (destruct Hin as [<- | Hin]); [ .. | destruct Hin ];
    cbn [Lex.rfun Lex.rname Lex.rre] in *.
  all: try (destruct Hf as [Hk _]; rewrite Hty in Hk; discriminate Hk).
  all: destruct Hf as (ln & pos & ln' & Hf & _).
  all: try (function_kind Hf; destruct Hf as (t' & Ht & Hk); inversion Ht; subst t';
            cbn [ttype map snd In] in Hk; rewrite Hty in Hk;
            repeat (destruct Hk as [Hk | Hk]); try contradiction; discriminate Hk).
  - unfold Lex.t_SYMBOL in Hf. cbn [tvalue] in Hf. unfold future_keywords.
    destruct (mem_str w ["elif"; "else"; "while"]) eqn:Hkw; [ discriminate Hf | ].
    destruct (assoc w Lex.reserved_words) as [ty|] eqn:Ha; inversion Hf; subst;
      cbn [ttype tvalue Lex.set_type] in *; [ | split; [ exact Ha | exact Hkw ] ].
    exfalso. apply assoc_In in Ha. cbn in Ha.
    repeat (destruct Ha as [Ha | Ha]); try contradiction;
      inversion Ha; subst; discriminate.
  - discriminate Hf.
Qed.

Lemma spelled_operator : forall kind text,
  In (text, kind) spellings ->
  In kind (map snd Lex.op_names) ->
  assoc text Lex.op_names = Some kind.
Proof.
  intros kind text Hin Hk.
  assert (Hall : forallb (fun '(text, kind) =>
                            negb (mem_str kind (map snd Lex.op_names))
                            || match assoc text Lex.op_names with
                               | Some k => String.eqb k kind
                               | None => false
                               end) spellings = true)
    by (vm_compute; reflexivity).
  rewrite forallb_forall in Hall. specialize (Hall _ Hin). cbn beta iota in Hall.
  replace (mem_str kind (map snd Lex.op_names)) with true in Hall.
  - cbn [negb orb] in Hall. destruct (assoc text Lex.op_names) as [k|]; [ | discriminate Hall ].
    apply String.eqb_eq in Hall. subst. reflexivity.
  - symmetry. unfold mem_str. apply existsb_exists. exists kind.
    split; [ exact Hk | apply String.eqb_refl ].
Qed.

Lemma spelled_reserved : forall kind text,
  In (text, kind) spellings ->
  In kind (map snd Lex.reserved_words) ->
  assoc text Lex.reserved_words = Some kind.
Proof.
  intros kind text Hin Hk.
  assert (Hall : forallb (fun '(text, kind) =>
                            negb (mem_str kind (map snd Lex.reserved_words))
                            || match assoc text Lex.reserved_words with
                               | Some k => String.eqb k kind
                               | None => false
                               end) spellings = true)
    by (vm_compute; reflexivity).
  rewrite forallb_forall in Hall. specialize (Hall _ Hin). cbn beta iota in Hall.
  replace (mem_str kind (map snd Lex.reserved_words)) with true in Hall.
  - cbn [negb orb] in Hall.
    destruct (assoc text Lex.reserved_words) as [k|]; [ | discriminate Hall ].
    apply String.eqb_eq in Hall. subst. reflexivity.
  - symmetry. unfold mem_str. apply existsb_exists. exists kind.
    split; [ exact Hk | apply String.eqb_refl ].
Qed.

Lemma fits_spelling : forall kind text,
  In kind (map snd spellings) -> fits kind text -> In (text, kind) spellings.
Proof.
  intros kind text Hk H. unfold fits in H.
  replace (mem_str kind (map snd spellings)) with true in H; [ exact H | ].
  symmetry. unfold mem_str. apply existsb_exists. exists kind.
  split; [ exact Hk | apply String.eqb_refl ].
Qed.



(** ** The text of a number *)

(** [t_FLOAT] and [p_expression_float]: the text of a FLOAT token within
    [digit_limit] is a Python literal unless it starts with a zero and a
    digit, so the branch that catches the [SyntaxError] of [literal_eval]
    does not run on a token of the lexer: the method raises for the leading
    zero, or goes on to [float(val)]. *)
Theorem float_token_is_literal : forall E lx t lx' ctx,
  Parser.lexer_token E lx = Ok (Some t, lx') ->
  ttype t = "FLOAT" ->
  String.length (tvalue t) <= digit_limit ->
  (Actions.leading_zero (tvalue t) = true ->
   Actions.p_expression_float ctx [PStr (tvalue t)]
   = Raise (RuleSyntaxError
              ("invalid floating point literal: " ++ tvalue t
               ++ " (leading zeros in decimal literals are not permitted)") None))
  /\ (Actions.leading_zero (tvalue t) = false ->
      exists n,
        Actions.literal_eval_number (tvalue t) = Some n
        /\ Actions.p_expression_float ctx [PStr (tvalue t)]
           = (do f <- Actions.float n;
              Ok (DeferredAstNode FloatExpression [PCtx ctx; PFloat f]))).
Proof.
  intros E lx t lx' ctx H Hty _. unfold Parser.lexer_token in H.
  pose proof (token_fits _ _ _ _ _ H) as Hfit. rewrite Hty in Hfit.
  change (matches float_re (tvalue t)) in Hfit.
  unfold Actions.p_expression_float. cbn [Actions.item Nat.sub nth_error bind].
  split; intros Hz; rewrite Hz.
  - reflexivity.
  - destruct (float_text_eval _ Hfit Hz) as (n & Hn). exists n.
    rewrite Hn. split; reflexivity.
Qed.

Lemma float_token_is_literal_witness :
  String.length "1.5e3" <= digit_limit
  /\ exists n,
       Actions.literal_eval_number "1.5e3" = Some n
       /\ Actions.p_expression_float sample_context [PStr "1.5e3"]
          = (do f <- Actions.float n;
             Ok (DeferredAstNode FloatExpression [PCtx sample_context; PFloat f])).
Proof.
  assert (H : String.length "1.5e3" <= digit_limit) by (unfold digit_limit; cbn; lia).
  split; [ exact H | ].
  exact (proj2 (float_token_is_literal sample_externals (Lex.lex_input "1.5e3" 1)
                  (mkTok "FLOAT" "1.5e3" 1 0) (Lex.mkLexer "" (Some "3"%char) 5 1)
                  sample_context eq_refl eq_refl H) eq_refl).
Defined.

(** ** Where a token is *)

(** A token carries the offset of the first character of its text and the
    number of its line: the line the lexer was on plus the newlines of the
    blank text before the token; after the token the lexer stands right
    behind its text, on the same line. *)
Theorem token_position : forall E lx t lx',
  Parser.lexer_token E lx = Ok (Some t, lx') ->
  exists skipped w,
    Lex.lexrest lx = skipped ++ w ++ Lex.lexrest lx'
    /\ blank skipped = true
    /\ w <> ""
    /\ tlexpos t = Lex.lexpos lx + String.length skipped
    /\ tlineno t = Lex.lineno lx + str_count newline skipped
    /\ Lex.lexpos lx' = tlexpos t + String.length w
    /\ Lex.lineno lx' = tlineno t.
Proof.
  intros E lx t lx' H. unfold Parser.lexer_token in H.
  destruct (token_rule _ _ _ _ _ H)
    as (sk & r & w & Hs & Hb & _ & _ & Hlen & _ & Hpos & _ & Hln & Htp & Htl & _).
  exists sk, w. repeat split; try assumption; try lia.
  intros ->. cbn in Hlen. lia.
Qed.

Lemma token_position_witness :
  exists skipped w,
    String " " (String newline (String newline "  abc + 1")) = skipped ++ w ++ " + 1"
    /\ blank skipped = true
    /\ w <> ""
    /\ 5 = 0 + String.length skipped
    /\ 3 = 1 + str_count newline skipped
    /\ 8 = 5 + String.length w
    /\ 3 = 3.
Proof.
  exact (token_position sample_externals
           (Lex.lex_input (String " " (String newline (String newline "  abc + 1"))) 1)
           (mkTok "SYMBOL" "abc" 3 5) (Lex.mkLexer " + 1" (Some "c"%char) 8 3) eq_refl).
Defined.

(** ** The first character of a token *)

(** Whether a pattern can take the empty text, and whether a text it takes
    can start with a given character. *)
Fixpoint nullable (r : regex) : bool :=
  match r with
  | Chr _ | Cls _ _ | NotSpace | Dot => false
  | Cat r1 r2 => nullable r1 && nullable r2
  | Alt r1 r2 => nullable r1 || nullable r2
  | Plus r' | Group _ r' => nullable r'
  | Star _ | LazyStar _ | Opt _ | Behind _ | Ahead _ | Backref _ => true
  end.

Fixpoint first_char (r : regex) (c : ascii) : bool :=
  match r with
  | Chr a => Ascii.eqb a c
  | Cls neg items => xorb neg (in_class items c)
  | NotSpace => negb (is_space c)
  | Dot => negb (Ascii.eqb c newline)
  | Cat r1 r2 => first_char r1 c || (nullable r1 && first_char r2 c)
  | Alt r1 r2 => first_char r1 c || first_char r2 c
  | Star r' | LazyStar r' | Plus r' | Opt r' | Group _ r' => first_char r' c
  | Behind _ | Ahead _ => false
  | Backref _ => true
  end.

Lemma app_empty_inv : forall a b : string, a ++ b = "" -> a = "" /\ b = "".
Proof. intros [|c a] b H; [ split; [ reflexivity | exact H ] | discriminate H ]. Qed.

Lemma app_head : forall (a b : string) c w,
  a ++ b = String c w ->
  (exists a', a = String c a') \/ (a = "" /\ b = String c w).
Proof.
  intros [|d a] b c w H.
  - right. split; [ reflexivity | exact H ].
  - left. inversion H. eauto.
Qed.

Lemma matches_first : forall r w,
  matches r w ->
  (w = "" -> nullable r = true)
  /\ (forall c w', w = String c w' -> first_char r c = true).
Proof.
  intros r w H. induction H; cbn [nullable first_char].
  - split; [ discriminate | ]. intros c0 w' Hw. inversion Hw. apply Ascii.eqb_refl.
  - split; [ discriminate | ]. intros c0 w' Hw. inversion Hw; subst. assumption.
  - split; [ discriminate | ]. intros c0 w' Hw. inversion Hw; subst. assumption.
  - split; [ discriminate | ]. intros c0 w' Hw. inversion Hw; subst. assumption.
  - destruct IHmatches1 as [Hn1 Hf1]. destruct IHmatches2 as [Hn2 Hf2]. split.
    + intros He. apply app_empty_inv in He. destruct He as [-> ->].
      rewrite Hn1, Hn2; reflexivity.
    + intros c w' Hw. destruct (app_head _ _ _ _ Hw) as [(a' & ->) | (-> & ->)].
      * rewrite (Hf1 _ _ eq_refl). reflexivity.
      * rewrite (Hn1 eq_refl), (Hf2 _ _ eq_refl). apply orb_true_r.
  - destruct IHmatches as [Hn Hf]. split.
    + intros He. rewrite (Hn He). reflexivity.
    + intros c w' Hw. rewrite (Hf _ _ Hw). reflexivity.
  - destruct IHmatches as [Hn Hf]. split.
    + intros He. rewrite (Hn He). apply orb_true_r.
    + intros c w' Hw. rewrite (Hf _ _ Hw). apply orb_true_r.
  - split; [ reflexivity | discriminate ].
  - destruct IHmatches1 as [Hn1 Hf1]. destruct IHmatches2 as [Hn2 Hf2]. split; [ reflexivity | ].
    intros c w' Hw. destruct (app_head _ _ _ _ Hw) as [(a' & ->) | (-> & ->)].
    + exact (Hf1 _ _ eq_refl).
    + exact (Hf2 _ _ eq_refl).
  - split; [ reflexivity | discriminate ].
  - destruct IHmatches1 as [Hn1 Hf1]. destruct IHmatches2 as [Hn2 Hf2]. split; [ reflexivity | ].
    intros c w' Hw. destruct (app_head _ _ _ _ Hw) as [(a' & ->) | (-> & ->)].
    + exact (Hf1 _ _ eq_refl).
    + exact (Hf2 _ _ eq_refl).
  - destruct IHmatches1 as [Hn1 Hf1]. destruct IHmatches2 as [Hn2 Hf2]. split.
    + intros He. apply app_empty_inv in He. destruct He as [-> ->]. exact (Hn1 eq_refl).
    + intros c w' Hw. destruct (app_head _ _ _ _ Hw) as [(a' & ->) | (-> & ->)].
      * exact (Hf1 _ _ eq_refl).
      * exact (Hf2 _ _ eq_refl).
  - split; [ reflexivity | discriminate ].
  - destruct IHmatches as [Hn Hf]. split; [ reflexivity | exact Hf ].
  - split; [ reflexivity | discriminate ].
  - split; [ reflexivity | discriminate ].
  - exact IHmatches.
  - split; reflexivity.
Qed.

(** A rule can start at a character. *)
Definition starts (c : ascii) (r : Lex.rule) : bool :=
  first_char (Lex.rre r) c || Nat.eqb (min_len (Lex.rre r)) 0.

Lemma no_start : forall r prev c rest,
  starts c r = false -> rmatch (Lex.rre r) prev (String c rest) = None.
Proof.
  intros r prev c rest H.
  destruct (rmatch (Lex.rre r) prev (String c rest)) as [s'|] eqn:Hm; [ exfalso | reflexivity ].
  apply rmatch_sound in Hm. destruct Hm as (w & Hw & Hs).
  unfold starts in H. apply orb_false_iff in H. destruct H as [Hf Hl].
  apply Nat.eqb_neq in Hl.
  pose proof (matches_min_len _ _ Hw) as Hlen.
  destruct w as [|c' w']; [ cbn in Hlen; lia | ].
  cbn [append] in Hs. inversion Hs; subst c'.
  destruct (matches_first _ _ Hw) as [_ Hfirst].
  rewrite (Hfirst _ _ eq_refl) in Hf. discriminate Hf.
Qed.

(** Only the rules that can start at the first character are tried. *)
Lemma first_match_starts : forall rules prev c rest,
  Lex.first_match rules prev (String c rest)
  = Lex.first_match (filter (starts c) rules) prev (String c rest).
Proof.
  induction rules as [|r rules IH]; intros prev c rest; [ reflexivity | ].
  cbn [Lex.first_match filter].
  destruct (starts c r) eqn:Hst.
  - cbn [Lex.first_match]. rewrite IH. reflexivity.
  - rewrite (no_start _ _ _ _ Hst). apply IH.
Qed.

(** The rules that can start at a character, by evaluation. *)
Ltac candidates E c :=
  let l := eval cbv -[Lex.t_POW Lex.t_FDIV Lex.t_LT Lex.t_GT Lex.t_EQ_FZS Lex.t_NE_FZS
                      Lex.t_DATETIME Lex.t_TIMEDELTA Lex.t_STRING Lex.t_SYMBOL Lex.t_newline
                      timedelta_regex timedelta_regex_text]
             in (filter (starts c) (Lex.lexre E)) in
  rewrite first_match_starts;
  change (filter (starts c) (Lex.lexre E)) with l.

Lemma cut_length : forall a b, String.length (a ++ b) - String.length b = String.length a.
Proof. intros a b. rewrite length_app. lia. Qed.

(** [token()] at a character that is not skipped, once the first rule
    that matches is known. *)
Lemma token_first : forall E f w rest prev pos line r,
  match w with
  | String c _ => str_mem c (Lex.lexignore E) = false
  | EmptyString => False
  end ->
  Lex.first_match (Lex.lexre E) prev (w ++ rest) = Some (r, rest) ->
  Lex.token E (S f) (Lex.mkLexer (w ++ rest) prev pos line)
  = let tok := mkTok (Lex.rname r) w line pos in
    let lx' := Lex.mkLexer rest (last_char prev w) (pos + String.length w) line in
    match Lex.rfun r with
    | None => Ok (Some tok, lx')
    | Some g =>
        do (newtok, ln) <- g tok line;
        let lx'' := Lex.mkLexer rest (last_char prev w) (pos + String.length w) ln in
        match newtok with
        | None => Lex.token E f lx''
        | Some t =>
            if mem_str (ttype t) Lex.tokens then Ok (Some t, lx'')
            else Raise (LexError ("Rule '" ++ Lex.rname r ++ "' returned an unknown token type '"
                                    ++ ttype t ++ "'"))
        end
    end.
Proof.
  intros E f w rest prev pos line r Hc Hfm.
  destruct w as [|c w']; [ contradiction | ].
  change (String c w' ++ rest) with (String c (w' ++ rest)) in *.
  cbn [Lex.token Lex.lexrest Lex.lexprev Lex.lexpos Lex.lineno].
  rewrite Hc, Hfm. cbv zeta.
  change (String c (w' ++ rest)) with (String c w' ++ rest) in *.
  rewrite cut_length, take_length_app. reflexivity.
Qed.

Ltac eval_match :=
  cbn [Lex.first_match Lex.rre]; unfold rmatch; cbn [run]; unfold one, orelse;
  cbn [Ascii.eqb Bool.eqb xorb negb andb orb].

Lemma match_bracket : forall E prev rest,
  exists r,
    Lex.first_match (Lex.lexre E) prev ("[" ++ rest) = Some (r, rest)
    /\ Lex.rname r = "LBRACKET" /\ Lex.rfun r = None.
Proof.
  intros E prev rest. cbn [append]. candidates E "["%char.
  destruct prev as [p|]; eval_match; [ destruct (is_space p) | ];
    cbn [negb]; eexists; (split; [ reflexivity | split; reflexivity ]).
Qed.

Lemma match_safe_bracket : forall E p rest,
  is_space p = false ->
  exists r,
    Lex.first_match (Lex.lexre E) (Some p) ("&[" ++ rest) = Some (r, rest)
    /\ Lex.rname r = "LBRACKET" /\ Lex.rfun r = None.
Proof.
  intros E p rest Hp. cbn [append]. candidates E "&"%char.
  eval_match. rewrite Hp. cbn [negb]. eval_match. eexists; (split; [ reflexivity | split; reflexivity ]).
Qed.

Lemma match_amp : forall E prev rest,
  match prev with Some p => is_space p = true | None => True end ->
  exists r,
    Lex.first_match (Lex.lexre E) prev ("&" ++ String "[" rest) = Some (r, String "[" rest)
    /\ Lex.rname r = "BWAND" /\ Lex.rfun r = None.
Proof.
  intros E prev rest Hp. cbn [append]. candidates E "&"%char.
  destruct prev as [p|]; eval_match; [ rewrite Hp; cbn [negb] | ];
    eexists; (split; [ reflexivity | split; reflexivity ]).
Qed.

Lemma lex_bracket : forall E f prev rest pos line,
  Lex.token E (S f) (Lex.mkLexer ("[" ++ rest) prev pos line)
  = Ok (Some (mkTok "LBRACKET" "[" line pos),
        Lex.mkLexer rest (Some "["%char) (pos + 1) line).
Proof.
  intros E f prev rest pos line.
  destruct (match_bracket E prev rest) as (r & Hfm & Hn & Hf).
  rewrite (token_first E f "[" rest prev pos line r eq_refl Hfm).
  cbv zeta. rewrite Hf, Hn. reflexivity.
Qed.

Lemma lex_safe_bracket : forall E f p rest pos line,
  is_space p = false ->
  Lex.token E (S f) (Lex.mkLexer ("&[" ++ rest) (Some p) pos line)
  = Ok (Some (mkTok "LBRACKET" "&[" line pos),
        Lex.mkLexer rest (Some "["%char) (pos + 2) line).
Proof.
  intros E f p rest pos line Hp.
  destruct (match_safe_bracket E p rest Hp) as (r & Hfm & Hn & Hf).
  rewrite (token_first E f "&[" rest (Some p) pos line r eq_refl Hfm).
  cbv zeta. rewrite Hf, Hn. reflexivity.
Qed.

Lemma lex_amp_after_space : forall E f prev rest pos line,
  match prev with Some p => is_space p = true | None => True end ->
  Lex.token E (S f) (Lex.mkLexer ("&[" ++ rest) prev pos line)
  = Ok (Some (mkTok "BWAND" "&" line pos),
        Lex.mkLexer ("[" ++ rest) (Some "&"%char) (pos + 1) line).
Proof.
  intros E f prev rest pos line Hp.
  destruct (match_amp E prev rest Hp) as (r & Hfm & Hn & Hf).
  change ("&[" ++ rest) with ("&" ++ String "[" rest).
  rewrite (token_first E f "&" (String "[" rest) prev pos line r eq_refl Hfm).
  cbv zeta. rewrite Hf, Hn. reflexivity.
Qed.

(** ** Characters no token starts with *)

(** The characters a token or a skipped text can start with. *)
Definition alphabet : string :=
  String tab (String newline
    " !$%&()*+,-./0123456789:<=>?ABCDEFGHIJKLMNOPQRSTUVWXYZ[]^_abcdefghijklmnopqrstuvwxyz{|}")
  ++ String dquote "'".

Lemma outside_alphabet : forall E c,
  str_mem c alphabet = false ->
  str_mem c (Lex.lexignore E) = false /\ filter (starts c) (Lex.lexre E) = [].
Proof.
  intros E c H.
  destruct c as [[] [] [] [] [] [] [] []]; try discriminate H; split; vm_compute; reflexivity.
Qed.

(** [t_error]: at a character outside the alphabet of the rules the lexer
    raises the error of an illegal character, with the [repr] of the character
    in the message and, as its token, the whole text left. *)
Theorem illegal_character : forall E c rest prev pos line,
  str_mem c alphabet = false ->
  Parser.lexer_token E (Lex.mkLexer (String c rest) prev pos line)
  = Raise (RuleSyntaxError ("syntax error (illegal character " ++ Lex.repr_char c ++ ")")
             (Some (mkTok "error" (String c rest) line pos))).
Proof.
  intros E c rest prev pos line H.
  destruct (outside_alphabet E c H) as [Hign Hnone].
  unfold Parser.lexer_token.
  cbn [Lex.token Lex.lexrest Lex.lexprev Lex.lexpos Lex.lineno].
  rewrite Hign, first_match_starts, Hnone. reflexivity.
Qed.

Lemma illegal_character_witness :
  Parser.lexer_token sample_externals (Lex.mkLexer "#x" (Some " "%char) 4 1)
  = Raise (RuleSyntaxError "syntax error (illegal character '#')"
             (Some (mkTok "error" "#x" 1 4))).
Proof.
  exact (illegal_character sample_externals "#"%char "x" (Some " "%char) 4 1 eq_refl).
Defined.

(** ** Blank text *)

Lemma star_total : forall m n p s e,
  exists r, star_loop m (fun _ s' _ => Some s') n p s e = Some r.
Proof.
  intros m n p s e. destruct n as [|n]; cbn [star_loop]; [ eauto | ].
  unfold orelse. destruct (m p s e _); eauto.
Qed.

Lemma blank_split : forall a b, blank (a ++ b) = true -> blank a = true /\ blank b = true.
Proof.
  induction a as [|c a IH]; intros b H; [ split; [ reflexivity | exact H ] | ].
  cbn [append blank] in *. apply andb_true_iff in H. destruct H as [Hc H].
  destruct (IH _ H) as [Ha Hb]. rewrite Hc, Ha. split; [ reflexivity | exact Hb ].
Qed.

Lemma match_newline : forall E prev rest,
  exists r s',
    Lex.first_match (Lex.lexre E) prev (String newline rest) = Some (r, s')
    /\ Lex.rfun r = Some Lex.t_newline.
Proof.
  intros E prev rest. candidates E newline.
  cbn [Lex.first_match Lex.rre]. unfold rmatch. cbn [run]. unfold one at 1.
  change (Ascii.eqb newline newline) with true. cbv iota.
  match goal with
  | |- context [star_loop ?m _ ?n ?p ?s ?e] => destruct (star_total m n p s e) as (s' & ->)
  end.
  do 2 eexists. split; reflexivity.
Qed.

(** On blank text the lexer comes to the end without a token. *)
Lemma token_blank : forall E f text prev pos line,
  blank text = true ->
  String.length text < f ->
  exists lx', Lex.token E f (Lex.mkLexer text prev pos line) = Ok (None, lx').
Proof.
  intros E f. induction f as [|f IH]; intros text prev pos line Hb Hlen; [ lia | ].
  destruct text as [|c rest]; [ eexists; reflexivity | ].
  cbn [blank] in Hb. apply andb_true_iff in Hb. destruct Hb as [Hc Hb].
  cbn [String.length] in Hlen.
  cbn [Lex.token Lex.lexrest Lex.lexprev Lex.lexpos Lex.lineno].
  change (Lex.lexignore E) with (String " " (String tab "")). cbn [str_mem].
  destruct (Ascii.eqb_spec c " ") as [-> | Hsp];
    [ cbn [orb]; apply IH; [ exact Hb | lia ] | ].
  destruct (Ascii.eqb_spec c tab) as [-> | Htab];
    [ cbn [orb]; apply IH; [ exact Hb | lia ] | ].
  cbn [orb] in *. apply Ascii.eqb_eq in Hc. subst c.
  destruct (match_newline E prev rest) as (r & s' & Hfm & Hfun).
  rewrite Hfm, Hfun. cbn [bind Lex.t_newline].
  destruct (first_match_sound _ _ _ _ _ Hfm) as (w & _ & _ & Hs & Hw & _).
  apply IH.
  - assert (Hall : blank (String newline rest) = true) by (cbn [blank]; rewrite Hb; reflexivity).
    rewrite Hs in Hall. apply blank_split in Hall. apply Hall.
  - apply (f_equal String.length) in Hs. rewrite length_app in Hs.
    cbn [String.length] in Hs. lia.
Qed.

(** [p_error] at the end of the text: a text of nothing but spaces, tabs
    and newlines (the empty text among them) is a syntax error without a
    token. *)
Theorem blank_text_is_an_error : forall E ctx line text,
  blank text = true ->
  Parser.parse_deferred E ctx line text = Raise (RuleSyntaxError "syntax error" None).
Proof.
  intros E ctx line text Hb.
  apply plain_deferred_settled; [ | reflexivity ].
  unfold Parser.plain_deferred.
  rewrite tables_built. cbn [bind].
  destruct (steps_ample text) as [k ->]. change (16 + k) with (S (15 + k)).
  cbn [Parser.parse_plain hd].
  unfold Parser.next_action.
  replace (Parser.defaulted (nth 0 (lr_action the_table) [])) with (@None nat)
    by (vm_compute; reflexivity).
  unfold Parser.lexer_token, Lex.lex_input. cbn [Lex.lexrest].
  destruct (token_blank E (S (String.length text)) text None 0 line Hb ltac:(lia))
    as (lx' & ->).
  cbn [bind Parser.la_type].
  replace (match index_of "$end" (lr_terminals the_table) 0 with
           | Some a => lookup a (nth 0 (lr_action the_table) [])
           | None => None
           end) with (@None action) by (vm_compute; reflexivity).
  reflexivity.
Qed.

Lemma blank_text_is_an_error_witness :
  Parser.parse_deferred sample_externals sample_context 1 (String " " (String newline " "))
  = Raise (RuleSyntaxError "syntax error" None).
Proof.
  exact (blank_text_is_an_error sample_externals sample_context 1
           (String " " (String newline " ")) eq_refl).
Defined.

(** ** The two brackets *)

Lemma lbracket_site : forall prev s s',
  rmatch (Cat (Opt (Cat (Behind NotSpace) (Chr "&"))) (Chr "[")) prev s = Some s' ->
  s = "[" ++ s'
  \/ (s = "&[" ++ s' /\ exists p, prev = Some p /\ is_space p = false).
Proof.
  intros prev s s' H. unfold rmatch in H. cbn [run] in H.
  unfold orelse in H.
  match type of H with
  | match ?m with Some _ => _ | None => _ end = _ => destruct m as [r|] eqn:Hm
  end.
  - right. inversion H; subst r. clear H.
    destruct prev as [c|]; [ | discriminate Hm ].
    unfold one at 1 in Hm.
    destruct (negb (is_space c)) eqn:Hsp; [ | discriminate Hm ].
    apply negb_true_iff in Hsp.
    unfold one in Hm.
    destruct s as [|c1 s1]; [ discriminate Hm | ].
    destruct (Ascii.eqb_spec "&"%char c1) as [<- | ]; [ | discriminate Hm ].
    destruct s1 as [|c2 s2]; [ discriminate Hm | ].
    destruct (Ascii.eqb_spec "["%char c2) as [<- | ]; [ | discriminate Hm ].
    inversion Hm. split; [ reflexivity | eauto ].
  - left. unfold one in H.
    destruct s as [|c1 s1]; [ discriminate H | ].
    destruct (Ascii.eqb_spec "["%char c1) as [<- | ]; [ | discriminate H ].
    inversion H. reflexivity.
Qed.

Lemma blank_last : forall sk d,
  blank sk = true -> sk <> "" -> exists c, last_char d sk = Some c /\ is_space c = true.
Proof.
  induction sk as [|c sk IH]; intros d Hb Hne; [ contradiction | ].
  cbn [blank] in Hb. apply andb_true_iff in Hb. destruct Hb as [Hc Hb].
  cbn [last_char]. destruct sk as [|c' sk'].
  - exists c. split; [ reflexivity | ].
    repeat (apply orb_true_iff in Hc; destruct Hc as [Hc | Hc]);
      apply Ascii.eqb_eq in Hc; subst; reflexivity.
  - apply IH; [ exact Hb | discriminate ].
Qed.

(** [t_LBRACKET]: right after a character that is not a space, [&[] is one
    token, the safe bracket; at the start of the text or after a space the
    [&] is the bitwise operator and the bracket comes next; [[] alone is the
    plain bracket wherever it stands.  And a token of kind LBRACKET is one
    of the two texts, the safe one only where the lexer stood on [&[] right
    after a character that is not a space. *)
Theorem safe_bracket_lexing : forall E,
  (forall p rest pos line,
     is_space p = false ->
     Parser.lexer_token E (Lex.mkLexer ("&[" ++ rest) (Some p) pos line)
     = Ok (Some (mkTok "LBRACKET" "&[" line pos),
           Lex.mkLexer rest (Some "["%char) (pos + 2) line))
  /\ (forall prev rest pos line,
        match prev with Some p => is_space p = true | None => True end ->
        Parser.lexer_token E (Lex.mkLexer ("&[" ++ rest) prev pos line)
        = Ok (Some (mkTok "BWAND" "&" line pos),
              Lex.mkLexer ("[" ++ rest) (Some "&"%char) (pos + 1) line))
  /\ (forall prev rest pos line,
        Parser.lexer_token E (Lex.mkLexer ("[" ++ rest) prev pos line)
        = Ok (Some (mkTok "LBRACKET" "[" line pos),
              Lex.mkLexer rest (Some "["%char) (pos + 1) line))
  /\ (forall lx t lx',
        Parser.lexer_token E lx = Ok (Some t, lx') ->
        ttype t = "LBRACKET" ->
        (tvalue t = "[" \/ tvalue t = "&[")
        /\ (tvalue t = "&[" ->
            Lex.lexrest lx = "&[" ++ Lex.lexrest lx'
            /\ exists p, Lex.lexprev lx = Some p /\ is_space p = false)).
Proof.
  intros E. split; [ | split; [ | split ] ].
  - intros p rest pos line Hp. unfold Parser.lexer_token. apply lex_safe_bracket. exact Hp.
  - intros prev rest pos line Hp. unfold Parser.lexer_token. apply lex_amp_after_space.
    exact Hp.
  - intros prev rest pos line. unfold Parser.lexer_token. apply lex_bracket.
  - intros lx t lx' H Hty. unfold Parser.lexer_token in H.
    destruct (token_rule _ _ _ _ _ H)
      as (sk & r & w & Hs & Hb & Hin & Hw & _ & Hfm & _ & _ & _ & _ & _ & Hf).
    apply first_match_In in Hfm. destruct Hfm as [_ Hm].
    clear H. explicit_rules E.
    repeat (destruct Hin as [<- | Hin]); [ .. | destruct Hin ];
      cbn [Lex.rfun Lex.rname Lex.rre] in *.
    all: try (destruct Hf as [Hk _]; rewrite Hty in Hk; discriminate Hk).
    all: try (destruct Hf as (ln & pos & ln' & Hf & _);
              first [ function_kind Hf; destruct Hf as (t' & Ht & Hk); inversion Ht; subst t';
                      cbn [ttype map snd In Lex.reserved_words] in Hk; rewrite Hty in Hk;
                      repeat (destruct Hk as [Hk | Hk]); try contradiction; discriminate Hk
                    | discriminate Hf ]).
    destruct Hf as [_ Hval]. rewrite Hval. clear Hval Hty.
    apply lbracket_site in Hm.
    destruct Hm as [Hm | (Hm & p & Hp & Hsp)].
    + apply (f_equal String.length) in Hm. rewrite !length_app in Hm.
      assert (Hw1 : String.length w = 1) by (cbn [String.length] in Hm; lia).
      assert (Hw' : w = "[").
      { invert_matches; first [ reflexivity | vm_compute in Hw1; discriminate Hw1 ]. }
      subst w. split; [ left; reflexivity | discriminate ].
    + apply (f_equal String.length) in Hm. rewrite !length_app in Hm.
      assert (Hw2 : String.length w = 2) by (cbn [String.length] in Hm; lia).
      assert (Hw' : w = "&[").
      { invert_matches; first [ reflexivity | vm_compute in Hw2; discriminate Hw2 ]. }
      subst w. split; [ right; reflexivity | ].
      intros _.
      destruct sk as [|c sk'].
      * cbn [last_char append] in *. split; [ exact Hs | eauto ].
      * destruct (blank_last (String c sk') (Lex.lexprev lx) Hb ltac:(discriminate))
          as (c' & Hc' & Hsp').
        rewrite Hc' in Hp. inversion Hp; subst. congruence.
Qed.

Lemma safe_bracket_lexing_witness :
  Parser.lexer_token sample_externals (Lex.mkLexer ("&[" ++ "0]") (Some "a"%char) 1 1)
  = Ok (Some (mkTok "LBRACKET" "&[" 1 1), Lex.mkLexer "0]" (Some "["%char) (1 + 2) 1)
  /\ Parser.lexer_token sample_externals (Lex.mkLexer ("&[" ++ "0]") (Some " "%char) 2 1)
     = Ok (Some (mkTok "BWAND" "&" 1 2), Lex.mkLexer ("[" ++ "0]") (Some "&"%char) (2 + 1) 1)
  /\ ((mkTok "LBRACKET" "&[" 1 1).(tvalue) = "&[" ->
      "&[0]" = "&[" ++ "0]" /\ exists p, Some "a"%char = Some p /\ is_space p = false).
Proof.
  pose proof (safe_bracket_lexing sample_externals) as (H1 & H2 & _ & H4).
  split; [ exact (H1 "a"%char "0]" 1 1 eq_refl) | ].
  split; [ exact (H2 (Some " "%char) "0]" 2 1 eq_refl) | ].
  exact (proj2 (H4 (Lex.mkLexer "&[0]" (Some "a"%char) 1 1) (mkTok "LBRACKET" "&[" 1 1)
                  (Lex.mkLexer "0]" (Some "["%char) 3 1) eq_refl eq_refl)).
Defined.

(** ** Names *)

(** What can follow a name: the end of the text, or a character that is
    neither one of a name nor a quote. *)
Definition stops_word (tail : string) : bool :=
  match tail with
  | EmptyString => true
  | String c _ => negb (in_class rest_items c) && negb (in_class quote_items c)
  end.

Lemma star_rest_stops : forall r tail n p e,
  all_in rest_items r = true ->
  stops_word tail = true ->
  String.length r <= n ->
  star_loop (run Lex.sym_rest) (fun _ s' _ => Some s') n p (r ++ tail) e = Some tail.
Proof.
  induction r as [|c r IH]; intros tail n p e Hr Ht Hn.
  - cbn [append]. destruct n as [|n]; [ reflexivity | ].
    cbn [star_loop]. unfold Lex.sym_rest at 1. cbn [run]. unfold one.
    destruct tail as [|t tail']; [ reflexivity | ].
    cbn [stops_word] in Ht. apply andb_true_iff in Ht. destruct Ht as [Ht _].
    apply negb_true_iff in Ht. unfold rest_items in Ht. cbn [xorb]. rewrite Ht. reflexivity.
  - cbn [all_in] in Hr. apply andb_true_iff in Hr. destruct Hr as [Hc Hr].
    destruct n as [|n]; [ cbn in Hn; lia | ].
    cbn [append star_loop]. unfold Lex.sym_rest at 1. cbn [run]. unfold one.
    fold rest_items. cbn [xorb]. rewrite Hc.
    replace (Nat.ltb (String.length (r ++ tail)) (String.length (String c (r ++ tail))))
      with true by (symmetry; apply Nat.ltb_lt; cbn [String.length]; lia).
    rewrite IH; [ reflexivity | exact Hr | exact Ht | cbn [String.length] in Hn; lia ].
Qed.

Lemma head_no_quote : forall r tail c0 s0,
  all_in rest_items r = true ->
  stops_word tail = true ->
  (r ++ tail)%string = String c0 s0 ->
  in_class quote_items c0 = false.
Proof.
  intros r tail c0 s0 Hr Ht Hs.
  destruct r as [|c r].
  - cbn [append] in Hs. subst tail.
    cbn [stops_word] in Ht. apply andb_true_iff in Ht. destruct Ht as [_ Ht].
    apply negb_true_iff in Ht. exact Ht.
  - cbn [append] in Hs. inversion Hs; subst.
    cbn [all_in] in Hr. apply andb_true_iff in Hr. destruct Hr as [Hc _].
    exact (rest_not_quote _ Hc).
Qed.

(** At a name the rule of symbols is the first that matches, and it takes
    the whole name. *)
Lemma match_symbol : forall E prev c r tail,
  in_class start_items c = true ->
  all_in rest_items r = true ->
  stops_word tail = true ->
  exists r0,
    Lex.first_match (Lex.lexre E) prev (String c r ++ tail) = Some (r0, tail)
    /\ Lex.rname r0 = "SYMBOL" /\ Lex.rfun r0 = Some Lex.t_SYMBOL.
Proof.
  intros E prev c r tail Hc Hr Ht. cbn [append].
  pose proof (rest_char_plain c (start_is_rest c Hc)) as Hplain.
  assert (Hq : in_class quote_items c = false) by exact (rest_not_quote c (start_is_rest c Hc)).
  explicit_rules E. cbn [Lex.first_match Lex.rre].
  eexists.
  do 9 (lazymatch goal with
        | |- match rmatch ?R prev ?s with _ => _ end = _ /\ _ =>
            replace (rmatch R prev s) with (@None string);
            [ cbv iota | symmetry; unfold rmatch; cbn [run]; unfold one, orelse; cbn [xorb];
                rewrite ?Hplain by in_list;
                repeat match goal with
                       | |- context [if Ascii.eqb ?x c then _ else _] =>
                           destruct (Ascii.eqb x c)
                       end;
                cbv beta iota;
                try change (in_class [(dquote, dquote); ("'"%char, "'"%char)] c)
                  with (in_class quote_items c);
                rewrite ?Hq;
                try reflexivity;
                destruct (r ++ tail)%string eqn:Hs;
                cbv beta iota;
                repeat match goal with
                       | |- context [in_class ?items c] =>
                           progress change (in_class items c) with (in_class quote_items c);
                           rewrite Hq
                       | Hs' : (_ ++ _)%string = String ?x ?y |- context [in_class ?items ?x] =>
                           progress change (in_class items x) with (in_class quote_items x);
                           rewrite (head_no_quote r tail x y Hr Ht Hs')
                       end;
                reflexivity ]
        end).
  unfold rmatch. cbn [run]. unfold one at 1. rewrite (Hplain "$"%char) by in_list.
  cbn [orelse]. unfold one at 1. cbn [xorb]. fold start_items. rewrite Hc.
  fold rest_items. fold Lex.sym_rest.
  rewrite star_rest_stops by (try assumption; rewrite length_app; lia).
  repeat split.
Qed.

Lemma match_builtin : forall E prev c r tail,
  in_class start_items c = true ->
  all_in rest_items r = true ->
  stops_word tail = true ->
  exists r0,
    Lex.first_match (Lex.lexre E) prev (String "$" (String c r) ++ tail) = Some (r0, tail)
    /\ Lex.rname r0 = "SYMBOL" /\ Lex.rfun r0 = Some Lex.t_SYMBOL.
Proof.
  intros E prev c r tail Hc Hr Ht. cbn [append]. candidates E "$"%char.
  cbn [Lex.first_match Lex.rre]. unfold rmatch. cbn [run]. unfold one at 1.
  cbn [Ascii.eqb Bool.eqb orelse]. unfold one at 1. cbn [xorb]. fold start_items. rewrite Hc.
  fold rest_items. fold Lex.sym_rest.
  rewrite star_rest_stops by (try assumption; rewrite length_app; lia).
  eexists. repeat split.
Qed.

Lemma word_head_kept : forall E w,
  word w = true ->
  match w with
  | String c _ => str_mem c (Lex.lexignore E) = false
  | EmptyString => False
  end.
Proof.
  intros E w Hw. destruct w as [|c r]; [ discriminate Hw | ].
  unfold word in Hw. apply andb_true_iff in Hw. destruct Hw as [Hc _].
  pose proof (rest_char_plain c (start_is_rest c Hc)) as Hplain.
  change (Lex.lexignore E) with (String " " (String tab "")). cbn [str_mem].
  rewrite Ascii.eqb_sym, (Hplain " "%char) by in_list.
  rewrite Ascii.eqb_sym, (Hplain tab) by in_list.
  reflexivity.
Qed.

Lemma lex_name : forall E w tail prev pos line,
  word w = true ->
  stops_word tail = true ->
  Parser.lexer_token E (Lex.mkLexer (w ++ tail) prev pos line)
  = (if mem_str w future_keywords then
       Raise (RuleSyntaxError
                ("syntax error (the " ++ w ++ " keyword is reserved for future use)") None)
     else
       Ok (Some (mkTok (kind_of w) w line pos),
           Lex.mkLexer tail (last_char prev w) (pos + String.length w) line))
  /\ Parser.lexer_token E (Lex.mkLexer (String "$" w ++ tail) prev pos line)
     = Ok (Some (mkTok "SYMBOL" (String "$" w) line pos),
           Lex.mkLexer tail (last_char prev (String "$" w)) (pos + String.length (String "$" w))
             line).
Proof.
  intros E w tail prev pos line Hw Ht. unfold Parser.lexer_token.
  pose proof (word_head_kept E w Hw) as Hhead.
  destruct w as [|c r]; [ discriminate Hw | ].
  unfold word in Hw. apply andb_true_iff in Hw. destruct Hw as [Hc Hr].
  split.
  - destruct (match_symbol E prev c r tail Hc Hr Ht) as (r0 & Hfm & Hname & Hfun).
    cbn [Lex.lexrest].
    rewrite (token_first E _ (String c r) tail prev pos line r0 Hhead Hfm).
    cbv zeta. rewrite Hfun, Hname. unfold Lex.t_SYMBOL at 1. cbn [tvalue].
    unfold future_keywords.
    destruct (mem_str (String c r) ["elif"; "else"; "while"]); [ reflexivity | ].
    cbn [bind Lex.set_type ttype tvalue tlineno tlexpos].
    fold (kind_of (String c r)). rewrite kind_is_token. reflexivity.
  - destruct (match_builtin E prev c r tail Hc Hr Ht) as (r0 & Hfm & Hname & Hfun).
    cbn [Lex.lexrest].
    rewrite (token_first E _ (String "$" (String c r)) tail prev pos line r0 eq_refl Hfm).
    cbv zeta. rewrite Hfun, Hname. reflexivity.
Qed.

(** [t_SYMBOL]: a name is one token, whatever stands before it: the lexer
    raises on a word kept for later use, gives a reserved word its own kind
    and any other name the kind SYMBOL; with a [$] before it every word is a
    SYMBOL, a reserved one too. *)
Theorem names_are_symbols : forall E w tail prev pos line,
  word w = true ->
  stops_word tail = true ->
  Parser.lexer_token E (Lex.mkLexer (w ++ tail) prev pos line)
  = (if mem_str w future_keywords then
       Raise (RuleSyntaxError
                ("syntax error (the " ++ w ++ " keyword is reserved for future use)") None)
     else
       Ok (Some (mkTok (kind_of w) w line pos),
           Lex.mkLexer tail (last_char prev w) (pos + String.length w) line))
  /\ Parser.lexer_token E (Lex.mkLexer (String "$" w ++ tail) prev pos line)
     = Ok (Some (mkTok "SYMBOL" (String "$" w) line pos),
           Lex.mkLexer tail (last_char prev (String "$" w)) (pos + String.length (String "$" w))
             line).
Proof. exact lex_name. Qed.

Lemma names_are_symbols_witness :
  Parser.lexer_token sample_externals (Lex.mkLexer ("while" ++ " x") None 0 1)
  = (if mem_str "while" future_keywords then
       Raise (RuleSyntaxError
                ("syntax error (the " ++ "while" ++ " keyword is reserved for future use)") None)
     else
       Ok (Some (mkTok (kind_of "while") "while" 1 0),
           Lex.mkLexer " x" (last_char None "while") (0 + String.length "while") 1))
  /\ Parser.lexer_token sample_externals (Lex.mkLexer (String "$" "true" ++ ")") None 0 1)
     = Ok (Some (mkTok "SYMBOL" (String "$" "true") 1 0),
           Lex.mkLexer ")" (last_char None (String "$" "true"))
             (0 + String.length (String "$" "true")) 1).
Proof.
  split.
  - exact (proj1 (names_are_symbols sample_externals "while" " x" None 0 1 eq_refl eq_refl)).
  - exact (proj2 (names_are_symbols sample_externals "true" ")" None 0 1 eq_refl eq_refl)).
Defined.

Definition builtin_node (ctx : Context) (name : string) : pyval :=
  PDeferred SymbolExpression [PCtx ctx; PStr name] [("scope", PStr "built-in")] "build".

Lemma parse_symbol_token : forall E ctx k v l p,
  Parser.plain_tokens E ctx (16 + k) [mkTok "SYMBOL" v l p]
  = (do n <- Actions.p_expression_symbol ctx [PStr v]; Ok (stmt ctx n)).
Proof.
  intros E ctx k v l p.
  lazy -[Actions.p_expression_symbol].
  destruct (Actions.p_expression_symbol ctx [PStr v]) as [n | e]; reflexivity.
Qed.

Lemma end_of_text : forall E prev pos line,
  yields E (Lex.mkLexer "" prev pos line) [].
Proof. intros. apply yields_end. reflexivity. Qed.

(** [p_expression_symbol]: a name alone is the symbol of that name, without
    a scope; with a [$] before it, it is the symbol of the name after the [$]
    in the scope of the built-ins, for every word. *)
Theorem single_names : forall E ctx line w,
  word w = true ->
  (identifier w = true ->
   Parser.parse_deferred E ctx line w = Ok (stmt ctx (symbol_node ctx w)))
  /\ Parser.parse_deferred E ctx line (String "$" w) = Ok (stmt ctx (builtin_node ctx w)).
Proof.
  intros E ctx line w Hw.
  pose proof (lex_name E w "" None 0 line Hw eq_refl) as [Hplain Hbuiltin].
  rewrite app_empty in Hplain. cbn [append] in Hbuiltin. rewrite app_empty in Hbuiltin.
  split.
  - intros Hid.
    destruct (identifier_inv w Hid) as [Hp Hk].
    destruct (plain_inv w Hp) as [_ Hkw].
    unfold future_keywords in Hplain. rewrite Hkw, Hk in Hplain.
    apply plain_deferred_settled; [ | exact I ].
    rewrite (plain_deferred_tokens E ctx line w [mkTok "SYMBOL" w line 0]).
    + destruct (steps_ample w) as [k ->]. rewrite parse_symbol_token.
      rewrite (symbol_of_word ctx w Hw). reflexivity.
    + eapply yields_token; [ exact Hplain | apply end_of_text ].
  - apply plain_deferred_settled; [ | exact I ].
    rewrite (plain_deferred_tokens E ctx line (String "$" w) [mkTok "SYMBOL" (String "$" w) line 0]).
    + destruct (steps_ample (String "$" w)) as [k ->]. rewrite parse_symbol_token.
      reflexivity.
    + eapply yields_token; [ exact Hbuiltin | apply end_of_text ].
Qed.

Lemma single_names_witness :
  Parser.parse_deferred sample_externals sample_context 1 "status"
  = Ok (stmt sample_context (symbol_node sample_context "status"))
  /\ Parser.parse_deferred sample_externals sample_context 1 (String "$" "now")
     = Ok (stmt sample_context (builtin_node sample_context "now")).
Proof.
  split.
  - exact (proj1 (single_names sample_externals sample_context 1 "status" eq_refl) eq_refl).
  - exact (proj2 (single_names sample_externals sample_context 1 "now" eq_refl)).
Defined.

(** ** Quoted literals *)

(** The body of a literal without escapes: no backslash, no newline and not
    the quote that opened it. *)
Fixpoint plain_body (q : ascii) (s : string) : bool :=
  match s with
  | EmptyString => true
  | String c s' =>
      negb (Ascii.eqb q c) && negb (Ascii.eqb c "\") && negb (Ascii.eqb c newline)
      && plain_body q s'
  end.

Definition body_char : regex :=
  Alt (Cls true [("\", "\"); (newline, newline)]%char) (Cat (Chr "\") Dot).

Definition closing (k : kont) : kont :=
  fun p' s' e' => run (Backref "quote") p' s' e' k.

Lemma not_body_class : forall c,
  negb (Ascii.eqb c "\") = true -> negb (Ascii.eqb c newline) = true ->
  in_class [("\", "\"); (newline, newline)]%char c = false.
Proof.
  intros c H1 H2. apply negb_true_iff in H1, H2.
  destruct (in_class _ c) eqn:H; [ | reflexivity ].
  apply in_pair_class in H. destruct H as [-> | ->]; discriminate.
Qed.

(** The lazy repetition stops at the first closing quote. *)
Lemma lazy_body : forall body q rest n p e,
  plain_body q body = true ->
  assoc "quote" e = Some (String q "") ->
  String.length body <= n ->
  lazy_loop (run body_char) (closing (fun _ s' _ => Some s')) n p
    (body ++ String q rest) e
  = Some rest.
Proof.
  induction body as [|c body IH]; intros q rest n p e Hb He Hn.
  - cbn [append].
    assert (Hk : closing (fun _ s' _ => Some s') p (String q rest) e = Some rest).
    { unfold closing. cbn [run]. rewrite He. cbn [starts_with].
      rewrite Ascii.eqb_refl. reflexivity. }
    destruct n as [|n]; cbn [lazy_loop]; rewrite Hk; reflexivity.
  - cbn [plain_body] in Hb.
    repeat (apply andb_true_iff in Hb; destruct Hb as [Hb ?]).
    destruct n as [|n]; [ cbn in Hn; lia | ].
    cbn [append lazy_loop].
    assert (Hk : closing (fun _ s' _ => Some s') p (String c (body ++ String q rest)) e = None).
    { unfold closing. cbn [run]. rewrite He. cbn [starts_with].
      match goal with H : negb (Ascii.eqb q c) = true |- _ =>
        apply negb_true_iff in H; rewrite H end.
      reflexivity. }
    rewrite Hk. cbn [orelse].
    unfold body_char at 1. cbn [run]. unfold one at 1.
    rewrite not_body_class by assumption. cbn [xorb orelse].
    replace (Nat.ltb (String.length (body ++ String q rest))
                     (String.length (String c (body ++ String q rest))))
      with true by (symmetry; apply Nat.ltb_lt; cbn [String.length]; lia).
    rewrite IH; [ reflexivity | assumption | exact He | cbn [String.length] in Hn; lia ].
Qed.

Definition is_quote (q : ascii) : bool := Ascii.eqb q dquote || Ascii.eqb q "'".

(** The quoted part of the patterns of [t_STRING] and [t_DATETIME] on a
    literal without escapes: the match ends at the closing quote. *)
Lemma quoted_match : forall q body rest prev,
  is_quote q = true ->
  plain_body q body = true ->
  rmatch (cats [Lex.quote_group; Lex.quoted_body; Backref "quote"]) prev
    (String q (body ++ String q rest))
  = Some rest.
Proof.
  intros q body rest prev Hq Hb.
  unfold rmatch. cbn [cats]. unfold Lex.quote_group, Lex.quoted_body.
  cbn [run]. unfold one at 1. cbn [xorb].
  replace (in_class [(dquote, dquote); ("'"%char, "'"%char)] q) with true.
  2: { unfold is_quote in Hq. apply orb_true_iff in Hq.
       destruct Hq as [Hq | Hq]; apply Ascii.eqb_eq in Hq; subst q; reflexivity. }
  fold body_char.
  change (fun (p' : option ascii) (s' : string) (e' : captures) =>
            match assoc "quote" e' with
            | Some t =>
                match starts_with t s' with
                | Some s'0 => Some s'0
                | None => None
                end
            | None => None
            end)
    with (closing (fun _ s' _ => Some s')).
  apply lazy_body.
  - exact Hb.
  - cbn [assoc String.eqb Ascii.eqb Bool.eqb].
    change (String q (body ++ String q rest)) with (String q "" ++ (body ++ String q rest)).
    rewrite cut_length, take_length_app. reflexivity.
  - rewrite length_app. lia.
Qed.

Definition quoted (q : ascii) (body : string) : string := String q (body ++ String q "").

Lemma quoted_app : forall q body rest,
  quoted q body ++ rest = String q (body ++ String q rest).
Proof.
  intros q body rest. unfold quoted. cbn [append]. rewrite app_assoc_str. reflexivity.
Qed.

Ltac same_match Hm :=
  match type of Hm with
  | _ = Some ?rest =>
      match goal with
      | |- context [rmatch ?r ?p ?s] =>
          replace (rmatch r p s) with (Some rest) by (rewrite <- Hm; reflexivity)
      end
  end.

Lemma match_string : forall E prev q body rest,
  is_quote q = true ->
  plain_body q body = true ->
  exists r,
    Lex.first_match (Lex.lexre E) prev (quoted q body ++ rest) = Some (r, rest)
    /\ Lex.rname r = "STRING" /\ Lex.rfun r = Some Lex.t_STRING.
Proof.
  intros E prev q body rest Hq Hb.
  pose proof (quoted_match q body rest prev Hq Hb) as Hm.
  rewrite quoted_app.
  unfold is_quote in Hq. apply orb_true_iff in Hq.
  destruct Hq as [Hq | Hq]; apply Ascii.eqb_eq in Hq; subst q.
  - candidates E dquote.
    cbn [Lex.first_match Lex.rre]. same_match Hm.
    eexists. repeat split.
  - candidates E "'"%char.
    cbn [Lex.first_match Lex.rre]. same_match Hm.
    eexists. repeat split.
Qed.

Lemma match_prefixed_string : forall E prev q body rest,
  is_quote q = true ->
  plain_body q body = true ->
  exists r,
    Lex.first_match (Lex.lexre E) prev (String "s" (quoted q body) ++ rest) = Some (r, rest)
    /\ Lex.rname r = "STRING" /\ Lex.rfun r = Some Lex.t_STRING.
Proof.
  intros E prev q body rest Hq Hb.
  pose proof (quoted_match q body rest (Some "s"%char) Hq Hb) as Hm.
  cbn [append]. rewrite quoted_app.
  candidates E "s"%char.
  cbn [Lex.first_match Lex.rre]. unfold rmatch at 1. cbn [run]. unfold one at 1.
  cbn [Ascii.eqb Bool.eqb].
  match type of Hm with
  | _ = Some ?rest =>
      match goal with
      | |- context [orelse ?a _] =>
          replace a with (Some rest) by (rewrite <- Hm; reflexivity)
      end
  end.
  cbn [orelse]. eexists. repeat split.
Qed.

Lemma match_datetime : forall E prev q body rest,
  is_quote q = true ->
  plain_body q body = true ->
  exists r,
    Lex.first_match (Lex.lexre E) prev (String "d" (quoted q body) ++ rest) = Some (r, rest)
    /\ Lex.rname r = "DATETIME" /\ Lex.rfun r = Some Lex.t_DATETIME.
Proof.
  intros E prev q body rest Hq Hb.
  pose proof (quoted_match q body rest (Some "d"%char) Hq Hb) as Hm.
  cbn [append]. rewrite quoted_app.
  candidates E "d"%char.
  cbn [Lex.first_match Lex.rre]. same_match Hm.
  eexists. repeat split.
Qed.

Lemma quote_kept : forall E q, is_quote q = true -> str_mem q (Lex.lexignore E) = false.
Proof.
  intros E q Hq. unfold is_quote in Hq. apply orb_true_iff in Hq.
  destruct Hq as [Hq | Hq]; apply Ascii.eqb_eq in Hq; subst q; reflexivity.
Qed.

Lemma lex_quoted : forall E q body tail prev pos line,
  is_quote q = true ->
  plain_body q body = true ->
  let lit := quoted q body in
  Parser.lexer_token E (Lex.mkLexer (lit ++ tail) prev pos line)
  = Ok (Some (mkTok "STRING" lit line pos),
        Lex.mkLexer tail (last_char prev lit) (pos + String.length lit) line)
  /\ Parser.lexer_token E (Lex.mkLexer (String "s" lit ++ tail) prev pos line)
     = Ok (Some (mkTok "STRING" lit line pos),
           Lex.mkLexer tail (last_char prev (String "s" lit))
             (pos + String.length (String "s" lit)) line)
  /\ Parser.lexer_token E (Lex.mkLexer (String "d" lit ++ tail) prev pos line)
     = Ok (Some (mkTok "DATETIME" lit line pos),
           Lex.mkLexer tail (last_char prev (String "d" lit))
             (pos + String.length (String "d" lit)) line).
Proof.
  intros E q body tail prev pos line Hq Hb lit. unfold Parser.lexer_token.
  split; [ | split ].
  - destruct (match_string E prev q body tail Hq Hb) as (r & Hfm & Hname & Hfun).
    cbn [Lex.lexrest].
    rewrite (token_first E _ lit tail prev pos line r (quote_kept E q Hq) Hfm).
    cbv zeta. rewrite Hfun, Hname.
    unfold is_quote in Hq. apply orb_true_iff in Hq.
    destruct Hq as [Hq | Hq]; apply Ascii.eqb_eq in Hq; subst q; reflexivity.
  - destruct (match_prefixed_string E prev q body tail Hq Hb) as (r & Hfm & Hname & Hfun).
    cbn [Lex.lexrest].
    rewrite (token_first E _ (String "s" lit) tail prev pos line r eq_refl Hfm).
    cbv zeta. rewrite Hfun, Hname. reflexivity.
  - destruct (match_datetime E prev q body tail Hq Hb) as (r & Hfm & Hname & Hfun).
    cbn [Lex.lexrest].
    rewrite (token_first E _ (String "d" lit) tail prev pos line r eq_refl Hfm).
    cbv zeta. rewrite Hfun, Hname. reflexivity.
Qed.

(** A literal alone: the method's node under the statement node; a
    [SyntaxError] of the method is caught, the parser drops what it has and
    returns [None] at the end of the text. *)
Definition caught_or_raised (r : outcome pyval) : outcome pyval :=
  match r with
  | Ok v => Ok v
  | Raise e => if Parser.is_syntax_error e then Ok PNone else Raise e
  end.

Lemma parse_string_token : forall E ctx k v l p,
  Parser.parse_tokens E ctx (16 + k) [mkTok "STRING" v l p]
  = caught_or_raised (do n <- Actions.p_expression_string E ctx [PStr v]; Ok (stmt ctx n)).
Proof.
  intros E ctx k v l p.
  lazy -[Actions.p_expression_string Parser.is_syntax_error].
  destruct (Actions.p_expression_string E ctx [PStr v]) as [n | e]; [ reflexivity | ].
  destruct (Parser.is_syntax_error e); reflexivity.
Qed.

Lemma parse_datetime_token : forall E ctx k v l p,
  Parser.parse_tokens E ctx (16 + k) [mkTok "DATETIME" v l p]
  = caught_or_raised (do n <- Actions.p_expression_datetime E ctx [PStr v]; Ok (stmt ctx n)).
Proof.
  intros E ctx k v l p.
  lazy -[Actions.p_expression_datetime Parser.is_syntax_error].
  destruct (Actions.p_expression_datetime E ctx [PStr v]) as [n | e]; [ reflexivity | ].
  destruct (Parser.is_syntax_error e); reflexivity.
Qed.

Definition string_node (ctx : Context) (v : string) : pyval :=
  DeferredAstNode StringExpression [PCtx ctx; PStr v].

Definition datetime_node (ctx : Context) (v : string) : pyval :=
  PDeferred DatetimeExpression [PCtx ctx; PStr v] [] "from_string".

(** What the text of a literal becomes: the node of the value that
    [ast.literal_eval] gives for it; [None] when that raises a
    [SyntaxError], which the parser catches; else the exception it raises. *)
Definition literal_result (E : externals) (ctx : Context) (node : Context -> string -> pyval)
    (lit : string) : outcome pyval :=
  match literal_eval_str E lit with
  | inl v => Ok (stmt ctx (node ctx v))
  | inr (kind, message) =>
      if Parser.is_syntax_error (PyError kind message) then Ok PNone
      else Raise (PyError kind message)
  end.



(** ** Whole numbers *)

(** What can follow a whole number: the end of the text, or a character that
    does not carry the number on. *)
Definition stops_number (tail : string) : bool :=
  match tail with
  | EmptyString => true
  | String c _ =>
      negb (in_class digit_items c)
      && negb (str_mem c ".eEbox")
  end.

Definition digits (ds : string) : bool :=
  match ds with
  | String c r => in_class digit_items c && all_in digit_items r
  | EmptyString => false
  end.

(** The greedy repetition of a class takes all of a run of its characters
    when what follows the run is matched by the rest of the pattern. *)
Lemma star_class_run : forall items r tail n p e k res,
  all_in items r = true ->
  match tail with String c _ => in_class items c = false | EmptyString => True end ->
  String.length r <= n ->
  k (last_char p r) tail e = Some res ->
  star_loop (run (Cls false items)) k n p (r ++ tail) e = Some res.
Proof.
  induction r as [|c r IH]; intros tail n p e k res Hr Ht Hn Hk.
  - cbn [append last_char] in *. destruct n as [|n]; [ exact Hk | ].
    cbn [star_loop run]. unfold one.
    destruct tail as [|t tail']; [ exact Hk | ].
    cbn [xorb]. rewrite Ht. exact Hk.
  - cbn [all_in] in Hr. apply andb_true_iff in Hr. destruct Hr as [Hc Hr].
    destruct n as [|n]; [ cbn in Hn; lia | ].
    pose (m := run (Cls false items)).
    change (star_loop m k (S n) p (String c r ++ tail) e = Some res).
    cbn [append star_loop]. unfold m at 1. cbn [run]. unfold one. cbn [xorb]. rewrite Hc.
    replace (Nat.ltb (String.length (r ++ tail)) (String.length (String c (r ++ tail))))
      with true by (symmetry; apply Nat.ltb_lt; cbn [String.length]; lia).
    subst m.
    rewrite (IH tail n (Some c) e k res); [ reflexivity | exact Hr | exact Ht | | ].
    + cbn [String.length] in Hn. lia.
    + cbn [last_char] in Hk. exact Hk.
Qed.

Lemma digit_rule : forall E c,
  in_class digit_items c = true ->
  exists r0,
    filter (starts c) (Lex.lexre E) = [r0]
    /\ Lex.rname r0 = "FLOAT" /\ Lex.rfun r0 = None /\ Lex.rre r0 = float_re.
Proof.
  intros E c Hc.
  destruct c as [[] [] [] [] [] [] [] []]; try discriminate Hc;
    (eexists; split; [ vm_compute; reflexivity | repeat split ]).
Qed.

Lemma digit_not_letter : forall c,
  in_class digit_items c = true -> str_mem c ".eEbox" = false.
Proof.
  intros c Hc. destruct c as [[] [] [] [] [] [] [] []]; try discriminate Hc; reflexivity.
Qed.

(** After the digits comes nothing that carries a number on. *)
Lemma number_stops : forall r tail h s,
  all_in digit_items r = true ->
  stops_number tail = true ->
  r ++ tail = String h s ->
  str_mem h ".eEbox" = false.
Proof.
  intros r tail h s Hr Ht Hs. destruct r as [|c r].
  - cbn [append] in Hs. subst tail. cbn [stops_number] in Ht.
    apply andb_true_iff in Ht. destruct Ht as [_ Ht]. apply negb_true_iff in Ht. exact Ht.
  - cbn [append] in Hs. inversion Hs; subst.
    cbn [all_in] in Hr. apply andb_true_iff in Hr. destruct Hr as [Hc _].
    exact (digit_not_letter _ Hc).
Qed.

Lemma not_letter : forall h,
  str_mem h ".eEbox" = false ->
  Ascii.eqb "." h = false /\ Ascii.eqb "b" h = false /\ Ascii.eqb "o" h = false
  /\ Ascii.eqb "x" h = false
  /\ in_class [("e", "e"); ("E", "E")]%char h = false.
Proof.
  intros h H. destruct h as [[] [] [] [] [] [] [] []]; try discriminate H; repeat split.
Qed.

(** The pattern of numbers on a run of digits: it takes the whole run. *)
Lemma match_digits : forall prev c r tail,
  in_class digit_items c = true ->
  all_in digit_items r = true ->
  stops_number tail = true ->
  rmatch float_re prev (String c (r ++ tail)) = Some tail.
Proof.
  intros prev c r tail Hc Hr Ht.
  assert (Hbase : run (alts [ Cat (Chr "b") (Plus (Cls false [("0", "1")]%char));
                              Cat (Chr "o") (Plus (Cls false [("0", "7")]%char));
                              Cat (Chr "x") (Plus (Cls false [("0", "9"); ("a", "f"); ("A", "F")]%char)) ])
                    (Some c) (r ++ tail) [] (fun _ s' _ => Some s') = None).
  { destruct (r ++ tail) as [|h s] eqn:Hs; [ reflexivity | ].
    destruct (not_letter h (number_stops r tail h s Hr Ht Hs)) as (_ & Hb & Ho & Hx & _).
    cbn [alts run]. unfold one, orelse. rewrite Hb, Ho, Hx. reflexivity. }
  assert (Hend : forall p, (fun p' s' e' =>
                    run (Opt (Cat (Chr ".") (Star Lex.digit))) p' s' e'
                      (fun p'' s'' e'' => run (Opt Lex.exponent) p'' s'' e''
                                            (fun _ s3 _ => Some s3))) p tail [] = Some tail).
  { intros p. cbv beta. destruct tail as [|h s]; [ reflexivity | ].
    cbn [stops_number] in Ht. apply andb_true_iff in Ht. destruct Ht as [_ Ht].
    apply negb_true_iff in Ht.
    destruct (not_letter h Ht) as (Hd & _ & _ & _ & He).
    unfold Lex.exponent. cbn [cats run]. unfold one, orelse. cbn [xorb].
    rewrite Hd, He. reflexivity. }
  unfold rmatch, float_re. cbn [alts cats]. 
  change (run (Alt ?a ?b) ?p ?s ?e ?k) with (orelse (run a p s e k) (fun _ => run b p s e k)).
  replace (run (Cat (Chr "0") _) prev (String c (r ++ tail)) [] _) with (@None string).
  2: { symmetry. cbn [run]. unfold one at 1. destruct (Ascii.eqb "0" c); [ | reflexivity ].
       exact Hbase. }
  cbn [orelse].
  change (run (Alt ?a ?b) ?p ?s ?e ?k) with (orelse (run a p s e k) (fun _ => run b p s e k)).
  replace (run (Cat (Plus Lex.digit) _) prev (String c (r ++ tail)) [] _) with (Some tail);
    [ reflexivity | ].
  symmetry. unfold Lex.digit at 1 2. 
  change (run (Cat ?a ?b) ?p ?s ?e ?k) with (run a p s e (fun p' s' e' => run b p' s' e' k)).
  change (run (Plus ?a) ?p ?s ?e ?k)
    with (run a p s e (fun p1 s1 e1 => star_loop (run a) k (String.length s1) p1 s1 e1)).
  change (run (Cls false ?i) ?p ?s ?e ?k)
    with (one (fun c => xorb false (in_class i c)) s e k).
  unfold one at 1. cbn [xorb]. fold digit_items. rewrite Hc.
  apply star_class_run.
  - exact Hr.
  - destruct tail as [|h s]; [ exact I | ].
    cbn [stops_number] in Ht. apply andb_true_iff in Ht. destruct Ht as [Ht _].
    apply negb_true_iff in Ht. exact Ht.
  - rewrite length_app. lia.
  - apply Hend.
Qed.

Lemma match_number : forall E prev c r tail,
  in_class digit_items c = true ->
  all_in digit_items r = true ->
  stops_number tail = true ->
  exists r0,
    Lex.first_match (Lex.lexre E) prev (String c r ++ tail) = Some (r0, tail)
    /\ Lex.rname r0 = "FLOAT" /\ Lex.rfun r0 = None.
Proof.
  intros E prev c r tail Hc Hr Ht. cbn [append].
  destruct (digit_rule E c Hc) as (r0 & Hf & Hn & Hfun & Hre).
  exists r0. rewrite first_match_starts, Hf. cbn [Lex.first_match].
  rewrite Hre, (match_digits prev c r tail Hc Hr Ht). repeat split; assumption.
Qed.

Lemma digit_kept : forall E c,
  in_class digit_items c = true -> str_mem c (Lex.lexignore E) = false.
Proof.
  intros E c Hc. destruct c as [[] [] [] [] [] [] [] []]; try discriminate Hc; reflexivity.
Qed.

Lemma lex_digits : forall E ds tail prev pos line,
  digits ds = true ->
  stops_number tail = true ->
  Parser.lexer_token E (Lex.mkLexer (ds ++ tail) prev pos line)
  = Ok (Some (mkTok "FLOAT" ds line pos),
        Lex.mkLexer tail (last_char prev ds) (pos + String.length ds) line).
Proof.
  intros E ds tail prev pos line Hds Ht. unfold Parser.lexer_token.
  destruct ds as [|c r]; [ discriminate Hds | ].
  cbn [digits] in Hds. apply andb_true_iff in Hds. destruct Hds as [Hc Hr].
  destruct (match_number E prev c r tail Hc Hr Ht) as (r0 & Hfm & Hname & Hfun).
  cbn [Lex.lexrest].
  rewrite (token_first E _ (String c r) tail prev pos line r0 (digit_kept E c Hc) Hfm).
  cbv zeta. rewrite Hfun, Hname. reflexivity.
Qed.

Lemma parse_float_token : forall E ctx k v l p,
  Parser.plain_tokens E ctx (16 + k) [mkTok "FLOAT" v l p]
  = (do n <- Actions.p_expression_float ctx [PStr v]; Ok (stmt ctx n)).
Proof.
  intros E ctx k v l p.
  lazy -[Actions.p_expression_float].
  destruct (Actions.p_expression_float ctx [PStr v]) as [n | e]; reflexivity.
Qed.

(** [ast.literal_eval] on a run of digits that does not begin with a zero
    followed by a digit. *)
Lemma eval_digits : forall ds,
  digits ds = true ->
  Actions.leading_zero ds = false ->
  Actions.literal_eval_number ds = Some (Actions.Int (Actions.dec_val ds)).
Proof.
  intros ds Hds Hz.
  destruct ds as [|c r]; [ discriminate Hds | ].
  cbn [digits] in Hds. apply andb_true_iff in Hds. destruct Hds as [Hc Hr].
  assert (Hall : all_in digit_items (String c r) = true)
    by (cbn [all_in]; rewrite Hc, Hr; reflexivity).
  rewrite literal_decimal.
  2: { destruct r as [|d r']; [ reflexivity | ].
       cbn [all_in] in Hr. apply andb_true_iff in Hr. destruct Hr as [Hd _].
       pose proof (digit_not_letter d Hd) as Hl.
       destruct (not_letter d Hl) as (_ & Hb & Ho & Hx & _).
       cbn [based_prefix]. rewrite (Ascii.eqb_sym d "b"), (Ascii.eqb_sym d "o"),
         (Ascii.eqb_sym d "x"), Hb, Ho, Hx. apply andb_false_r. }
  unfold decimal. rewrite (span_digits_all _ Hall). cbn [Actions.exponent_part append].
  destruct r as [|d r']; [ destruct c as [[] [] [] [] [] [] [] []]; reflexivity | ].
  cbn [Actions.leading_zero] in Hz.
  cbn [all_in] in Hr. apply andb_true_iff in Hr. destruct Hr as [Hd _].
  rewrite digit_range in Hd.
  destruct c as [[] [] [] [] [] [] [] []]; try reflexivity.
  rewrite Hd in Hz. discriminate Hz.
Qed.

Lemma digit_of_nonneg : forall c d, Actions.digit_of c = Some d -> (0 <= d)%Z.
Proof.
  intros c d H. destruct c as [[] [] [] [] [] [] [] []]; vm_compute in H;
    try discriminate H; injection H as <-; discriminate.
Qed.

Lemma digits_val_nonneg : forall base s acc z,
  (0 <= base)%Z -> (0 <= acc)%Z -> Actions.digits_val base s acc = Some z -> (0 <= z)%Z.
Proof.
  intros base s. induction s as [|c s IH]; intros acc z Hb Ha H.
  - cbn in H. injection H as <-. exact Ha.
  - cbn [Actions.digits_val] in H.
    destruct (Actions.digit_of c) as [d|] eqn:Hd; [ | discriminate H ].
    destruct (d <? base)%Z; [ | discriminate H ].
    apply (IH _ _ Hb) in H; [ exact H | ].
    pose proof (digit_of_nonneg c d Hd). nia.
Qed.

Lemma dec_val_nonneg : forall s, (0 <= Actions.dec_val s)%Z.
Proof.
  intros s. unfold Actions.dec_val.
  destruct (Actions.digits_val 10 s 0) as [z|] eqn:H; [ | lia ].
  apply (digits_val_nonneg 10 s 0 z); [ lia | lia | exact H ].
Qed.

Definition too_large : Z := (2 ^ 1024 - 2 ^ 970)%Z.

(** [t_FLOAT] and [p_expression_float] on a run of digits within
    [digit_limit]: a zero followed by a digit is refused, also when the
    digits are all zeros; an integer of at least [too_large], which rounds
    to no finite float, raises the [OverflowError] of [float(val)], which
    the method does not catch; any other run of digits is the float node of
    its decimal value. *)
Theorem whole_numbers : forall E ctx line ds,
  digits ds = true ->
  String.length ds <= digit_limit ->
  Parser.parse_deferred E ctx line ds
  = if Actions.leading_zero ds then
      Raise (RuleSyntaxError
               ("invalid floating point literal: " ++ ds
                ++ " (leading zeros in decimal literals are not permitted)") None)
    else if (too_large <=? Actions.dec_val ds)%Z then
      Raise (OverflowError "int too large to convert to float")
    else Ok (stmt ctx (float_node ctx (Actions.dec_val ds))).
Proof.
  intros E ctx line ds Hds _.
  pose proof (lex_digits E ds "" None 0 line Hds eq_refl) as Hlex.
  rewrite app_empty in Hlex.
  apply plain_deferred_settled;
    [ | destruct (Actions.leading_zero ds); [ reflexivity | ];
        destruct (Z.leb too_large (Actions.dec_val ds)); [ reflexivity | exact I ] ].
  rewrite (plain_deferred_tokens E ctx line ds [mkTok "FLOAT" ds line 0]).
  2: { eapply yields_token; [ exact Hlex | apply end_of_text ]. }
  destruct (steps_ample ds) as [k ->]. rewrite parse_float_token.
  unfold Actions.p_expression_float, Actions.item. cbn [Nat.sub nth_error bind].
  destruct (Actions.leading_zero ds) eqn:Hz; [ reflexivity | ].
  rewrite (eval_digits ds Hds Hz). unfold Actions.float.
  rewrite Z.abs_eq by apply dec_val_nonneg. fold too_large.
  destruct (too_large <=? Actions.dec_val ds)%Z; reflexivity.
Qed.

Lemma whole_numbers_witness :
  Parser.parse_deferred sample_externals sample_context 1 "00"
  = Raise (RuleSyntaxError
             ("invalid floating point literal: " ++ "00"
              ++ " (leading zeros in decimal literals are not permitted)") None)
  /\ Parser.parse_deferred sample_externals sample_context 1 "1024"
     = Ok (stmt sample_context (float_node sample_context 1024)).
Proof.
  assert (H2 : String.length "00" <= digit_limit) by (unfold digit_limit; cbn; lia).
  assert (H4 : String.length "1024" <= digit_limit) by (unfold digit_limit; cbn; lia).
  split.
  - exact (whole_numbers sample_externals sample_context 1 "00" eq_refl H2).
  - exact (whole_numbers sample_externals sample_context 1 "1024" eq_refl H4).
Defined.

(** ** The driver, step by step *)

(** The entries of the generated tables a step of the driver looks at. *)
Definition default_of (s : nat) : option nat :=
  Parser.defaulted (nth s (lr_action the_table) []).

Definition action_of (s : nat) (kind : string) : option action :=
  match index_of kind (lr_terminals the_table) 0 with
  | Some a => lookup a (nth s (lr_action the_table) [])
  | None => None
  end.

Definition goto_of (s : nat) (x : nat) : option nat :=
  lookup x (nth s (lr_goto the_table) []).

Section Steps.
Variable E : externals.
Variable ctx : Context.

Definition drive (fuel : nat) (states : list nat) (symbols : list (string * pyval))
    (la : Parser.lookahead) (toks : list LexToken) : outcome pyval :=
  Parser.parse_plain E ctx the_table Parser.list_token fuel states symbols la toks.

(** The token the driver decides on, and the tokens left after it. *)
Definition peek (la : Parser.lookahead) (toks : list LexToken)
  : option LexToken * list LexToken :=
  match la with
  | Some tok => (tok, toks)
  | None =>
      match toks with
      | [] => (None, [])
      | t :: toks' => (Some t, toks')
      end
  end.

Lemma drive_step : forall f s states symbols la toks,
  default_of s = None ->
  drive (S f) (s :: states) symbols la toks
  = let '(tok, toks') := peek la toks in
    match action_of s (Parser.la_type tok) with
    | Some (Shift j) =>
        drive f (j :: s :: states)
          ((Parser.la_type tok, match tok with Some tk => PStr (tvalue tk) | None => PNone end)
           :: symbols) None toks'
    | Some (Reduce p) =>
        match nth_error (lr_prods the_table) p with
        | None => Raise IndexError
        | Some (pname, plhs, plen, fname) =>
            do value <- Actions.call E ctx fname (rev (map snd (firstn plen symbols)));
            match goto_of (hd 0 (skipn plen (s :: states))) plhs with
            | Some j =>
                drive f (j :: skipn plen (s :: states)) ((pname, value) :: skipn plen symbols)
                  (Some tok) toks'
            | None => Raise (KeyError pname)
            end
        end
    | Some Accept =>
        match symbols with
        | (_, value) :: _ => Ok value
        | [] => Ok PNone
        end
    | Some NoAction | None =>
        Raise (Actions.p_error (Parser.errtoken (Some tok)))
    end.
Proof.
  intros f s states symbols la toks Hd.
  unfold drive. cbn [Parser.parse_plain hd]. unfold Parser.next_action.
  fold (default_of s). rewrite Hd. unfold peek, action_of, goto_of.
  destruct la as [tok|]; [ | destruct toks as [|t toks'] ];
    cbn [Parser.list_token bind]; reflexivity.
Qed.

End Steps.

(** One step of the driver at a known state and token kind: the entries of
    the tables are looked up by evaluation. *)
Ltac table_entry t :=
  let v := eval vm_compute in t in
  replace t with v by (vm_compute; reflexivity).

Ltac drive_one :=
  rewrite drive_step by (vm_compute; reflexivity);
  cbn [peek Parser.la_type ttype tvalue];
  match goal with
  | |- context [action_of ?s ?k] => table_entry (action_of s k)
  end;
  cbv beta iota;
  try (match goal with
       | |- context [nth_error (lr_prods the_table) ?p] =>
           table_entry (nth_error (lr_prods the_table) p)
       end;
       cbv beta iota;
       cbn [firstn skipn map snd rev app hd];
       match goal with
       | |- context [goto_of ?s ?x] => table_entry (goto_of s x)
       end).

Lemma call_method : forall E ctx name f p,
  assoc name (Actions.methods E ctx) = Some f -> Actions.call E ctx name p = f p.
Proof. intros E ctx name f p H. unfold Actions.call. rewrite H. reflexivity. Qed.

(** ** Array literals *)

(** The parser inside an array literal, after some members: the members
    read so far above the bracket, and the next token at hand. *)
Definition in_array (E : externals) (ctx : Context) (fuel : nat) (members : list pyval)
    (bracket : string) (la : LexToken) (rest : list LexToken) : outcome pyval :=
  drive E ctx fuel [58; 18; 0]
    [("ary_members", PDeque members); ("LBRACKET", PStr bracket); ("$end", PNone)]
    (Some (Some la)) rest.

Definition array_node (ctx : Context) (members : list pyval) : pyval :=
  DeferredAstNode ArrayExpression [PCtx ctx; PTuple members].

Ltac method_is m :=
  match goal with
  | |- context [Actions.call ?E ?c ?n ?p] => change (Actions.call E c n p) with (m p)
  end.

Lemma array_next : forall E ctx f members bracket w next rest l1 p1 l2 p2,
  word w = true ->
  (ttype next = "COMMA" \/ ttype next = "RBRACKET") ->
  in_array E ctx (5 + f) members bracket (mkTok "COMMA" "," l1 p1)
    (mkTok "SYMBOL" w l2 p2 :: next :: rest)
  = in_array E ctx f (members ++ [symbol_node ctx w]) bracket next rest.
Proof.
  intros E ctx f members bracket w next rest l1 p1 l2 p2 Hw Hn.
  pose proof (symbol_of_word ctx w Hw) as Hs.
  unfold in_array. cbn [Nat.add].
  destruct next as [k v l p]. cbn [ttype] in Hn.
  destruct Hn as [-> | ->];
    (drive_one; drive_one;
     drive_one; method_is (Actions.p_expression_symbol ctx); rewrite Hs; cbn [bind];
     drive_one; method_is Actions.p_expression_object; cbn [Actions.p_expression_object Actions.item Nat.sub nth_error bind];
     drive_one; method_is Actions.p_expression_array_members;
     reflexivity).
Qed.

Lemma array_first : forall E ctx f w next rest bracket l1 p1 l2 p2,
  word w = true ->
  (ttype next = "COMMA" \/ ttype next = "RBRACKET") ->
  drive E ctx (5 + f) [0] [("$end", PNone)] None
    (mkTok "LBRACKET" bracket l1 p1 :: mkTok "SYMBOL" w l2 p2 :: next :: rest)
  = in_array E ctx f [symbol_node ctx w] bracket next rest.
Proof.
  intros E ctx f w next rest bracket l1 p1 l2 p2 Hw Hn.
  pose proof (symbol_of_word ctx w Hw) as Hs.
  unfold in_array. cbn [Nat.add].
  destruct next as [k v l p]. cbn [ttype] in Hn.
  destruct Hn as [-> | ->];
    (drive_one; drive_one;
     drive_one; method_is (Actions.p_expression_symbol ctx); rewrite Hs; cbn [bind];
     drive_one; method_is Actions.p_expression_object; cbn [Actions.p_expression_object Actions.item Nat.sub nth_error bind];
     drive_one; method_is Actions.p_expression_array_members;
     reflexivity).
Qed.

Lemma array_close : forall E ctx f members bracket v l p,
  in_array E ctx (5 + f) members bracket (mkTok "RBRACKET" v l p) []
  = Ok (stmt ctx (array_node ctx members)).
Proof.
  intros E ctx f members bracket v l p.
  unfold in_array. cbn [Nat.add].
  drive_one.
  drive_one. method_is (Actions.p_expression_array ctx).
  unfold Actions.p_expression_array, Actions.len, Actions.item.
  cbn [length Nat.ltb Nat.leb Nat.sub nth_error bind Actions.tuple].
  drive_one. method_is Actions.p_expression_object. cbn [Actions.p_expression_object Actions.item Nat.sub nth_error bind].
  drive_one. method_is (Actions.p_statement_expr ctx).
  cbn [Actions.p_statement_expr Actions.item Nat.sub nth_error bind].
  drive_one. reflexivity.
Qed.

Lemma array_close_comma : forall E ctx f members bracket l1 p1 v l p,
  in_array E ctx (6 + f) members bracket (mkTok "COMMA" "," l1 p1) [mkTok "RBRACKET" v l p]
  = Ok (stmt ctx (array_node ctx members)).
Proof.
  intros E ctx f members bracket l1 p1 v l p.
  unfold in_array. cbn [Nat.add].
  drive_one. drive_one.
  drive_one. method_is (Actions.p_expression_array ctx).
  unfold Actions.p_expression_array, Actions.len, Actions.item.
  cbn [length Nat.ltb Nat.leb Nat.sub nth_error bind Actions.tuple].
  drive_one. method_is Actions.p_expression_object. cbn [Actions.p_expression_object Actions.item Nat.sub nth_error bind].
  drive_one. method_is (Actions.p_statement_expr ctx).
  cbn [Actions.p_statement_expr Actions.item Nat.sub nth_error bind].
  drive_one. reflexivity.
Qed.

(** *** The tokens of a list of names *)

Lemma lex_identifier : forall E w tail prev pos line,
  identifier w = true ->
  stops_word tail = true ->
  Parser.lexer_token E (Lex.mkLexer (w ++ tail) prev pos line)
  = Ok (Some (mkTok "SYMBOL" w line pos),
        Lex.mkLexer tail (last_char prev w) (pos + String.length w) line).
Proof.
  intros E w tail prev pos line Hid Ht.
  destruct (identifier_inv w Hid) as [Hp Hk].
  destruct (plain_inv w Hp) as [Hw Hkw].
  destruct (lex_name E w tail prev pos line Hw Ht) as [H _].
  unfold future_keywords in H. rewrite Hkw, Hk in H. exact H.
Qed.

Lemma lexer_skip_space : forall E rest prev pos line,
  Parser.lexer_token E (Lex.mkLexer (String " " rest) prev pos line)
  = Parser.lexer_token E (Lex.mkLexer rest (Some " "%char) (S pos) line).
Proof. intros. reflexivity. Qed.

Lemma lex_comma : forall E prev rest pos line,
  Parser.lexer_token E (Lex.mkLexer ("," ++ rest) prev pos line)
  = Ok (Some (mkTok "COMMA" "," line pos), Lex.mkLexer rest (Some ","%char) (pos + 1) line).
Proof.
  intros E prev rest pos line. unfold Parser.lexer_token. cbn [Lex.lexrest].
  assert (Hfm : exists r, Lex.first_match (Lex.lexre E) prev ("," ++ rest) = Some (r, rest)
                          /\ Lex.rname r = "COMMA" /\ Lex.rfun r = None).
  { cbn [append]. candidates E ","%char. eval_match.
    eexists; (split; [ reflexivity | split; reflexivity ]). }
  destruct Hfm as (r & Hfm & Hn & Hf).
  rewrite (token_first E _ "," rest prev pos line r eq_refl Hfm).
  cbv zeta. rewrite Hf, Hn. reflexivity.
Qed.

Lemma lex_close_bracket : forall E prev rest pos line,
  Parser.lexer_token E (Lex.mkLexer ("]" ++ rest) prev pos line)
  = Ok (Some (mkTok "RBRACKET" "]" line pos), Lex.mkLexer rest (Some "]"%char) (pos + 1) line).
Proof.
  intros E prev rest pos line. unfold Parser.lexer_token. cbn [Lex.lexrest].
  assert (Hfm : exists r, Lex.first_match (Lex.lexre E) prev ("]" ++ rest) = Some (r, rest)
                          /\ Lex.rname r = "RBRACKET" /\ Lex.rfun r = None).
  { cbn [append]. candidates E "]"%char. eval_match.
    eexists; (split; [ reflexivity | split; reflexivity ]). }
  destruct Hfm as (r & Hfm & Hn & Hf).
  rewrite (token_first E _ "]" rest prev pos line r eq_refl Hfm).
  cbv zeta. rewrite Hf, Hn. reflexivity.
Qed.

(** The members after the first one: each after a comma and a space. *)
Fixpoint listed (ws : list string) : string :=
  match ws with
  | [] => ""
  | w :: ws' => ", " ++ w ++ listed ws'
  end.

Fixpoint listed_tokens (line pos : nat) (ws : list string) (closing : nat -> list LexToken)
  : list LexToken :=
  match ws with
  | [] => closing pos
  | w :: ws' =>
      mkTok "COMMA" "," line pos :: mkTok "SYMBOL" w line (pos + 2)
      :: listed_tokens line (pos + 2 + String.length w) ws' closing
  end.

(** How an array literal ends: the bracket, or a comma and the bracket. *)
Definition closed (line : nat) (pos : nat) : list LexToken :=
  [mkTok "RBRACKET" "]" line pos].

Definition comma_closed (line : nat) (pos : nat) : list LexToken :=
  [mkTok "COMMA" "," line pos; mkTok "RBRACKET" "]" line (pos + 1)].

Lemma listed_stops : forall ws tail,
  stops_word tail = true -> tail <> "" -> stops_word (listed ws ++ tail) = true.
Proof.
  intros ws tail Ht Hne. destruct ws as [|w ws]; [ exact Ht | reflexivity ].
Qed.

Lemma listed_yields : forall E line ws tail closing prev pos,
  forallb identifier ws = true ->
  stops_word tail = true -> tail <> "" ->
  (forall prev pos, yields E (Lex.mkLexer tail prev pos line) (closing pos)) ->
  yields E (Lex.mkLexer (listed ws ++ tail) prev pos line)
    (listed_tokens line pos ws closing).
Proof.
  intros E line ws tail closing prev pos Hws Ht Hne Hclose. revert prev pos.
  induction ws as [|w ws IH]; intros prev pos.
  - cbn [listed listed_tokens append]. apply Hclose.
  - cbn [forallb] in Hws. apply andb_true_iff in Hws. destruct Hws as [Hw Hws].
    cbn [listed listed_tokens].
    change ((", " ++ w ++ listed ws) ++ tail) with ("," ++ String " " ((w ++ listed ws) ++ tail)).
    eapply yields_token; [ apply lex_comma | ].
    rewrite app_assoc_str.
    replace (pos + 2 + String.length w) with (S (pos + 1) + String.length w) by lia.
    replace (pos + 2) with (S (pos + 1)) by lia.
    eapply yields_token.
    + rewrite lexer_skip_space.
      apply lex_identifier; [ exact Hw | apply listed_stops; assumption ].
    + apply IH. exact Hws.
Qed.

(** *** The members in the order written *)

Definition symbols (ctx : Context) (ws : list string) : list pyval :=
  map (symbol_node ctx) ws.

Lemma listed_head : forall line pos ws closing,
  (forall pos, exists t rest, closing pos = t :: rest
                              /\ (ttype t = "COMMA" \/ ttype t = "RBRACKET")) ->
  exists t rest, listed_tokens line pos ws closing = t :: rest
                 /\ (ttype t = "COMMA" \/ ttype t = "RBRACKET").
Proof.
  intros line pos ws closing Hc. destruct ws as [|w ws].
  - apply Hc.
  - cbn [listed_tokens]. do 2 eexists. split; [ reflexivity | left; reflexivity ].
Qed.

Lemma array_members : forall E ctx line bracket extra closing,
  (forall pos, exists t rest, closing pos = t :: rest
                              /\ (ttype t = "COMMA" \/ ttype t = "RBRACKET")) ->
  (forall f members pos t rest,
     closing pos = t :: rest ->
     in_array E ctx (extra + f) members bracket t rest
     = Ok (stmt ctx (array_node ctx members))) ->
  forall ws f members pos t rest,
    forallb word ws = true ->
    listed_tokens line pos ws closing = t :: rest ->
    in_array E ctx (5 * length ws + (extra + f)) members bracket t rest
    = Ok (stmt ctx (array_node ctx (members ++ symbols ctx ws))).
Proof.
  intros E ctx line bracket extra closing Hhead Hclose.
  induction ws as [|w ws IH]; intros f members pos t rest Hws Ht.
  - cbn [listed_tokens] in Ht. cbn [length Nat.mul Nat.add symbols map].
    rewrite app_nil_r. apply (Hclose f members pos t rest Ht).
  - cbn [forallb] in Hws. apply andb_true_iff in Hws. destruct Hws as [Hw Hws].
    cbn [listed_tokens] in Ht. injection Ht as <- <-.
    destruct (listed_head line (pos + 2 + String.length w) ws closing Hhead)
      as (next & rest' & Hnext & Hkind).
    rewrite Hnext.
    replace (5 * length (w :: ws) + (extra + f))
      with (5 + (5 * length ws + (extra + f))) by (cbn [length]; lia).
    rewrite (array_next E ctx _ members bracket w next rest' _ _ _ _ Hw Hkind).
    rewrite (IH f _ _ next rest' Hws Hnext).
    cbn [symbols map]. rewrite <- app_assoc. reflexivity.
Qed.

Lemma listed_length : forall ws tail,
  length ws <= String.length (listed ws ++ tail).
Proof.
  induction ws as [|w ws IH]; intros tail; [ cbn; lia | ].
  cbn [listed length]. rewrite !app_assoc_str. cbn [append String.length].
  rewrite length_app. specialize (IH tail). lia.
Qed.

Lemma forallb_impl : forall (A : Type) (p q : A -> bool) l,
  (forall x, p x = true -> q x = true) -> forallb p l = true -> forallb q l = true.
Proof.
  intros A p q l H. induction l as [|x l IH]; [ reflexivity | ].
  cbn [forallb]. intros Hl. apply andb_true_iff in Hl. destruct Hl as [Hx Hl].
  rewrite (H x Hx), (IH Hl). reflexivity.
Qed.

Lemma identifier_word : forall w, identifier w = true -> word w = true.
Proof.
  intros w H. destruct (identifier_inv w H) as [Hp _]. destruct (plain_inv w Hp) as [Hw _].
  exact Hw.
Qed.

(** An array literal of names, with the closing given. *)
Lemma array_text : forall E ctx line w ws tail closing extra,
  forallb identifier (w :: ws) = true ->
  stops_word tail = true -> tail <> "" ->
  (forall prev pos, yields E (Lex.mkLexer tail prev pos line) (closing pos)) ->
  (forall pos, exists t rest, closing pos = t :: rest
                              /\ (ttype t = "COMMA" \/ ttype t = "RBRACKET")) ->
  (forall f members pos t rest,
     closing pos = t :: rest ->
     in_array E ctx (extra + f) members "[" t rest
     = Ok (stmt ctx (array_node ctx members))) ->
  extra <= 6 ->
  Parser.parse_deferred E ctx line ("[" ++ w ++ listed ws ++ tail)
  = Ok (stmt ctx (array_node ctx (symbols ctx (w :: ws)))).
Proof.
  intros E ctx line w ws tail closing extra Hall Ht Hne Hlex Hhead Hclose Hextra.
  cbn [forallb] in Hall. apply andb_true_iff in Hall. destruct Hall as [Hw Hws].
  pose proof (identifier_word w Hw) as Hword.
  pose proof (forallb_impl _ _ _ ws identifier_word Hws) as Hwords.
  set (text := "[" ++ w ++ listed ws ++ tail).
  apply plain_deferred_settled; [ | exact I ].
  rewrite (plain_deferred_tokens E ctx line text
             (mkTok "LBRACKET" "[" line 0 :: mkTok "SYMBOL" w line 1
              :: listed_tokens line (1 + String.length w) ws closing)).
  2: { unfold text, Lex.lex_input.
       eapply yields_token; [ apply lex_bracket | ].
       eapply yields_token.
       - apply lex_identifier; [ exact Hw | apply listed_stops; assumption ].
       - cbn [Nat.add]. apply listed_yields; assumption. }
  unfold Parser.plain_tokens. rewrite tables_built. cbn [bind].
  fold (drive E ctx (Parser.steps text) [0] [("$end", PNone)] None
          (mkTok "LBRACKET" "[" line 0 :: mkTok "SYMBOL" w line 1
           :: listed_tokens line (1 + String.length w) ws closing)).
  destruct (listed_head line (1 + String.length w) ws closing Hhead)
    as (next & rest & Hnext & Hkind).
  rewrite Hnext.
  assert (Hfuel : exists f, Parser.steps text = 5 + (5 * length ws + (extra + f))).
  { exists (Parser.steps text - (5 + (5 * length ws + extra))).
    pose proof (listed_length ws tail) as Hlen.
    unfold Parser.steps, text. cbn [append String.length]. rewrite length_app. lia. }
  destruct Hfuel as [f ->].
  rewrite (array_first E ctx _ w next rest "[" _ _ _ _ Hword Hkind).
  rewrite (array_members E ctx line "[" extra closing Hhead Hclose ws f _ _ next rest
             Hwords Hnext).
  reflexivity.
Qed.

Lemma empty_array : forall E ctx line,
  Parser.parse_deferred E ctx line "[]" = Ok (stmt ctx (array_node ctx [])).
Proof.
  intros E ctx line.
  apply plain_deferred_settled; [ | exact I ].
  rewrite (plain_deferred_tokens E ctx line "[]"
             [mkTok "LBRACKET" "[" line 0; mkTok "RBRACKET" "]" line 1]).
  2: { unfold Lex.lex_input.
       eapply yields_token; [ apply (lex_bracket E _ None "]") | ].
       eapply yields_token; [ apply (lex_close_bracket E _ "") | apply end_of_text ]. }
  unfold Parser.plain_tokens. rewrite tables_built. cbn [bind].
  change (Parser.steps "[]") with (S (S (S (S (S (S 42)))))).
  fold (drive E ctx (S (S (S (S (S (S 42)))))) [0] [("$end", PNone)] None
          [mkTok "LBRACKET" "[" line 0; mkTok "RBRACKET" "]" line 1]).
  drive_one. drive_one.
  drive_one. method_is (Actions.p_expression_array ctx).
  unfold Actions.p_expression_array, Actions.len.
  cbn [length Nat.ltb Nat.leb bind].
  drive_one. method_is Actions.p_expression_object.
  cbn [Actions.p_expression_object Actions.item Nat.sub nth_error bind].
  drive_one. method_is (Actions.p_statement_expr ctx).
  cbn [Actions.p_statement_expr Actions.item Nat.sub nth_error bind].
  drive_one. reflexivity.
Qed.

(** [p_expression_array] and [p_expression_array_members]: an array literal
    of names, however many, is the array node of their symbols in the order
    written; a comma before the closing bracket changes nothing; and the
    empty brackets are the array node of no members. *)
Theorem array_of_names : forall E ctx line w ws,
  forallb identifier (w :: ws) = true ->
  Parser.parse_deferred E ctx line ("[" ++ w ++ listed ws ++ "]")
  = Ok (stmt ctx (array_node ctx (symbols ctx (w :: ws))))
  /\ Parser.parse_deferred E ctx line ("[" ++ w ++ listed ws ++ ",]")
     = Ok (stmt ctx (array_node ctx (symbols ctx (w :: ws))))
  /\ Parser.parse_deferred E ctx line "[]" = Ok (stmt ctx (array_node ctx [])).
Proof.
  intros E ctx line w ws Hall. split; [ | split ].
  - apply (array_text E ctx line w ws "]" (closed line) 5 Hall eq_refl).
    + discriminate.
    + intros prev pos. unfold closed.
      eapply yields_token; [ apply (lex_close_bracket E prev "") | apply end_of_text ].
    + intros pos. unfold closed. do 2 eexists. split; [ reflexivity | right; reflexivity ].
    + intros f members pos t rest Hc. unfold closed in Hc. injection Hc as <- <-.
      apply array_close.
    + lia.
  - apply (array_text E ctx line w ws ",]" (comma_closed line) 6 Hall eq_refl).
    + discriminate.
    + intros prev pos. unfold comma_closed.
      eapply yields_token; [ apply (lex_comma E prev "]") | ].
      eapply yields_token; [ apply (lex_close_bracket E _ "") | apply end_of_text ].
    + intros pos. unfold comma_closed. do 2 eexists. split; [ reflexivity | left; reflexivity ].
    + intros f members pos t rest Hc. unfold comma_closed in Hc. injection Hc as <- <-.
      apply array_close_comma.
    + lia.
  - apply empty_array.
Qed.

Lemma array_of_names_witness :
  Parser.parse_deferred sample_externals sample_context 1 "[b, a, c]"
  = Ok (stmt sample_context (array_node sample_context (symbols sample_context ["b"; "a"; "c"]))).
Proof.
  exact (proj1 (array_of_names sample_externals sample_context 1 "b" ["a"; "c"] eq_refl)).
Defined.

(** ** Attribute chains *)

Lemma start_not_digit : forall c,
  in_class start_items c = true -> in_class digit_items c = false.
Proof.
  intros c H. destruct c as [[] [] [] [] [] [] [] []]; try discriminate H; reflexivity.
Qed.

Ltac ahead_name Hp Hc :=
  rewrite Hp; cbn [negb]; cbv iota;
  match goal with
  | |- context [in_class ?items ?c] =>
      change (in_class items c) with (in_class start_items c); rewrite Hc
  end;
  match goal with
  | |- context [star_loop ?m _ ?n ?q ?s ?e] =>
      destruct (star_total m n q s e) as (s' & ->)
  end;
  eexists; (split; [ reflexivity | split; reflexivity ]).

Lemma match_attr : forall E p c r tail,
  is_space p = false ->
  in_class start_items c = true ->
  exists r0,
    Lex.first_match (Lex.lexre E) (Some p) ("." ++ String c r ++ tail)
    = Some (r0, String c r ++ tail)
    /\ Lex.rname r0 = "ATTR" /\ Lex.rfun r0 = None.
Proof.
  intros E p c r tail Hp Hc. cbn [append]. candidates E "."%char.
  eval_match.
  change (in_class [("0"%char, "9"%char)] "."%char) with false. cbv iota.
  change (in_class [("0"%char, "9"%char)] c) with (in_class digit_items c).
  rewrite (start_not_digit c Hc). cbv iota.
  ahead_name Hp Hc.
Qed.

Lemma match_attr_safe : forall E p c r tail,
  is_space p = false ->
  in_class start_items c = true ->
  exists r0,
    Lex.first_match (Lex.lexre E) (Some p) ("&." ++ String c r ++ tail)
    = Some (r0, String c r ++ tail)
    /\ Lex.rname r0 = "ATTR_SAFE" /\ Lex.rfun r0 = None.
Proof.
  intros E p c r tail Hp Hc. cbn [append]. candidates E "&"%char.
  eval_match.
  ahead_name Hp Hc.
Qed.

(** A link of a chain: the safe flag and the name. *)
Definition link : Type := bool * string.

Definition link_text (l : link) : string :=
  (if fst l then "&." else ".") ++ snd l.

Definition link_tokens (line pos : nat) (l : link) : list LexToken :=
  if fst l then [mkTok "ATTR_SAFE" "&." line pos; mkTok "SYMBOL" (snd l) line (pos + 2)]
  else [mkTok "ATTR" "." line pos; mkTok "SYMBOL" (snd l) line (pos + 1)].

(** A word ends in a character that is not a space. *)
Lemma word_last : forall w prev,
  word w = true -> exists p, last_char prev w = Some p /\ is_space p = false.
Proof.
  intros w prev Hw. destruct w as [|c r]; [ discriminate Hw | ].
  cbn [word] in Hw. apply andb_true_iff in Hw. destruct Hw as [Hc Hr].
  apply start_is_rest in Hc. cbn [last_char]. revert c Hc Hr.
  induction r as [|d r IH]; intros c Hc Hr.
  - exists c. split; [ reflexivity | ].
    destruct c as [[] [] [] [] [] [] [] []]; try discriminate Hc; reflexivity.
  - cbn [all_in] in Hr. apply andb_true_iff in Hr. destruct Hr as [Hd Hr].
    cbn [last_char]. apply IH; assumption.
Qed.

Lemma lex_link : forall E l tail p pos line,
  word (snd l) = true ->
  is_space p = false ->
  Parser.lexer_token E (Lex.mkLexer (link_text l ++ tail) (Some p) pos line)
  = Ok (Some (hd (mkTok "" "" 0 0) (link_tokens line pos l)),
        Lex.mkLexer (snd l ++ tail) (Some "."%char)
          (pos + (if fst l then 2 else 1)) line).
Proof.
  intros E [safe w] tail p pos line Hw Hp. cbn [fst snd] in *.
  unfold link_text, link_tokens. cbn [fst snd].
  destruct w as [|c r]; [ discriminate Hw | ].
  cbn [word] in Hw. apply andb_true_iff in Hw. destruct Hw as [Hc Hr].
  unfold Parser.lexer_token. cbn [Lex.lexrest].
  destruct safe; cbn [hd].
  - destruct (match_attr_safe E p c r tail Hp Hc) as (r0 & Hfm & Hn & Hf).
    rewrite app_assoc_str.
    rewrite (token_first E _ "&." (String c r ++ tail) (Some p) pos line r0 eq_refl Hfm).
    cbv zeta. rewrite Hf, Hn. reflexivity.
  - destruct (match_attr E p c r tail Hp Hc) as (r0 & Hfm & Hn & Hf).
    rewrite app_assoc_str.
    rewrite (token_first E _ "." (String c r ++ tail) (Some p) pos line r0 eq_refl Hfm).
    cbv zeta. rewrite Hf, Hn. reflexivity.
Qed.

Fixpoint chain_text (links : list link) : string :=
  match links with
  | [] => ""
  | l :: links' => link_text l ++ chain_text links'
  end.

Fixpoint chain_tokens (line pos : nat) (links : list link) : list LexToken :=
  match links with
  | [] => []
  | l :: links' =>
      (link_tokens line pos l
       ++ chain_tokens line (pos + String.length (link_text l)) links')%list
  end.

Lemma chain_stops : forall links, stops_word (chain_text links) = true.
Proof.
  intros [|[[] w] links]; reflexivity.
Qed.

Lemma chain_yields : forall E line links p pos,
  forallb (fun l => identifier (snd l)) links = true ->
  is_space p = false ->
  yields E (Lex.mkLexer (chain_text links) (Some p) pos line) (chain_tokens line pos links).
Proof.
  intros E line links. induction links as [|l links IH]; intros p pos Hall Hp.
  - apply end_of_text.
  - cbn [forallb] in Hall. apply andb_true_iff in Hall. destruct Hall as [Hl Hall].
    pose proof (identifier_word _ Hl) as Hw.
    cbn [chain_text chain_tokens].
    destruct (word_last (snd l) (Some "."%char) Hw) as (q & Hq & Hsp).
    assert (Htoks : link_tokens line pos l
                    = [hd (mkTok "" "" 0 0) (link_tokens line pos l);
                       mkTok "SYMBOL" (snd l) line (pos + (if fst l then 2 else 1))])
      by (unfold link_tokens; destruct (fst l); reflexivity).
    rewrite Htoks. cbn [app].
    eapply yields_token; [ apply lex_link; assumption | ].
    eapply yields_token.
    + apply lex_identifier; [ exact Hl | apply chain_stops ].
    + rewrite Hq.
      replace (pos + (if fst l then 2 else 1) + String.length (snd l))
        with (pos + String.length (link_text l))
        by (unfold link_text; rewrite length_app; destruct (fst l); cbn [String.length]; lia).
      apply IH; assumption.
Qed.

(** *** The chain as the parser reads it *)

(** What can come after a name of a chain that stands alone: another link,
    or the end of the text. *)
Definition continues (la : option LexToken) : Prop :=
  match la with
  | None => True
  | Some t => ttype t = "ATTR" \/ ttype t = "ATTR_SAFE"
  end.

Definition in_object (E : externals) (ctx : Context) (fuel : nat) (obj : pyval)
    (toks : list LexToken) : outcome pyval :=
  drive E ctx fuel [3; 0] [("object", obj); ("$end", PNone)]
    (Some (fst (peek None toks))) (snd (peek None toks)).

Lemma chain_head : forall line pos links,
  continues (fst (peek None (chain_tokens line pos links))).
Proof.
  intros line pos [|[[] w] links]; cbn; auto.
Qed.

Lemma chain_first : forall E ctx f w l p toks,
  word w = true ->
  continues (fst (peek None toks)) ->
  drive E ctx (2 + f) [0] [("$end", PNone)] None (mkTok "SYMBOL" w l p :: toks)
  = in_object E ctx f (symbol_node ctx w) toks.
Proof.
  intros E ctx f w l p toks Hw Hc.
  pose proof (symbol_of_word ctx w Hw) as Hs.
  unfold in_object. cbn [Nat.add].
  destruct toks as [|[k v l' p'] toks]; cbn [peek fst snd continues ttype] in *.
  - drive_one. drive_one. method_is (Actions.p_expression_symbol ctx). rewrite Hs.
    reflexivity.
  - destruct Hc as [-> | ->];
      (drive_one; drive_one; method_is (Actions.p_expression_symbol ctx); rewrite Hs;
       reflexivity).
Qed.

Lemma chain_next : forall E ctx f obj l line pos toks,
  continues (fst (peek None toks)) ->
  in_object E ctx (3 + f) obj (link_tokens line pos l ++ toks)
  = in_object E ctx f (attribute_node ctx obj (snd l) (fst l)) toks.
Proof.
  intros E ctx f obj [safe w] line pos toks Hc.
  unfold in_object, link_tokens. cbn [fst snd Nat.add].
  destruct safe; cbn [app peek fst snd];
    (destruct toks as [|[k v l' p'] toks]; cbn [peek fst snd continues ttype] in *;
     [ | destruct Hc as [-> | ->] ];
     drive_one; drive_one; drive_one; method_is (Actions.p_expression_getattr ctx);
     reflexivity).
Qed.

Lemma chain_end : forall E ctx f obj,
  in_object E ctx (3 + f) obj [] = Ok (stmt ctx obj).
Proof.
  intros E ctx f obj. unfold in_object. cbn [peek fst snd Nat.add].
  drive_one. method_is Actions.p_expression_object.
  cbn [Actions.p_expression_object Actions.item Nat.sub nth_error bind].
  drive_one. method_is (Actions.p_statement_expr ctx).
  cbn [Actions.p_statement_expr Actions.item Nat.sub nth_error bind].
  drive_one. reflexivity.
Qed.

(** The attribute of an object, link after link. *)
Definition attributes (ctx : Context) (obj : pyval) (links : list link) : pyval :=
  fold_left (fun o l => attribute_node ctx o (snd l) (fst l)) links obj.

Lemma chain_links : forall E ctx line links f obj pos,
  in_object E ctx (3 * length links + (3 + f)) obj (chain_tokens line pos links)
  = Ok (stmt ctx (attributes ctx obj links)).
Proof.
  intros E ctx line links. induction links as [|l links IH]; intros f obj pos.
  - cbn [length Nat.mul Nat.add chain_tokens attributes fold_left]. apply (chain_end E ctx f).
  - cbn [chain_tokens attributes fold_left].
    replace (3 * length (l :: links) + (3 + f))
      with (3 + (3 * length links + (3 + f))) by (cbn [length]; lia).
    rewrite chain_next by apply chain_head.
    apply IH.
Qed.

Lemma chain_length : forall links, length links <= String.length (chain_text links).
Proof.
  induction links as [|l links IH]; [ cbn; lia | ].
  cbn [chain_text length]. rewrite length_app. unfold link_text. rewrite length_app.
  destruct (fst l); cbn [String.length]; lia.
Qed.

(** [p_expression_getattr] with [t_ATTR] and [t_ATTR_SAFE]: a name followed
    by any number of links, each a dot or the safe dot and a name, is the
    attribute of the attribute and so on of the symbol of the first name,
    nested to the left, and each link is safe exactly when it was written
    with the safe dot. *)
Theorem attribute_chains : forall E ctx line w links,
  identifier w = true ->
  forallb (fun l => identifier (snd l)) links = true ->
  Parser.parse_deferred E ctx line (w ++ chain_text links)
  = Ok (stmt ctx (attributes ctx (symbol_node ctx w) links)).
Proof.
  intros E ctx line w links Hw Hall.
  pose proof (identifier_word w Hw) as Hword.
  destruct (word_last w None Hword) as (p & Hp & Hsp).
  set (text := w ++ chain_text links).
  apply plain_deferred_settled; [ | exact I ].
  rewrite (plain_deferred_tokens E ctx line text
             (mkTok "SYMBOL" w line 0 :: chain_tokens line (String.length w) links)).
  2: { unfold text, Lex.lex_input.
       eapply yields_token.
       - apply lex_identifier; [ exact Hw | apply chain_stops ].
       - rewrite Hp. cbn [Nat.add]. apply chain_yields; assumption. }
  unfold Parser.plain_tokens. rewrite tables_built. cbn [bind].
  fold (drive E ctx (Parser.steps text) [0] [("$end", PNone)] None
          (mkTok "SYMBOL" w line 0 :: chain_tokens line (String.length w) links)).
  assert (Hfuel : exists f, Parser.steps text = 2 + (3 * length links + (3 + f))).
  { exists (Parser.steps text - (2 + (3 * length links + 3))).
    pose proof (chain_length links) as Hlen.
    unfold Parser.steps, text. rewrite length_app. unfold link in *. lia. }
  destruct Hfuel as [f ->].
  rewrite chain_first by (try exact Hword; apply chain_head).
  apply chain_links.
Qed.

Lemma attribute_chains_witness :
  Parser.parse_deferred sample_externals sample_context 1 "a.b&.c"
  = Ok (stmt sample_context
          (attribute_node sample_context
             (attribute_node sample_context (symbol_node sample_context "a") "b" false)
             "c" true)).
Proof.
  exact (attribute_chains sample_externals sample_context 1 "a" [(false, "b"); (true, "c")]
           eq_refl eq_refl).
Defined.

(** ** Phase two *)



(** ** Comprehensions *)

Lemma lex_keyword : forall E kw kind tail prev pos line,
  word kw = true ->
  mem_str kw future_keywords = false ->
  assoc kw Lex.reserved_words = Some kind ->
  stops_word tail = true ->
  Parser.lexer_token E (Lex.mkLexer (kw ++ tail) prev pos line)
  = Ok (Some (mkTok kind kw line pos),
        Lex.mkLexer tail (last_char prev kw) (pos + String.length kw) line).
Proof.
  intros E kw kind tail prev pos line Hw Hf Hk Ht.
  destruct (lex_name E kw tail prev pos line Hw Ht) as [H _].
  rewrite Hf in H. unfold kind_of in H. rewrite Hk in H. exact H.
Qed.

Lemma steps_at_least : forall text n,
  n <= 16 * String.length text + 16 -> exists k, Parser.steps text = n + k.
Proof.
  intros text n H. exists (Parser.steps text - n). unfold Parser.steps. lia.
Qed.

(** A step of the driver that calls a method: the method is looked up by
    its name. *)
Ltac drive_call :=
  drive_one;
  try (erewrite call_method by reflexivity).

Definition comprehension_node (ctx : Context) (result : pyval) (variable : string)
    (iterable condition : pyval) : pyval :=
  PDeferred ComprehensionExpression [PCtx ctx; result; PStr variable; iterable]
    [("condition", condition)] "build".

Lemma parse_comprehension : forall E ctx f e v it l1 p1 l2 p2 l3 p3 l4 p4 l5 p5 l6 p6 l7 p7,
  word e = true -> word it = true ->
  drive E ctx (15 + f) [0] [("$end", PNone)] None
    [mkTok "LBRACKET" "[" l1 p1; mkTok "SYMBOL" e l2 p2; mkTok "FOR" "for" l3 p3;
     mkTok "SYMBOL" v l4 p4; mkTok "IN" "in" l5 p5; mkTok "SYMBOL" it l6 p6;
     mkTok "RBRACKET" "]" l7 p7]
  = Ok (stmt ctx (comprehension_node ctx (symbol_node ctx e) v (symbol_node ctx it) PNone)).
Proof.
  intros E ctx f e v it l1 p1 l2 p2 l3 p3 l4 p4 l5 p5 l6 p6 l7 p7 He Hit.
  pose proof (symbol_of_word ctx e He) as Hse.
  pose proof (symbol_of_word ctx it Hit) as Hsi.
  cbn [Nat.add].
  do 2 drive_one. drive_call. rewrite Hse. cbn [bind].
  drive_call. cbn [Actions.p_expression_object Actions.item Nat.sub nth_error bind].
  do 4 drive_one. drive_call. rewrite Hsi. cbn [bind].
  drive_call. cbn [Actions.p_expression_object Actions.item Nat.sub nth_error bind].
  drive_one. drive_call.
  unfold Actions.p_expression_array_comprehension, Actions.len, Actions.item.
  cbn [length Nat.eqb Nat.sub nth_error bind].
  drive_call. cbn [Actions.p_expression_object Actions.item Nat.sub nth_error bind].
  drive_call. cbn [Actions.p_statement_expr Actions.item Nat.sub nth_error bind].
  drive_one. reflexivity.
Qed.

Lemma parse_comprehension_if : forall E ctx f e v it c
    l1 p1 l2 p2 l3 p3 l4 p4 l5 p5 l6 p6 l7 p7 l8 p8 l9 p9,
  word e = true -> word it = true -> word c = true ->
  drive E ctx (19 + f) [0] [("$end", PNone)] None
    [mkTok "LBRACKET" "[" l1 p1; mkTok "SYMBOL" e l2 p2; mkTok "FOR" "for" l3 p3;
     mkTok "SYMBOL" v l4 p4; mkTok "IN" "in" l5 p5; mkTok "SYMBOL" it l6 p6;
     mkTok "IF" "if" l8 p8; mkTok "SYMBOL" c l9 p9; mkTok "RBRACKET" "]" l7 p7]
  = Ok (stmt ctx (comprehension_node ctx (symbol_node ctx e) v (symbol_node ctx it)
                    (symbol_node ctx c))).
Proof.
  intros E ctx f e v it c l1 p1 l2 p2 l3 p3 l4 p4 l5 p5 l6 p6 l7 p7 l8 p8 l9 p9 He Hit Hc.
  pose proof (symbol_of_word ctx e He) as Hse.
  pose proof (symbol_of_word ctx it Hit) as Hsi.
  pose proof (symbol_of_word ctx c Hc) as Hsc.
  cbn [Nat.add].
  do 2 drive_one. drive_call. rewrite Hse. cbn [bind].
  drive_call. cbn [Actions.p_expression_object Actions.item Nat.sub nth_error bind].
  do 4 drive_one. drive_call. rewrite Hsi. cbn [bind].
  drive_call. cbn [Actions.p_expression_object Actions.item Nat.sub nth_error bind].
  do 2 drive_one. drive_call. rewrite Hsc. cbn [bind].
  drive_call. cbn [Actions.p_expression_object Actions.item Nat.sub nth_error bind].
  drive_one. drive_call.
  unfold Actions.p_expression_array_comprehension, Actions.len, Actions.item.
  cbn [length Nat.eqb Nat.sub nth_error bind].
  drive_call. cbn [Actions.p_expression_object Actions.item Nat.sub nth_error bind].
  drive_call. cbn [Actions.p_statement_expr Actions.item Nat.sub nth_error bind].
  drive_one. reflexivity.
Qed.

(** The lexer, token by token, on a text put together from brackets, names
    and key words. *)
Ltac lex_at E :=
  lazymatch goal with
  | |- Parser.lexer_token E (Lex.mkLexer (String "[" ?t) ?p ?n ?l) = _ =>
      exact (lex_bracket E _ p t n l)
  | |- Parser.lexer_token E (Lex.mkLexer (String "]" ?t) ?p ?n ?l) = _ =>
      exact (lex_close_bracket E p t n l)
  | |- Parser.lexer_token E (Lex.mkLexer (String "," ?t) ?p ?n ?l) = _ =>
      exact (lex_comma E p t n l)
  | |- Parser.lexer_token E
         (Lex.mkLexer (String "f" (String "o" (String "r" (String " " ?t)))) ?p ?n ?l) = _ =>
      exact (lex_keyword E "for" "FOR" (String " " t) p n l eq_refl eq_refl eq_refl eq_refl)
  | |- Parser.lexer_token E
         (Lex.mkLexer (String "i" (String "n" (String " " ?t))) ?p ?n ?l) = _ =>
      exact (lex_keyword E "in" "IN" (String " " t) p n l eq_refl eq_refl eq_refl eq_refl)
  | |- Parser.lexer_token E
         (Lex.mkLexer (String "i" (String "f" (String " " ?t))) ?p ?n ?l) = _ =>
      exact (lex_keyword E "if" "IF" (String " " t) p n l eq_refl eq_refl eq_refl eq_refl)
  | H : identifier ?w = true
    |- Parser.lexer_token E (Lex.mkLexer (?w ++ ?t) ?p ?n ?l) = _ =>
      exact (lex_identifier E w t p n l H eq_refl)
  end.

Ltac lex_one E :=
  eapply yields_token; [ cbn [append]; rewrite ?lexer_skip_space; lex_at E | ].

Lemma parse_tokens_drive : forall E ctx fuel toks,
  Parser.plain_tokens E ctx fuel toks = drive E ctx fuel [0] [("$end", PNone)] None toks.
Proof. intros. unfold Parser.plain_tokens. rewrite tables_built. reflexivity. Qed.

(** [p_expression_array_comprehension]: a comprehension over names is the
    node of the result, the name of the variable as a plain string (not a
    symbol node), the iterable, and the condition, which is [None] when no
    [if] is written. *)
Theorem comprehension_of_names : forall E ctx line e v it c,
  identifier e = true -> identifier v = true -> identifier it = true ->
  identifier c = true ->
  Parser.parse_deferred E ctx line ("[" ++ e ++ " for " ++ v ++ " in " ++ it ++ "]")
  = Ok (stmt ctx (comprehension_node ctx (symbol_node ctx e) v (symbol_node ctx it) PNone))
  /\ Parser.parse_deferred E ctx line
       ("[" ++ e ++ " for " ++ v ++ " in " ++ it ++ " if " ++ c ++ "]")
     = Ok (stmt ctx (comprehension_node ctx (symbol_node ctx e) v (symbol_node ctx it)
                       (symbol_node ctx c))).
Proof.
  intros E ctx line e v it c He Hv Hit Hc.
  pose proof (identifier_word e He) as Hwe.
  pose proof (identifier_word it Hit) as Hwi.
  pose proof (identifier_word c Hc) as Hwc.
  split.
  - apply plain_deferred_settled; [ | exact I ].
    erewrite plain_deferred_tokens
      by (unfold Lex.lex_input; do 7 lex_one E; apply end_of_text).
    rewrite parse_tokens_drive.
    match goal with
    | |- drive _ _ (Parser.steps ?t) _ _ _ _ = _ =>
        destruct (steps_at_least t 15) as [k ->];
        [ cbn [append String.length]; lia | ]
    end.
    apply parse_comprehension; assumption.
  - apply plain_deferred_settled; [ | exact I ].
    erewrite plain_deferred_tokens
      by (unfold Lex.lex_input; do 9 lex_one E; apply end_of_text).
    rewrite parse_tokens_drive.
    match goal with
    | |- drive _ _ (Parser.steps ?t) _ _ _ _ = _ =>
        destruct (steps_at_least t 19) as [k ->];
        [ cbn [append String.length]; lia | ]
    end.
    apply parse_comprehension_if; assumption.
Qed.

Lemma comprehension_of_names_witness :
  Parser.parse_deferred sample_externals sample_context 1 "[x for x in xs if ok]"
  = Ok (stmt sample_context
          (comprehension_node sample_context (symbol_node sample_context "x") "x"
             (symbol_node sample_context "xs") (symbol_node sample_context "ok"))).
Proof.
  exact (proj2 (comprehension_of_names sample_externals sample_context 1 "x" "x" "xs" "ok"
                  eq_refl eq_refl eq_refl eq_refl)).
Defined.
